(** * DA3D: a shallow embedding of the processing core (src/DA3D.cpp)

    The file follows the source function by function.  Machine integers
    are [Z] with the 32-bit wrap-around written out; images are flat
    buffers indexed as the source indexes them; the scalar arithmetic of
    the pipeline is a parameter ([Arith]) with two interpretations: IEEE
    binary32/binary64 ([F32]) and exact real arithmetic ([Exact]). *)

From Stdlib Require Import ZArith QArith Qabs List Lia Bool Reals Lra Psatz.
From Stdlib Require Import Floats.SpecFloat FunctionalExtensionality.
Import ListNotations.

Close Scope Q_scope.
Close Scope R_scope.

Local Open Scope Z_scope.

(** * Part I: the model *)

(** ** The C++ [int]: 32-bit two's complement *)

Definition INT_MIN : Z := -2147483648.
Definition INT_MAX : Z := 2147483647.

Definition in_int (z : Z) : Prop := INT_MIN <= z <= INT_MAX.

Definition wrap (z : Z) : Z := (z + 2147483648) mod 4294967296 - 2147483648.

Definition int_add (a b : Z) : Z := wrap (a + b).
Definition int_sub (a b : Z) : Z := wrap (a - b).
Definition int_mul (a b : Z) : Z := wrap (a * b).
Definition int_neg (a : Z) : Z := wrap (- a).
(** [/] and [%] of C++ truncate towards zero. *)
Definition int_div (a b : Z) : Z := wrap (Z.quot a b).
Definition int_rem (a b : Z) : Z := wrap (Z.rem a b).

(** [for (int i = 0; i < n; ++i) body] as a fold over [0, n). *)
Definition for_loop {S : Type} (n : Z) (body : Z -> S -> S) (s : S) : S :=
  fold_left (fun s i => body (Z.of_nat i) s) (seq 0 (Z.to_nat n)) s.

(** ** SymmetricCoordinate (DA3D.cpp, lines 60-65) *)

Definition SymmetricCoordinate (pos size : Z) : Z :=
  let pos := if pos <? 0 then int_sub (int_neg pos) 1 else pos in
  let pos := if pos >=? int_mul 2 size then int_rem pos (int_mul 2 size) else pos in
  let pos := if pos >=? size then int_sub (int_sub (int_mul 2 size) 1) pos else pos in
  pos.

(** The fold of the doubled range onto [0, size): the mathematical
    function that [SymmetricCoordinate] computes when nothing overflows. *)
Definition fold_sym (size p : Z) : Z :=
  let q := p mod (2 * size) in
  if q <? size then q else 2 * size - 1 - q.

(** The reflection of the doubled range [0, 2 size) about its middle. *)
Definition reflect (size p : Z) : Z := 2 * size - 1 - p.

(** Sizes whose double still fits an [int]. *)
Definition size_ok (size : Z) : Prop := 0 < size <= 1073741823.

(** ** Image buffer (Image.hpp, not part of the sources) *)

(** Modelled from the spec: Image, a dense buffer in which element
    (col, row, ch) lives at linear index ((row * W) + col) * C + ch.  An
    access outside the buffer is undefined in C++: here a read returns
    [dflt] and a write does nothing. *)
Record Image (A : Type) : Type := mkImage {
  rows : Z;
  columns : Z;
  channels : Z;
  data : list A
}.

Arguments mkImage {A} _ _ _ _.
Arguments rows {A} _.
Arguments columns {A} _.
Arguments channels {A} _.
Arguments data {A} _.

Section ImageOps.
  Context {A : Type} (dflt : A).

Definition get_lin (l : list A) (i : Z) : A :=
  if i <? 0 then dflt else nth (Z.to_nat i) l dflt.

Definition set_lin (l : list A) (i : Z) (v : A) : list A :=
  if (0 <=? i) && (i <? Z.of_nat (length l))
  then firstn (Z.to_nat i) l ++ v :: skipn (S (Z.to_nat i)) l
  else l.

Definition index (img : Image A) (col row chan : Z) : Z :=
  (row * columns img + col) * channels img + chan.

(** [img.val(col, row, chan)] read and written. *)
Definition val (img : Image A) (col row chan : Z) : A :=
  get_lin (data img) (index img col row chan).

Definition set_val (img : Image A) (col row chan : Z) (v : A) : Image A :=
  mkImage (rows img) (columns img) (channels img)
          (set_lin (data img) (index img col row chan) v).

(** [img.val(i)]: the linear accessor. *)
Definition val1 (img : Image A) (i : Z) : A := get_lin (data img) i.

Definition set_val1 (img : Image A) (i : Z) (v : A) : Image A :=
  mkImage (rows img) (columns img) (channels img) (set_lin (data img) i v).

(** [Image(rows, columns, channels)]: a buffer filled with [dflt]. *)
Definition Image_new (r c ch : Z) : Image A :=
  mkImage r c ch (repeat dflt (Z.to_nat (r * c * ch))).

(** The buffer has the size its shape announces. *)
Definition wf_image (img : Image A) : Prop :=
  0 <= rows img /\ 0 <= columns img /\ 0 <= channels img /\
  Z.of_nat (length (data img)) = rows img * columns img * channels img.

(** *** ExtractPatch (DA3D.cpp, lines 144-153) *)

Definition ExtractPatch (src : Image A) (pr pc : Z) (dst : Image A) : Image A :=
  for_loop (rows dst) (fun row dst =>
    for_loop (columns dst) (fun col dst =>
      for_loop (channels dst) (fun chan dst =>
        set_val dst col row chan
                (val src (int_add pc col) (int_add pr row) chan))
      dst)
    dst)
  dst.

(** *** FastExtractPatch (DA3D.cpp, lines 155-164) *)

Definition FastExtractPatch (src : Image A) (pr pc : Z) (dst : Image A) : Image A :=
  let j0 := int_mul (int_add (int_mul pr (columns src)) pc) (channels src) in
  let '(dst', _, _) :=
    for_loop (rows dst) (fun row '(d, i, j) =>
      let '(d', i', j') :=
        for_loop (int_mul (columns dst) (channels dst)) (fun el '(d, i, j) =>
          (set_val1 d i (val1 src j), int_add i 1, int_add j 1))
        (d, i, j) in
      (d', i', int_add j' (int_mul (int_sub (columns src) (columns dst))
                                   (channels src))))
    (dst, 0, j0) in
  dst'.

End ImageOps.

(** ** Scalar arithmetic

    [F] is the C++ [float], [D] the [double] that [std::sqrt] of an
    integer argument yields and in which mixed expressions are evaluated.
    [f_trunc] is the integer part of a value (None when it has none). *)

Class Arith : Type := {
  F : Type;
  D : Type;
  f_of_int : Z -> F;
  fadd : F -> F -> F;
  fsub : F -> F -> F;
  fmul : F -> F -> F;
  fdiv : F -> F -> F;
  fopp : F -> F;
  fsqrt : F -> F;
  feqb : F -> F -> bool;
  fltb : F -> F -> bool;
  f_trunc : F -> option Z;
  widen : F -> D;
  narrow : D -> F;
  d_of_int : Z -> D;
  dadd : D -> D -> D;
  dsub : D -> D -> D;
  dmul : D -> D -> D;
  ddiv : D -> D -> D;
  dsqrt : D -> D
}.

Declare Scope flt_scope.
Delimit Scope flt_scope with flt.
Infix "+!" := fadd (at level 50, left associativity) : flt_scope.
Infix "-!" := fsub (at level 50, left associativity) : flt_scope.
Infix "*!" := fmul (at level 40, left associativity) : flt_scope.
Infix "/!" := fdiv (at level 40, left associativity) : flt_scope.
Infix "+!!" := dadd (at level 50, left associativity) : flt_scope.
Infix "-!!" := dsub (at level 50, left associativity) : flt_scope.
Infix "*!!" := dmul (at level 40, left associativity) : flt_scope.
Infix "/!!" := ddiv (at level 40, left associativity) : flt_scope.

(** *** IEEE 754 binary32 and binary64 *)

Module F32.

Definition prec32 : Z := 24.
Definition emax32 : Z := 128.
Definition prec64 : Z := 53.
Definition emax64 : Z := 1024.

Definition of_int32 (z : Z) : spec_float := binary_normalize prec32 emax32 z 0 false.
Definition of_int64 (z : Z) : spec_float := binary_normalize prec64 emax64 z 0 false.

(** float -> double is exact; double -> float rounds to nearest even. *)
Definition to_double (x : spec_float) : spec_float :=
  match x with
  | S754_finite s m e => binary_round prec64 emax64 s m e
  | _ => x
  end.

Definition to_float (x : spec_float) : spec_float :=
  match x with
  | S754_finite s m e => binary_round prec32 emax32 s m e
  | _ => x
  end.

(** The integer part, towards zero. *)
Definition trunc (x : spec_float) : option Z :=
  match x with
  | S754_zero _ => Some 0
  | S754_finite s m e =>
      let a := if 0 <=? e then Zpos m * 2 ^ e else Zpos m / 2 ^ (- e) in
      Some (if s then - a else a)
  | _ => None
  end.

#[export] Instance arith : Arith := {|
  F := spec_float;
  D := spec_float;
  f_of_int := of_int32;
  fadd := SFadd prec32 emax32;
  fsub := SFsub prec32 emax32;
  fmul := SFmul prec32 emax32;
  fdiv := SFdiv prec32 emax32;
  fopp := SFopp;
  fsqrt := SFsqrt prec32 emax32;
  feqb := SFeqb;
  fltb := SFltb;
  f_trunc := trunc;
  widen := to_double;
  narrow := to_float;
  d_of_int := of_int64;
  dadd := SFadd prec64 emax64;
  dsub := SFsub prec64 emax64;
  dmul := SFmul prec64 emax64;
  ddiv := SFdiv prec64 emax64;
  dsqrt := SFsqrt prec64 emax64
|}.

Definition is_nan (x : spec_float) : bool :=
  match x with S754_nan => true | _ => false end.

Definition is_finite (x : spec_float) : bool :=
  match x with S754_zero _ | S754_finite _ _ _ => true | _ => false end.

Definition is_zero (x : spec_float) : bool :=
  match x with S754_zero _ => true | _ => false end.

End F32.

(** *** Exact real arithmetic *)

Module Exact.

Local Open Scope R_scope.

Definition Reqb (x y : R) : bool := if Req_dec_T x y then true else false.
Definition Rltb (x y : R) : bool := if Rlt_dec x y then true else false.

(** The integer part, towards zero. *)
Definition trunc (x : R) : option Z :=
  Some (if Rle_dec 0 x then Int_part x else (- Int_part (- x))%Z).

#[export] Instance arith : Arith := {|
  F := R;
  D := R;
  f_of_int := IZR;
  fadd := Rplus;
  fsub := Rminus;
  fmul := Rmult;
  fdiv := Rdiv;
  fopp := Ropp;
  fsqrt := sqrt;
  feqb := Reqb;
  fltb := Rltb;
  f_trunc := trunc;
  widen := fun x => x;
  narrow := fun x => x;
  d_of_int := IZR;
  dadd := Rplus;
  dsub := Rminus;
  dmul := Rmult;
  ddiv := Rdiv;
  dsqrt := sqrt
|}.

End Exact.

(** ** The pipeline, over any scalar arithmetic *)

Definition fzero {Ar : Arith} : F := f_of_int 0.

Abbreviation fval := (val fzero).
Abbreviation fset := (set_val (A := F)).

Section Pipeline.
  Context {Ar : Arith}.
  Local Open Scope flt_scope.

(** [static_cast<int>(x)]: the integer part when it fits an [int].  The
    conversion of any other value is undefined in C++; it yields INT_MIN
    here, as the x86 conversion instruction does. *)
Definition static_cast_int (x : F) : Z :=
  match f_trunc x with
  | Some t => if (INT_MIN <=? t) && (t <=? INT_MAX) then t else INT_MIN
  | None => INT_MIN
  end.

(** *** ColorTransform (DA3D.cpp, lines 24-40) *)

Definition ColorTransform (src : Image F) : Image F :=
  let img := src in
  if channels img =? 3 then
    for_loop (rows img) (fun row img =>
      for_loop (columns img) (fun col img =>
        let r := fval img col row 0 in
        let g := fval img col row 1 in
        let b := fval img col row 2 in
        let img := fset img col row 0
          (narrow (widen (r +! g +! b) /!! dsqrt (d_of_int 3))) in
        let img := fset img col row 1
          (narrow (widen (r -! b) /!! dsqrt (d_of_int 2))) in
        fset img col row 2
          (narrow (widen (r -! f_of_int 2 *! g +! b) /!! dsqrt (d_of_int 6))))
      img)
    img
  else img.

(** *** ColorTransformInverse (DA3D.cpp, lines 42-58) *)

Definition ColorTransformInverse (src : Image F) : Image F :=
  let img := src in
  if channels img =? 3 then
    for_loop (rows img) (fun row img =>
      for_loop (columns img) (fun col img =>
        let y := fval img col row 0 in
        let u := fval img col row 1 in
        let v := fval img col row 2 in
        let img := fset img col row 0
          (narrow ((dsqrt (d_of_int 2) *!! widen y +!! dsqrt (d_of_int 3) *!! widen u
                    +!! widen v) /!! dsqrt (d_of_int 6))) in
        let img := fset img col row 1
          (narrow ((widen y -!! dsqrt (d_of_int 2) *!! widen v) /!! dsqrt (d_of_int 3))) in
        fset img col row 2
          (narrow ((dsqrt (d_of_int 2) *!! widen y -!! dsqrt (d_of_int 3) *!! widen u
                    +!! widen v) /!! dsqrt (d_of_int 6))))
      img)
    img
  else img.

(** *** ComputeTiling (DA3D.cpp, lines 67-80) *)

(** [while (tiles % r_low != 0) --r_low;] *)
Fixpoint search_down (fuel : nat) (tiles r_low : Z) : option Z :=
  if negb (int_rem tiles r_low =? 0) then
    match fuel with
    | O => None
    | S fuel' => search_down fuel' tiles (int_sub r_low 1)
    end
  else Some r_low.

(** [while (tiles % r_up != 0) ++r_up;] *)
Fixpoint search_up (fuel : nat) (tiles r_up : Z) : option Z :=
  if negb (int_rem tiles r_up =? 0) then
    match fuel with
    | O => None
    | S fuel' => search_up fuel' tiles (int_add r_up 1)
    end
  else Some r_up.

(** The value of [best_r] and of the first [r_low]. *)
Definition best_r (rows columns tiles : Z) : F :=
  fsqrt (f_of_int (int_mul tiles rows) /! f_of_int columns).

Definition r_low0 (rows columns tiles : Z) : Z :=
  static_cast_int (best_r rows columns tiles).

(** The two loops run at most [r_low] and [tiles - r_up] times: this much
    fuel is given, and [None] would mean that a loop ran longer. *)
Definition ComputeTiling (rows columns tiles : Z) : option (Z * Z) :=
  let r_low := r_low0 rows columns tiles in
  let r_up := int_add r_low 1 in
  if r_low <? 1 then Some (1, tiles)
  else if r_up >? tiles then Some (tiles, 1)
  else
    match search_down (Z.to_nat r_low) tiles r_low,
          search_up (Z.to_nat (tiles - r_up)) tiles r_up with
    | Some r_low, Some r_up =>
        if int_mul (int_mul r_up r_low) columns >? int_mul tiles rows
        then Some (r_low, int_div tiles r_low)
        else Some (r_up, int_div tiles r_up)
    | _, _ => None
    end.

(** *** BilateralWeight (DA3D.cpp, lines 166-183)

    [fastexp] lives in Utils.hpp, which is not part of the sources: it is
    a parameter of everything that calls it. *)

Variable fastexp : F -> F.

(** The value of [x] when [fastexp(-x)] is called for pixel (col, row). *)
Definition bilateral_x (g : Image F) (r : Z) (gamma_r_sigma2 sigma_s2 : F)
    (col row : Z) : F :=
  let x := for_loop (channels g) (fun chan x =>
             let y := fval g col row chan -! fval g r r chan in
             x +! y *! y) fzero in
  let x := x /! gamma_r_sigma2 in
  x +! f_of_int (int_add (int_mul (int_sub row r) (int_sub row r))
                         (int_mul (int_sub col r) (int_sub col r)))
       /! (f_of_int 2 *! sigma_s2).

Definition BilateralWeight (g k : Image F) (r : Z)
    (gamma_r_sigma2 sigma_s2 : F) : Image F :=
  for_loop (rows g) (fun row k =>
    for_loop (columns g) (fun col k =>
      let x := bilateral_x g r gamma_r_sigma2 sigma_s2 col row in
      fset k col row 0 (fastexp (fopp x)))
    k)
  k.

(** *** ComputeRegressionPlane (DA3D.cpp, lines 185-222)

    [reg_plane] is the caller's array of (a_row, a_col) pairs, one per
    channel. *)

Definition abc_sums (y k : Image F) (r : Z) : F * F * F :=
  for_loop (rows y) (fun row abc =>
    for_loop (columns y) (fun col '(a, b, c) =>
      (a +! f_of_int (int_mul (int_sub row r) (int_sub row r)) *! fval k col row 0,
       b +! f_of_int (int_mul (int_sub row r) (int_sub col r)) *! fval k col row 0,
       c +! f_of_int (int_mul (int_sub col r) (int_sub col r)) *! fval k col row 0))
    abc)
  (fzero, fzero, fzero).

Definition de_sums (y k : Image F) (r : Z) (chan : Z) (central : F) : F * F :=
  for_loop (rows y) (fun row de =>
    for_loop (columns y) (fun col '(d, e) =>
      (d +! f_of_int (int_sub row r) *! (fval y col row chan -! central)
            *! fval k col row 0,
       e +! f_of_int (int_sub col r) *! (fval y col row chan -! central)
            *! fval k col row 0))
    de)
  (fzero, fzero).

Definition ComputeRegressionPlane (y g k : Image F) (r : Z)
    (reg_plane : list (F * F)) : list (F * F) :=
  let '(a, b, c) := abc_sums y k r in
  let det := a *! c -! b *! b in
  if feqb det (f_of_int 0) then
    for_loop (channels y) (fun chan reg_plane =>
      set_lin reg_plane chan (fzero, fzero))
    reg_plane
  else
    for_loop (channels y) (fun chan reg_plane =>
      let central := fval g r r chan in
      let '(d, e) := de_sums y k r chan central in
      set_lin reg_plane chan
              ((c *! d -! b *! e) /! det, (a *! e -! b *! d) /! det))
    reg_plane.

Definition plane_at (reg_plane : list (F * F)) (chan : Z) : F * F :=
  get_lin (fzero, fzero) reg_plane chan.

(** *** SubtractPlane and AddPlane (DA3D.cpp, lines 224-244) *)

Definition SubtractPlane (r : Z) (reg_plane : list (F * F)) (y : Image F) : Image F :=
  for_loop (rows y) (fun row y =>
    for_loop (columns y) (fun col y =>
      for_loop (channels y) (fun chan y =>
        fset y col row chan
          (fval y col row chan -!
           (fst (plane_at reg_plane chan) *! f_of_int (int_sub row r)
            +! snd (plane_at reg_plane chan) *! f_of_int (int_sub col r))))
      y)
    y)
  y.

Definition AddPlane (r : Z) (reg_plane : list (F * F)) (y : Image F) : Image F :=
  for_loop (rows y) (fun row y =>
    for_loop (columns y) (fun col y =>
      for_loop (channels y) (fun chan y =>
        fset y col row chan
          (fval y col row chan +!
           (fst (plane_at reg_plane chan) *! f_of_int (int_sub row r)
            +! snd (plane_at reg_plane chan) *! f_of_int (int_sub col r))))
      y)
    y)
  y.

(** *** DftPatch (DftPatch.hpp, not part of the sources) *)

(** Modelled from the spec: the complex plane of one channel and the
    buffer of a DftPatch, addressed by (col, row) and (col, row, chan);
    the layout is left open, so a buffer is a map from coordinates to
    (re, im) pairs. *)
Definition cplane : Type := Z -> Z -> F * F.
Definition cbuf : Type := Z -> Z -> Z -> F * F.

(** Modelled from the spec: DftPatch, a square complex buffer per
    channel.  The space-domain and the frequency-domain view share the
    one buffer: a transform rewrites it, and what either view reads is
    what the last transform or write left there. *)
Record DftPatch : Type := mkDftPatch {
  dp_rows : Z;
  dp_columns : Z;
  dp_channels : Z;
  dp_data : cbuf
}.

(** Modelled from the spec: the two views of a DftPatch, both on the
    shared buffer. *)
Definition space (p : DftPatch) : cbuf := dp_data p.
Definition freq (p : DftPatch) : cbuf := dp_data p.

(** Modelled from the spec: mutable access to one complex entry of the
    space and of the frequency view. *)
Definition cbuf_set (b : cbuf) (col row chan : Z) (v : F * F) : cbuf :=
  fun c r ch =>
    if (c =? col) && (r =? row) && (ch =? chan) then v else b c r ch.

Definition set_space (p : DftPatch) (col row chan : Z) (v : F * F) : DftPatch :=
  mkDftPatch (dp_rows p) (dp_columns p) (dp_channels p)
             (cbuf_set (space p) col row chan v).

Definition set_freq (p : DftPatch) (col row chan : Z) (v : F * F) : DftPatch :=
  mkDftPatch (dp_rows p) (dp_columns p) (dp_channels p)
             (cbuf_set (freq p) col row chan v).

(** Modelled from the spec: the constructor of DftPatch, a zero buffer. *)
Definition DftPatch_new (r c ch : Z) : DftPatch :=
  mkDftPatch r c ch (fun _ _ _ => (fzero, fzero)).

(** The forward and inverse 2-D transforms of one channel are parameters
    of everything that calls them. *)
Variable dft_forward : Z -> Z -> cplane -> cplane.
Variable dft_inverse : Z -> Z -> cplane -> cplane.

(** Modelled from the spec: the transforms of a DftPatch, each channel
    of the buffer replaced by its transform. *)
Definition ToFreq (p : DftPatch) : DftPatch :=
  mkDftPatch (dp_rows p) (dp_columns p) (dp_channels p)
    (fun col row chan =>
       dft_forward (dp_rows p) (dp_columns p) (fun c r => space p c r chan) col row).

Definition ToSpace (p : DftPatch) : DftPatch :=
  mkDftPatch (dp_rows p) (dp_columns p) (dp_channels p)
    (fun col row chan =>
       dft_inverse (dp_rows p) (dp_columns p) (fun c r => freq p c r chan) col row).

(** *** ModifyPatch (DA3D.cpp, lines 246-278) *)

Definition mask_weight (k : Image F) : F :=
  for_loop (rows k) (fun row weight =>
    for_loop (columns k) (fun col weight => weight +! fval k col row 0) weight)
  fzero.

Definition weighted_avg (patch k : Image F) (chan : Z) (weight : F) : F :=
  let avg := for_loop (rows patch) (fun row avg =>
               for_loop (columns patch) (fun col avg =>
                 avg +! fval k col row 0 *! fval patch col row chan) avg)
             fzero in
  avg /! weight.

Definition ModifyPatch (patch k : Image F) (modified : DftPatch)
    (average : option (list F)) : DftPatch * option (list F) :=
  let weight := mask_weight k in
  for_loop (channels patch) (fun chan '(modified, average) =>
    let avg := weighted_avg patch k chan weight in
    let modified :=
      for_loop (rows patch) (fun row modified =>
        for_loop (columns patch) (fun col modified =>
          let modified := set_space modified col row chan
            (fval k col row 0 *! fval patch col row chan
               +! (f_of_int 1 -! fval k col row 0) *! avg,
             snd (space modified col row chan)) in
          set_space modified col row chan
            (fst (space modified col row chan), fzero))
        modified)
      modified in
    (modified,
     match average with
     | Some average => Some (set_lin average chan avg)
     | None => None
     end))
  (modified, average).

(** *** WeightMap (WeightMap.hpp, not part of the sources) *)

(** Modelled from the spec: WeightMap, a 2-D grid of floats with a
    cached (minimum value, coordinate) pair and a pending flag. *)
Record WeightMap : Type := mkWeightMap {
  wm_grid : Image F;
  wm_min : F;
  wm_row : Z;
  wm_col : Z;
  wm_pending : bool
}.

(** Modelled from the spec: the constructor of WeightMap, a grid
    initialised to zero; the first query scans it. *)
Definition WeightMap_new (r c : Z) : WeightMap :=
  mkWeightMap (Image_new fzero r c 1) fzero 0 0 true.

(** Modelled from the spec: the full row-major scan of WeightMap for the
    least value, ties going to the first cell met. *)
Definition wm_scan (grid : Image F) : F * Z * Z :=
  for_loop (rows grid) (fun row acc =>
    for_loop (columns grid) (fun col '(m, mr, mc) =>
      if fltb (fval grid col row 0) m
      then (fval grid col row 0, row, col)
      else (m, mr, mc))
    acc)
  (fval grid 0 0 0, 0, 0).

(** Modelled from the spec: a pending flag of WeightMap forces a scan
    before the next query. *)
Definition wm_refresh (w : WeightMap) : WeightMap :=
  if wm_pending w then
    let '(m, r, c) := wm_scan (wm_grid w) in
    mkWeightMap (wm_grid w) m r c false
  else w.

(** Modelled from the spec: [WeightMap::Minimum], the least value. *)
Definition Minimum (w : WeightMap) : F * WeightMap :=
  let w := wm_refresh w in (wm_min w, w).

(** Modelled from the spec: [WeightMap::FindMinimum], the coordinate of
    the least value. *)
Definition FindMinimum (w : WeightMap) : Z * Z * WeightMap :=
  let w := wm_refresh w in (wm_row w, wm_col w, w).

(** Modelled from the spec: [WeightMap::IncreaseWeights] adds
    k(dcol, drow) to every cell (row0 + drow, col0 + dcol) inside the
    grid and sets the flag when it touches the cached coordinate. *)
Definition IncreaseWeights (w : WeightMap) (k : Image F) (row0 col0 : Z) : WeightMap :=
  for_loop (rows k) (fun drow w =>
    for_loop (columns k) (fun dcol w =>
      let row := int_add row0 drow in
      let col := int_add col0 dcol in
      if (0 <=? row) && (row <? rows (wm_grid w))
         && (0 <=? col) && (col <? columns (wm_grid w))
      then mkWeightMap
             (fset (wm_grid w) col row 0
                   (fval (wm_grid w) col row 0 +! fval k dcol drow 0))
             (wm_min w) (wm_row w) (wm_col w)
             (wm_pending w || ((row =? wm_row w) && (col =? wm_col w)))
      else w)
    w)
  w.

(** *** DA3D_block (DA3D.cpp, lines 280-362) *)

(** Modelled from the spec: [utils::NextPowerOf2] (Utils.hpp), the
    smallest power of two that is at least [n]. *)
Definition NextPowerOf2 (n : Z) : Z := 2 ^ Z.log2_up n.

(** Lines 322-328. *)
Definition sigma_f2_of (k : Image F) (sigma2 : F) : F :=
  let sigma_f2 :=
    for_loop (rows k) (fun row sigma_f2 =>
      for_loop (columns k) (fun col sigma_f2 =>
        sigma_f2 +! fval k col row 0 *! fval k col row 0)
      sigma_f2)
    fzero in
  sigma_f2 *! sigma2.

(** The squared magnitude of a guide bin, and the argument handed to
    [fastexp] for it (lines 333-335). *)
Definition G2_of (g_m : DftPatch) (col row chan : Z) : F :=
  fst (freq g_m col row chan) *! fst (freq g_m col row chan)
  +! snd (freq g_m col row chan) *! snd (freq g_m col row chan).

Definition shrink_arg (gamma_f sigma_f2 : F) (g_m : DftPatch) (col row chan : Z) : F :=
  fopp gamma_f *! sigma_f2 /! G2_of g_m col row chan.

(** Lines 329-341: the shrinkage loop. *)
Definition shrink (gamma_f sigma_f2 : F) (g_m y_m : DftPatch) : DftPatch :=
  for_loop (dp_rows y_m) (fun row y_m =>
    for_loop (dp_columns y_m) (fun col y_m =>
      for_loop (dp_channels y_m) (fun chan y_m =>
        if negb (row =? 0) || negb (col =? 0) then
          let K := fastexp (shrink_arg gamma_f sigma_f2 g_m col row chan) in
          let y_m := set_freq y_m col row chan
                       (fst (freq y_m col row chan) *! K,
                        snd (freq y_m col row chan)) in
          set_freq y_m col row chan
                   (fst (freq y_m col row chan),
                    snd (freq y_m col row chan) *! K)
        else y_m)
      y_m)
    y_m)
  y_m.

(** Lines 346-357: aggregation into [output] and [weights]; [k] is
    squared in place on the way. *)
Definition aggregate (s r pr pc : Z) (y_m : DftPatch)
    (reg_plane : list (F * F)) (yt : list F)
    (owk : Image F * Image F * Image F) : Image F * Image F * Image F :=
  for_loop s (fun row owk =>
    for_loop s (fun col '(output, weights, k) =>
      let output :=
        for_loop (channels output) (fun chan output =>
          fset output (int_add col pc) (int_add row pr) chan
            (fval output (int_add col pc) (int_add row pr) chan +!
             (fst (space y_m col row chan)
              +! (fst (plane_at reg_plane chan) *! f_of_int (int_sub row r)
                  +! snd (plane_at reg_plane chan) *! f_of_int (int_sub col r))
                 *! fval k col row 0
              -! (f_of_int 1 -! fval k col row 0) *! get_lin fzero yt chan)
             *! fval k col row 0))
        output in
      let k := fset k col row 0 (fval k col row 0 *! fval k col row 0) in
      let weights :=
        fset weights (int_add col pc) (int_add row pr) 0
             (fval weights (int_add col pc) (int_add row pr) 0 +! fval k col row 0) in
      (output, weights, k))
    owk)
  owk.

(** The variables of [DA3D_block] that live across iterations. *)
Record BlockState : Type := mkBlockState {
  agg_weights : WeightMap;
  output : Image F;
  weights : Image F;
  y : Image F;
  g : Image F;
  k_reg : Image F;
  k : Image F;
  y_m : DftPatch;
  g_m : DftPatch;
  reg_plane : list (F * F);
  yt : list F
}.

(** The parameters and the "useful values" of lines 284-291. *)
Record BlockParams : Type := mkBlockParams {
  p_r : Z;
  p_s : Z;
  p_sigma2 : F;
  p_gamma_r_sigma2 : F;
  p_sigma_s2 : F;
  p_gamma_rr_sigma2 : F;
  p_sigma_sr2 : F;
  p_gamma_f : F;
  p_threshold : F
}.

Definition block_params (sigma : F) (r : Z) (sigma_s gamma_r gamma_f threshold : F)
    : BlockParams :=
  let s := NextPowerOf2 (int_add (int_mul 2 r) 1) in
  let sigma2 := sigma *! sigma in
  let gamma_r_sigma2 := gamma_r *! sigma2 in
  let sigma_s2 := sigma_s *! sigma_s in
  let gamma_rr_sigma2 := gamma_r_sigma2 *! f_of_int 10 in
  let sigma_sr2 := sigma_s2 *! f_of_int 2 in
  mkBlockParams r s sigma2 gamma_r_sigma2 sigma_s2 gamma_rr_sigma2 sigma_sr2
                gamma_f threshold.

(** Lines 294-306.  [reg_plane] and [yt] are uninitialised arrays in the
    source; every iteration writes them before it reads them. *)
Definition block_init (p : BlockParams) (guide : Image F) : BlockState :=
  let s := p_s p in
  let ch := channels guide in
  mkBlockState
    (WeightMap_new (int_add (int_sub (rows guide) s) 1)
                   (int_add (int_sub (columns guide) s) 1))
    (Image_new fzero (rows guide) (columns guide) ch)
    (Image_new fzero (rows guide) (columns guide) 1)
    (Image_new fzero s s ch)
    (Image_new fzero s s ch)
    (Image_new fzero s s 1)
    (Image_new fzero s s 1)
    (DftPatch_new s s ch)
    (DftPatch_new s s ch)
    (repeat (fzero, fzero) (Z.to_nat ch))
    (repeat fzero (Z.to_nat ch)).

(** Lines 310-321: from the anchor to the two patches in the frequency
    domain.  The result is the state in which the shrinkage loop starts,
    with the anchor. *)
Definition block_to_freq (p : BlockParams) (noisy guide : Image F)
    (st : BlockState) : Z * Z * BlockState :=
  let r := p_r p in
  let '(pr, pc, agg) := FindMinimum (agg_weights st) in
  let y := FastExtractPatch fzero noisy pr pc (y st) in
  let g := FastExtractPatch fzero guide pr pc (g st) in
  let k_reg := BilateralWeight g (k_reg st) r (p_gamma_rr_sigma2 p) (p_sigma_sr2 p) in
  let reg_plane := ComputeRegressionPlane y g k_reg r (reg_plane st) in
  let y := SubtractPlane r reg_plane y in
  let g := SubtractPlane r reg_plane g in
  let k := BilateralWeight g (k st) r (p_gamma_r_sigma2 p) (p_sigma_s2 p) in
  let '(y_m, yt) := ModifyPatch y k (y_m st) (Some (yt st)) in
  let '(g_m, _) := ModifyPatch g k (g_m st) None in
  let y_m := ToFreq y_m in
  let g_m := ToFreq g_m in
  (pr, pc,
   mkBlockState agg (output st) (weights st) y g k_reg k y_m g_m reg_plane
                (match yt with Some yt => yt | None => [] end)).

(** Lines 322-358: shrinkage, back to space, aggregation. *)
Definition block_from_freq (p : BlockParams) (prpcst : Z * Z * BlockState)
    : BlockState :=
  let '(pr, pc, st) := prpcst in
  let r := p_r p in
  let sigma_f2 := sigma_f2_of (k st) (p_sigma2 p) in
  let y_m := shrink (p_gamma_f p) sigma_f2 (g_m st) (y_m st) in
  let y_m := ToSpace y_m in
  let '(output, weights, k) :=
    aggregate (p_s p) r pr pc y_m (reg_plane st) (yt st)
              (output st, weights st, k st) in
  let agg := IncreaseWeights (agg_weights st) k (int_sub pr r) (int_sub pc r) in
  mkBlockState agg output weights (y st) (g st) (k_reg st) k y_m (g_m st)
               (reg_plane st) (yt st).

Definition block_body (p : BlockParams) (noisy guide : Image F)
    (st : BlockState) : BlockState :=
  block_from_freq p (block_to_freq p noisy guide st).

Definition with_agg (st : BlockState) (agg : WeightMap) : BlockState :=
  mkBlockState agg (output st) (weights st) (y st) (g st) (k_reg st) (k st)
               (y_m st) (g_m st) (reg_plane st) (yt st).

(** [while (agg_weights.Minimum() < threshold) body]: [None] when the
    loop is still running after [fuel] iterations. *)
Fixpoint main_loop (p : BlockParams) (noisy guide : Image F)
    (fuel : nat) (st : BlockState) : option BlockState :=
  let '(m, agg) := Minimum (agg_weights st) in
  if fltb m (p_threshold p) then
    match fuel with
    | O => None
    | S fuel' =>
        main_loop p noisy guide fuel' (block_body p noisy guide (with_agg st agg))
    end
  else Some (with_agg st agg).

Definition DA3D_block (fuel : nat) (noisy guide : Image F)
    (sigma : F) (r : Z) (sigma_s gamma_r gamma_f threshold : F)
    : option (Image F * Image F) :=
  let p := block_params sigma r sigma_s gamma_r gamma_f threshold in
  match main_loop p noisy guide fuel (block_init p guide) with
  | Some st => Some (output st, weights st)
  | None => None
  end.

End Pipeline.

(** *** The forward transform on a 4 x 4 plane *)

(** Modelled from the spec: [a * w^e] for w = exp(-2 pi i / 4) = -i, the
    4-point twiddle factor; its powers are 1, -i, -1 and i. *)
Definition cmul_pow_w {Ar : Arith} (e : Z) (a : F * F) : F * F :=
  match e mod 4 with
  | 0 => a
  | 1 => (snd a, fopp (fst a))
  | 2 => (fopp (fst a), fopp (snd a))
  | _ => (fopp (snd a), fst a)
  end.

(** Modelled from the spec: [dft2d_forward] on a 4 x 4 plane, the
    unnormalised sum of f(col, row) * w^(u*col + v*row). *)
Definition dft2d_forward4 {Ar : Arith} (nr nc : Z) (f : cplane) : cplane :=
  fun u v =>
    for_loop 4 (fun row acc =>
      for_loop 4 (fun col acc =>
        let t := cmul_pow_w (u * col + v * row) (f col row) in
        (fst acc +! fst t, snd acc +! snd t)%flt)
      acc)
    (fzero, fzero).

(** ** Tiles (DA3D.cpp, lines 82-142) and the driver (lines 366-388) *)

(** [for (int i = a; i < b; ++i) body]. *)
Definition for_range {S : Type} (a b : Z) (body : Z -> S -> S) (s : S) : S :=
  for_loop (b - a) (fun i s => body (a + i) s) s.

(** The first and the one-past-last row (or column) of tile [t] out of
    [tiles] along a side of length [n], padding included. *)
Definition tile_start (n t tiles pad_before : Z) : Z :=
  int_sub (int_div (int_mul n t) tiles) pad_before.

Definition tile_end (n t tiles pad_after : Z) : Z :=
  int_add (int_div (int_mul n (int_add t 1)) tiles) pad_after.

Section Tiles.
  Context {A : Type} (dflt : A).

(** *** SplitTiles (DA3D.cpp, lines 82-108) *)

(** Lines 93-103: one tile, filled from the source at the mirrored
    coordinates. *)
Definition make_tile (src : Image A) (rstart rend cstart cend : Z) : Image A :=
  let tile := Image_new dflt (int_sub rend rstart) (int_sub cend cstart)
                        (channels src) in
  for_range rstart rend (fun row tile =>
    for_range cstart cend (fun col tile =>
      for_loop (channels src) (fun ch tile =>
        set_val tile (int_sub col cstart) (int_sub row rstart) ch
          (val dflt src (SymmetricCoordinate col (columns src))
                        (SymmetricCoordinate row (rows src)) ch))
      tile)
    tile)
  tile.

Definition SplitTiles (src : Image A) (pad_before pad_after : Z)
    (tiling : Z * Z) : list (Image A) :=
  for_loop (fst tiling) (fun tr result =>
    let rstart := tile_start (rows src) tr (fst tiling) pad_before in
    let rend := tile_end (rows src) tr (fst tiling) pad_after in
    for_loop (snd tiling) (fun tc result =>
      let cstart := tile_start (columns src) tc (snd tiling) pad_before in
      let cend := tile_end (columns src) tc (snd tiling) pad_after in
      result ++ [make_tile src rstart rend cstart cend])
    result)
  [].

End Tiles.

Section Driver.
  Context {Ar : Arith}.
  Local Open Scope flt_scope.

(** *** MergeTiles (DA3D.cpp, lines 110-142) *)

(** [src[i]], with an empty pair of images past the end (undefined in
    C++). *)
Definition tile_at (src : list (Image F * Image F)) (i : Z) : Image F * Image F :=
  get_lin (mkImage 0 0 0 [], mkImage 0 0 0 []) src i.

(** Lines 122-130: one tile added into the accumulators. *)
Definition add_tile (shape : Z * Z) (channels : Z) (tile : Image F * Image F)
    (rstart rend cstart cend : Z) (rw : Image F * Image F) : Image F * Image F :=
  for_range (Z.max 0 rstart) (Z.min (fst shape) rend) (fun row rw =>
    for_range (Z.max 0 cstart) (Z.min (snd shape) cend) (fun col '(result, weights) =>
      let result :=
        for_loop channels (fun ch result =>
          fset result col row ch
               (fval result col row ch
                +! fval (fst tile) (int_sub col cstart) (int_sub row rstart) ch))
        result in
      let weights :=
        fset weights col row 0
             (fval weights col row 0
              +! fval (snd tile) (int_sub col cstart) (int_sub row rstart) 0) in
      (result, weights))
    rw)
  rw.

(** Lines 116-133: all tiles, in the order SplitTiles made them. *)
Definition accumulate_tiles (src : list (Image F * Image F)) (shape : Z * Z)
    (channels pad_before pad_after : Z) (tiling : Z * Z)
    (rw : Image F * Image F) : Image F * Image F * Z :=
  for_loop (fst tiling) (fun tr rwt =>
    let rstart := tile_start (fst shape) tr (fst tiling) pad_before in
    let rend := tile_end (fst shape) tr (fst tiling) pad_after in
    for_loop (snd tiling) (fun tc '(rw, tile) =>
      let cstart := tile_start (snd shape) tc (snd tiling) pad_before in
      let cend := tile_end (snd shape) tc (snd tiling) pad_after in
      (add_tile shape channels (tile_at src tile) rstart rend cstart cend rw,
       tile + 1))
    rwt)
  (rw, 0).

(** Lines 134-140: the division by the accumulated weight. *)
Definition normalize (shape : Z * Z) (channels : Z) (weights result : Image F)
    : Image F :=
  for_loop (fst shape) (fun row result =>
    for_loop (snd shape) (fun col result =>
      for_loop channels (fun ch result =>
        fset result col row ch
             (fval result col row ch /! fval weights col row 0))
      result)
    result)
  result.

Definition MergeTiles (src : list (Image F * Image F)) (shape : Z * Z)
    (pad_before pad_after : Z) (tiling : Z * Z) : Image F :=
  let channels := channels (fst (tile_at src 0)) in
  let result := Image_new fzero (fst shape) (snd shape) channels in
  let weights := Image_new fzero (fst shape) (snd shape) 1 in
  let '(result, weights, _) :=
    accumulate_tiles src shape channels pad_before pad_after tiling
                     (result, weights) in
  normalize shape channels weights result.

(** *** DA3D (DA3D.cpp, lines 366-388)

    [omp_max_threads] is [Some n] in a build with OpenMP, where
    [omp_get_max_threads()] returns [n], and [None] in a build without.
    The iterations of the parallel loop are independent of each other;
    each block gets [fuel] turns of its main loop. *)

Variable fastexp : F -> F.
Variables dft_forward dft_inverse : Z -> Z -> cplane -> cplane.

Definition run_blocks (fuel : nat) (nthreads : Z) (noisy_tiles guide_tiles : list (Image F))
    (sigma : F) (r : Z) (sigma_s gamma_r gamma_f threshold : F)
    : option (list (Image F * Image F)) :=
  for_loop nthreads (fun i acc =>
    match acc,
          DA3D_block fastexp dft_forward dft_inverse fuel
                     (get_lin (mkImage 0 0 0 []) noisy_tiles i)
                     (get_lin (mkImage 0 0 0 []) guide_tiles i)
                     sigma r sigma_s gamma_r gamma_f threshold with
    | Some done, Some res => Some (done ++ [res])
    | _, _ => None
    end)
  (Some []).

Definition DA3D (omp_max_threads : option Z) (fuel : nat) (noisy guide : Image F)
    (sigma : F) (nthreads r : Z) (sigma_s gamma_r gamma_f threshold : F)
    : option (Image F) :=
  let s := NextPowerOf2 (int_add (int_mul 2 r) 1) in
  let nthreads :=
    match omp_max_threads with
    | Some m => if nthreads =? 0 then m else nthreads
    | None => 1
    end in
  match ComputeTiling (rows guide) (columns guide) nthreads with
  | None => None
  | Some tiling =>
      let pad_after := int_sub (int_sub s r) 1 in
      let noisy_tiles := SplitTiles fzero (ColorTransform noisy) r pad_after tiling in
      let guide_tiles := SplitTiles fzero (ColorTransform guide) r pad_after tiling in
      match run_blocks fuel nthreads noisy_tiles guide_tiles
                       sigma r sigma_s gamma_r gamma_f threshold with
      | None => None
      | Some result_tiles =>
          Some (ColorTransformInverse
                  (MergeTiles result_tiles (rows guide, columns guide)
                              r pad_after tiling))
      end
  end.

End Driver.

(** ** Vocabulary of the properties *)

(** The scalars of the exact interpretation. *)
Abbreviation RF := (@F Exact.arith).

(** A cell of the image. *)
Definition in_image {A : Type} (img : Image A) (col row chan : Z) : Prop :=
  0 <= col < columns img /\ 0 <= row < rows img /\ 0 <= chan < channels img.

Definition same_shape {A : Type} (a b : Image A) : Prop :=
  rows a = rows b /\ columns a = columns b /\ channels a = channels b.

(** What ExtractPatch and FastExtractPatch write at position [i] of the
    patch buffer. *)
Definition patch_lin {A : Type} (dflt : A) (src dst : Image A) (pr pc : Z)
    (i : Z) : A :=
  let wc := columns dst * channels dst in
  val1 dflt src (((pr + i / wc) * columns src + pc) * channels src + i mod wc).

(** The first [n] positions of the buffer hold the patch. *)
Definition filled {A : Type} (dflt : A) (src dst : Image A) (pr pc : Z)
    (n : Z) (d : Image A) : Prop :=
  rows d = rows dst /\ columns d = columns dst /\ channels d = channels dst /\
  length (data d) = length (data dst) /\
  forall i, 0 <= i < n -> val1 dflt d i = patch_lin dflt src dst pr pc i.

(** What ColorTransform and ColorTransformInverse store in channel [ch]
    of a pixel that held (r, g, b), respectively (y, u, v). *)
Definition ct_fwd {Ar : Arith} (r g b : F) (ch : Z) : F :=
  if ch =? 0 then narrow (widen (r +! g +! b) /!! dsqrt (d_of_int 3))%flt
  else if ch =? 1 then narrow (widen (r -! b) /!! dsqrt (d_of_int 2))%flt
  else narrow (widen (r -! f_of_int 2 *! g +! b) /!! dsqrt (d_of_int 6))%flt.

Definition ct_inv {Ar : Arith} (y u v : F) (ch : Z) : F :=
  if ch =? 0 then
    narrow ((dsqrt (d_of_int 2) *!! widen y +!! dsqrt (d_of_int 3) *!! widen u
             +!! widen v) /!! dsqrt (d_of_int 6))%flt
  else if ch =? 1 then
    narrow ((widen y -!! dsqrt (d_of_int 2) *!! widen v) /!! dsqrt (d_of_int 3))%flt
  else
    narrow ((dsqrt (d_of_int 2) *!! widen y -!! dsqrt (d_of_int 3) *!! widen u
             +!! widen v) /!! dsqrt (d_of_int 6))%flt.

(** The forward colour matrix of the specification (rows Y, U, V), the
    product of a 3 x 3 matrix with a pixel, and the transpose. *)
Definition ct_coeff (i j : Z) : R :=
  (if i =? 0 then 1 / sqrt 3
   else if i =? 1 then
     (if j =? 0 then 1 / sqrt 2 else if j =? 1 then 0 else - (1 / sqrt 2))
   else
     (if j =? 1 then - (2 / sqrt 6) else 1 / sqrt 6))%R.

Definition mat_vec (m : Z -> Z -> R) (p : Z -> R) (i : Z) : R :=
  (m i 0%Z * p 0%Z + m i 1%Z * p 1%Z + m i 2%Z * p 2%Z)%R.

Definition transpose (m : Z -> Z -> R) (i j : Z) : R := m j i.

(** The exact value of a finite binary floating-point number. *)
Definition F32_value (x : spec_float) : Q :=
  match x with
  | S754_finite s m e =>
      let a := if 0 <=? e then Qmake (Zpos m * 2 ^ e) 1
               else Qmake (Zpos m) (Z.to_pos (2 ^ (- e))) in
      if s then Qopp a else a
  | _ => Qmake 0 1
  end.

(** The divisors of [N] nearest to the real number [f]: the greatest one
    at most [f] and the least one above [f]. *)
Definition divisor_below (N : Z) (f : R) (d : Z) : Prop :=
  (d | N) /\ 1 <= d /\ (IZR d <= f)%R /\
  forall d', (d' | N) -> 1 <= d' -> (IZR d' <= f)%R -> d' <= d.

Definition divisor_above (N : Z) (f : R) (d : Z) : Prop :=
  (d | N) /\ 1 <= d /\ (f < IZR d)%R /\
  forall d', (d' | N) -> 1 <= d' -> (f < IZR d')%R -> d <= d'.

(** Finite sums of reals, and the weighted sums of the regression as the
    specification writes them. *)
Fixpoint sum_nat (n : nat) (f : Z -> R) : R :=
  match n with
  | O => 0%R
  | S m => (sum_nat m f + f (Z.of_nat m))%R
  end.

Definition sum_range (n : Z) (f : Z -> R) : R := sum_nat (Z.to_nat n) f.

Definition sum2 (nr nc : Z) (f : Z -> Z -> R) : R :=
  sum_range nr (fun row => sum_range nc (fun col => f row col)).

Definition spec_A (y k : Image R) (r : Z) : R :=
  sum2 (rows y) (columns y)
       (fun row col => IZR (row - r) * IZR (row - r) * val 0%R k col row 0)%R.

Definition spec_B (y k : Image R) (r : Z) : R :=
  sum2 (rows y) (columns y)
       (fun row col => IZR (row - r) * IZR (col - r) * val 0%R k col row 0)%R.

Definition spec_C (y k : Image R) (r : Z) : R :=
  sum2 (rows y) (columns y)
       (fun row col => IZR (col - r) * IZR (col - r) * val 0%R k col row 0)%R.

Definition spec_D (y g k : Image R) (r ch : Z) : R :=
  sum2 (rows y) (columns y)
       (fun row col => IZR (row - r) * (val 0%R y col row ch - val 0%R g r r ch)
                       * val 0%R k col row 0)%R.

Definition spec_E (y g k : Image R) (r ch : Z) : R :=
  sum2 (rows y) (columns y)
       (fun row col => IZR (col - r) * (val 0%R y col row ch - val 0%R g r r ch)
                       * val 0%R k col row 0)%R.

(** Patch sides and radii for which the offsets (row - r) and their
    products stay far from the [int] limits. *)
Definition small_patch (r nr nc : Z) : Prop :=
  0 <= r <= 32768 /\ nr <= 32768 /\ nc <= 32768.

(** A bin of a DftPatch. *)
Definition in_patch {Ar : Arith} (p : DftPatch) (col row chan : Z) : Prop :=
  0 <= col < dp_columns p /\ 0 <= row < dp_rows p /\ 0 <= chan < dp_channels p.

(** What the shrinkage leaves in a bin of the y patch: the DC bin as it
    was, any other bin multiplied by K. *)
Definition shrunk_bin {Ar : Arith} (fastexp : F -> F) (gamma_f sigma_f2 : F)
    (g_m y_m : DftPatch) (col row chan : Z) : F * F :=
  if (row =? 0) && (col =? 0) then freq y_m col row chan
  else
    let K := fastexp (shrink_arg gamma_f sigma_f2 g_m col row chan) in
    (fst (freq y_m col row chan) *! K, snd (freq y_m col row chan) *! K)%flt.

(** The bins the loop nest has passed when it stands at (row, col, chan). *)
Definition passed (row col chan r c ch : Z) : bool :=
  (r <? row) || ((r =? row) && ((c <? col) || ((c =? col) && (ch <? chan)))).

(** The invariant of the shrinkage loop nest at (row, col, chan). *)
Definition shrink_inv {Ar : Arith} (fastexp : F -> F) (gamma_f sigma_f2 : F)
    (g_m y_m : DftPatch) (row col chan : Z) (p : DftPatch) : Prop :=
  dp_rows p = dp_rows y_m /\ dp_columns p = dp_columns y_m /\
  dp_channels p = dp_channels y_m /\
  (forall c r ch, ~ in_patch y_m c r ch -> freq p c r ch = freq y_m c r ch) /\
  forall c r ch, in_patch y_m c r ch ->
    freq p c r ch = if passed row col chan r c ch
                    then shrunk_bin fastexp gamma_f sigma_f2 g_m y_m c r ch
                    else freq y_m c r ch.

(** The pixels a row/column loop nest has passed at (row, col). *)
Definition done (row col r c : Z) : bool :=
  (r <? row) || ((r =? row) && (c <? col)).

(** A non-empty single-channel grid. *)
Definition grid_ok {A : Type} (grid : Image A) : Prop :=
  wf_image grid /\ 1 <= rows grid /\ 1 <= columns grid /\ channels grid = 1.

(** The cell (c, r) of the grid lies under the patch [k] laid with its
    top-left corner at (row0, col0). *)
Definition under_patch {A : Type} (k : Image A) (row0 col0 c r : Z) : bool :=
  (0 <=? r - row0) && (r - row0 <? rows k) &&
  (0 <=? c - col0) && (c - col0 <? columns k).

(** The state of IncreaseWeights when its loop nest stands at
    (drow, dcol). *)
Definition increase_inv {Ar : Arith} (w : WeightMap) (k : Image F)
    (row0 col0 drow dcol : Z) (cur : WeightMap) : Prop :=
  wf_image (wm_grid cur) /\ same_shape (wm_grid cur) (wm_grid w) /\
  wm_min cur = wm_min w /\ wm_row cur = wm_row w /\ wm_col cur = wm_col w /\
  (forall c r, in_image (wm_grid w) c r 0 ->
     fval (wm_grid cur) c r 0
     = if under_patch k row0 col0 c r && done drow dcol (r - row0) (c - col0)
       then (fval (wm_grid w) c r 0 +! fval k (c - col0) (r - row0) 0)%flt
       else fval (wm_grid w) c r 0) /\
  (wm_pending w = true -> wm_pending cur = true) /\
  (in_image (wm_grid w) (wm_col w) (wm_row w) 0 ->
   under_patch k row0 col0 (wm_col w) (wm_row w) = true ->
   done drow dcol (wm_row w - row0) (wm_col w - col0) = true ->
   wm_pending cur = true).

(** The main loop of DA3D_block: one turn from the loop head (the
    condition refreshes the cached minimum, then the body runs), the
    value the condition compares with the threshold, and the state after
    [n] turns. *)
Definition loop_step {Ar : Arith} (fastexp : F -> F)
    (dft_forward dft_inverse : Z -> Z -> cplane -> cplane)
    (p : BlockParams) (noisy guide : Image F) (st : BlockState) : BlockState :=
  block_body fastexp dft_forward dft_inverse p noisy guide
             (with_agg st (snd (Minimum (agg_weights st)))).

Definition min_weight {Ar : Arith} (st : BlockState) : F :=
  fst (Minimum (agg_weights st)).

Definition loop_state {Ar : Arith} (fastexp : F -> F)
    (dft_forward dft_inverse : Z -> Z -> cplane -> cplane)
    (p : BlockParams) (noisy guide : Image F) (n : nat) : BlockState :=
  Nat.iter n (loop_step fastexp dft_forward dft_inverse p noisy guide)
           (block_init p guide).

(** Radius and patch side: the centre lies in the patch, and the int
    offsets stay small. *)
Definition params_ok {Ar : Arith} (p : BlockParams) : Prop :=
  0 <= p_r p < p_s p /\ p_s p <= 32768.

(** What holds of the state whenever the loop condition is evaluated:
    a non-empty weight map with its pending flag set, patch buffers of
    side s. *)
Definition head_ok {Ar : Arith} (p : BlockParams) (st : BlockState) : Prop :=
  grid_ok (wm_grid (agg_weights st)) /\
  wm_pending (agg_weights st) = true /\
  rows (wm_grid (agg_weights st)) <= 1073741824 /\
  columns (wm_grid (agg_weights st)) <= 1073741824 /\
  wf_image (k st) /\ channels (k st) = 1 /\
  rows (k st) = p_s p /\ columns (k st) = p_s p /\
  rows (g st) = p_s p /\ columns (g st) = p_s p.

(** How many additions of [b] a weight of value [w] is away from the
    threshold [t], and the sum of this over the weight map, the weights
    read through [wval]: the measure that decreases at every turn of the
    main loop. *)
Definition need (t b w : R) : nat := Z.to_nat (up ((t - w) / b)).

Definition potential {A : Type} (wval : A -> R) (t b : R) (grid : Image A) : nat :=
  list_sum (map (fun x => need t b (wval x)) (data grid)).

(** What the arithmetic must grant for the weights of the main loop: a
    set [wok] of values that holds the zero and is closed under addition,
    on which [<] of the code is [<] of the values [wval], and on which
    adding never lowers the value. *)
Record weight_laws {Ar : Arith} (wok : F -> Prop) (wval : F -> R) : Prop := {
  wl_zero : wok fzero;
  wl_lt : forall x y, wok x -> wok y -> (fltb x y = true <-> (wval x < wval y)%R);
  wl_add : forall w x, wok w -> wok x ->
           wok (w +! x)%flt /\ (wval w <= wval (w +! x)%flt)%R
}.

(** The square of the bilateral weight at the centre of the patch [g]:
    what a turn of the main loop adds to the cell of the minimum. *)
Definition centre_sq {Ar : Arith} (fastexp : F -> F) (p : BlockParams)
    (g : Image F) : F :=
  let c := fastexp (fopp (bilateral_x g (p_r p) (p_gamma_r_sigma2 p) (p_sigma_s2 p)
                                      (p_r p) (p_r p))) in
  (c *! c)%flt.

(** A tile that holds at least one patch of radius [r], with sides and
    radius small enough for the int offsets of the block. *)
Definition tile_ok {A : Type} (r : Z) (guide : Image A) : Prop :=
  0 <= r <= 16383 /\
  NextPowerOf2 (2 * r + 1) <= rows guide <= 1073741824 /\
  NextPowerOf2 (2 * r + 1) <= columns guide <= 1073741824.

(** The real number a binary32 or binary64 value stands for (0 for an
    infinity or a NaN), and an image with every entry converted. *)
Definition SF2R (x : spec_float) : R :=
  match x with
  | S754_finite s m e =>
      ((if s then -1 else 1) * IZR (Zpos m) * powerRZ 2 e)%R
  | _ => 0%R
  end.

Definition image_map {A B : Type} (f : A -> B) (img : Image A) : Image B :=
  mkImage (rows img) (columns img) (channels img) (map f (data img)).

(** The power of two [2^e] as a real. *)
Definition bpow (e : Z) : R := powerRZ 2 e.

(** Where a real [t] lies with respect to the integer [m]: on it, in the
    lower half of [m, m+1], in the middle, in the upper half. *)
Definition inbetween (t : R) (m : Z) (l : location) : Prop :=
  match l with
  | loc_Exact => t = IZR m
  | loc_Inexact Lt => (IZR m < t < IZR m + / 2)%R
  | loc_Inexact Eq => t = (IZR m + / 2)%R
  | loc_Inexact Gt => (IZR m + / 2 < t < IZR m + 1)%R
  end.

(** The float that rounding yields from the rounded mantissa [mr] at the
    exponent [E]: a mantissa of [prec + 1] digits is renormalised. *)
Definition round_result (prec emax : Z) (sx : bool) (mr E : Z) : spec_float :=
  if mr =? 0 then S754_zero sx
  else if mr <? 2 ^ prec then
    if E <=? emax - prec then S754_finite sx (Z.to_pos mr) E else S754_infinity sx
  else
    if E + 1 <=? emax - prec then S754_finite sx (Z.to_pos (2 ^ (prec - 1))) (E + 1)
    else S754_infinity sx.

(** A weight in binary floating point: a valid float that is neither
    negative nor a NaN; and its value, with [2^emax] standing for the
    infinity. *)
Definition weight_ok (prec emax : Z) (x : spec_float) : Prop :=
  match x with
  | S754_zero _ => True
  | S754_infinity s => s = false
  | S754_nan => False
  | S754_finite s m e => s = false /\ bounded prec emax m e = true
  end.

Definition weight_val (emax : Z) (x : spec_float) : R :=
  match x with
  | S754_infinity _ => bpow emax
  | _ => SF2R x
  end.

(** Every cell of a weight grid is a weight. *)
Definition cells_ok {Ar : Arith} (wok : F -> Prop) (grid : Image F) : Prop :=
  forall c r, in_image grid c r 0 -> wok (fval grid c r 0).

(** A binary32 weight whose value is a whole number, at most 2^24. *)
Definition weight_capped (x : spec_float) : Prop :=
  weight_ok 24 128 x /\
  exists n : Z, 0 <= n <= 2 ^ 24 /\ weight_val 128 x = IZR n.

(** ** Vocabulary of the further properties *)

(** The two distances of BilateralWeight at (col, row): the squared
    difference to the centre pixel over the channels, and the squared
    distance to the centre. *)
Definition range_dist (g : Image R) (r col row : Z) : R :=
  sum_range (channels g)
    (fun ch => (val 0 g col row ch - val 0 g r r ch)
               * (val 0 g col row ch - val 0 g r r ch))%R.

Definition spatial_dist (r col row : Z) : Z :=
  (row - r) * (row - r) + (col - r) * (col - r).

(** The cells a row/column loop nest over [0, nc) columns has passed when
    it stands at (i, j). *)
Definition in_window (nc i j r c : Z) : bool :=
  (0 <=? r) && (0 <=? c) && (c <? nc) && done i j r c.

(** What ModifyPatch stores in the space view at (col, row, chan), for
    the average [avg] of the channel. *)
Definition masked_value {Ar : Arith} (patch k : Image F) (avg : F)
    (col row chan : Z) : F * F :=
  (fval k col row 0 *! fval patch col row chan
   +! (f_of_int 1 -! fval k col row 0) *! avg, fzero)%flt.

(** The total weight of a mask, and the weighted average of a channel of
    a patch under it. *)
Definition mask_total (k : Image R) : R :=
  sum2 (rows k) (columns k) (fun row col => val 0%R k col row 0).

Definition masked_avg (patch k : Image R) (ch : Z) : R :=
  (sum2 (rows patch) (columns patch)
        (fun row col => val 0 k col row 0 * val 0 patch col row ch)
   / mask_total k)%R.

(** What the aggregation adds to the output for the cell (col, row, chan)
    of the patch (DA3D.cpp, lines 349-352), [k] being the mask before it
    is squared. *)
Definition patch_term {Ar : Arith} (r : Z) (y_m : DftPatch)
    (reg_plane : list (F * F)) (yt : list F) (k : Image F)
    (col row chan : Z) : F :=
  ((fst (space y_m col row chan)
    +! (fst (plane_at reg_plane chan) *! f_of_int (int_sub row r)
        +! snd (plane_at reg_plane chan) *! f_of_int (int_sub col r))
       *! fval k col row 0
    -! (f_of_int 1 -! fval k col row 0) *! get_lin fzero yt chan)
   *! fval k col row 0)%flt.

(** The state of the aggregation loops at (i, j). *)
Definition aggregate_inv {Ar : Arith} (s r pr pc : Z) (y_m : DftPatch)
    (reg_plane : list (F * F)) (yt : list F) (o w k : Image F) (i j : Z)
    (t : Image F * Image F * Image F) : Prop :=
  let '(o', w', k') := t in
  wf_image o' /\ same_shape o' o /\ wf_image w' /\ same_shape w' w /\
  wf_image k' /\ same_shape k' k /\
  (forall c r0, 0 <= c < s -> 0 <= r0 < s ->
     fval k' c r0 0 = if done i j r0 c
                      then (fval k c r0 0 *! fval k c r0 0)%flt
                      else fval k c r0 0) /\
  (forall c r0 ch, in_image o c r0 ch ->
     fval o' c r0 ch =
     if in_window s i j (r0 - pr) (c - pc)
     then (fval o c r0 ch
           +! patch_term r y_m reg_plane yt k (c - pc) (r0 - pr) ch)%flt
     else fval o c r0 ch) /\
  (forall c r0, in_image w c r0 0 ->
     fval w' c r0 0 =
     if in_window s i j (r0 - pr) (c - pc)
     then (fval w c r0 0
           +! fval k (c - pc) (r0 - pr) 0 *! fval k (c - pc) (r0 - pr) 0)%flt
     else fval w c r0 0).

(** The first row (or column) of the core of tile [t]: tile [t] out of
    [tiles] owns [core_start n t tiles, core_start n (t + 1) tiles). *)
Definition core_start (n t tiles : Z) : Z := n * t / tiles.

(** Sides, tile counts and paddings for which the tile bounds are
    computed without overflow. *)
Definition tiling_ok (n tiles pad_before pad_after : Z) : Prop :=
  1 <= n /\ 1 <= tiles /\ n * tiles <= INT_MAX /\
  0 <= pad_before <= 536870912 /\ 0 <= pad_after /\ n + pad_after <= 536870912.

(** The padded window of tile [t] along a side contains [x]. *)
Definition in_tile (n t tiles pad_before pad_after x : Z) : bool :=
  (core_start n t tiles - pad_before <=? x)
  && (x <? core_start n (t + 1) tiles + pad_after).

(** What tile (tr, tc) contributes to the pixel (col, row) of the merged
    image: the value of [img] at the position of the pixel in the tile
    when the padded window of the tile contains the pixel, nothing
    otherwise. *)
Definition tile_term (shape : Z * Z) (pad_before pad_after : Z) (tiling : Z * Z)
    (img : Z -> Image RF) (col row ch tr tc : Z) : R :=
  if in_tile (fst shape) tr (fst tiling) pad_before pad_after row
     && in_tile (snd shape) tc (snd tiling) pad_before pad_after col
  then val 0%R (img (tr * snd tiling + tc))
           (col - (core_start (snd shape) tc (snd tiling) - pad_before))
           (row - (core_start (fst shape) tr (fst tiling) - pad_before)) ch
  else 0%R.

(** The state of the loops that add one tile, at (i, j) of the clipped
    window [ra, rb) x [ca, cb). *)
Definition add_tile_inv (tile : Image RF * Image RF) (rstart cstart ra ca cb : Z)
    (res0 wts0 : Image RF) (i j : Z) (t : Image RF * Image RF) : Prop :=
  let '(res, wts) := t in
  wf_image res /\ same_shape res res0 /\ wf_image wts /\ same_shape wts wts0 /\
  (forall c r ch, in_image res0 c r ch ->
     val 0%R res c r ch =
     if in_window (cb - ca) i j (r - ra) (c - ca)
     then (val 0 res0 c r ch + val 0 (fst tile) (c - cstart) (r - rstart) ch)%R
     else val 0%R res0 c r ch) /\
  (forall c r, in_image wts0 c r 0 ->
     val 0%R wts c r 0 =
     if in_window (cb - ca) i j (r - ra) (c - ca)
     then (val 0 wts0 c r 0 + val 0 (snd tile) (c - cstart) (r - rstart) 0)%R
     else val 0%R wts0 c r 0).

(** The sum of [term] over the tiles that come before (tr, tc) in
    row-major order, rows of [t2] tiles. *)
Definition tiles_sum (t2 tr tc : Z) (term : Z -> Z -> R) : R :=
  (sum_range tr (fun a => sum_range t2 (term a)) + sum_range tc (term tr))%R.

(** The state of the loops over the tiles at (tr, tc). *)
Definition accumulate_inv (src : list (Image RF * Image RF)) (shape : Z * Z)
    (nch pad_before pad_after : Z) (tiling : Z * Z) (res0 wts0 : Image RF)
    (tr tc : Z) (t : Image RF * Image RF * Z) : Prop :=
  let '(res, wts, tile) := t in
  tile = tr * snd tiling + tc /\
  wf_image res /\ same_shape res res0 /\ wf_image wts /\ same_shape wts wts0 /\
  (forall c r ch, in_image res0 c r ch ->
     val 0%R res c r ch =
     (val 0 res0 c r ch
      + tiles_sum (snd tiling) tr tc
          (tile_term shape pad_before pad_after tiling
                     (fun i => fst (@tile_at Exact.arith src i)) c r ch))%R) /\
  (forall c r, in_image wts0 c r 0 ->
     val 0%R wts c r 0 =
     (val 0 wts0 c r 0
      + tiles_sum (snd tiling) tr tc
          (tile_term shape pad_before pad_after tiling
                     (fun i => snd (@tile_at Exact.arith src i)) c r 0))%R).

(** A result tile that repeats the tile itself with weight one
    everywhere. *)
Definition unit_result (tile : Image RF) : Image RF * Image RF :=
  (tile, Image_new 1%R (rows tile) (columns tile) 1).

(** What links the aggregation map to the weights image at every loop
    head of DA3D_block: the anchors are the pixels at distance at least
    [r] from the top and left border and [s - r - 1] from the bottom and
    right border, and the map holds at an anchor the weight of the pixel
    at the centre of its patch. *)
Definition cover_inv (p : @BlockParams Exact.arith) (guide : Image RF)
    (st : @BlockState Exact.arith) : Prop :=
  wf_image (weights st) /\ channels (weights st) = 1 /\
  rows (weights st) = rows guide /\ columns (weights st) = columns guide /\
  wf_image (output st) /\
  rows (output st) = rows guide /\ columns (output st) = columns guide /\
  channels (output st) = channels guide /\
  rows (wm_grid (agg_weights st)) = rows guide - p_s p + 1 /\
  columns (wm_grid (agg_weights st)) = columns guide - p_s p + 1 /\
  (forall c r, in_image (weights st) c r 0 -> (0 <= val 0 (weights st) c r 0)%R) /\
  (forall c r, in_image (wm_grid (agg_weights st)) c r 0 ->
     val 0%R (wm_grid (agg_weights st)) c r 0
     = val 0%R (weights st) (c + p_r p) (r + p_r p) 0).

(** What DA3D_block returns for a tile [guide]: an output of its shape,
    single-channel weights of its size that are never negative, and at
    least [threshold] at every centre of a patch inside the tile. *)
Definition block_good (r : Z) (threshold : R) (guide out wts : Image RF) : Prop :=
  wf_image out /\ same_shape out guide /\
  wf_image wts /\
  rows wts = rows guide /\ columns wts = columns guide /\ channels wts = 1 /\
  (forall col row, in_image wts col row 0 -> (0 <= val 0 wts col row 0)%R) /\
  (forall col row,
     r <= col <= columns guide - NextPowerOf2 (2 * r + 1) + r ->
     r <= row <= rows guide - NextPowerOf2 (2 * r + 1) + r ->
     (threshold <= val 0 wts col row 0)%R).

(** The number of tiles of a build with OpenMP (DA3D.cpp, lines 370-372):
    [omp_get_max_threads()] when the caller passes 0. *)
Definition omp_threads (omp_max_threads nthreads : Z) : Z :=
  if nthreads =? 0 then omp_max_threads else nthreads.

(** * Part II: properties *)

(** ** Machine integers *)

Lemma wrap_small z : in_int z -> wrap z = z.
Proof.
  unfold in_int, INT_MIN, INT_MAX, wrap. intros H.
  rewrite Z.mod_small by lia. lia.
Qed.

Lemma wrap_in_int z : in_int (wrap z).
Proof.
  unfold in_int, INT_MIN, INT_MAX, wrap.
  pose proof (Z.mod_pos_bound (z + 2147483648) 4294967296). lia.
Qed.

Lemma wrap_wrap_sub a b : wrap (wrap a - b) = wrap (a - b).
Proof.
  unfold wrap.
  replace ((a + 2147483648) mod 4294967296 - 2147483648 - b + 2147483648)
    with ((a + 2147483648) mod 4294967296 + - b) by lia.
  rewrite Zplus_mod_idemp_l. f_equal. f_equal. lia.
Qed.

Ltac int_range := unfold in_int, INT_MIN, INT_MAX in *; try lia.

Lemma int_add_small a b : in_int (a + b) -> int_add a b = a + b.
Proof. apply wrap_small. Qed.

Lemma int_sub_small a b : in_int (a - b) -> int_sub a b = a - b.
Proof. apply wrap_small. Qed.

Lemma int_mul_small a b : in_int (a * b) -> int_mul a b = a * b.
Proof. apply wrap_small. Qed.

(** ** Loops *)

Lemma for_loop_le0 {S : Type} n (body : Z -> S -> S) s :
  n <= 0 -> for_loop n body s = s.
Proof.
  intros H. unfold for_loop.
  replace (Z.to_nat n) with O by lia. reflexivity.
Qed.

Lemma for_loop_succ {S : Type} n (body : Z -> S -> S) s :
  0 <= n -> for_loop (n + 1) body s = body n (for_loop n body s).
Proof.
  intros H. unfold for_loop.
  replace (Z.to_nat (n + 1)) with (Datatypes.S (Z.to_nat n)) by lia.
  rewrite seq_S, fold_left_app. simpl.
  rewrite Z2Nat.id by lia. reflexivity.
Qed.

(** The invariant rule of a counted loop. *)
Lemma for_loop_inv {S : Type} (I : Z -> S -> Prop) n (body : Z -> S -> S) s :
  0 <= n ->
  I 0 s ->
  (forall i t, 0 <= i < n -> I i t -> I (i + 1) (body i t)) ->
  I n (for_loop n body s).
Proof.
  intros Hn H0 Hstep.
  assert (G : forall m : nat, Z.of_nat m <= n ->
                              I (Z.of_nat m) (for_loop (Z.of_nat m) body s)).
  { induction m as [|m IH]; intros Hm.
    - change (Z.of_nat O) with 0. rewrite for_loop_le0 by lia. exact H0.
    - replace (Z.of_nat (Datatypes.S m)) with (Z.of_nat m + 1) by lia.
      rewrite for_loop_succ by lia. apply Hstep; [lia|]. apply IH. lia. }
  specialize (G (Z.to_nat n)). rewrite Z2Nat.id in G by lia. apply G. lia.
Qed.

(** Two loops that run the same bodies give the same result. *)
Lemma for_loop_ext {S : Type} n (body body' : Z -> S -> S) s :
  (forall i t, 0 <= i < n -> body i t = body' i t) ->
  for_loop n body s = for_loop n body' s.
Proof.
  intros H. destruct (Z.le_gt_cases 0 n) as [Hn|Hn].
  - apply (for_loop_inv (fun i t => t = for_loop i body' s)); [exact Hn | |].
    + symmetry. apply for_loop_le0. lia.
    + intros i t Hi ->. rewrite for_loop_succ by lia. now apply H.
  - now rewrite !for_loop_le0 by lia.
Qed.

(** ** Buffers *)

Section BufferFacts.
  Context {A : Type} (dflt : A).

Lemma set_lin_length (l : list A) i v : length (set_lin l i v) = length l.
Proof.
  unfold set_lin.
  destruct (Z.leb_spec 0 i); destruct (Z.ltb_spec i (Z.of_nat (length l)));
    cbn [andb]; auto.
  rewrite length_app. cbn [length]. rewrite length_firstn, length_skipn. lia.
Qed.

Lemma get_set_lin_same (l : list A) i v :
  0 <= i < Z.of_nat (length l) -> get_lin dflt (set_lin l i v) i = v.
Proof.
  intros H. unfold get_lin, set_lin.
  destruct (Z.ltb_spec i 0); [lia|].
  destruct (Z.leb_spec 0 i); [|lia].
  destruct (Z.ltb_spec i (Z.of_nat (length l))); [|lia]. cbn [andb].
  rewrite app_nth2; rewrite length_firstn; [|lia].
  replace (Z.to_nat i - Nat.min (Z.to_nat i) (length l))%nat with O by lia.
  reflexivity.
Qed.

Lemma get_set_lin_other (l : list A) i j v :
  i <> j -> get_lin dflt (set_lin l i v) j = get_lin dflt l j.
Proof.
  intros H. unfold get_lin, set_lin.
  destruct (Z.ltb_spec j 0); [reflexivity|].
  destruct (Z.leb_spec 0 i); destruct (Z.ltb_spec i (Z.of_nat (length l)));
    cbn [andb]; auto.
  destruct (Z.lt_ge_cases j i).
  - rewrite app_nth1 by (rewrite length_firstn; lia).
    rewrite nth_firstn.
    destruct (Nat.ltb_spec (Z.to_nat j) (Z.to_nat i)); [reflexivity|lia].
  - rewrite app_nth2 by (rewrite length_firstn; lia).
    rewrite length_firstn.
    replace (Z.to_nat j - Nat.min (Z.to_nat i) (length l))%nat
      with (Datatypes.S (Z.to_nat j - Datatypes.S (Z.to_nat i)))%nat by lia.
    cbn [nth]. rewrite nth_skipn. f_equal. lia.
Qed.

Lemma get_lin_ext (l1 l2 : list A) :
  length l1 = length l2 ->
  (forall i, 0 <= i < Z.of_nat (length l1) -> get_lin dflt l1 i = get_lin dflt l2 i) ->
  l1 = l2.
Proof.
  intros Hl H. apply (nth_ext l1 l2 dflt dflt Hl).
  intros n Hn. specialize (H (Z.of_nat n) ltac:(lia)).
  unfold get_lin in H. destruct (Z.ltb_spec (Z.of_nat n) 0); [lia|].
  now rewrite Nat2Z.id in H.
Qed.

Lemma index_range (img : Image A) col row chan :
  wf_image img -> in_image img col row chan ->
  0 <= index img col row chan < Z.of_nat (length (data img)).
Proof.
  unfold wf_image, in_image, index. intros (Hr & Hc & Hch & Hl) (H1 & H2 & H3).
  rewrite Hl. split; [nia|].
  assert (row * columns img + col <= rows img * columns img - 1) by nia.
  nia.
Qed.

Lemma index_inj (img : Image A) col row chan col' row' chan' :
  in_image img col row chan -> in_image img col' row' chan' ->
  index img col row chan = index img col' row' chan' ->
  col = col' /\ row = row' /\ chan = chan'.
Proof.
  unfold in_image, index. intros (H1 & H2 & H3) (H1' & H2' & H3') E.
  assert (E1 : row * columns img + col = row' * columns img + col').
  { destruct (Z.lt_trichotomy (row * columns img + col) (row' * columns img + col'))
      as [L|[L|L]]; [exfalso; nia | exact L | exfalso; nia]. }
  assert (E2 : row = row').
  { destruct (Z.lt_trichotomy row row') as [L|[L|L]];
      [exfalso; nia | exact L | exfalso; nia]. }
  subst row'. split; [lia|]. split; [reflexivity|]. nia.
Qed.

Lemma set_val_dims (img : Image A) col row chan v :
  rows (set_val img col row chan v) = rows img /\
  columns (set_val img col row chan v) = columns img /\
  channels (set_val img col row chan v) = channels img.
Proof. auto. Qed.

Lemma set_val_wf (img : Image A) col row chan v :
  wf_image img -> wf_image (set_val img col row chan v).
Proof.
  unfold wf_image. simpl. now rewrite set_lin_length.
Qed.

Lemma val_set_same (img : Image A) col row chan v :
  wf_image img -> in_image img col row chan ->
  val dflt (set_val img col row chan v) col row chan = v.
Proof.
  intros Hw Hi. unfold val, set_val, index. simpl.
  apply get_set_lin_same. now apply index_range.
Qed.

Lemma val_set_other (img : Image A) col row chan v col' row' chan' :
  in_image img col row chan -> in_image img col' row' chan' ->
  (col, row, chan) <> (col', row', chan') ->
  val dflt (set_val img col row chan v) col' row' chan' = val dflt img col' row' chan'.
Proof.
  intros Hi Hi' Hne. unfold val, set_val, index. simpl.
  apply get_set_lin_other. intros E.
  apply Hne. destruct (index_inj img _ _ _ _ _ _ Hi Hi' E) as (-> & -> & ->).
  reflexivity.
Qed.

(** Every position of the buffer is the index of a cell. *)
Lemma index_decompose (img : Image A) i :
  wf_image img -> 0 <= i < Z.of_nat (length (data img)) ->
  exists col row chan, in_image img col row chan /\ i = index img col row chan.
Proof.
  unfold wf_image, in_image, index. intros (Hr & Hc & Hch & Hl) Hi.
  rewrite Hl in Hi.
  assert (0 < channels img) by nia. assert (0 < columns img) by nia.
  exists ((i / channels img) mod columns img),
         ((i / channels img) / columns img),
         (i mod channels img).
  pose proof (Z.mod_pos_bound i (channels img) ltac:(lia)).
  pose proof (Z.mod_pos_bound (i / channels img) (columns img) ltac:(lia)).
  pose proof (Z.div_mod i (channels img) ltac:(lia)).
  pose proof (Z.div_mod (i / channels img) (columns img) ltac:(lia)).
  assert (0 <= i / channels img) by (apply Z.div_pos; lia).
  assert (0 <= i / channels img / columns img) by (apply Z.div_pos; lia).
  assert (i / channels img < rows img * columns img).
  { apply Z.div_lt_upper_bound; nia. }
  assert (i / channels img / columns img < rows img).
  { apply Z.div_lt_upper_bound; nia. }
  repeat split; try lia; nia.
Qed.

Lemma image_ext (a b : Image A) :
  wf_image a -> wf_image b ->
  rows a = rows b -> columns a = columns b -> channels a = channels b ->
  (forall col row chan, in_image a col row chan ->
                        val dflt a col row chan = val dflt b col row chan) ->
  a = b.
Proof.
  intros Ha Hb Er Ec Ech H.
  destruct a as [ra ca cha da], b as [rb cb chb db]. simpl in *. subst.
  f_equal. apply get_lin_ext.
  - destruct Ha as (_ & _ & _ & La), Hb as (_ & _ & _ & Lb). simpl in *. lia.
  - intros i Hi.
    destruct (index_decompose (mkImage rb cb chb da) i Ha Hi)
      as (col & row & chan & Hc & ->).
    apply (H col row chan Hc).
Qed.

End BufferFacts.

(** ** SymmetricCoordinate *)

Lemma SymmetricCoordinate_nonneg pos size :
  in_int pos -> size_ok size -> 0 <= pos ->
  SymmetricCoordinate pos size = fold_sym size pos.
Proof.
  unfold size_ok. intros Hp Hs H0.
  unfold SymmetricCoordinate, fold_sym, int_mul, int_sub, int_neg, int_rem.
  destruct (Z.ltb_spec pos 0); [lia|].
  rewrite (wrap_small (2 * size)) by int_range.
  rewrite (wrap_small (2 * size - 1)) by int_range.
  pose proof (Z.mod_pos_bound pos (2 * size) ltac:(lia)) as Hm.
  unfold Z.geb.
  destruct (Z.compare_spec pos (2 * size)).
  - subst pos. rewrite Z.rem_mod_nonneg by lia.
    rewrite Z.mod_same in * by lia.
    rewrite (wrap_small 0) by int_range.
    destruct (Z.compare_spec 0 size); try lia.
    destruct (Z.ltb_spec 0 size); lia.
  - rewrite (Z.mod_small pos) by lia.
    destruct (Z.compare_spec pos size); destruct (Z.ltb_spec pos size); try lia;
      apply wrap_small; int_range.
  - rewrite Z.rem_mod_nonneg by lia.
    rewrite (wrap_small (pos mod (2 * size))) by int_range.
    destruct (Z.compare_spec (pos mod (2 * size)) size);
      destruct (Z.ltb_spec (pos mod (2 * size)) size); try lia;
      apply wrap_small; int_range.
Qed.

Lemma SymmetricCoordinate_neg pos size :
  in_int pos -> pos < 0 ->
  SymmetricCoordinate pos size = SymmetricCoordinate (- pos - 1) size.
Proof.
  intros Hp Hn.
  assert (E : int_sub (int_neg pos) 1 = - pos - 1).
  { unfold int_sub, int_neg. rewrite wrap_wrap_sub.
    apply wrap_small. int_range. }
  unfold SymmetricCoordinate. rewrite E.
  destruct (Z.ltb_spec pos 0); [|lia].
  destruct (Z.ltb_spec (- pos - 1) 0); [lia|]. reflexivity.
Qed.

Lemma SymmetricCoordinate_fold pos size :
  in_int pos -> size_ok size ->
  SymmetricCoordinate pos size =
  fold_sym size (if pos <? 0 then - pos - 1 else pos).
Proof.
  intros Hp Hs. destruct (Z.ltb_spec pos 0).
  - rewrite SymmetricCoordinate_neg by assumption.
    apply SymmetricCoordinate_nonneg; auto; int_range.
  - apply SymmetricCoordinate_nonneg; auto.
Qed.

Lemma fold_sym_range size p : 0 < size -> 0 <= fold_sym size p < size.
Proof.
  intros Hs. unfold fold_sym.
  pose proof (Z.mod_pos_bound p (2 * size) ltac:(lia)).
  destruct (Z.ltb_spec (p mod (2 * size)) size); lia.
Qed.

Lemma fold_sym_small size p : 0 <= p < size -> fold_sym size p = p.
Proof.
  intros H. unfold fold_sym. rewrite Z.mod_small by lia.
  destruct (Z.ltb_spec p size); lia.
Qed.

Lemma fold_sym_upper size p : size <= p < 2 * size ->
  fold_sym size p = 2 * size - 1 - p.
Proof.
  intros H. unfold fold_sym. rewrite Z.mod_small by lia.
  destruct (Z.ltb_spec p size); lia.
Qed.

Lemma fold_sym_period size p : 0 < size ->
  fold_sym size (p + 2 * size) = fold_sym size p.
Proof.
  intros Hs. unfold fold_sym.
  replace (p + 2 * size) with (p + 1 * (2 * size)) by lia.
  rewrite Z.mod_add by lia. reflexivity.
Qed.

Lemma fold_sym_reflect size p : 0 < size ->
  fold_sym size (- p - 1) = fold_sym size p.
Proof.
  intros Hs. unfold fold_sym.
  pose proof (Z.mod_pos_bound p (2 * size) ltac:(lia)) as Hm.
  assert (E : (- p - 1) mod (2 * size) = 2 * size - 1 - p mod (2 * size)).
  { symmetry. apply (Z.mod_unique_pos _ _ (- (p / (2 * size)) - 1)); [lia|].
    pose proof (Z.div_mod p (2 * size) ltac:(lia)). lia. }
  rewrite E.
  destruct (Z.ltb_spec (p mod (2 * size)) size);
    destruct (Z.ltb_spec (2 * size - 1 - p mod (2 * size)) size); lia.
Qed.

Lemma SymmetricCoordinate_period pos size :
  in_int pos -> in_int (pos + 2 * size) -> size_ok size ->
  SymmetricCoordinate (pos + 2 * size) size = SymmetricCoordinate pos size.
Proof.
  intros Hp Hq Hs. rewrite !SymmetricCoordinate_fold by assumption.
  assert (0 < size) by (unfold size_ok in Hs; lia).
  destruct (Z.ltb_spec pos 0); destruct (Z.ltb_spec (pos + 2 * size) 0); try lia.
  - rewrite <- (fold_sym_period size (- (pos + 2 * size) - 1)) by lia.
    f_equal. lia.
  - rewrite fold_sym_period by lia. symmetry. apply fold_sym_reflect. lia.
  - apply fold_sym_period. lia.
Qed.

(** C5, as amended.  For every [int] position and every size whose
    double fits an [int], SymmetricCoordinate lands in [0, size); it
    follows the symmetric boundary convention (-j goes to j - 1 and
    size - 1 + j to size - j for 1 <= j <= size, so -1 -> 0, -2 -> 1,
    size -> size - 1, size + 1 -> size - 2) with period 2 size; it
    fixes its own results (it is idempotent, not an involution); and the
    reflection p -> 2 size - 1 - p is an involution of the doubled range
    [0, 2 size) that SymmetricCoordinate does not see. *)
Theorem SymmetricCoordinate_spec pos size :
  in_int pos -> size_ok size ->
  0 <= SymmetricCoordinate pos size < size
  /\ (forall j, 1 <= j <= size ->
        SymmetricCoordinate (- j) size = j - 1 /\
        SymmetricCoordinate (size - 1 + j) size = size - j)
  /\ (in_int (pos + 2 * size) ->
        SymmetricCoordinate (pos + 2 * size) size = SymmetricCoordinate pos size)
  /\ SymmetricCoordinate (SymmetricCoordinate pos size) size
       = SymmetricCoordinate pos size
  /\ (0 <= pos < 2 * size ->
        0 <= reflect size pos < 2 * size /\
        reflect size (reflect size pos) = pos /\
        SymmetricCoordinate (reflect size pos) size = SymmetricCoordinate pos size).
Proof.
  intros Hp Hs. pose proof Hs as Hs'. unfold size_ok in Hs'.
  assert (R : forall p, in_int p -> 0 <= SymmetricCoordinate p size < size).
  { intros p Hpi. rewrite SymmetricCoordinate_fold by assumption.
    apply fold_sym_range. lia. }
  split; [apply R; assumption|].
  split.
  { intros j Hj. split.
    - rewrite SymmetricCoordinate_fold by (try assumption; int_range).
      destruct (Z.ltb_spec (- j) 0); [|lia].
      rewrite fold_sym_small by lia. lia.
    - rewrite SymmetricCoordinate_fold by (try assumption; int_range).
      destruct (Z.ltb_spec (size - 1 + j) 0); [lia|].
      rewrite fold_sym_upper by lia. lia. }
  split; [intros Hq; apply SymmetricCoordinate_period; assumption|].
  split.
  { specialize (R pos Hp).
    rewrite (SymmetricCoordinate_fold (SymmetricCoordinate pos size))
      by (try assumption; int_range).
    destruct (Z.ltb_spec (SymmetricCoordinate pos size) 0); [lia|].
    apply fold_sym_small. lia. }
  intros Hd. unfold reflect. split; [lia|]. split; [lia|].
  rewrite !SymmetricCoordinate_fold by (try assumption; int_range).
  destruct (Z.ltb_spec (2 * size - 1 - pos) 0); [lia|].
  destruct (Z.ltb_spec pos 0); [lia|].
  rewrite <- (fold_sym_reflect size pos) by lia.
  rewrite <- (fold_sym_period size (- pos - 1)) by lia.
  f_equal. lia.
Qed.

Lemma SymmetricCoordinate_spec_witness :
  in_int (-2) /\ size_ok 4 /\
  0 <= SymmetricCoordinate (-2) 4 < 4.
Proof.
  assert (Hp : in_int (-2)) by (unfold in_int, INT_MIN, INT_MAX; lia).
  assert (Hs : size_ok 4) by (unfold size_ok; lia).
  split; [exact Hp|]. split; [exact Hs|].
  exact (proj1 (SymmetricCoordinate_spec (-2) 4 Hp Hs)).
Defined.

(** C5, as stated, fails: on the doubled range the folding is not an
    involution.  With size 2, position 3 folds to 0, and 0 stays 0. *)
Lemma SymmetricCoordinate_not_involution :
  exists pos size,
    in_int pos /\ size_ok size /\ 0 <= pos < 2 * size /\
    SymmetricCoordinate (SymmetricCoordinate pos size) size <> pos.
Proof.
  exists 3, 2. unfold in_int, INT_MIN, INT_MAX, size_ok.
  repeat split; try lia. vm_compute. discriminate.
Qed.

(** ** Wrap-around is a ring morphism *)

Lemma wrap_mod a b :
  a mod 4294967296 = b mod 4294967296 -> wrap a = wrap b.
Proof.
  intros H. unfold wrap.
  rewrite <- (Zplus_mod_idemp_l a), H, Zplus_mod_idemp_l. reflexivity.
Qed.

Lemma wrap_congr a : (wrap a) mod 4294967296 = a mod 4294967296.
Proof.
  unfold wrap. rewrite Zminus_mod_idemp_l. f_equal. lia.
Qed.

Lemma int_add_wrap a b : int_add (wrap a) (wrap b) = wrap (a + b).
Proof.
  unfold int_add. apply wrap_mod.
  rewrite Zplus_mod, !wrap_congr, <- Zplus_mod. reflexivity.
Qed.

Lemma int_add_wrap_l a b : int_add (wrap a) b = wrap (a + b).
Proof.
  unfold int_add. apply wrap_mod.
  rewrite Zplus_mod, wrap_congr, <- Zplus_mod. reflexivity.
Qed.

Lemma int_mul_wrap_l a b : int_mul (wrap a) b = wrap (a * b).
Proof.
  unfold int_mul. apply wrap_mod.
  rewrite Zmult_mod, wrap_congr, <- Zmult_mod. reflexivity.
Qed.

Lemma int_mul_wrap_r a b : int_mul a (wrap b) = wrap (a * b).
Proof.
  unfold int_mul. apply wrap_mod.
  rewrite Zmult_mod, wrap_congr, <- Zmult_mod. reflexivity.
Qed.

Lemma int_sub_wrap_l a b : int_sub (wrap a) b = wrap (a - b).
Proof. apply wrap_wrap_sub. Qed.

(** ** ColorTransform on images that are not 3-channel *)

(** C9.  ColorTransform and ColorTransformInverse return their argument
    as it is whenever the channel count is not 3, whatever it is. *)
Theorem ColorTransform_not3 {Ar : Arith} (img : Image F) :
  channels img <> 3 ->
  ColorTransform img = img /\ ColorTransformInverse img = img.
Proof.
  intros H. unfold ColorTransform, ColorTransformInverse.
  destruct (Z.eqb_spec (channels img) 3); [contradiction|]. split; reflexivity.
Qed.

Lemma ColorTransform_not3_witness :
  let img := mkImage 1 2 4 (repeat (F32.of_int32 7) 8) in
  channels img <> 3 /\
  @ColorTransform F32.arith img = img /\ @ColorTransformInverse F32.arith img = img.
Proof.
  intros img.
  assert (H : channels img <> 3) by (simpl; lia).
  split; [exact H|]. exact (@ColorTransform_not3 F32.arith img H).
Defined.

(** ** ExtractPatch and FastExtractPatch *)

Section Extract.
  Context {A : Type} (dflt : A).
  Variables (src dst : Image A) (pr pc : Z).

Abbreviation patch_lin := (patch_lin dflt src dst pr pc).
Abbreviation filled := (filled dflt src dst pr pc).

Lemma filled_step n d v :
  filled n d -> 0 <= n < Z.of_nat (length (data dst)) -> v = patch_lin n ->
  filled (n + 1) (set_val1 d n v).
Proof.
  intros (Hr & Hc & Hch & Hl & Hv) Hn ->. unfold filled, set_val1, val1. simpl.
  rewrite set_lin_length. repeat split; auto.
  intros i Hi. destruct (Z.eq_dec i n) as [->|Hne].
  - apply get_set_lin_same. lia.
  - rewrite get_set_lin_other by auto. apply Hv. lia.
Qed.

Lemma filled_eq d d' :
  wf_image dst ->
  filled (rows dst * columns dst * channels dst) d ->
  filled (rows dst * columns dst * channels dst) d' -> d = d'.
Proof.
  intros (_ & _ & _ & Hw) (Hr & Hc & Hch & Hl & Hv) (Hr' & Hc' & Hch' & Hl' & Hv').
  destruct d as [rd cd chd dd], d' as [rd' cd' chd' dd']. simpl in *. subst.
  f_equal. apply (get_lin_ext dflt); [congruence|].
  intros i Hi. unfold val1 in *. simpl in *.
  rewrite Hv, Hv' by lia. reflexivity.
Qed.

  Hypothesis Hsrc : wf_image src.
  Hypothesis Hdst : wf_image dst.
  Hypothesis Hch : channels dst = channels src.
  Hypothesis Hpr : 0 <= pr /\ pr + rows dst <= rows src.
  Hypothesis Hpc : 0 <= pc /\ pc + columns dst <= columns src.
  Hypothesis Hint : rows src * columns src * channels src <= INT_MAX.

Lemma window_bounds col row chan :
  0 <= row < rows dst -> 0 <= col < columns dst -> 0 <= chan < channels dst ->
  0 <= (row * columns dst + col) * channels dst + chan
     < rows dst * columns dst * channels dst /\
  0 <= ((pr + row) * columns src + pc + col) * channels src + chan
     < rows src * columns src * channels src /\
  rows dst * columns dst * channels dst <= rows src * columns src * channels src.
Proof.
  intros H1 H2 H3. rewrite <- Hch.
  set (C := channels dst) in *.
  assert (E1 : row * columns dst + col <= rows dst * columns dst - 1) by nia.
  assert (E0 : 0 <= row * columns dst + col) by nia.
  assert (E2 : (pr + row) * columns src + pc + col <= rows src * columns src - 1) by nia.
  assert (E3 : 0 <= (pr + row) * columns src + pc + col) by nia.
  assert (E4 : rows dst * columns dst <= rows src * columns src) by nia.
  assert (E5 : 0 <= rows dst * columns dst) by nia.
  pose proof (Z.mul_le_mono_nonneg_r _ _ C ltac:(lia) E1).
  pose proof (Z.mul_le_mono_nonneg_r _ _ C ltac:(lia) E2).
  pose proof (Z.mul_le_mono_nonneg_r _ _ C ltac:(lia) E4).
  pose proof (Z.mul_nonneg_nonneg _ C E0 ltac:(lia)).
  pose proof (Z.mul_nonneg_nonneg _ C E3 ltac:(lia)).
  rewrite Z.mul_sub_distr_r in *.
  repeat split; lia.
Qed.

Lemma patch_lin_cell col row chan :
  0 <= row < rows dst -> 0 <= col < columns dst -> 0 <= chan < channels dst ->
  patch_lin ((row * columns dst + col) * channels dst + chan)
  = val dflt src (pc + col) (pr + row) chan.
Proof.
  intros H1 H2 H3. unfold patch_lin, val, val1, index. f_equal.
  assert (E : (row * columns dst + col) * channels dst + chan
              = row * (columns dst * channels dst) + (col * channels dst + chan)) by ring.
  assert (B : 0 <= col * channels dst + chan < columns dst * channels dst) by nia.
  rewrite E.
  rewrite (Z.add_comm (row * _)), Z.div_add, Z.mod_add by nia.
  rewrite Z.div_small, Z.mod_small by lia. rewrite <- Hch. ring.
Qed.

Lemma ExtractPatch_filled :
  filled (rows dst * columns dst * channels dst) (ExtractPatch dflt src pr pc dst).
Proof.
  destruct Hdst as (Hr0 & Hc0 & Hch0 & Hlen).
  unfold ExtractPatch.
  set (N := fun row col chan => (row * columns dst + col) * channels dst + chan).
  replace (rows dst * columns dst * channels dst) with (N (rows dst) 0 0)
    by (unfold N; ring).
  apply (for_loop_inv (fun row d => filled (N row 0 0) d)); [lia| |].
  { unfold filled, N. repeat split; auto. intros; lia. }
  intros row d Hrow Hd.
  replace (N (row + 1) 0 0) with (N row (columns dst) 0) by (unfold N; ring).
  rewrite (proj1 (proj2 Hd)).
  apply (for_loop_inv (fun col d => filled (N row col 0) d)); [lia|exact Hd|].
  intros col d' Hcol Hd'.
  replace (N row (col + 1) 0) with (N row col (channels dst)) by (unfold N; ring).
  rewrite (proj1 (proj2 (proj2 Hd'))).
  apply (for_loop_inv (fun chan d => filled (N row col chan) d)); [lia|exact Hd'|].
  intros chan d'' Hchan Hd''.
  destruct (window_bounds col row chan Hrow Hcol Hchan) as (B1 & B2 & B3).
  assert (Ed : set_val d'' col row chan
                 (val dflt src (int_add pc col) (int_add pr row) chan)
               = set_val1 d'' (N row col chan)
                 (val dflt src (int_add pc col) (int_add pr row) chan)).
  { destruct Hd'' as (_ & Hc'' & Hch'' & _).
    unfold set_val, set_val1, index, N. now rewrite Hc'', Hch''. }
  rewrite Ed. replace (N row col (chan + 1)) with (N row col chan + 1) by (unfold N; ring).
  apply filled_step; [exact Hd''|unfold N; lia|].
  unfold N. rewrite patch_lin_cell by assumption.
  assert (columns src <= INT_MAX /\ rows src <= INT_MAX) as (Bc & Br).
  { assert (1 <= channels src) by lia.
    assert (1 <= columns src) by lia. assert (1 <= rows src) by lia.
    assert (columns src <= rows src * columns src) by nia.
    assert (rows src <= rows src * columns src) by nia.
    assert (rows src * columns src <= rows src * columns src * channels src) by nia.
    unfold INT_MAX in *. split; lia. }
  rewrite !int_add_small by int_range. reflexivity.
Qed.

Lemma FastExtractPatch_filled :
  filled (rows dst * columns dst * channels dst) (FastExtractPatch dflt src pr pc dst).
Proof.
  destruct Hdst as (Hr0 & Hc0 & Hch0 & Hlen).
  unfold FastExtractPatch.
  set (wc := columns dst * channels dst).
  set (J := fun row el => ((pr + row) * columns src + pc) * channels src + el).
  set (Inv := fun row el (t : Image A * Z * Z) =>
                let '(d, i, j) := t in
                filled (row * wc + el) d /\ i = wrap (row * wc + el)
                /\ j = wrap (J row el)).
  match goal with
  | |- context [for_loop (rows dst) ?body ?init] =>
      assert (G : Inv (rows dst) 0 (for_loop (rows dst) body init))
  end.
  { apply (for_loop_inv (fun row t => Inv row 0 t)); [lia| |].
    - unfold Inv. split; [|split].
      + unfold filled. repeat split; auto. intros; lia.
      + replace (0 * wc + 0) with 0 by ring. reflexivity.
      + unfold J, int_mul, int_add. apply wrap_mod.
        rewrite Zmult_mod, wrap_congr, Zplus_mod, wrap_congr.
        rewrite <- Zplus_mod, <- Zmult_mod. f_equal. ring.
    - intros row [[d i] j] Hrow (Hd & Hi & Hj).
      assert (Bwc : 0 <= wc <= INT_MAX).
      { unfold wc. split; [nia|].
        assert (1 <= rows src) by lia.
        assert (columns dst * channels dst <= columns src * channels src)
          by (rewrite Hch; nia).
        nia. }
      unfold int_mul at 1. fold wc. rewrite (wrap_small wc) by int_range.
      match goal with
      | |- context [for_loop wc ?body ?init] =>
          assert (G : Inv row wc (for_loop wc body init))
      end.
      { apply (for_loop_inv (fun el t => Inv row el t)); [lia| |].
        - unfold Inv. auto.
        - intros el [[d' i'] j'] Hel (Hd' & Hi' & Hj').
          assert (0 < channels dst) by (unfold wc in *; nia).
          assert (0 < columns dst) by (unfold wc in *; nia).
          set (col := el / channels dst). set (chan := el mod channels dst).
          assert (Eel : el = col * channels dst + chan).
          { unfold col, chan. pose proof (Z.div_mod el (channels dst) ltac:(lia)). lia. }
          assert (Bchan : 0 <= chan < channels dst)
            by (apply Z.mod_pos_bound; lia).
          assert (Bcol : 0 <= col < columns dst).
          { unfold col. split; [apply Z.div_pos; lia|].
            apply Z.div_lt_upper_bound; unfold wc in *; lia. }
          destruct (window_bounds col row chan Hrow Bcol Bchan) as (B1 & B2 & B3).
          assert (Ei : row * wc + el = (row * columns dst + col) * channels dst + chan)
            by (unfold wc; rewrite Eel; ring).
          assert (Ej : J row el
                       = ((pr + row) * columns src + pc + col) * channels src + chan)
            by (unfold J; rewrite Eel, Hch; ring).
          unfold Inv. subst i' j'.
          rewrite !int_add_wrap_l.
          replace (row * wc + (el + 1)) with (row * wc + el + 1) by ring.
          replace (J row (el + 1)) with (J row el + 1) by (unfold J; ring).
          split; [|split; reflexivity].
          rewrite (wrap_small (row * wc + el)) by (rewrite Ei; int_range).
          apply filled_step; [exact Hd'|lia|].
          rewrite (wrap_small (J row el)) by (rewrite Ej; int_range).
          rewrite Ei, patch_lin_cell by assumption.
          unfold val, val1, index. rewrite Ej. f_equal. ring. }
      destruct (for_loop wc _ _) as [[d' i'] j']. unfold Inv in G |- *.
      destruct G as (Gd & Gi & Gj). subst i' j'.
      replace ((row + 1) * wc + 0) with (row * wc + wc) by ring.
      split; [exact Gd|]. split; [reflexivity|].
      unfold int_sub. rewrite int_mul_wrap_l, int_add_wrap.
      f_equal. unfold J, wc. rewrite Hch. ring. }
  destruct (for_loop (rows dst) _ _) as [[d i] j]. unfold Inv in G.
  destruct G as (G & _). replace (rows dst * wc + 0) with (rows dst * wc) in G by ring.
  unfold wc in G. now rewrite Z.mul_assoc in G.
Qed.

End Extract.

(** C8, as amended.  When the destination has the channel count of the
    source, its window lies inside the source and the source buffer is
    indexable by an [int], FastExtractPatch and ExtractPatch leave the
    same destination image. *)
Theorem FastExtractPatch_ExtractPatch {A : Type} (dflt : A)
    (src dst : Image A) (pr pc : Z) :
  wf_image src -> wf_image dst ->
  channels dst = channels src ->
  0 <= pr /\ pr + rows dst <= rows src ->
  0 <= pc /\ pc + columns dst <= columns src ->
  rows src * columns src * channels src <= INT_MAX ->
  FastExtractPatch dflt src pr pc dst = ExtractPatch dflt src pr pc dst.
Proof.
  intros Hsrc Hdst Hch Hpr Hpc Hint.
  apply (filled_eq dflt src dst pr pc); [exact Hdst| |].
  - now apply FastExtractPatch_filled.
  - now apply ExtractPatch_filled.
Qed.

Lemma FastExtractPatch_ExtractPatch_witness :
  let src := mkImage 2 3 2 [1; 2; 3; 4; 5; 6; 7; 8; 9; 10; 11; 12] in
  let dst := mkImage 1 2 2 [0; 0; 0; 0] in
  FastExtractPatch 0 src 1 1 dst = ExtractPatch 0 src 1 1 dst /\
  ExtractPatch 0 src 1 1 dst = mkImage 1 2 2 [9; 10; 11; 12].
Proof.
  intros src dst. split; [|reflexivity].
  apply (FastExtractPatch_ExtractPatch 0 src dst 1 1);
    unfold wf_image, INT_MAX; simpl; lia.
Defined.

(** C8, as stated, fails when the destination has fewer channels than
    the source: the window of a 1 x 2 single-channel patch lies inside a
    1 x 2 two-channel source, ExtractPatch copies channel 0 of the two
    pixels, FastExtractPatch the two channels of the first pixel. *)
Lemma FastExtractPatch_channels_differ :
  let src := mkImage 1 2 2 [10; 11; 20; 21] in
  let dst := mkImage 1 2 1 [0; 0] in
  wf_image src /\ wf_image dst /\
  0 + rows dst <= rows src /\ 0 + columns dst <= columns src /\
  ExtractPatch 0 src 0 0 dst = mkImage 1 2 1 [10; 20] /\
  FastExtractPatch 0 src 0 0 dst = mkImage 1 2 1 [10; 11] /\
  FastExtractPatch 0 src 0 0 dst <> ExtractPatch 0 src 0 0 dst.
Proof.
  unfold wf_image. simpl. repeat split; try lia. discriminate.
Qed.

(** ** Loops that rewrite an image pixel by pixel *)

Section PixelLoop.
  Context {A : Type} (dflt : A).

Lemma same_shape_in_image (a b : Image A) col row chan :
  same_shape a b -> in_image b col row chan -> in_image a col row chan.
Proof. unfold same_shape, in_image. intros (-> & -> & ->). auto. Qed.

Lemma set_val_shape (img : Image A) col row chan v :
  same_shape (set_val img col row chan v) img.
Proof. unfold same_shape. auto. Qed.

Lemma same_shape_trans (a b c : Image A) :
  same_shape a b -> same_shape b c -> same_shape a c.
Proof. unfold same_shape. intros (-> & -> & ->) (-> & -> & ->). auto. Qed.

(** A row/column loop nest whose body, at (row, col), rewrites the pixel
    (col, row) from what the image held there and leaves every other
    pixel alone, ends with every pixel rewritten.  [G] gives the new
    value of a cell. *)
Lemma pixel_loop_spec (img : Image A) (ncf : Image A -> Z)
    (body : Z -> Z -> Image A -> Image A) (G : Z -> Z -> Z -> A) :
  wf_image img ->
  (forall d, same_shape d img -> ncf d = columns img) ->
  (forall row col d,
      0 <= row < rows img -> 0 <= col < columns img ->
      wf_image d -> same_shape d img ->
      (forall ch, 0 <= ch < channels img ->
                  val dflt d col row ch = val dflt img col row ch) ->
      wf_image (body row col d) /\ same_shape (body row col d) img /\
      (forall ch, 0 <= ch < channels img ->
                  val dflt (body row col d) col row ch = G col row ch) /\
      (forall c r ch, in_image img c r ch -> (c, r) <> (col, row) ->
                      val dflt (body row col d) c r ch = val dflt d c r ch)) ->
  let res := for_loop (rows img) (fun row d =>
               for_loop (ncf d) (fun col d => body row col d) d) img in
  wf_image res /\ same_shape res img /\
  forall col row ch, in_image img col row ch -> val dflt res col row ch = G col row ch.
Proof.
  intros Hwf Hnc Hbody res.
  set (done := fun row col r c => (r <? row) || ((r =? row) && (c <? col))).
  set (Inv := fun row col d =>
     wf_image d /\ same_shape d img /\
     forall c r ch, in_image img c r ch ->
       val dflt d c r ch = if done row col r c then G c r ch else val dflt img c r ch).
  assert (Hfin : Inv (rows img) 0 res).
  { subst res. destruct Hwf as (Hr0 & Hc0 & Hch0 & Hlen).
    apply (for_loop_inv (fun row d => Inv row 0 d)); [lia| |].
    - unfold Inv. split; [repeat split; assumption|]. split; [repeat split|].
      intros c r ch (Hc & Hr & Hch). unfold done.
      destruct (Z.ltb_spec r 0); [lia|].
      destruct (Z.ltb_spec c 0); [lia|]. now rewrite andb_false_r.
    - intros row d Hrow Hd.
      assert (Hnext : Inv row (columns img) (for_loop (ncf d)
                         (fun col d => body row col d) d)).
      { rewrite (Hnc d) by apply Hd.
        apply (for_loop_inv (fun col d => Inv row col d)); [lia|exact Hd|].
        intros col d' Hcol (Hw' & Hs' & Hv').
        assert (Hpix : forall ch, 0 <= ch < channels img ->
                   val dflt d' col row ch = val dflt img col row ch).
        { intros ch Hch. rewrite Hv' by (unfold in_image; lia). unfold done.
          destruct (Z.ltb_spec row row); [lia|].
          destruct (Z.ltb_spec col col); [lia|]. now rewrite andb_false_r. }
        destruct (Hbody row col d' Hrow Hcol Hw' Hs' Hpix) as (Bw & Bs & Bsame & Bother).
        split; [exact Bw|]. split; [exact Bs|].
        intros c r ch Hin. pose proof Hin as (Hc & Hr & Hch).
        destruct (Z.eq_dec r row) as [->|Hr'].
        - destruct (Z.eq_dec c col) as [->|Hc'].
          + rewrite Bsame by lia. unfold done.
            destruct (Z.ltb_spec col (col + 1)); [|lia].
            rewrite Z.eqb_refl. now rewrite orb_true_r.
          + rewrite Bother by (auto; congruence). rewrite Hv' by assumption.
            unfold done. rewrite Z.eqb_refl. cbn [andb].
            destruct (Z.ltb_spec c col); destruct (Z.ltb_spec c (col + 1));
              try lia; reflexivity.
        - rewrite Bother by (auto; congruence). rewrite Hv' by assumption.
          unfold done. destruct (Z.eqb_spec r row); [contradiction|].
          reflexivity. }
      destruct Hnext as (Hw' & Hs' & Hv'). split; [exact Hw'|]. split; [exact Hs'|].
      intros c r ch Hin. rewrite Hv' by assumption. pose proof Hin as (Hc & Hr & Hch).
      unfold done.
      destruct (Z.ltb_spec r row); destruct (Z.ltb_spec r (row + 1));
        destruct (Z.eqb_spec r row); destruct (Z.eqb_spec r (row + 1));
        destruct (Z.ltb_spec c (columns img)); destruct (Z.ltb_spec c 0);
        try lia; reflexivity. }
  destruct Hfin as (Hw' & Hs' & Hv'). split; [exact Hw'|]. split; [exact Hs'|].
  intros col row ch Hin. rewrite Hv' by assumption. pose proof Hin as (Hc & Hr & Hch).
  unfold done. destruct (Z.ltb_spec row (rows img)); [reflexivity|lia].
Qed.

End PixelLoop.

(** ** ColorTransform and ColorTransformInverse, pixel by pixel *)

Section Pixel3.
  Context {A : Type} (dflt : A).

(** Three stores into the channels of one pixel of a 3-channel image. *)
Lemma pixel3_store (img d : Image A) col row (v : Z -> A) :
  channels img = 3 ->
  0 <= row < rows img -> 0 <= col < columns img ->
  wf_image d -> same_shape d img ->
  let d' := set_val (set_val (set_val d col row 0 (v 0)) col row 1 (v 1))
                    col row 2 (v 2) in
  wf_image d' /\ same_shape d' img /\
  (forall ch, 0 <= ch < channels img -> val dflt d' col row ch = v ch) /\
  (forall c r ch, in_image img c r ch -> (c, r) <> (col, row) ->
                  val dflt d' c r ch = val dflt d c r ch).
Proof.
  intros H3 Hrow Hcol Hw Hs d'. pose proof Hs as (Er & Ec & Ech).
  set (d0 := set_val d col row 0 (v 0)).
  set (d1 := set_val d0 col row 1 (v 1)).
  assert (W0 : wf_image d0) by now apply set_val_wf.
  assert (W1 : wf_image d1) by now apply set_val_wf.
  assert (I : forall (e : Image A) ch, same_shape e img -> 0 <= ch < 3 ->
                                       in_image e col row ch).
  { intros e ch (Er' & Ec' & Ech') Hch. unfold in_image. lia. }
  assert (S0 : same_shape d0 img) by exact Hs.
  assert (S1 : same_shape d1 img) by exact Hs.
  split; [now apply set_val_wf|]. split; [exact Hs|]. split.
  - intros ch Hch. rewrite H3 in Hch. unfold d'.
    destruct (Z.eq_dec ch 2) as [->|N2].
    { apply val_set_same; [exact W1|apply I; [exact S1|lia]]. }
    rewrite val_set_other
      by (try (apply I; [assumption|lia]); intros E; inversion E; lia).
    unfold d1. destruct (Z.eq_dec ch 1) as [->|N1].
    { apply val_set_same; [exact W0|apply I; [exact S0|lia]]. }
    rewrite val_set_other
      by (try (apply I; [assumption|lia]); intros E; inversion E; lia).
    unfold d0. replace ch with 0 by lia.
    apply val_set_same; [exact Hw|apply I; [exact Hs|lia]].
  - intros c r ch Hin Hne. unfold d', d1, d0.
    assert (Hin' : forall e : Image A, same_shape e img -> in_image e c r ch).
    { intros e He. eapply same_shape_in_image; eauto. }
    rewrite !val_set_other
      by (try (apply I; [assumption|lia]); try (apply Hin'; assumption);
          intros E; inversion E; subst; apply Hne; reflexivity).
    reflexivity.
Qed.

End Pixel3.

Lemma ColorTransform_pixels {Ar : Arith} (img : Image F) :
  wf_image img -> channels img = 3 ->
  wf_image (ColorTransform img) /\ same_shape (ColorTransform img) img /\
  forall col row ch, in_image img col row ch ->
    fval (ColorTransform img) col row ch
    = ct_fwd (fval img col row 0) (fval img col row 1) (fval img col row 2) ch.
Proof.
  intros Hw H3. unfold ColorTransform. rewrite H3. cbn [Z.eqb Pos.eqb].
  apply (pixel_loop_spec fzero img (fun d => columns d)
           (fun row col d =>
              set_val (set_val (set_val d col row 0 _) col row 1 _) col row 2 _)
           (fun col row ch =>
              ct_fwd (fval img col row 0) (fval img col row 1) (fval img col row 2) ch));
    [exact Hw|intros d (_ & E & _); exact E|].
  intros row col d Hrow Hcol Hwd Hs Hpix.
  rewrite !Hpix by lia.
  apply (pixel3_store fzero img d col row
           (fun ch => ct_fwd (fval img col row 0) (fval img col row 1)
                             (fval img col row 2) ch)); assumption.
Qed.

Lemma ColorTransformInverse_pixels {Ar : Arith} (img : Image F) :
  wf_image img -> channels img = 3 ->
  wf_image (ColorTransformInverse img) /\
  same_shape (ColorTransformInverse img) img /\
  forall col row ch, in_image img col row ch ->
    fval (ColorTransformInverse img) col row ch
    = ct_inv (fval img col row 0) (fval img col row 1) (fval img col row 2) ch.
Proof.
  intros Hw H3. unfold ColorTransformInverse. rewrite H3. cbn [Z.eqb Pos.eqb].
  apply (pixel_loop_spec fzero img (fun d => columns d)
           (fun row col d =>
              set_val (set_val (set_val d col row 0 _) col row 1 _) col row 2 _)
           (fun col row ch =>
              ct_inv (fval img col row 0) (fval img col row 1) (fval img col row 2) ch));
    [exact Hw|intros d (_ & E & _); exact E|].
  intros row col d Hrow Hcol Hwd Hs Hpix.
  rewrite !Hpix by lia.
  apply (pixel3_store fzero img d col row
           (fun ch => ct_inv (fval img col row 0) (fval img col row 1)
                             (fval img col row 2) ch)); assumption.
Qed.

(** ** The colour transform in exact arithmetic *)

Lemma sqrt_2_3_6 :
  (sqrt 2 * sqrt 2 = 2 /\ sqrt 3 * sqrt 3 = 3 /\ sqrt 6 = sqrt 2 * sqrt 3 /\
   0 < sqrt 2 /\ 0 < sqrt 3)%R.
Proof.
  repeat split.
  - apply sqrt_sqrt; lra.
  - apply sqrt_sqrt; lra.
  - rewrite <- sqrt_mult by lra. f_equal; lra.
  - apply sqrt_lt_R0; lra.
  - apply sqrt_lt_R0; lra.
Qed.

Ltac sqrt_algebra :=
  let S2 := fresh "S2" in let S3 := fresh "S3" in let S6 := fresh "S6" in
  let P2 := fresh "P2" in let P3 := fresh "P3" in
  destruct sqrt_2_3_6 as (S2 & S3 & S6 & P2 & P3);
  rewrite ?S6;
  set (s2 := sqrt 2) in *; set (s3 := sqrt 3) in *; clearbody s2 s3; clear S6.

Lemma ct_inv_fwd_exact (r g b : R) ch :
  0 <= ch < 3 ->
  @ct_inv Exact.arith (@ct_fwd Exact.arith r g b 0) (@ct_fwd Exact.arith r g b 1)
          (@ct_fwd Exact.arith r g b 2) ch
  = (if ch =? 0 then r else if ch =? 1 then g else b).
Proof.
  intros Hch. unfold ct_inv, ct_fwd. cbn -[sqrt Z.eqb]. cbn [Z.eqb Pos.eqb].
  sqrt_algebra.
  assert (N2 : s2 <> 0%R) by lra. assert (N3 : s3 <> 0%R) by lra.
  assert (N23 : (s2 * s3 * (s2 * s3))%R <> 0%R) by (repeat apply Rmult_integral_contrapositive_currified; assumption).
  assert (N33 : (s3 * s3)%R <> 0%R) by (apply Rmult_integral_contrapositive_currified; assumption).
  destruct (Z.eqb_spec ch 0); [|destruct (Z.eqb_spec ch 1)].
  - apply (Rmult_eq_reg_r (s2 * s3 * (s2 * s3))); [|assumption].
    field_simplify; try lra.
    replace (s2 ^ 2)%R with 2%R by (rewrite <- S2; ring).
    replace (s3 ^ 2)%R with 3%R by (rewrite <- S3; ring). ring.
  - apply (Rmult_eq_reg_r (s3 * s3)); [|assumption].
    field_simplify; try lra.
    replace (s2 ^ 2)%R with 2%R by (rewrite <- S2; ring).
    replace (s3 ^ 2)%R with 3%R by (rewrite <- S3; ring). ring.
  - apply (Rmult_eq_reg_r (s2 * s3 * (s2 * s3))); [|assumption].
    field_simplify; try lra.
    replace (s2 ^ 2)%R with 2%R by (rewrite <- S2; ring).
    replace (s3 ^ 2)%R with 3%R by (rewrite <- S3; ring). ring.
Qed.

Lemma ct_fwd_matrix (p : Z -> R) ch :
  0 <= ch < 3 ->
  @ct_fwd Exact.arith (p 0) (p 1) (p 2) ch = mat_vec ct_coeff p ch.
Proof.
  intros Hch. unfold ct_fwd, mat_vec, ct_coeff. cbn -[sqrt Z.eqb]. cbn [Z.eqb Pos.eqb].
  sqrt_algebra.
  destruct (Z.eqb_spec ch 0); [|destruct (Z.eqb_spec ch 1)]; field; lra.
Qed.

Lemma ct_inv_matrix (p : Z -> R) ch :
  0 <= ch < 3 ->
  @ct_inv Exact.arith (p 0) (p 1) (p 2) ch = mat_vec (transpose ct_coeff) p ch.
Proof.
  intros Hch. unfold ct_inv, mat_vec, transpose, ct_coeff.
  cbn -[sqrt Z.eqb]. cbn [Z.eqb Pos.eqb].
  sqrt_algebra.
  assert (N2 : s2 <> 0%R) by lra. assert (N3 : s3 <> 0%R) by lra.
  assert (C : ch = 0 \/ ch = 1 \/ ch = 2) by lia.
  destruct C as [->|[->| ->]]; cbn [Z.eqb Pos.eqb].
  - field. auto.
  - apply (Rmult_eq_reg_r (s3 * (s2 * s3))).
    2:{ repeat apply Rmult_integral_contrapositive_currified; assumption. }
    field_simplify; try lra.
    replace (s2 ^ 2)%R with 2%R by (rewrite <- S2; ring). ring.
  - field. auto.
Qed.

Lemma ct_coeff_orthonormal i j :
  0 <= i < 3 -> 0 <= j < 3 ->
  (ct_coeff i 0 * ct_coeff j 0 + ct_coeff i 1 * ct_coeff j 1
   + ct_coeff i 2 * ct_coeff j 2)%R = (if i =? j then 1 else 0)%R.
Proof.
  intros Hi Hj.
  assert (Ci : i = 0 \/ i = 1 \/ i = 2) by lia.
  assert (Cj : j = 0 \/ j = 1 \/ j = 2) by lia.
  unfold ct_coeff. sqrt_algebra.
  assert (N2 : s2 <> 0%R) by lra. assert (N3 : s3 <> 0%R) by lra.
  assert (N23 : (s2 * s3)%R <> 0%R) by (apply Rmult_integral_contrapositive_currified; assumption).
  destruct Ci as [->|[->| ->]]; destruct Cj as [->|[->| ->]]; cbn [Z.eqb Pos.eqb];
    match goal with
    | |- _ = 0%R => field; auto
    | |- _ = 1%R => idtac
    end.
  - apply (Rmult_eq_reg_r (s3 * s3)); [|apply Rmult_integral_contrapositive_currified; assumption].
    field_simplify; try lra.
  - apply (Rmult_eq_reg_r (s2 * s2)); [|apply Rmult_integral_contrapositive_currified; assumption].
    field_simplify; try lra.
  - apply (Rmult_eq_reg_r (s2 * s3 * (s2 * s3))); [|apply Rmult_integral_contrapositive_currified; assumption].
    field_simplify; try lra.
    replace (s2 ^ 2)%R with 2%R by (rewrite <- S2; ring).
    replace (s3 ^ 2)%R with 3%R by (rewrite <- S3; ring). ring.
Qed.




(** ** ComputeTiling *)

Lemma int_rem_pos N r :
  0 <= N -> 0 < r <= INT_MAX -> int_rem N r = N mod r.
Proof.
  intros HN Hr. unfold int_rem. rewrite Z.rem_mod_nonneg by lia.
  pose proof (Z.mod_pos_bound N r ltac:(lia)).
  apply wrap_small. int_range.
Qed.

Lemma search_down_spec N : 0 <= N ->
  forall fuel r, 1 <= r <= INT_MAX -> r <= Z.of_nat fuel + 1 ->
  exists d, search_down fuel N r = Some d /\ 1 <= d <= r /\ N mod d = 0 /\
            forall d', d < d' <= r -> N mod d' <> 0.
Proof.
  intros HN. induction fuel as [|fuel IH]; intros r Hr Hf.
  - assert (r = 1) by lia. subst r. exists 1. cbn [search_down].
    rewrite int_rem_pos by (unfold INT_MAX; lia). rewrite Z.mod_1_r.
    cbn. repeat split; try lia; try apply Z.mod_1_r.
  - cbn [search_down]. rewrite int_rem_pos by lia.
    destruct (Z.eqb_spec (N mod r) 0) as [E|E]; cbn [negb].
    + exists r. repeat split; try lia.
    + assert (r <> 1) by (intros ->; rewrite Z.mod_1_r in E; lia).
      rewrite int_sub_small by int_range.
      destruct (IH (r - 1) ltac:(lia) ltac:(lia)) as (d & Hd & Hr' & Hm & Hmax).
      exists d. repeat split; try lia; try assumption.
      intros d' Hd'. destruct (Z.eq_dec d' r) as [->|]; [exact E|].
      apply Hmax. lia.
Qed.

Lemma search_up_spec N : 0 < N <= INT_MAX ->
  forall fuel r, 1 <= r <= N -> N - r <= Z.of_nat fuel ->
  exists d, search_up fuel N r = Some d /\ r <= d <= N /\ N mod d = 0 /\
            forall d', r <= d' < d -> N mod d' <> 0.
Proof.
  intros HN. induction fuel as [|fuel IH]; intros r Hr Hf.
  - assert (r = N) by lia. subst r. exists N. cbn [search_up].
    rewrite int_rem_pos by lia. rewrite Z.mod_same by lia.
    cbn. repeat split; try lia; try (apply Z.mod_same; lia).
  - cbn [search_up]. rewrite int_rem_pos by lia.
    destruct (Z.eqb_spec (N mod r) 0) as [E|E]; cbn [negb].
    + exists r. repeat split; try lia.
    + assert (r <> N) by (intros ->; rewrite Z.mod_same in E; lia).
      rewrite int_add_small by int_range.
      destruct (IH (r + 1) ltac:(lia) ltac:(lia)) as (d & Hd & Hr' & Hm & Hmin).
      exists d. repeat split; try lia; try assumption.
      intros d' Hd'. destruct (Z.eq_dec d' r) as [->|]; [exact E|].
      apply Hmin. lia.
Qed.

Lemma static_cast_int_range {Ar : Arith} (x : F) : in_int (static_cast_int x).
Proof.
  unfold static_cast_int.
  destruct (f_trunc x) as [t|]; [|int_range].
  destruct (Z.leb_spec INT_MIN t); destruct (Z.leb_spec t INT_MAX);
    cbn [andb]; int_range.
Qed.

(** The three exits of ComputeTiling, in terms of the first [r_low]. *)
Lemma ComputeTiling_cases {Ar : Arith} (H W N : Z) :
  0 < N <= INT_MAX ->
  let r := r_low0 H W N in
  (r < 1 -> ComputeTiling H W N = Some (1, N)) /\
  (N <= r < INT_MAX -> ComputeTiling H W N = Some (N, 1)) /\
  (1 <= r < N ->
   exists lo up,
     (1 <= lo <= r /\ N mod lo = 0 /\ forall d, lo < d <= r -> N mod d <> 0) /\
     (r < up <= N /\ N mod up = 0 /\ forall d, r < d < up -> N mod d <> 0) /\
     ComputeTiling H W N =
       Some (if int_mul (int_mul up lo) W >? int_mul N H
             then (lo, N / lo) else (up, N / up))).
Proof.
  intros HN r. unfold ComputeTiling. fold r.
  split; [|split].
  - intros Hr. destruct (Z.ltb_spec r 1); [reflexivity|lia].
  - intros Hr. destruct (Z.ltb_spec r 1); [lia|].
    rewrite int_add_small by int_range.
    destruct (Z.gtb_spec (r + 1) N); [reflexivity|lia].
  - intros Hr. destruct (Z.ltb_spec r 1); [lia|].
    rewrite int_add_small by int_range.
    destruct (Z.gtb_spec (r + 1) N); [lia|].
    destruct (search_down_spec N ltac:(lia) (Z.to_nat r) r ltac:(lia) ltac:(lia))
      as (lo & Elo & Blo & Mlo & Xlo).
    destruct (search_up_spec N ltac:(lia) (Z.to_nat (N - (r + 1))) (r + 1)
                ltac:(lia) ltac:(lia)) as (up & Eup & Bup & Mup & Xup).
    rewrite Elo, Eup. exists lo, up.
    split; [repeat split; try lia; assumption|].
    split; [repeat split; try lia; try assumption; intros; apply Xup; lia|].
    assert (Q : forall d, 1 <= d <= N -> int_div N d = N / d).
    { intros d Hd. unfold int_div. rewrite Z.quot_div_nonneg by lia.
      apply wrap_small. pose proof (Z.div_le_upper_bound N d N ltac:(lia) ltac:(nia)).
      pose proof (Z.div_pos N d ltac:(lia) ltac:(lia)). int_range. }
    rewrite !Q by lia.
    destruct (int_mul (int_mul up lo) W >? int_mul N H); reflexivity.
Qed.

Example ComputeTiling_f32_vga :
  @ComputeTiling F32.arith 480 640 4 = Some (2, 2) /\
  @ComputeTiling F32.arith 480 640 6 = Some (2, 3) /\
  @ComputeTiling F32.arith 100 1000 8 = Some (1, 8) /\
  @ComputeTiling F32.arith 1000 10 8 = Some (8, 1).
Proof. repeat split; vm_compute; reflexivity. Qed.

(** In exact arithmetic the first [r_low] is the integer part of
    f = sqrt (N H / W). *)
Lemma r_low0_exact (H W N : Z) :
  0 < H -> 0 < W -> 0 < N -> N * H <= INT_MAX ->
  let f := sqrt (IZR (N * H) / IZR W) in
  let k := @r_low0 Exact.arith H W N in
  (IZR k <= f < IZR k + 1)%R /\ 0 <= k <= 46341.
Proof.
  intros HH HW HN Hb f k.
  assert (Ef : @best_r Exact.arith H W N = f).
  { unfold best_r. cbn. rewrite int_mul_small by (int_range; nia). reflexivity. }
  assert (P : (0 <= f)%R) by apply sqrt_pos.
  assert (B : (f <= 46341)%R).
  { unfold f. rewrite <- (sqrt_square 46341) by lra.
    apply sqrt_le_1_alt.
    assert (X : (IZR (N * H) <= 2147483647)%R) by (apply IZR_le; int_range).
    assert (Y : (1 <= IZR W)%R) by (apply IZR_le; lia).
    assert (Z0 : (0 <= IZR (N * H))%R) by (apply IZR_le; nia).
    apply Rle_trans with (IZR (N * H)); [|lra].
    unfold Rdiv. rewrite <- (Rmult_1_r (IZR (N * H))) at 2.
    apply Rmult_le_compat_l; [exact Z0|].
    rewrite <- Rinv_1. apply Rinv_le_contravar; lra. }
  pose proof (base_Int_part f) as (I1 & I2).
  assert (K0 : 0 <= Int_part f).
  { assert (X : (IZR (-1) < IZR (Int_part f))%R) by lra.
    apply lt_IZR in X. lia. }
  assert (K1 : Int_part f <= 46341).
  { apply le_IZR. lra. }
  assert (Ek : k = Int_part f).
  { unfold k, r_low0. rewrite Ef. unfold static_cast_int. cbn.
    destruct (Rle_dec 0 f); [|contradiction].
    destruct (Z.leb_spec INT_MIN (Int_part f)); destruct (Z.leb_spec (Int_part f) INT_MAX);
      cbn [andb]; int_range. }
  rewrite Ek. split; [lra|lia].
Qed.

Lemma sq_le_of_le_sqrt (d P W : Z) :
  0 < W -> 0 <= P -> 0 <= d ->
  (IZR d <= sqrt (IZR P / IZR W))%R -> d * d * W <= P.
Proof.
  intros HW HP Hd Hle.
  assert (PW : (0 < IZR W)%R) by (apply IZR_lt; lia).
  assert (Q : (0 <= IZR P / IZR W)%R).
  { apply Rmult_le_pos; [apply IZR_le; lia|]. apply Rlt_le, Rinv_0_lt_compat, PW. }
  assert (D : (0 <= IZR d)%R) by (apply IZR_le; lia).
  assert (S : (IZR d * IZR d <= IZR P / IZR W)%R).
  { rewrite <- (sqrt_sqrt _ Q). apply Rmult_le_compat; assumption. }
  apply le_IZR. rewrite !mult_IZR.
  apply (Rmult_le_compat_r (IZR W)) in S; [|lra].
  replace (IZR P / IZR W * IZR W)%R with (IZR P) in S by (field; lra). exact S.
Qed.

Lemma sq_gt_of_gt_sqrt (d P W : Z) :
  0 < W -> 0 <= P -> 0 <= d ->
  (sqrt (IZR P / IZR W) < IZR d)%R -> P < d * d * W.
Proof.
  intros HW HP Hd Hlt.
  assert (PW : (0 < IZR W)%R) by (apply IZR_lt; lia).
  assert (Q : (0 <= IZR P / IZR W)%R).
  { apply Rmult_le_pos; [apply IZR_le; lia|]. apply Rlt_le, Rinv_0_lt_compat, PW. }
  pose proof (sqrt_pos (IZR P / IZR W)) as SP.
  assert (S : (IZR P / IZR W < IZR d * IZR d)%R).
  { rewrite <- (sqrt_sqrt _ Q). apply Rmult_le_0_lt_compat; assumption. }
  apply lt_IZR. rewrite !mult_IZR.
  apply (Rmult_lt_compat_r (IZR W)) in S; [|lra].
  replace (IZR P / IZR W * IZR W)%R with (IZR P) in S by (field; lra). exact S.
Qed.

(** Between the divisor below and the divisor above, the test of the
    source picks the one whose grid is closer to the aspect of the image:
    it minimises |tr W - tc H|. *)
Lemma tiling_choice (H W N lo up : Z) :
  0 < H -> 0 < W -> 0 < lo -> 0 < up ->
  (lo | N) -> (up | N) ->
  lo * lo * W <= N * H -> N * H < up * up * W ->
  (N * H < up * lo * W ->
     Z.abs (lo * W - N / lo * H) <= Z.abs (up * W - N / up * H)) /\
  (up * lo * W <= N * H ->
     Z.abs (up * W - N / up * H) <= Z.abs (lo * W - N / lo * H)).
Proof.
  intros HH HW Hlo Hup [a Ea] [b Eb] Hl Hu.
  assert (Da : N / lo = a) by (subst N; apply Z.div_mul; lia).
  assert (Db : N / up = b) by (rewrite Eb; apply Z.div_mul; lia).
  rewrite Da, Db.
  assert (L : lo * W <= a * H).
  { apply (Z.mul_le_mono_pos_l _ _ lo); [lia|]. subst N. nia. }
  assert (U : b * H < up * W).
  { apply (Z.mul_lt_mono_pos_l up); [lia|]. rewrite Eb in Hu. nia. }
  split; intros C.
  - assert (X : (a + b) * H < (lo + up) * W).
    { apply (Z.mul_lt_mono_pos_l (lo * up)); [nia|].
      replace (lo * up * ((a + b) * H)) with (a * lo * up * H + b * up * lo * H) by ring.
      rewrite <- Ea, <- Eb. nia. }
    lia.
  - assert (X : (lo + up) * W <= (a + b) * H).
    { apply (Z.mul_le_mono_pos_l _ _ (lo * up)); [nia|].
      replace (lo * up * ((a + b) * H)) with (a * lo * up * H + b * up * lo * H) by ring.
      rewrite <- Ea, <- Eb. nia. }
    lia.
Qed.

(** C6.  In exact arithmetic and for sizes that do not overflow an
    [int], ComputeTiling returns a pair whose product is N; it is (1, N)
    when f = sqrt (N H / W) < 1 and (N, 1) when f >= N; otherwise tr is
    the greatest divisor of N at most f or the least divisor above f,
    the former exactly when up * lo * W > N * H, and the choice
    minimises the mismatch as the claim writes it (|tr tc W - N H|, the
    same for every factorisation) and as the aspect ratio reads it
    (|tr W - tc H|). *)
Theorem ComputeTiling_spec (H W N : Z) :
  0 < H -> 0 < W -> 0 < N -> N * H <= INT_MAX -> N * N * W <= INT_MAX ->
  let f := sqrt (IZR (N * H) / IZR W) in
  exists tr tc,
    @ComputeTiling Exact.arith H W N = Some (tr, tc) /\
    tr * tc = N /\
    ((f < 1)%R -> tr = 1 /\ tc = N) /\
    ((IZR N <= f)%R -> tr = N /\ tc = 1) /\
    ((1 <= f < IZR N)%R ->
       exists lo up,
         divisor_below N f lo /\ divisor_above N f up /\
         (tr = lo \/ tr = up) /\
         (tr = lo <-> N * H < up * lo * W) /\
         forall d, d = lo \/ d = up ->
           Z.abs (tr * tc * W - N * H) <= Z.abs (d * (N / d) * W - N * H) /\
           Z.abs (tr * W - tc * H) <= Z.abs (d * W - N / d * H)).
Proof.
  intros HH HW HN Hb Hb2 f.
  assert (BN : N <= INT_MAX) by (unfold INT_MAX in *; nia).
  destruct (r_low0_exact H W N HH HW HN Hb) as ((K1 & K2) & K3). fold f in K1, K2.
  destruct (@ComputeTiling_cases Exact.arith H W N ltac:(lia)) as (C1 & C2 & C3).
  set (k := @r_low0 Exact.arith H W N) in *.
  destruct (Z.lt_ge_cases k 1) as [Hk|Hk]; [|destruct (Z.le_gt_cases N k) as [Hk'|Hk']].
  - (* f < 1 *)
    exists 1, N. split; [apply C1; exact Hk|]. split; [lia|].
    assert (F1 : (f < 1)%R).
    { apply Rlt_le_trans with (IZR k + 1)%R; [exact K2|].
      rewrite <- plus_IZR. apply IZR_le. lia. }
    split; [auto|]. split.
    + intros X. assert (1 <= IZR N)%R by (apply IZR_le; lia). lra.
    + intros X. lra.
  - (* N <= f *)
    exists N, 1. split; [apply C2; unfold INT_MAX; lia|]. split; [lia|].
    assert (F1 : (IZR N <= f)%R).
    { apply Rle_trans with (IZR k); [apply IZR_le; lia|exact K1]. }
    assert (1 <= IZR N)%R by (apply IZR_le; lia).
    split; [intros X; lra|]. split; [auto|]. intros X. lra.
  - (* 1 <= f < N *)
    destruct (C3 ltac:(lia)) as (lo & up & (Bl & Ml & Xl) & (Bu & Mu & Xu) & E).
    assert (Dl : (lo | N)) by (apply Z.mod_divide; lia).
    assert (Du : (up | N)) by (apply Z.mod_divide; lia).
    assert (Fl : (IZR lo <= f)%R).
    { apply Rle_trans with (IZR k); [apply IZR_le; lia|exact K1]. }
    assert (Fu : (f < IZR up)%R).
    { apply Rlt_le_trans with (IZR k + 1)%R; [exact K2|].
      rewrite <- plus_IZR. apply IZR_le. lia. }
    assert (Sl : lo * lo * W <= N * H) by (apply sq_le_of_le_sqrt; try lia; exact Fl).
    assert (Su : N * H < up * up * W) by (apply sq_gt_of_gt_sqrt; try lia; exact Fu).
    assert (Plo : lo * (N / lo) = N).
    { destruct Dl as [a Ea]. rewrite Ea at 1. rewrite Z.div_mul by lia. lia. }
    assert (Pup : up * (N / up) = N).
    { destruct Du as [b Eb]. rewrite Eb at 1. rewrite Z.div_mul by lia. lia. }
    assert (Bul : up * lo * W <= INT_MAX).
    { assert (up * lo <= N * N) by nia. unfold INT_MAX in *. nia. }
    assert (Ecmp : int_mul (int_mul up lo) W = up * lo * W).
    { rewrite (int_mul_small up lo) by (int_range; nia).
      apply int_mul_small. int_range; nia. }
    assert (Enh : int_mul N H = N * H) by (apply int_mul_small; int_range; nia).
    rewrite Ecmp, Enh in E.
    destruct (tiling_choice H W N lo up HH HW ltac:(lia) ltac:(lia) Dl Du Sl Su)
      as (T1 & T2).
    assert (Hbelow : divisor_below N f lo).
    { repeat split; try lia; try assumption.
      intros d' Dd' P1 Fd'.
      assert (d' < k + 1).
      { apply lt_IZR. rewrite plus_IZR. lra. }
      destruct (Z.le_gt_cases d' lo) as [|G]; [assumption|exfalso].
      apply (Xl d'); [lia|]. apply Z.mod_divide; [lia|assumption]. }
    assert (Habove : divisor_above N f up).
    { repeat split; try lia; try assumption.
      intros d' Dd' P1 Fd'.
      assert (k < d').
      { apply lt_IZR. lra. }
      destruct (Z.le_gt_cases up d') as [|G]; [assumption|exfalso].
      apply (Xu d'); [lia|]. apply Z.mod_divide; [lia|assumption]. }
    assert (F1 : (1 <= f)%R).
    { apply Rle_trans with (IZR k); [apply IZR_le; lia|exact K1]. }
    assert (F2 : (f < IZR N)%R).
    { apply Rlt_le_trans with (IZR k + 1)%R; [exact K2|].
      rewrite <- plus_IZR. apply IZR_le. lia. }
    destruct (Z.gtb_spec (up * lo * W) (N * H)) as [G|G].
    + exists lo, (N / lo). split; [exact E|]. split; [exact Plo|].
      split; [intros X; lra|]. split; [intros X; lra|]. intros _.
      exists lo, up. split; [exact Hbelow|]. split; [exact Habove|].
      split; [auto|]. split; [split; [intros _; lia|reflexivity]|].
      intros d [-> | ->].
      * split; lia.
      * split; [rewrite Plo, Pup; lia|]. apply T1. lia.
    + exists up, (N / up). split; [exact E|]. split; [exact Pup|].
      split; [intros X; lra|]. split; [intros X; lra|]. intros _.
      exists lo, up. split; [exact Hbelow|]. split; [exact Habove|].
      split; [auto|]. split; [split; [intros ->; lia|intros; lia]|].
      intros d [-> | ->].
      * split; [rewrite Plo, Pup; lia|]. apply T2. lia.
      * split; lia.
Qed.

Lemma ComputeTiling_spec_witness :
  exists tr tc, @ComputeTiling Exact.arith 2 3 4 = Some (tr, tc) /\ tr * tc = 4.
Proof.
  destruct (ComputeTiling_spec 2 3 4) as (tr & tc & E & P & _);
    try (unfold INT_MAX; lia).
  exists tr, tc. split; [exact E|exact P].
Defined.

(** ** ComputeRegressionPlane *)

Lemma sum_range_succ n f : 0 <= n ->
  sum_range (n + 1) f = (sum_range n f + f n)%R.
Proof.
  intros Hn. unfold sum_range.
  replace (Z.to_nat (n + 1)) with (S (Z.to_nat n)) by lia.
  cbn [sum_nat]. rewrite Z2Nat.id by lia. reflexivity.
Qed.

Lemma sum_range_0 f : sum_range 0 f = 0%R.
Proof. reflexivity. Qed.

Lemma sum_range_le0 n f : n <= 0 -> sum_range n f = 0%R.
Proof.
  intros H. unfold sum_range. replace (Z.to_nat n) with O by lia. reflexivity.
Qed.

Lemma sum_range_2 f : sum_range 2 f = (f 0%Z + f 1%Z)%R.
Proof.
  unfold sum_range. change (Z.to_nat 2) with 2%nat.
  cbn [sum_nat Z.of_nat Pos.of_succ_nat Pos.succ]. ring.
Qed.

Lemma sum_range_ext n f f' :
  (forall i, 0 <= i < n -> f i = f' i) -> sum_range n f = sum_range n f'.
Proof.
  intros H. unfold sum_range.
  assert (G : forall m : nat, Z.of_nat m <= Z.max 0 n -> sum_nat m f = sum_nat m f').
  { induction m as [|m IH]; intros Hm; [reflexivity|].
    cbn [sum_nat]. rewrite IH by lia. rewrite H by lia. reflexivity. }
  apply G. lia.
Qed.

(** An accumulating loop adds up the terms in order. *)
Lemma for_loop_sum n (f : Z -> R) (a0 : R) :
  for_loop n (fun i acc => (acc + f i)%R) a0 = (a0 + sum_range n f)%R.
Proof.
  destruct (Z.le_gt_cases 0 n) as [Hn|Hn].
  - apply (for_loop_inv (fun i acc => acc = (a0 + sum_range i f)%R)); [exact Hn| |].
    + rewrite sum_range_0. ring.
    + intros i t Hi ->. rewrite sum_range_succ by lia. ring.
  - rewrite for_loop_le0, sum_range_le0 by lia. ring.
Qed.

Lemma for_loop_sum2 nr nc (f : Z -> Z -> R) (a0 : R) :
  for_loop nr (fun row acc => for_loop nc (fun col acc => (acc + f row col)%R) acc) a0
  = (a0 + sum2 nr nc f)%R.
Proof.
  unfold sum2.
  rewrite (for_loop_ext nr _ (fun row acc => (acc + sum_range nc (f row))%R)).
  - apply for_loop_sum.
  - intros row t _. apply for_loop_sum.
Qed.

(** Loops over tuples of accumulators, one component at a time. *)
Lemma for_loop_pair {S T : Type} n (f : Z -> S -> S) (g : Z -> T -> T) s t :
  for_loop n (fun i '(a, b) => (f i a, g i b)) (s, t)
  = (for_loop n f s, for_loop n g t).
Proof.
  destruct (Z.le_gt_cases 0 n) as [Hn|Hn].
  - apply (for_loop_inv (fun i st => st = (for_loop i f s, for_loop i g t)));
      [exact Hn| |].
    + now rewrite !for_loop_le0 by lia.
    + intros i st Hi ->. now rewrite !for_loop_succ by lia.
  - now rewrite !for_loop_le0 by lia.
Qed.

Lemma for_loop_triple {S T U : Type} n
    (f : Z -> S -> S) (g : Z -> T -> T) (h : Z -> U -> U) s t u :
  for_loop n (fun i '(a, b, c) => (f i a, g i b, h i c)) (s, t, u)
  = (for_loop n f s, for_loop n g t, for_loop n h u).
Proof.
  destruct (Z.le_gt_cases 0 n) as [Hn|Hn].
  - apply (for_loop_inv
             (fun i st => st = (for_loop i f s, for_loop i g t, for_loop i h u)));
      [exact Hn| |].
    + now rewrite !for_loop_le0 by lia.
    + intros i st Hi ->. now rewrite !for_loop_succ by lia.
  - now rewrite !for_loop_le0 by lia.
Qed.

Lemma offsets_small r nr nc row col :
  small_patch r nr nc -> 0 <= row < nr -> 0 <= col < nc ->
  int_sub row r = row - r /\ int_sub col r = col - r /\
  int_mul (int_sub row r) (int_sub row r) = (row - r) * (row - r) /\
  int_mul (int_sub row r) (int_sub col r) = (row - r) * (col - r) /\
  int_mul (int_sub col r) (int_sub col r) = (col - r) * (col - r).
Proof.
  intros (Hr & Hnr & Hnc) Hrow Hcol.
  assert (E1 : int_sub row r = row - r) by (apply int_sub_small; int_range).
  assert (E2 : int_sub col r = col - r) by (apply int_sub_small; int_range).
  rewrite E1, E2.
  assert (-32768 <= row - r <= 32768) by lia.
  assert (-32768 <= col - r <= 32768) by lia.
  repeat split; apply int_mul_small; int_range; nia.
Qed.

Lemma abc_sums_exact (y k : Image R) r :
  small_patch r (rows y) (columns y) ->
  @abc_sums Exact.arith y k r = (spec_A y k r, spec_B y k r, spec_C y k r).
Proof.
  intros Hs. unfold abc_sums, spec_A, spec_B, spec_C.
  set (fa := fun row col : Z => (IZR (row - r) * IZR (row - r) * val 0%R k col row 0)%R).
  set (fb := fun row col : Z => (IZR (row - r) * IZR (col - r) * val 0%R k col row 0)%R).
  set (fc := fun row col : Z => (IZR (col - r) * IZR (col - r) * val 0%R k col row 0)%R).
  rewrite (for_loop_ext (rows y) _
            (fun row '(a, b, c) =>
               (for_loop (columns y) (fun col a => (a + fa row col)%R) a,
                for_loop (columns y) (fun col b => (b + fb row col)%R) b,
                for_loop (columns y) (fun col c => (c + fc row col)%R) c))).
  - rewrite (for_loop_triple (rows y)
               (fun row a => for_loop (columns y) (fun col a => (a + fa row col)%R) a)
               (fun row b => for_loop (columns y) (fun col b => (b + fb row col)%R) b)
               (fun row c => for_loop (columns y) (fun col c => (c + fc row col)%R) c)).
    rewrite !for_loop_sum2. cbn. f_equal; [f_equal|]; ring.
  - intros row [[a b] c] Hrow.
    rewrite <- (for_loop_triple (columns y)
                  (fun col a => (a + fa row col)%R)
                  (fun col b => (b + fb row col)%R)
                  (fun col c => (c + fc row col)%R)).
    apply for_loop_ext. intros col [[a' b'] c'] Hcol.
    destruct (offsets_small r _ _ row col Hs Hrow Hcol) as (_ & _ & E1 & E2 & E3).
    rewrite E1, E2, E3. unfold fa, fb, fc. cbn. rewrite !mult_IZR. reflexivity.
Qed.

Lemma de_sums_exact (y g k : Image R) r ch :
  small_patch r (rows y) (columns y) ->
  @de_sums Exact.arith y k r ch (val 0%R g r r ch)
  = (spec_D y g k r ch, spec_E y g k r ch).
Proof.
  intros Hs. unfold de_sums, spec_D, spec_E.
  set (fd := fun row col : Z =>
     (IZR (row - r) * (val 0%R y col row ch - val 0%R g r r ch) * val 0%R k col row 0)%R).
  set (fe := fun row col : Z =>
     (IZR (col - r) * (val 0%R y col row ch - val 0%R g r r ch) * val 0%R k col row 0)%R).
  rewrite (for_loop_ext (rows y) _
            (fun row '(d, e) =>
               (for_loop (columns y) (fun col d => (d + fd row col)%R) d,
                for_loop (columns y) (fun col e => (e + fe row col)%R) e))).
  - rewrite (for_loop_pair (rows y)
               (fun row d => for_loop (columns y) (fun col d => (d + fd row col)%R) d)
               (fun row e => for_loop (columns y) (fun col e => (e + fe row col)%R) e)).
    rewrite !for_loop_sum2. cbn. f_equal; ring.
  - intros row [d e] Hrow.
    rewrite <- (for_loop_pair (columns y)
                  (fun col d => (d + fd row col)%R)
                  (fun col e => (e + fe row col)%R)).
    apply for_loop_ext. intros col [d' e'] Hcol.
    destruct (offsets_small r _ _ row col Hs Hrow Hcol) as (E1 & E2 & _).
    rewrite E1, E2. reflexivity.
Qed.

(** A loop that stores one entry per channel. *)
Lemma for_loop_set_lin {A : Type} (dflt : A) n (v : Z -> A) (l : list A) :
  0 <= n <= Z.of_nat (length l) ->
  let l' := for_loop n (fun i l => set_lin l i (v i)) l in
  length l' = length l /\
  (forall i, 0 <= i < n -> get_lin dflt l' i = v i) /\
  (forall i, n <= i -> get_lin dflt l' i = get_lin dflt l i).
Proof.
  intros Hn l'. subst l'.
  apply (for_loop_inv (fun m l' =>
           length l' = length l /\
           (forall i, 0 <= i < m -> get_lin dflt l' i = v i) /\
           (forall i, m <= i -> get_lin dflt l' i = get_lin dflt l i))); [lia| |].
  - repeat split; auto. intros; lia.
  - intros m t Hm (Hl & Hv & Ho). rewrite set_lin_length. split; [exact Hl|]. split.
    + intros i Hi. destruct (Z.eq_dec i m) as [->|Hne].
      * apply get_set_lin_same. lia.
      * rewrite get_set_lin_other by auto. apply Hv. lia.
    + intros i Hi. rewrite get_set_lin_other by lia. apply Ho. lia.
Qed.

(** The two branches of ComputeRegressionPlane, in any arithmetic. *)
Lemma ComputeRegressionPlane_cases {Ar : Arith} (y g k : Image F) (r : Z)
    (reg_plane : list (F * F)) :
  0 <= channels y <= Z.of_nat (length reg_plane) ->
  let a := fst (fst (abc_sums y k r)) in
  let b := snd (fst (abc_sums y k r)) in
  let c := snd (abc_sums y k r) in
  let det := (a *! c -! b *! b)%flt in
  let rp := ComputeRegressionPlane y g k r reg_plane in
  length rp = length reg_plane /\
  (feqb det (f_of_int 0) = true ->
     forall ch, 0 <= ch < channels y -> plane_at rp ch = (fzero, fzero)) /\
  (feqb det (f_of_int 0) = false ->
     forall ch, 0 <= ch < channels y ->
       let d := fst (de_sums y k r ch (fval g r r ch)) in
       let e := snd (de_sums y k r ch (fval g r r ch)) in
       plane_at rp ch
       = ((c *! d -! b *! e) /! det, (a *! e -! b *! d) /! det)%flt).
Proof.
  intros Hch a b c det rp. subst rp. unfold ComputeRegressionPlane.
  subst det a b c. destruct (abc_sums y k r) as [[a b] c]. cbn [fst snd].
  destruct (feqb (a *! c -! b *! b)%flt (f_of_int 0)) eqn:E.
  - destruct (for_loop_set_lin (fzero, fzero) (channels y)
                (fun _ => (fzero, fzero)) reg_plane Hch) as (L & V & _).
    split; [exact L|]. split; [|discriminate].
    intros _ ch Hc. unfold plane_at. apply (V ch Hc).
  - set (v := fun chan : Z =>
               (((c *! fst (de_sums y k r chan (fval g r r chan))
                  -! b *! snd (de_sums y k r chan (fval g r r chan)))
                 /! (a *! c -! b *! b))%flt,
                ((a *! snd (de_sums y k r chan (fval g r r chan))
                  -! b *! fst (de_sums y k r chan (fval g r r chan)))
                 /! (a *! c -! b *! b))%flt)).
    destruct (for_loop_set_lin (fzero, fzero) (channels y) v reg_plane Hch)
      as (L & V & _).
    rewrite (for_loop_ext (channels y) _ (fun i l => set_lin l i (v i))).
    2:{ intros i t _. unfold v. cbv zeta.
        destruct (de_sums y k r i (fval g r r i)) as [d e]. reflexivity. }
    split; [exact L|]. split; [discriminate|].
    intros _ ch Hc. cbv zeta. unfold plane_at. rewrite (V ch Hc). reflexivity.
Qed.

(** C7.  In any arithmetic ComputeRegressionPlane returns: when the
    determinant it computes, a c - b b from the sums it has added up,
    compares equal to zero it stores (0, 0) for every channel; otherwise
    it stores ((c d - b e) / det, (a e - b d) / det) for the channel.
    In exact arithmetic the sums are the weighted sums A, B, C, D_ch,
    E_ch of the specification, the test is A C - B^2 = 0, and the pair
    stored when it fails solves [[A, B], [B, C]] (a_row, a_col)
    = (D_ch, E_ch). *)
Theorem ComputeRegressionPlane_spec {Ar : Arith} (y g k : Image F) (r : Z)
    (reg_plane : list (F * F))
    (yR gR kR : Image R) (rR : Z) (reg_planeR : list (R * R)) :
  0 <= channels y <= Z.of_nat (length reg_plane) ->
  small_patch rR (rows yR) (columns yR) ->
  0 <= channels yR <= Z.of_nat (length reg_planeR) ->
  (let a := fst (fst (abc_sums y k r)) in
   let b := snd (fst (abc_sums y k r)) in
   let c := snd (abc_sums y k r) in
   let det := (a *! c -! b *! b)%flt in
   let rp := ComputeRegressionPlane y g k r reg_plane in
   length rp = length reg_plane /\
   (feqb det (f_of_int 0) = true ->
      forall ch, 0 <= ch < channels y -> plane_at rp ch = (fzero, fzero)) /\
   (feqb det (f_of_int 0) = false ->
      forall ch, 0 <= ch < channels y ->
        let d := fst (de_sums y k r ch (fval g r r ch)) in
        let e := snd (de_sums y k r ch (fval g r r ch)) in
        plane_at rp ch
        = ((c *! d -! b *! e) /! det, (a *! e -! b *! d) /! det)%flt)) /\
  (let A := spec_A yR kR rR in
   let B := spec_B yR kR rR in
   let C := spec_C yR kR rR in
   let rp := @ComputeRegressionPlane Exact.arith yR gR kR rR reg_planeR in
   length rp = length reg_planeR /\
   ((A * C - B * B = 0)%R ->
      forall ch, 0 <= ch < channels yR -> @plane_at Exact.arith rp ch = (0, 0)%R) /\
   ((A * C - B * B <> 0)%R ->
      forall ch, 0 <= ch < channels yR ->
        let a_row := fst (@plane_at Exact.arith rp ch) in
        let a_col := snd (@plane_at Exact.arith rp ch) in
        (A * a_row + B * a_col = spec_D yR gR kR rR ch /\
         B * a_row + C * a_col = spec_E yR gR kR rR ch)%R)).
Proof.
  intros Hch Hs HchR. split.
  - exact (ComputeRegressionPlane_cases y g k r reg_plane Hch).
  - intros A B C rp.
    destruct (@ComputeRegressionPlane_cases Exact.arith yR gR kR rR reg_planeR HchR)
      as (L & Z0 & NZ).
    fold rp in L, Z0, NZ.
    rewrite (abc_sums_exact yR kR rR Hs) in Z0, NZ. cbn [fst snd] in Z0, NZ.
    fold A B C in Z0, NZ.
    change (@feqb Exact.arith) with Exact.Reqb in Z0, NZ. unfold Exact.Reqb in Z0, NZ.
    change (@fsub Exact.arith) with Rminus in Z0, NZ.
    change (@fmul Exact.arith) with Rmult in Z0, NZ.
    change (@fdiv Exact.arith) with Rdiv in NZ.
    change (@f_of_int Exact.arith 0) with 0%R in Z0, NZ.
    change (@fzero Exact.arith) with 0%R in Z0.
    split; [exact L|]. split.
    + intros E ch Hc. apply Z0; [|exact Hc].
      destruct (Req_dec_T (A * C - B * B) 0); [reflexivity|contradiction].
    + intros E ch Hc. cbv zeta.
      assert (T : (if Req_dec_T (A * C - B * B) 0 then true else false) = false)
        by (destruct (Req_dec_T (A * C - B * B) 0); [contradiction|reflexivity]).
      specialize (NZ T ch Hc). cbv zeta in NZ.
      change (@fzero Exact.arith) with 0%R in NZ. change (@F Exact.arith) with R in NZ.
      rewrite (de_sums_exact yR gR kR rR ch Hs) in NZ. cbn [fst snd] in NZ.
      rewrite NZ. cbn [fst snd]. split; field; exact E.
Qed.

Lemma ComputeRegressionPlane_spec_witness :
  let i32 := F32.of_int32 in
  let y := mkImage 2 2 1 [i32 1; i32 2; i32 3; i32 5] in
  let k := mkImage 2 2 1 [i32 1; i32 1; i32 1; i32 1] in
  let yR := mkImage 2 2 1 [1; 2; 3; 5]%R in
  let kR := mkImage 2 2 1 [1; 1; 1; 1]%R in
  @plane_at F32.arith (@ComputeRegressionPlane F32.arith y y k 0 [(i32 7, i32 7)]) 0
  = (@fdiv F32.arith (i32 7) (i32 3), @fdiv F32.arith (i32 4) (i32 3)) /\
  length (@ComputeRegressionPlane Exact.arith yR yR kR 0 [(7, 7)%R]) = 1%nat.
Proof.
  intros i32 y k yR kR.
  assert (Hs : small_patch 0 (rows yR) (columns yR)) by (unfold small_patch; simpl; lia).
  destruct (@ComputeRegressionPlane_spec F32.arith y y k 0 [(i32 7, i32 7)]
              yR yR kR 0 [(7, 7)%R] ltac:(simpl; lia) Hs ltac:(simpl; lia))
    as ((_ & _ & NZ) & (L & _)).
  split; [|exact L].
  etransitivity; [apply NZ; [vm_compute; reflexivity|simpl; lia]|].
  vm_compute. reflexivity.
Defined.

(** In binary32 the determinant the code tests can be zero when the
    determinant of the normal equations is not: with the weights
    k = 2^-80 the products a c and b b underflow to zero, and the code
    stores (0, 0), which does not solve the system. *)
Lemma regression_det_underflow :
  let i32 := F32.of_int32 in
  let tiny := S754_finite false 8388608 (-103) in
  let y := mkImage 2 2 1 [i32 1; i32 2; i32 3; i32 5] in
  let k := mkImage 2 2 1 [tiny; tiny; tiny; tiny] in
  let yR := image_map SF2R y in
  let kR := image_map SF2R k in
  let A := spec_A yR kR 0 in
  let B := spec_B yR kR 0 in
  let C := spec_C yR kR 0 in
  (A * C - B * B <> 0)%R /\
  @plane_at F32.arith (@ComputeRegressionPlane F32.arith y y k 0 [(i32 7, i32 7)]) 0
  = (i32 0, i32 0) /\
  ~ (A * 0 + B * 0 = spec_D yR yR kR 0 0 /\ B * 0 + C * 0 = spec_E yR yR kR 0 0)%R.
Proof.
  intros i32 tiny y k yR kR A B C.
  assert (Ht : (0 < SF2R tiny)%R).
  { unfold SF2R, tiny. apply Rmult_lt_0_compat; [lra|].
    apply powerRZ_lt. lra. }
  assert (E1 : SF2R (i32 1) = 1%R).
  { unfold SF2R. vm_compute F32.of_int32. cbn [powerRZ]. simpl. lra. }
  assert (E2 : SF2R (i32 2) = 2%R)
    by (unfold SF2R; vm_compute F32.of_int32; cbn [powerRZ]; simpl; lra).
  assert (E3 : SF2R (i32 3) = 3%R)
    by (unfold SF2R; vm_compute F32.of_int32; cbn [powerRZ]; simpl; lra).
  assert (E5 : SF2R (i32 5) = 5%R)
    by (unfold SF2R; vm_compute F32.of_int32; cbn [powerRZ]; simpl; lra).
  subst A B C. unfold spec_A, spec_B, spec_C, spec_D, spec_E, sum2.
  change (rows yR) with 2. change (columns yR) with 2.
  rewrite !sum_range_2.
  change (val 0%R kR 0 0 0) with (SF2R tiny). change (val 0%R kR 1 0 0) with (SF2R tiny).
  change (val 0%R kR 0 1 0) with (SF2R tiny). change (val 0%R kR 1 1 0) with (SF2R tiny).
  change (val 0%R yR 0 0 0) with (SF2R (i32 1)).
  change (val 0%R yR 1 0 0) with (SF2R (i32 2)).
  change (val 0%R yR 0 1 0) with (SF2R (i32 3)).
  change (val 0%R yR 1 1 0) with (SF2R (i32 5)).
  rewrite E1, E2, E3, E5.
  set (t := SF2R tiny) in *. cbn [Z.sub Z.add Z.opp Z.pos_sub].
  split; [|split].
  - nra.
  - vm_compute. reflexivity.
  - intros [E _]. nra.
Qed.

(** ** The shrinkage loop *)

Section Shrink.
  Context {Ar : Arith}.
  Variable fastexp : F -> F.
  Variables gamma_f sigma_f2 : F.
  Variables g_m y_m : DftPatch.

Abbreviation new_bin := (shrunk_bin fastexp gamma_f sigma_f2 g_m y_m).

Abbreviation shrink_inv := (shrink_inv fastexp gamma_f sigma_f2 g_m y_m).

Lemma passed_next_chan row col chan r c ch :
  passed row col (chan + 1) r c ch
  = passed row col chan r c ch || ((r =? row) && (c =? col) && (ch =? chan)).
Proof.
  unfold passed.
  destruct (Z.ltb_spec r row); destruct (Z.eqb_spec r row);
    destruct (Z.ltb_spec c col); destruct (Z.eqb_spec c col);
    destruct (Z.ltb_spec ch chan); destruct (Z.ltb_spec ch (chan + 1));
    destruct (Z.eqb_spec ch chan); cbn; try reflexivity; lia.
Qed.

Lemma passed_next_col row col r c ch nch :
  0 <= ch < nch ->
  passed row (col + 1) 0 r c ch = passed row col nch r c ch.
Proof.
  intros H. unfold passed.
  destruct (Z.ltb_spec r row); destruct (Z.eqb_spec r row);
    destruct (Z.ltb_spec c col); destruct (Z.eqb_spec c col);
    destruct (Z.ltb_spec c (col + 1)); destruct (Z.eqb_spec c (col + 1));
    destruct (Z.ltb_spec ch 0); destruct (Z.ltb_spec ch nch);
    cbn; try reflexivity; lia.
Qed.

Lemma passed_next_row row r c ch ncol :
  0 <= c < ncol -> 0 <= ch ->
  passed (row + 1) 0 0 r c ch = passed row ncol 0 r c ch.
Proof.
  intros H H'. unfold passed.
  destruct (Z.ltb_spec r row); destruct (Z.eqb_spec r row);
    destruct (Z.ltb_spec r (row + 1)); destruct (Z.eqb_spec r (row + 1));
    destruct (Z.ltb_spec c 0); destruct (Z.eqb_spec c 0);
    destruct (Z.ltb_spec c ncol); destruct (Z.eqb_spec c ncol);
    destruct (Z.ltb_spec ch 0);
    cbn; try reflexivity; lia.
Qed.

Lemma cbuf_set_same (b : cbuf) col row chan v :
  cbuf_set b col row chan v col row chan = v.
Proof. unfold cbuf_set. now rewrite !Z.eqb_refl. Qed.

Lemma cbuf_set_other (b : cbuf) col row chan v c r ch :
  (c, r, ch) <> (col, row, chan) -> cbuf_set b col row chan v c r ch = b c r ch.
Proof.
  intros H. unfold cbuf_set.
  destruct (Z.eqb_spec c col); destruct (Z.eqb_spec r row);
    destruct (Z.eqb_spec ch chan); cbn; try reflexivity.
  subst. contradiction.
Qed.

Lemma shrink_inv_final :
  shrink_inv (dp_rows y_m) 0 0 (shrink fastexp gamma_f sigma_f2 g_m y_m).
Proof.
  unfold shrink.
  destruct (Z.le_gt_cases 0 (dp_rows y_m)) as [Hr|Hr].
  2:{ rewrite for_loop_le0 by lia. unfold shrink_inv. repeat split; auto.
      intros c r ch (_ & Hrr & _). lia. }
  apply (for_loop_inv (fun row p => shrink_inv row 0 0 p)); [exact Hr| |].
  { unfold shrink_inv. repeat split; auto.
    intros c r ch (Hc & Hrr & Hch). unfold passed.
    destruct (Z.ltb_spec r 0); [lia|]. destruct (Z.ltb_spec c 0); [lia|].
    destruct (Z.ltb_spec ch 0); [lia|]. cbn. now rewrite !andb_false_r. }
  intros row p Hrow Hp.
  assert (Hmid : shrink_inv row (dp_columns y_m) 0
                   (for_loop (dp_columns p) (fun col y_m0 =>
                      for_loop (dp_channels y_m0) (fun chan y_m1 =>
                        if negb (row =? 0) || negb (col =? 0) then
                          let K := fastexp (shrink_arg gamma_f sigma_f2 g_m col row chan) in
                          let y_m2 := set_freq y_m1 col row chan
                                        ((fst (freq y_m1 col row chan) *! K)%flt,
                                         snd (freq y_m1 col row chan)) in
                          set_freq y_m2 col row chan
                                   (fst (freq y_m2 col row chan),
                                    (snd (freq y_m2 col row chan) *! K)%flt)
                        else y_m1) y_m0) p)).
  { rewrite (proj1 (proj2 Hp)).
    destruct (Z.le_gt_cases 0 (dp_columns y_m)) as [Hc|Hc].
    2:{ rewrite for_loop_le0 by lia. destruct Hp as (P1 & P2 & P3 & P4 & P5).
        repeat split; auto. intros c r ch (Hcc & _). lia. }
    apply (for_loop_inv (fun col q => shrink_inv row col 0 q)); [exact Hc|exact Hp|].
    intros col q Hcol Hq.
    assert (Hin : shrink_inv row col (dp_channels y_m)
                    (for_loop (dp_channels q) (fun chan y_m1 =>
                        if negb (row =? 0) || negb (col =? 0) then
                          let K := fastexp (shrink_arg gamma_f sigma_f2 g_m col row chan) in
                          let y_m2 := set_freq y_m1 col row chan
                                        ((fst (freq y_m1 col row chan) *! K)%flt,
                                         snd (freq y_m1 col row chan)) in
                          set_freq y_m2 col row chan
                                   (fst (freq y_m2 col row chan),
                                    (snd (freq y_m2 col row chan) *! K)%flt)
                        else y_m1) q)).
    { rewrite (proj1 (proj2 (proj2 Hq))).
      destruct (Z.le_gt_cases 0 (dp_channels y_m)) as [Hch|Hch].
      2:{ rewrite for_loop_le0 by lia. destruct Hq as (P1 & P2 & P3 & P4 & P5).
          repeat split; auto. intros c r ch (_ & _ & Hcc). lia. }
      apply (for_loop_inv (fun chan s => shrink_inv row col chan s)); [exact Hch|exact Hq|].
      intros chan s Hchan (S1 & S2 & S3 & S4 & S5).
      assert (Hcur : freq s col row chan = freq y_m col row chan).
      { rewrite S5 by (unfold in_patch; lia). unfold passed.
        destruct (Z.ltb_spec row row); [lia|]. destruct (Z.ltb_spec col col); [lia|].
        destruct (Z.ltb_spec chan chan); [lia|]. cbn. now rewrite !andb_false_r. }
      destruct (negb (row =? 0) || negb (col =? 0)) eqn:Edc.
      - cbv zeta. unfold shrink_inv.
        cbn [dp_rows dp_columns dp_channels dp_data space freq set_freq].
        split; [exact S1|]. split; [exact S2|]. split; [exact S3|]. split.
        { intros c r ch Hout. rewrite !cbuf_set_other by
            (intros E; inversion E; subst; apply Hout; unfold in_patch; lia).
          apply S4, Hout. }
        intros c r ch Hcell. rewrite passed_next_chan.
        destruct (Z.eqb_spec r row) as [->|Nr]; [destruct (Z.eqb_spec c col) as [->|Nc];
          [destruct (Z.eqb_spec ch chan) as [->|Nch]|]|].
        + rewrite orb_true_r. rewrite !cbuf_set_same. cbn [fst snd]. rewrite Hcur.
          unfold shrunk_bin.
          destruct (Z.eqb_spec row 0); destruct (Z.eqb_spec col 0);
            cbn in Edc |- *; try discriminate; reflexivity.
        + rewrite !cbuf_set_other by congruence. rewrite S5 by assumption.
          cbn. now rewrite !orb_false_r.
        + rewrite !cbuf_set_other by congruence. rewrite S5 by assumption.
          cbn. now rewrite !orb_false_r.
        + rewrite !cbuf_set_other by congruence. rewrite S5 by assumption.
          cbn. now rewrite !orb_false_r.
      - unfold shrink_inv. repeat split; auto.
        intros c r ch Hcell. rewrite passed_next_chan, S5 by assumption.
        destruct (passed row col chan r c ch) eqn:Ep; cbn [orb]; [reflexivity|].
        destruct (Z.eqb_spec r row) as [->|Nr]; [destruct (Z.eqb_spec c col) as [->|Nc];
          [destruct (Z.eqb_spec ch chan) as [->|Nch]|]|]; cbn; try reflexivity.
        unfold shrunk_bin.
        destruct (Z.eqb_spec row 0); destruct (Z.eqb_spec col 0);
          cbn in Edc |- *; try discriminate; reflexivity. }
    destruct Hin as (S1 & S2 & S3 & S4 & S5). unfold shrink_inv. repeat split; auto.
    intros c r ch Hcell. rewrite S5 by assumption.
    rewrite (passed_next_col row col r c ch (dp_channels y_m))
      by (destruct Hcell as (_ & _ & ?); assumption).
    reflexivity. }
  destruct Hmid as (S1 & S2 & S3 & S4 & S5). unfold shrink_inv. repeat split; auto.
  intros c r ch Hcell. rewrite S5 by assumption.
  rewrite (passed_next_row row r c ch (dp_columns y_m))
    by (destruct Hcell as (? & _ & ?); lia).
  reflexivity.
Qed.

(** The shrinkage loop, bin by bin: the shape is unchanged, the buffer
    outside the patch is unchanged, and every bin of the patch is
    [shrunk_bin]. *)
Lemma shrink_bins :
  let y' := shrink fastexp gamma_f sigma_f2 g_m y_m in
  dp_rows y' = dp_rows y_m /\ dp_columns y' = dp_columns y_m /\
  dp_channels y' = dp_channels y_m /\
  (forall col row chan, ~ in_patch y_m col row chan ->
     freq y' col row chan = freq y_m col row chan) /\
  forall col row chan, in_patch y_m col row chan ->
    freq y' col row chan = new_bin col row chan.
Proof.
  destruct shrink_inv_final as (S1 & S2 & S3 & S4 & S5).
  cbv zeta. repeat split; auto.
  intros col row chan Hcell. rewrite S5 by assumption.
  unfold passed. destruct Hcell as (_ & Hr & _).
  destruct (Z.ltb_spec row (dp_rows y_m)); [reflexivity|lia].
Qed.

End Shrink.

Lemma sigma_f2_exact (k : Image R) (sigma2 : R) :
  @sigma_f2_of Exact.arith k sigma2
  = (sigma2 * sum2 (rows k) (columns k)
                   (fun row col => val 0%R k col row 0 * val 0%R k col row 0))%R.
Proof.
  unfold sigma_f2_of.
  change (@fmul Exact.arith) with Rmult. change (@fadd Exact.arith) with Rplus.
  change (@fzero Exact.arith) with 0%R. change (@F Exact.arith) with R.
  rewrite (for_loop_sum2 (rows k) (columns k)
             (fun row col => (val 0 k col row 0 * val 0 k col row 0)%R)).
  ring.
Qed.

(** C2.  The shrinkage step of DA3D_block (lines 322-341), in any
    arithmetic and whatever fastexp and the inverse transform are: the
    patch handed to the inverse transform is the y patch after the
    shrinkage loop, and in it every bin of the patch is as follows: the
    DC bin (row = col = 0) of each channel is unchanged, any other bin
    is multiplied, real and imaginary part, by
    K = fastexp (- gamma_f * sigma_f2 / |G|^2), G the guide bin at the
    same place, the division being the arithmetic's own (a zero |G|^2
    gives an infinity or a NaN in binary32).  sigma_f2 is what the loop
    of lines 322-328 leaves, the squares of the mask added up in row
    order and multiplied by sigma^2; in exact arithmetic that is
    sigma^2 times the sum of k(col, row)^2. *)
Theorem shrinkage_step {Ar : Arith} (fastexp : F -> F)
    (dft_inverse : Z -> Z -> cplane -> cplane)
    (p : BlockParams) (pr pc : Z) (st : BlockState) (col row chan : Z)
    (kR : Image R) (sigma2R : R) :
  in_patch (y_m st) col row chan ->
  let sigma_f2 := sigma_f2_of (k st) (p_sigma2 p) in
  let shrunk := shrink fastexp (p_gamma_f p) sigma_f2 (g_m st) (y_m st) in
  let G := freq (g_m st) col row chan in
  let Y := freq (y_m st) col row chan in
  y_m (block_from_freq fastexp dft_inverse p (pr, pc, st))
  = ToSpace dft_inverse shrunk /\
  freq shrunk col row chan
  = (if (row =? 0) && (col =? 0) then Y
     else
       let K := fastexp (fopp (p_gamma_f p) *! sigma_f2
                         /! (fst G *! fst G +! snd G *! snd G))%flt in
       (fst Y *! K, snd Y *! K)%flt) /\
  @sigma_f2_of Exact.arith kR sigma2R
  = (sigma2R * sum2 (rows kR) (columns kR)
                    (fun r c => val 0%R kR c r 0 * val 0%R kR c r 0))%R.
Proof.
  intros Hcell sigma_f2 shrunk G Y. split; [|split].
  - unfold block_from_freq. fold sigma_f2. fold shrunk.
    destruct (aggregate _ _ _ _ _ _ _ _) as [[o w] k']. reflexivity.
  - destruct (shrink_bins fastexp (p_gamma_f p) sigma_f2 (g_m st) (y_m st))
      as (_ & _ & _ & _ & Hb).
    fold shrunk in Hb. rewrite (Hb col row chan Hcell). reflexivity.
  - apply sigma_f2_exact.
Qed.

Lemma shrinkage_step_witness :
  let i32 := F32.of_int32 in
  let k := mkImage 2 2 1 [i32 1; i32 1; i32 1; i32 1] in
  let yb : @cbuf F32.arith := fun c r ch => (i32 (c + 2 * r), i32 1) in
  let gb : @cbuf F32.arith := fun c r ch => (i32 (2 * c), i32 0) in
  let img := @Image_new spec_float (i32 0) 2 2 1 in
  let st := @mkBlockState F32.arith (@WeightMap_new F32.arith 1 1)
              img img img img img k
              (@mkDftPatch F32.arith 2 2 1 yb)
              (@mkDftPatch F32.arith 2 2 1 gb) [(i32 0, i32 0)] [i32 0] in
  let p := @mkBlockParams F32.arith 0 2 (i32 1) (i32 1) (i32 1) (i32 1) (i32 1)
                          (i32 1) (i32 1) in
  let shrunk := @shrink F32.arith (fun x => x) (i32 1)
                        (@sigma_f2_of F32.arith k (i32 1))
                        (@mkDftPatch F32.arith 2 2 1 gb)
                        (@mkDftPatch F32.arith 2 2 1 yb) in
  @freq F32.arith shrunk 0 0 0 = (i32 0, i32 1) /\
  @freq F32.arith shrunk 1 0 0 = (i32 (-1), i32 (-1)) /\
  @freq F32.arith shrunk 0 1 0 = (S754_infinity true, S754_infinity true).
Proof.
  intros i32 k yb gb img st p shrunk.
  assert (C : forall col row, 0 <= col < 2 -> 0 <= row < 2 ->
                @in_patch F32.arith (y_m st) col row 0)
    by (intros col row Hc Hr; unfold in_patch; cbn; lia).
  split; [|split].
  - etransitivity;
      [exact (proj1 (proj2 (@shrinkage_step F32.arith (fun x => x) (fun _ _ b => b)
                              p 0 0 st 0 0 0 (mkImage 0 0 0 []) 0%R
                              (C 0 0 ltac:(lia) ltac:(lia))))) |].
    vm_compute. reflexivity.
  - etransitivity;
      [exact (proj1 (proj2 (@shrinkage_step F32.arith (fun x => x) (fun _ _ b => b)
                              p 0 0 st 1 0 0 (mkImage 0 0 0 []) 0%R
                              (C 1 0 ltac:(lia) ltac:(lia))))) |].
    vm_compute. reflexivity.
  - etransitivity;
      [exact (proj1 (proj2 (@shrinkage_step F32.arith (fun x => x) (fun _ _ b => b)
                              p 0 0 st 0 1 0 (mkImage 0 0 0 []) 0%R
                              (C 0 1 ltac:(lia) ltac:(lia))))) |].
    vm_compute. reflexivity.
Defined.
(** ** The weight map *)

Lemma done_next_col row col r c :
  done row (col + 1) r c = done row col r c || ((r =? row) && (c =? col)).
Proof.
  unfold done.
  destruct (Z.ltb_spec r row); destruct (Z.eqb_spec r row);
    destruct (Z.ltb_spec c col); destruct (Z.ltb_spec c (col + 1));
    destruct (Z.eqb_spec c col); cbn; try reflexivity; lia.
Qed.

Lemma done_next_row row r c ncol :
  0 <= c < ncol -> done (row + 1) 0 r c = done row ncol r c.
Proof.
  intros H. unfold done.
  destruct (Z.ltb_spec r row); destruct (Z.eqb_spec r row);
    destruct (Z.ltb_spec r (row + 1)); destruct (Z.eqb_spec r (row + 1));
    destruct (Z.ltb_spec c 0); destruct (Z.ltb_spec c ncol);
    cbn; try reflexivity; lia.
Qed.

Lemma done_start r c : 0 <= r -> 0 <= c -> done 0 0 r c = false.
Proof.
  intros. unfold done. destruct (Z.ltb_spec r 0); [lia|].
  destruct (Z.ltb_spec c 0); [lia|]. now rewrite andb_false_r.
Qed.

Lemma done_end nrow r c : 0 <= r < nrow -> done nrow 0 r c = true.
Proof.
  intros. unfold done. destruct (Z.ltb_spec r nrow); [reflexivity|lia].
Qed.

Ltac rf_lra := change (@F Exact.arith) with R in *; lra.

(** The scan returns a cell of the grid, whatever the arithmetic. *)
Lemma wm_scan_cell {Ar : Arith} (grid : Image F) :
  grid_ok grid ->
  let '(m, mr, mc) := wm_scan grid in
  in_image grid mc mr 0 /\ m = fval grid mc mr 0.
Proof.
  intros (Hw & Hr & Hc & Hch). unfold wm_scan.
  set (Inv := fun (acc : F * Z * Z) =>
     let '(m, mr, mc) := acc in
     in_image grid mc mr 0 /\ m = fval grid mc mr 0).
  match goal with
  | |- context [for_loop (rows grid) ?body ?init] =>
      assert (G : Inv (for_loop (rows grid) body init))
  end.
  { apply (for_loop_inv (fun _ acc => Inv acc)); [lia| |].
    - unfold Inv. split; [unfold in_image; lia|reflexivity].
    - intros row acc Hrow Hacc.
      apply (for_loop_inv (fun _ acc => Inv acc)); [lia|exact Hacc|].
      intros col [[m mr] mc] Hcol (I1 & I2). unfold Inv.
      destruct (fltb (fval grid col row 0) m).
      + split; [unfold in_image; lia|reflexivity].
      + split; [exact I1|exact I2]. }
  destruct (for_loop (rows grid) _ _) as [[m mr] mc]. exact G.
Qed.

(** Where the arithmetic obeys the laws of the weights, the cell that
    the scan returns holds a least value of the grid. *)
Lemma wm_scan_min {Ar : Arith} (wok : F -> Prop) (wval : F -> R) (grid : Image F) :
  weight_laws wok wval ->
  grid_ok grid ->
  (forall c r, in_image grid c r 0 -> wok (fval grid c r 0)) ->
  let '(m, mr, mc) := wm_scan grid in
  forall c r, in_image grid c r 0 -> (wval m <= wval (fval grid c r 0))%R.
Proof.
  intros Laws (Hw & Hr & Hc & Hch) Hok. unfold wm_scan.
  set (Inv := fun row col (acc : F * Z * Z) =>
     let '(m, mr, mc) := acc in
     wok m /\
     forall c r, in_image grid c r 0 -> done row col r c = true ->
                 (wval m <= wval (fval grid c r 0))%R).
  match goal with
  | |- context [for_loop (rows grid) ?body ?init] =>
      assert (G : Inv (rows grid) 0 (for_loop (rows grid) body init))
  end.
  { apply (for_loop_inv (fun row acc => Inv row 0 acc)); [lia| |].
    - unfold Inv. split; [apply Hok; unfold in_image; lia|].
      intros c r (Hc' & Hr' & _) D. rewrite done_start in D by lia. discriminate.
    - intros row acc Hrow Hacc.
      match goal with
      | |- Inv _ _ (for_loop ?n ?body ?a) =>
          assert (Hmid : Inv row (columns grid) (for_loop n body a))
      end.
      { apply (for_loop_inv (fun col acc => Inv row col acc)); [lia|exact Hacc|].
        intros col [[m mr] mc] Hcol (I1 & I3). unfold Inv.
        assert (Hcell : wok (fval grid col row 0))
          by (apply Hok; unfold in_image; lia).
        pose proof (wl_lt wok wval Laws _ _ Hcell I1) as Lt.
        destruct (fltb (fval grid col row 0) m) eqn:L.
        - apply proj1 in Lt. specialize (Lt eq_refl).
          split; [exact Hcell|].
          intros c r Hin D. rewrite done_next_col in D.
          apply orb_true_iff in D. destruct D as [D|D].
          + specialize (I3 c r Hin D). lra.
          + apply andb_true_iff in D. destruct D as (D1 & D2).
            apply Z.eqb_eq in D1, D2. subst. lra.
        - assert (NL : ~ (wval (fval grid col row 0) < wval m)%R).
          { intros C. apply Lt in C. congruence. }
          split; [exact I1|].
          intros c r Hin D. rewrite done_next_col in D.
          apply orb_true_iff in D. destruct D as [D|D].
          + exact (I3 c r Hin D).
          + apply andb_true_iff in D. destruct D as (D1 & D2).
            apply Z.eqb_eq in D1, D2. subst. lra. }
      destruct (for_loop (columns grid) _ acc) as [[m mr] mc].
      destruct Hmid as (I1 & I3). unfold Inv.
      split; [exact I1|].
      intros c r Hin D. apply I3; [exact Hin|].
      rewrite <- (done_next_row row r c (columns grid)); [exact D|].
      destruct Hin as (? & _). assumption. }
  destruct (for_loop (rows grid) _ _) as [[m mr] mc].
  destruct G as (I1 & I3).
  intros c r Hin. apply I3; [exact Hin|]. apply done_end.
  destruct Hin as (_ & ? & _). assumption.
Qed.

Lemma under_patch_iff {A : Type} (k : Image A) row0 col0 c r :
  under_patch k row0 col0 c r = true <->
  0 <= r - row0 < rows k /\ 0 <= c - col0 < columns k.
Proof.
  unfold under_patch. rewrite !andb_true_iff, !Z.leb_le, !Z.ltb_lt. lia.
Qed.

Lemma IncreaseWeights_inv {Ar : Arith} (w : WeightMap) (k : Image F)
    (row0 col0 : Z) :
  grid_ok (wm_grid w) ->
  0 <= rows k <= 1073741824 -> 0 <= columns k <= 1073741824 ->
  -1073741824 <= row0 <= 1073741824 -> -1073741824 <= col0 <= 1073741824 ->
  increase_inv w k row0 col0 (rows k) 0 (IncreaseWeights w k row0 col0).
Proof.
  intros (Hw & Hr & Hc & Hch) Hkr Hkc Hr0 Hc0. unfold IncreaseWeights.
  apply (for_loop_inv (fun drow cur => increase_inv w k row0 col0 drow 0 cur));
    [lia| |].
  { unfold increase_inv. split; [exact Hw|]. split; [repeat split|].
    repeat split; auto.
    - intros c r Hin.
      destruct (under_patch k row0 col0 c r) eqn:U; cbn [andb]; [|reflexivity].
      apply under_patch_iff in U. rewrite done_start by lia. reflexivity.
    - intros _ U D. apply under_patch_iff in U.
      rewrite done_start in D by lia. discriminate. }
  intros drow cur Hdrow Hcur.
  match goal with
  | |- increase_inv _ _ _ _ _ _ (for_loop ?n ?body ?c) =>
      assert (Hmid : increase_inv w k row0 col0 drow (columns k) (for_loop n body c))
  end.
  { apply (for_loop_inv (fun dcol cur => increase_inv w k row0 col0 drow dcol cur));
      [lia|exact Hcur|].
    intros dcol cur' Hdcol (I1 & I2 & I3 & I4 & I5 & I6 & I7 & I8).
    cbv zeta.
    rewrite (int_add_small row0 drow), (int_add_small col0 dcol) by int_range.
    destruct I2 as (S1 & S2 & S3). rewrite S1, S2.
    destruct ((0 <=? row0 + drow) && (row0 + drow <? rows (wm_grid w))
              && (0 <=? col0 + dcol) && (col0 + dcol <? columns (wm_grid w))) eqn:G.
    - apply andb_true_iff in G. destruct G as (G & G4).
      apply andb_true_iff in G. destruct G as (G & G3).
      apply andb_true_iff in G. destruct G as (G1 & G2).
      apply Z.leb_le in G1, G3. apply Z.ltb_lt in G2, G4.
      assert (Hcell : in_image (wm_grid cur') (col0 + dcol) (row0 + drow) 0).
      { unfold in_image. rewrite S1, S2, S3. lia. }
      assert (Hcell' : in_image (wm_grid w) (col0 + dcol) (row0 + drow) 0).
      { unfold in_image. lia. }
      assert (U : under_patch k row0 col0 (col0 + dcol) (row0 + drow) = true)
        by (apply under_patch_iff; lia).
      unfold increase_inv. cbn [wm_grid wm_min wm_row wm_col wm_pending].
      split; [apply set_val_wf; exact I1|]. split; [repeat split; assumption|].
      split; [exact I3|]. split; [exact I4|]. split; [exact I5|]. split; [|split].
      + intros c r Hin. rewrite done_next_col.
        destruct (Z.eq_dec r (row0 + drow)) as [->|Nr];
          [destruct (Z.eq_dec c (col0 + dcol)) as [->|Nc]|].
        * rewrite val_set_same by assumption. rewrite I6 by assumption.
          rewrite U. replace (row0 + drow - row0) with drow by lia.
          replace (col0 + dcol - col0) with dcol by lia.
          rewrite !Z.eqb_refl. cbn [andb]. rewrite orb_true_r.
          unfold done. destruct (Z.ltb_spec drow drow); [lia|].
          destruct (Z.ltb_spec dcol dcol); [lia|]. rewrite andb_false_r. cbn.
          reflexivity.
        * rewrite val_set_other
            by (first [ assumption
                      | apply (same_shape_in_image (wm_grid cur') (wm_grid w));
                        [repeat split; assumption|assumption]
                      | congruence ]).
          rewrite I6 by assumption.
          replace (c - col0 =? dcol) with false by (symmetry; apply Z.eqb_neq; lia).
          now rewrite andb_false_r, orb_false_r.
        * rewrite val_set_other
            by (first [ assumption
                      | apply (same_shape_in_image (wm_grid cur') (wm_grid w));
                        [repeat split; assumption|assumption]
                      | congruence ]).
          rewrite I6 by assumption.
          replace (r - row0 =? drow) with false by (symmetry; apply Z.eqb_neq; lia).
          cbn [andb]. now rewrite orb_false_r.
      + intros P. rewrite (I7 P). reflexivity.
      + intros Hin Uc D. rewrite done_next_col in D.
        apply orb_true_iff in D. destruct D as [D|D].
        * rewrite (I8 Hin Uc D). reflexivity.
        * apply andb_true_iff in D. destruct D as (D1 & D2).
          apply Z.eqb_eq in D1, D2. rewrite I4, I5.
          replace (row0 + drow =? wm_row w) with true by (symmetry; apply Z.eqb_eq; lia).
          replace (col0 + dcol =? wm_col w) with true by (symmetry; apply Z.eqb_eq; lia).
          now rewrite orb_true_r.
    - unfold increase_inv.
      split; [exact I1|]. split; [repeat split; assumption|].
      split; [exact I3|]. split; [exact I4|]. split; [exact I5|]. split; [|split].
      + intros c r Hin. rewrite I6 by assumption. rewrite done_next_col.
        destruct ((r - row0 =? drow) && (c - col0 =? dcol)) eqn:E;
          [|now rewrite orb_false_r].
        exfalso. apply andb_true_iff in E. destruct E as (E1 & E2).
        apply Z.eqb_eq in E1, E2. destruct Hin as (Hc1 & Hr1 & _).
        assert (r = row0 + drow) by lia. assert (c = col0 + dcol) by lia. subst r c.
        destruct (Z.leb_spec 0 (row0 + drow)); [|lia].
        destruct (Z.ltb_spec (row0 + drow) (rows (wm_grid w))); [|lia].
        destruct (Z.leb_spec 0 (col0 + dcol)); [|lia].
        destruct (Z.ltb_spec (col0 + dcol) (columns (wm_grid w))); [|lia].
        discriminate.
      + exact I7.
      + intros Hin Uc D. rewrite done_next_col in D.
        apply orb_true_iff in D. destruct D as [D|D]; [exact (I8 Hin Uc D)|].
        exfalso. apply andb_true_iff in D. destruct D as (D1 & D2).
        apply Z.eqb_eq in D1, D2. destruct Hin as (Hc1 & Hr1 & _).
        replace (row0 + drow) with (wm_row w) in G by lia.
        replace (col0 + dcol) with (wm_col w) in G by lia.
        destruct (Z.leb_spec 0 (wm_row w)); [|lia].
        destruct (Z.ltb_spec (wm_row w) (rows (wm_grid w))); [|lia].
        destruct (Z.leb_spec 0 (wm_col w)); [|lia].
        destruct (Z.ltb_spec (wm_col w) (columns (wm_grid w))); [|lia].
        discriminate. }
  destruct Hmid as (I1 & I2 & I3 & I4 & I5 & I6 & I7 & I8). unfold increase_inv.
  split; [exact I1|]. split; [exact I2|].
  split; [exact I3|]. split; [exact I4|]. split; [exact I5|]. split; [|split].
  - intros c r Hin. rewrite I6 by assumption.
    destruct (under_patch k row0 col0 c r) eqn:U; cbn [andb]; [|reflexivity].
    apply under_patch_iff in U.
    rewrite (done_next_row drow (r - row0) (c - col0) (columns k)); [reflexivity|lia].
  - exact I7.
  - intros Hin Uc D. apply (I8 Hin Uc).
    rewrite <- (done_next_row drow _ _ (columns k)); [exact D|].
    apply under_patch_iff in Uc. lia.
Qed.

(** ** Shapes and masks through one iteration of DA3D_block *)

Lemma for_loop_preserve {S : Type} (P : S -> Prop) n (body : Z -> S -> S) s :
  P s -> (forall i t, 0 <= i < n -> P t -> P (body i t)) -> P (for_loop n body s).
Proof.
  intros H0 Hstep. destruct (Z.le_gt_cases 0 n) as [Hn|Hn].
  - apply (for_loop_inv (fun _ t => P t)); auto.
  - now rewrite for_loop_le0 by lia.
Qed.

(** The second component of a loop over pairs, when it evolves on its
    own. *)
Lemma for_loop_snd {S T : Type} n (body : Z -> S * T -> S * T) (g : Z -> T -> T) s :
  (forall i st, snd (body i st) = g i (snd st)) ->
  snd (for_loop n body s) = for_loop n g (snd s).
Proof.
  intros H. destruct (Z.le_gt_cases 0 n) as [Hn|Hn].
  - apply (for_loop_inv (fun i st => snd st = for_loop i g (snd s))); [exact Hn| |].
    + now rewrite for_loop_le0 by lia.
    + intros i st Hi E. rewrite H, E, for_loop_succ by lia. reflexivity.
  - now rewrite !for_loop_le0 by lia.
Qed.

Lemma FastExtractPatch_shape {A : Type} (dflt : A) (src dst : Image A) pr pc :
  same_shape (FastExtractPatch dflt src pr pc dst) dst.
Proof.
  unfold FastExtractPatch.
  match goal with
  | |- context [for_loop (rows dst) ?body ?init] =>
      assert (G : same_shape (fst (fst (for_loop (rows dst) body init))) dst)
  end.
  { apply (for_loop_preserve (fun t => same_shape (fst (fst t)) dst)).
    - repeat split.
    - intros row [[d i] j] _ Hd. cbn [fst] in Hd.
      match goal with
      | |- context [for_loop ?n ?body ?init] =>
          assert (G : same_shape (fst (fst (for_loop n body init))) dst)
      end.
      { apply (for_loop_preserve (fun t => same_shape (fst (fst t)) dst)).
        - exact Hd.
        - intros el [[d' i'] j'] _ Hd'. exact Hd'. }
      destruct (for_loop _ _ (d, i, j)) as [[d' i'] j']. exact G. }
  destruct (for_loop (rows dst) _ _) as [[d i] j]. exact G.
Qed.

Lemma SubtractPlane_shape {Ar : Arith} r rp (y : Image F) :
  same_shape (SubtractPlane r rp y) y.
Proof.
  unfold SubtractPlane.
  apply (for_loop_preserve (fun t => same_shape t y)); [repeat split|].
  intros row t _ Ht.
  apply (for_loop_preserve (fun t => same_shape t y)); [exact Ht|].
  intros col t' _ Ht'.
  apply (for_loop_preserve (fun t => same_shape t y)); [exact Ht'|].
  intros chan t'' _ Ht''. exact Ht''.
Qed.

(** A store into the single channel of one pixel. *)
Lemma pixel1_store {A : Type} (dflt : A) (img d : Image A) col row (v : A) :
  channels img = 1 ->
  0 <= row < rows img -> 0 <= col < columns img ->
  wf_image d -> same_shape d img ->
  let d' := set_val d col row 0 v in
  wf_image d' /\ same_shape d' img /\
  (forall ch, 0 <= ch < channels img -> val dflt d' col row ch = v) /\
  (forall c r ch, in_image img c r ch -> (c, r) <> (col, row) ->
                  val dflt d' c r ch = val dflt d c r ch).
Proof.
  intros H1 Hrow Hcol Hw Hs d'. pose proof Hs as (Er & Ec & Ech).
  split; [now apply set_val_wf|]. split; [exact Hs|]. split.
  - intros ch Hch. replace ch with 0 by lia.
    apply val_set_same; [exact Hw|]. unfold in_image. lia.
  - intros c r ch Hin Hne. apply val_set_other.
    + unfold in_image. lia.
    + eapply same_shape_in_image; eauto.
    + intros E. inversion E. subst. apply Hne. reflexivity.
Qed.

Lemma BilateralWeight_mask {Ar : Arith} (fastexp : F -> F) (g k : Image F) r gam sig :
  wf_image k -> channels k = 1 -> rows g = rows k -> columns g = columns k ->
  let k' := BilateralWeight fastexp g k r gam sig in
  wf_image k' /\ same_shape k' k /\
  forall col row, 0 <= col < columns k -> 0 <= row < rows k ->
    fval k' col row 0 = fastexp (fopp (bilateral_x g r gam sig col row)).
Proof.
  intros Hw H1 Er Ec k'. subst k'. unfold BilateralWeight. rewrite Er.
  destruct (pixel_loop_spec fzero k (fun _ => columns g)
              (fun row col d =>
                 set_val d col row 0 (fastexp (fopp (bilateral_x g r gam sig col row))))
              (fun col row _ => fastexp (fopp (bilateral_x g r gam sig col row)))
              Hw (fun d _ => Ec)) as (W & S & V).
  - intros row col d Hrow Hcol Hwd Hs _.
    apply (pixel1_store fzero k d col row); assumption.
  - split; [exact W|]. split; [exact S|].
    intros col row Hc Hr. apply V. unfold in_image. lia.
Qed.

(** The mask that [aggregate] leaves in [k]: every weight squared. *)
Lemma aggregate_mask {Ar : Arith} s r pr pc y_m rp yt (o w k : Image F) :
  wf_image k -> channels k = 1 -> rows k = s -> columns k = s ->
  let k' := snd (aggregate s r pr pc y_m rp yt (o, w, k)) in
  wf_image k' /\ same_shape k' k /\
  forall col row, 0 <= col < columns k -> 0 <= row < rows k ->
    fval k' col row 0 = (fval k col row 0 *! fval k col row 0)%flt.
Proof.
  intros Hw H1 Er Ec k'. subst k' s. unfold aggregate.
  rewrite (for_loop_snd (rows k) _
             (fun row k0 => for_loop (rows k) (fun col k0 =>
                fset k0 col row 0 (fval k0 col row 0 *! fval k0 col row 0)%flt) k0)).
  2:{ intros row st.
      apply (for_loop_snd (rows k) _ (fun col k0 =>
                fset k0 col row 0 (fval k0 col row 0 *! fval k0 col row 0)%flt)).
      intros col [[o' w'] k0]. reflexivity. }
  cbn [snd].
  destruct (pixel_loop_spec fzero k (fun _ => rows k)
              (fun row col d =>
                 set_val d col row 0 (fval d col row 0 *! fval d col row 0)%flt)
              (fun col row _ => (fval k col row 0 *! fval k col row 0)%flt)
              Hw (fun d _ => eq_sym Ec)) as (W & S & V).
  - intros row col d Hrow Hcol Hwd Hs Hpix. rewrite (Hpix 0) by lia.
    apply (pixel1_store fzero k d col row); assumption.
  - split; [exact W|]. split; [exact S|].
    intros col row Hc Hr. apply V. unfold in_image. lia.
Qed.

Lemma bilateral_x_centre (g : Image RF) r gam sig :
  0 <= r <= 1073741824 ->
  @bilateral_x Exact.arith g r gam sig r r = 0%R.
Proof.
  intros Hr. unfold bilateral_x.
  change (@fadd Exact.arith) with Rplus. change (@fsub Exact.arith) with Rminus.
  change (@fmul Exact.arith) with Rmult. change (@fdiv Exact.arith) with Rdiv.
  change (@fzero Exact.arith) with 0%R. change (@f_of_int Exact.arith) with IZR.
  match goal with
  | |- context [for_loop (channels g) ?body ?init] =>
      assert (E : for_loop (channels g) body init = 0%R)
  end.
  { apply (for_loop_preserve (fun x => x = 0%R)); [reflexivity|].
    intros i t _ ->. change (@F Exact.arith) with R. ring. }
  rewrite E.
  rewrite (int_sub_small r r) by int_range.
  replace (r - r) with 0 by lia.
  change (int_add (int_mul 0 0) (int_mul 0 0)) with 0.
  change (@F Exact.arith) with R. unfold Rdiv. ring.
Qed.
(** ** One turn of the main loop, on the weight map *)

Section Turn.
  Context {Ar : Arith}.
  Variable fastexp : F -> F.
  Variables dft_forward dft_inverse : Z -> Z -> cplane -> cplane.
  Variable p : BlockParams.
  Variables noisy guide : Image F.

Abbreviation step := (loop_step fastexp dft_forward dft_inverse p noisy guide).

(** Whatever the arithmetic: a turn keeps the shape of the weight map,
    leaves a cell as it is or adds the square of a bilateral weight to it,
    and adds the square of the central weight to the cell that the scan
    returned. *)
Lemma loop_step_spec (st : BlockState) :
  params_ok p -> head_ok p st ->
  let grid := wm_grid (agg_weights st) in
  let grid' := wm_grid (agg_weights (step st)) in
  head_ok p (step st) /\ same_shape grid' grid /\
  (forall c r, in_image grid c r 0 ->
     fval grid' c r 0 = fval grid c r 0 \/
     exists x, fval grid' c r 0 = (fval grid c r 0 +! fastexp x *! fastexp x)%flt) /\
  exists mc mr g2,
    in_image grid mc mr 0 /\ fval grid mc mr 0 = min_weight st /\
    wm_scan grid = (min_weight st, mr, mc) /\
    fval grid' mc mr 0 = (fval grid mc mr 0 +! centre_sq fastexp p g2)%flt.
Proof.
  intros (Pr & Ps) (Hg & Hp & Hgr & Hgc & Kw & Kc & Kr & Kcol & Gr & Gc) grid grid'.
  subst grid' grid. unfold min_weight, loop_step, Minimum, wm_refresh.
  rewrite Hp.
  pose proof (wm_scan_cell (wm_grid (agg_weights st)) Hg) as Hscan.
  destruct (wm_scan (wm_grid (agg_weights st))) as [[m mr] mc].
  destruct Hscan as (Sin & Sm).
  cbn [fst snd wm_min]. unfold with_agg, block_body, block_to_freq.
  cbn [agg_weights FindMinimum wm_refresh wm_pending wm_row wm_col y g k_reg k y_m g_m
       reg_plane yt output weights].
  unfold FindMinimum, wm_refresh. cbn [wm_pending wm_row wm_col].
  set (w1 := mkWeightMap (wm_grid (agg_weights st)) m mr mc false).
  set (y1 := FastExtractPatch _ noisy mr mc (y st)).
  set (g1 := FastExtractPatch _ guide mr mc (g st)).
  set (kr := BilateralWeight fastexp g1 (k_reg st) _ _ _).
  set (rp := ComputeRegressionPlane y1 g1 kr (p_r p) (reg_plane st)).
  set (y2 := SubtractPlane (p_r p) rp y1).
  set (g2 := SubtractPlane (p_r p) rp g1).
  set (kk := BilateralWeight fastexp g2 (k st) (p_r p)
               (p_gamma_r_sigma2 p) (p_sigma_s2 p)).
  destruct (ModifyPatch y2 kk (y_m st) (Some (yt st))) as [ym1 yt1].
  destruct (ModifyPatch g2 kk (g_m st) None) as [gm1 gt1].
  unfold block_from_freq.
  cbn [agg_weights y g k_reg k y_m g_m reg_plane yt output weights].
  assert (G2s : same_shape g2 (g st)).
  { eapply same_shape_trans; [apply SubtractPlane_shape|apply FastExtractPatch_shape]. }
  destruct G2s as (G2r & G2c & _).
  destruct (BilateralWeight_mask fastexp g2 (k st) (p_r p)
              (p_gamma_r_sigma2 p) (p_sigma_s2 p) Kw Kc ltac:(lia) ltac:(lia))
    as (KKw & (KKr & KKc & KKch) & KKv).
  fold kk in KKw, KKr, KKc, KKch, KKv.
  match goal with
  | |- context [@aggregate ?a ?s ?r ?pr ?pc ?ym ?rpl ?ytl (?o, ?w, ?k0)] =>
      destruct (@aggregate_mask a s r pr pc ym rpl ytl o w k0 KKw
                  ltac:(lia) ltac:(lia) ltac:(lia))
        as (K2w & (K2r & K2c & K2ch) & K2v);
      set (agg := @aggregate a s r pr pc ym rpl ytl (o, w, k0)) in *
  end.
  destruct agg as [[o' w'] k2]. cbn [snd] in *.
  cbn [agg_weights y g k_reg k y_m g_m reg_plane yt output weights].
  pose proof Sin as (Sc & Sr & _).
  assert (Er : int_sub mr (p_r p) = mr - p_r p) by (apply int_sub_small; int_range).
  assert (Ec : int_sub mc (p_r p) = mc - p_r p) by (apply int_sub_small; int_range).
  rewrite Er, Ec.
  destruct (IncreaseWeights_inv w1 k2 (mr - p_r p) (mc - p_r p))
    as (I1 & I2 & I3 & I4 & I5 & I6 & I7 & I8);
    try (cbn [wm_grid]; assumption); try lia.
  set (w2 := IncreaseWeights w1 k2 (mr - p_r p) (mc - p_r p)) in *.
  unfold w1 in I2, I3, I4, I5, I6, I7, I8.
  cbn [wm_grid wm_min wm_row wm_col wm_pending] in I2, I3, I4, I5, I6, I7, I8.
  assert (U : under_patch k2 (mr - p_r p) (mc - p_r p) mc mr = true)
    by (apply under_patch_iff; lia).
  assert (Ksq : forall c r, 0 <= c < p_s p -> 0 <= r < p_s p ->
            fval k2 c r 0
            = (fastexp (fopp (bilateral_x g2 (p_r p) (p_gamma_r_sigma2 p) (p_sigma_s2 p) c r))
               *! fastexp (fopp (bilateral_x g2 (p_r p) (p_gamma_r_sigma2 p)
                                             (p_sigma_s2 p) c r)))%flt).
  { intros c r Hc Hr. rewrite K2v by lia. rewrite KKv by lia. reflexivity. }
  split; [|split; [|split]].
  - (* head_ok *)
    pose proof I2 as (S1 & S2 & S3).
    destruct Hg as (Gw & G1 & G2 & G3).
    unfold head_ok. cbn [agg_weights k g].
    split; [unfold grid_ok; split; [exact I1|lia]|].
    split; [apply I8; [exact Sin|exact U|apply done_end; lia]|].
    split; [lia|]. split; [lia|]. split; [exact K2w|]. repeat split; lia.
  - exact I2.
  - intros c r Hin. rewrite (I6 c r Hin).
    destruct (under_patch k2 (mr - p_r p) (mc - p_r p) c r) eqn:Uc; cbn [andb];
      [|now left].
    apply under_patch_iff in Uc.
    rewrite done_end by lia. right.
    rewrite Ksq by lia. eexists. reflexivity.
  - exists mc, mr, g2. split; [exact Sin|]. split; [symmetry; exact Sm|].
    split; [reflexivity|].
    rewrite (I6 mc mr Sin), U. rewrite done_end by lia. cbn [andb].
    replace (mc - (mc - p_r p)) with (p_r p) by lia.
    replace (mr - (mr - p_r p)) with (p_r p) by lia.
    rewrite Ksq by lia. reflexivity.
Qed.

End Turn.
(** ** Termination of the main loop *)

Lemma up_mono x y : (x <= y)%R -> up x <= up y.
Proof.
  intros H. destruct (archimed x) as (X1 & X2), (archimed y) as (Y1 & Y2).
  assert (L : (IZR (up x) < IZR (up y) + 1)%R) by lra.
  rewrite <- plus_IZR in L. apply lt_IZR in L. lia.
Qed.

Lemma up_drop x y : (y <= x - 1)%R -> up y < up x.
Proof.
  intros H. destruct (archimed x) as (X1 & X2), (archimed y) as (Y1 & Y2).
  assert (L : (IZR (up y) < IZR (up x))%R) by lra.
  now apply lt_IZR in L.
Qed.

Lemma up_pos x : (0 < x)%R -> 0 < up x.
Proof.
  intros H. destruct (archimed x) as (X1 & _).
  assert (L : (IZR 0 < IZR (up x))%R) by lra. now apply lt_IZR in L.
Qed.

Lemma need_mono t b w w' : (0 < b)%R -> (w <= w')%R -> (need t b w' <= need t b w)%nat.
Proof.
  intros Hb Hw. unfold need.
  assert (L : up ((t - w') / b) <= up ((t - w) / b)).
  { apply up_mono. unfold Rdiv. apply Rmult_le_compat_r; [|lra].
    apply Rlt_le, Rinv_0_lt_compat, Hb. }
  lia.
Qed.

Lemma need_drop t b w w' :
  (0 < b)%R -> (w < t)%R -> (w + b <= w')%R -> (need t b w' < need t b w)%nat.
Proof.
  intros Hb Hw Hw'. unfold need.
  assert (P : 0 < up ((t - w) / b)).
  { apply up_pos. apply Rdiv_lt_0_compat; lra. }
  assert (L : up ((t - w') / b) < up ((t - w) / b)).
  { apply up_drop.
    replace ((t - w) / b - 1)%R with ((t - w - b) / b)%R by (field; lra).
    unfold Rdiv. apply Rmult_le_compat_r; [|lra].
    apply Rlt_le, Rinv_0_lt_compat, Hb. }
  lia.
Qed.

Lemma list_sum_cons (a : nat) l : list_sum (a :: l) = (a + list_sum l)%nat.
Proof. reflexivity. Qed.

Section Potential.
  Context {A : Type} (dflt : A) (wval : A -> R).

Lemma sum_need_le t b (l l' : list A) :
  (0 < b)%R -> length l = length l' ->
  (forall i, (i < length l)%nat -> (wval (nth i l dflt) <= wval (nth i l' dflt))%R) ->
  (list_sum (map (fun x => need t b (wval x)) l')
   <= list_sum (map (fun x => need t b (wval x)) l))%nat.
Proof.
  intros Hb. revert l'. induction l as [|a l IH]; intros [|a' l'] Hl H;
    try discriminate; [reflexivity|].
  cbn [map]; rewrite !list_sum_cons.
  pose proof (need_mono t b (wval a) (wval a') Hb (H O ltac:(cbn; lia))).
  assert (list_sum (map (fun x => need t b (wval x)) l')
          <= list_sum (map (fun x => need t b (wval x)) l))%nat.
  { apply IH; [cbn in Hl; lia|]. intros i Hi. apply (H (S i)). cbn. lia. }
  lia.
Qed.

Lemma sum_need_lt t b (l l' : list A) j :
  (0 < b)%R -> length l = length l' ->
  (forall i, (i < length l)%nat -> (wval (nth i l dflt) <= wval (nth i l' dflt))%R) ->
  (j < length l)%nat -> (wval (nth j l dflt) < t)%R ->
  (wval (nth j l dflt) + b <= wval (nth j l' dflt))%R ->
  (list_sum (map (fun x => need t b (wval x)) l')
   < list_sum (map (fun x => need t b (wval x)) l))%nat.
Proof.
  intros Hb. revert l' j. induction l as [|a l IH]; intros [|a' l'] j Hl H Hj Ht Hd;
    try discriminate; [cbn in Hj; lia|].
  cbn [map]; rewrite !list_sum_cons.
  assert (T : forall i, (i < length l)%nat ->
                        (wval (nth i l dflt) <= wval (nth i l' dflt))%R).
  { intros i Hi. apply (H (S i)). cbn. lia. }
  destruct j as [|j].
  - cbn in Ht, Hd. pose proof (need_drop t b (wval a) (wval a') Hb Ht Hd).
    pose proof (sum_need_le t b l l' Hb ltac:(cbn in Hl; lia) T). lia.
  - pose proof (need_mono t b (wval a) (wval a') Hb (H O ltac:(cbn; lia))).
    assert (list_sum (map (fun x => need t b (wval x)) l')
            < list_sum (map (fun x => need t b (wval x)) l))%nat.
    { apply (IH l' j); [cbn in Hl; lia|exact T|cbn in Hj; lia|exact Ht|exact Hd]. }
    lia.
Qed.

Lemma get_lin_nth (l : list A) (i : nat) :
  get_lin dflt l (Z.of_nat i) = nth i l dflt.
Proof.
  unfold get_lin. destruct (Z.ltb_spec (Z.of_nat i) 0); [lia|].
  now rewrite Nat2Z.id.
Qed.

(** The measure drops when no weight goes down and one weight below the
    threshold goes up by [b] at least. *)
Lemma potential_drop t b (grid grid' : Image A) mc mr :
  (0 < b)%R -> wf_image grid -> wf_image grid' -> same_shape grid' grid ->
  (forall c r ch, in_image grid c r ch ->
                  (wval (val dflt grid c r ch) <= wval (val dflt grid' c r ch))%R) ->
  in_image grid mc mr 0 ->
  (wval (val dflt grid mc mr 0) < t)%R ->
  (wval (val dflt grid mc mr 0) + b <= wval (val dflt grid' mc mr 0))%R ->
  (potential wval t b grid' < potential wval t b grid)%nat.
Proof.
  intros Hb Hw Hw' (S1 & S2 & S3) Hle Hin Ht Hd. unfold potential.
  assert (Hlen : length (data grid) = length (data grid')).
  { destruct Hw as (_ & _ & _ & L), Hw' as (_ & _ & _ & L').
    rewrite S1, S2, S3 in L'. lia. }
  assert (Hidx : forall c r ch, index grid' c r ch = index grid c r ch).
  { intros. unfold index. now rewrite S2, S3. }
  pose proof (index_range grid mc mr 0 Hw Hin) as Hj.
  apply (sum_need_lt t b _ _ (Z.to_nat (index grid mc mr 0)) Hb Hlen).
  - intros i Hi.
    assert (Hi' : 0 <= Z.of_nat i < Z.of_nat (length (data grid))).
    { apply Nat2Z.inj_lt in Hi. split; [lia|exact Hi]. }
    destruct (index_decompose grid (Z.of_nat i) Hw Hi')
      as (c & r & ch & Hc & E).
    specialize (Hle c r ch Hc). unfold val in Hle. rewrite Hidx, <- !E in Hle.
    now rewrite !get_lin_nth in Hle.
  - lia.
  - unfold val in Ht. rewrite <- (Z2Nat.id (index grid mc mr 0)) in Ht by lia.
    now rewrite get_lin_nth in Ht.
  - unfold val in Hd. rewrite Hidx in Hd.
    rewrite <- (Z2Nat.id (index grid mc mr 0)) in Hd by lia.
    now rewrite !get_lin_nth in Hd.
Qed.

End Potential.
(** ** The main loop, from the first turn to the last *)

Lemma Image_new_wf {A : Type} (d : A) r c ch :
  0 <= r -> 0 <= c -> 0 <= ch -> wf_image (Image_new d r c ch).
Proof.
  intros Hr Hc Hch. unfold wf_image, Image_new. cbn [rows columns channels data].
  rewrite repeat_length. repeat split; try assumption.
  rewrite Z2Nat.id; [reflexivity|]. apply Z.mul_nonneg_nonneg; [|assumption].
  now apply Z.mul_nonneg_nonneg.
Qed.

Lemma Image_new_val {A : Type} (d : A) r c ch col row chan :
  val d (Image_new d r c ch) col row chan = d.
Proof.
  unfold val, get_lin, Image_new. cbn [data].
  destruct (_ <? 0); [reflexivity|].
  destruct (Nat.lt_ge_cases (Z.to_nat (index (mkImage r c ch (repeat d (Z.to_nat (r * c * ch))))
                                         col row chan))
                            (Z.to_nat (r * c * ch))) as [L|L].
  - now apply nth_repeat_lt.
  - apply nth_overflow. now rewrite repeat_length.
Qed.

Lemma Rltb_true x y : Exact.Rltb x y = true <-> (x < y)%R.
Proof. unfold Exact.Rltb. destruct (Rlt_dec x y); split; intros; congruence. Qed.

Lemma Rltb_false x y : Exact.Rltb x y = false <-> (y <= x)%R.
Proof.
  unfold Exact.Rltb. destruct (Rlt_dec x y); split; intros; try congruence; lra.
Qed.

Section Loop.
  Context {Ar : Arith}.
  Variable wok : F -> Prop.
  Variable wval : F -> R.
  Hypothesis laws : weight_laws wok wval.
  Variable fastexp : F -> F.
  Variables dft_forward dft_inverse : Z -> Z -> cplane -> cplane.
  Variable p : BlockParams.
  Variables noisy guide : Image F.
  Variable b : R.
  Hypothesis b_pos : (0 < b)%R.
  Hypothesis sq_ok : forall x, wok (fastexp x *! fastexp x)%flt.
  Variable t : R.
  Hypothesis thr_lt : forall w,
    wok w -> fltb w (p_threshold p) = true -> (wval w < t)%R.
  Hypothesis progress : forall g2 w,
    wok w -> (wval w < t)%R ->
    (wval w + b <= wval (w +! centre_sq fastexp p g2)%flt)%R.

Abbreviation turn := (loop_step fastexp dft_forward dft_inverse p noisy guide).
Abbreviation turns n st := (Nat.iter n turn st).
Abbreviation grid_of st := (wm_grid (agg_weights st)).
Abbreviation loop := (main_loop fastexp dft_forward dft_inverse p noisy guide).
Abbreviation at_exit st := (with_agg st (snd (Minimum (agg_weights st)))).

Lemma block_init_head_ok :
  params_ok p ->
  p_s p <= rows guide <= 1073741824 -> p_s p <= columns guide <= 1073741824 ->
  head_ok p (block_init p guide) /\ cells_ok wok (grid_of (block_init p guide)).
Proof.
  intros (Pr & Ps) Hr Hc. split.
  - unfold head_ok, block_init, WeightMap_new, grid_ok.
    cbn [agg_weights wm_grid wm_pending k g rows columns channels Image_new].
    rewrite !int_sub_small by int_range. rewrite !int_add_small by int_range.
    repeat match goal with |- _ /\ _ => split end; try lia; try reflexivity.
    + apply (Image_new_wf (A := F)); lia.
    + apply (Image_new_wf (A := F)); lia.
  - intros c r _. unfold block_init, WeightMap_new. cbn [agg_weights wm_grid].
    rewrite Image_new_val. apply (wl_zero wok wval laws).
Qed.

Lemma main_loop_unfold fuel st :
  loop fuel st =
  if fltb (min_weight st) (p_threshold p)
  then match fuel with O => None | S f => loop f (turn st) end
  else Some (at_exit st).
Proof.
  unfold min_weight, loop_step.
  destruct fuel; cbn [main_loop]; destruct (Minimum (agg_weights st)); reflexivity.
Qed.

(** What a turn does to the weights: they stay weights, none goes down,
    and the one the loop condition read, a least one, goes up by the
    square of the central bilateral weight. *)
Lemma turn_weights st :
  params_ok p -> head_ok p st -> cells_ok wok (grid_of st) ->
  head_ok p (turn st) /\ cells_ok wok (grid_of (turn st)) /\
  same_shape (grid_of (turn st)) (grid_of st) /\
  (forall c r, in_image (grid_of st) c r 0 ->
     (wval (fval (grid_of st) c r 0) <= wval (fval (grid_of (turn st)) c r 0))%R) /\
  wok (min_weight st) /\
  (forall c r, in_image (grid_of st) c r 0 ->
     (wval (min_weight st) <= wval (fval (grid_of st) c r 0))%R) /\
  exists mc mr g2,
    in_image (grid_of st) mc mr 0 /\ fval (grid_of st) mc mr 0 = min_weight st /\
    fval (grid_of (turn st)) mc mr 0 = (min_weight st +! centre_sq fastexp p g2)%flt.
Proof.
  intros Hp Hh Hc.
  destruct (loop_step_spec fastexp dft_forward dft_inverse p noisy guide st Hp Hh)
    as (Hh' & Hs & Hcell & mc & mr & g2 & Hin & Hv & Hscan & Hv').
  assert (Hstep : forall c r, in_image (grid_of st) c r 0 ->
            wok (fval (grid_of (turn st)) c r 0) /\
            (wval (fval (grid_of st) c r 0) <= wval (fval (grid_of (turn st)) c r 0))%R).
  { intros c r Hi. destruct (Hcell c r Hi) as [E|(x & E)]; rewrite E.
    - split; [apply Hc, Hi|apply Rle_refl].
    - apply (wl_add wok wval laws); [apply Hc, Hi|apply sq_ok]. }
  split; [exact Hh'|]. split.
  { intros c r Hi. apply Hstep. destruct Hs as (S1 & S2 & S3).
    unfold in_image in *. rewrite S1, S2, S3 in Hi. exact Hi. }
  split; [exact Hs|]. split; [intros c r Hi; apply Hstep, Hi|].
  split; [rewrite <- Hv; apply Hc, Hin|]. split.
  { pose proof (wm_scan_min wok wval (grid_of st) laws (proj1 Hh) Hc) as M.
    rewrite Hscan in M. exact M. }
  exists mc, mr, g2. split; [exact Hin|]. split; [exact Hv|].
  rewrite Hv', Hv. reflexivity.
Qed.

Lemma turns_head_ok st n :
  params_ok p -> head_ok p st -> cells_ok wok (grid_of st) ->
  head_ok p (turns n st) /\ cells_ok wok (grid_of (turns n st)).
Proof.
  intros Hp Hh Hc. induction n as [|n IH]; [split; assumption|].
  cbn [Nat.iter]. destruct IH as (I1 & I2).
  destruct (turn_weights _ Hp I1 I2) as (T1 & T2 & _). split; assumption.
Qed.

Lemma turn_potential st :
  params_ok p -> head_ok p st -> cells_ok wok (grid_of st) ->
  fltb (min_weight st) (p_threshold p) = true ->
  (potential wval t b (grid_of (turn st))
   < potential wval t b (grid_of st))%nat.
Proof.
  intros Hp Hh Hc Hlt.
  destruct (turn_weights st Hp Hh Hc)
    as (Hh' & Hc' & Hs & Hmono & Hm & _ & mc & mr & g2 & Hin & Hv & Hv').
  apply (thr_lt _ Hm) in Hlt.
  destruct Hh as ((Hw & _ & _ & Hch) & _), Hh' as ((Hw' & _) & _).
  apply (potential_drop fzero wval _ _ _ _ mc mr b_pos Hw Hw' Hs).
  - intros c r ch Hi.
    assert (ch = 0) as -> by (unfold in_image in Hi; lia). now apply Hmono.
  - exact Hin.
  - rewrite Hv. exact Hlt.
  - rewrite Hv', Hv. apply progress; assumption.
Qed.

Lemma main_loop_from n : forall st,
  params_ok p -> head_ok p st -> cells_ok wok (grid_of st) ->
  (potential wval t b (grid_of st) <= n)%nat ->
  exists j, (j <= n)%nat /\
    (forall i, (i < j)%nat -> fltb (min_weight (turns i st)) (p_threshold p) = true) /\
    fltb (min_weight (turns j st)) (p_threshold p) = false /\
    forall fuel, (j <= fuel)%nat -> loop fuel st = Some (at_exit (turns j st)).
Proof.
  induction n as [|n IH]; intros st Hp Hh Hc Hpot.
  - destruct (fltb (min_weight st) (p_threshold p)) eqn:L.
    + pose proof (turn_potential st Hp Hh Hc L). lia.
    + exists O. split; [lia|]. split; [intros; lia|]. split; [exact L|].
      intros fuel _. rewrite main_loop_unfold. now rewrite L.
  - destruct (fltb (min_weight st) (p_threshold p)) eqn:L.
    + pose proof (turn_potential st Hp Hh Hc L) as Hd.
      destruct (turn_weights st Hp Hh Hc) as (Hh' & Hc' & _).
      destruct (IH (turn st) Hp Hh' Hc' ltac:(lia))
        as (j & Hj & Hbelow & Hreach & Hrun).
      exists (S j). split; [lia|]. split; [|split].
      * intros [|i] Hi; [exact L|]. rewrite Nat.iter_succ_r. apply Hbelow. lia.
      * rewrite Nat.iter_succ_r. exact Hreach.
      * intros [|fuel] Hfu; [lia|]. rewrite main_loop_unfold. rewrite L.
        rewrite Nat.iter_succ_r. apply Hrun. lia.
    + exists O. split; [lia|]. split; [intros; lia|]. split; [exact L|].
      intros fuel _. rewrite main_loop_unfold. now rewrite L.
Qed.

Lemma turn_min_weight st :
  params_ok p -> head_ok p st -> cells_ok wok (grid_of st) ->
  (wval (min_weight st) <= wval (min_weight (turn st)))%R.
Proof.
  intros Hp Hh Hc.
  destruct (turn_weights st Hp Hh Hc) as (Hh' & Hc' & Hs & Hmono & _ & Hmin & _).
  destruct (turn_weights _ Hp Hh' Hc') as (_ & _ & _ & _ & _ & _ & mc & mr & _ & Hin & Hv & _).
  rewrite <- Hv.
  assert (Hin0 : in_image (grid_of st) mc mr 0).
  { destruct Hs as (S1 & S2 & S3). unfold in_image in *.
    rewrite S1, S2, S3 in Hin. exact Hin. }
  eapply Rle_trans; [apply (Hmin mc mr Hin0)|apply (Hmono mc mr Hin0)].
Qed.

(** The main loop under the laws of the weights: every weight is a weight
    at every loop head and never goes down, the minimum that the loop
    condition reads never goes down, and after finitely many turns it is
    no longer below the threshold: the loop exits. *)
Lemma main_loop_laws :
  params_ok p ->
  p_s p <= rows guide <= 1073741824 -> p_s p <= columns guide <= 1073741824 ->
  let st := loop_state fastexp dft_forward dft_inverse p noisy guide in
  (forall n col row, in_image (grid_of (st n)) col row 0 ->
     wok (fval (grid_of (st n)) col row 0) /\
     (wval (fval (grid_of (st n)) col row 0)
      <= wval (fval (grid_of (st (S n))) col row 0))%R) /\
  (forall n, wok (min_weight (st n)) /\
             (wval (min_weight (st n)) <= wval (min_weight (st (S n))))%R) /\
  exists n,
    (forall i, (i < n)%nat -> fltb (min_weight (st i)) (p_threshold p) = true) /\
    fltb (min_weight (st n)) (p_threshold p) = false /\
    forall fuel, (n <= fuel)%nat ->
      loop fuel (block_init p guide) = Some (at_exit (st n)).
Proof.
  intros Hp Hrows Hcols st.
  destruct (block_init_head_ok Hp Hrows Hcols) as (H0 & C0).
  assert (Hh : forall n, head_ok p (st n) /\ cells_ok wok (grid_of (st n))).
  { intros n. apply (turns_head_ok _ n Hp H0 C0). }
  split; [|split].
  - intros n col row Hin. destruct (Hh n) as (A1 & A2).
    split; [apply A2, Hin|].
    destruct (turn_weights (st n) Hp A1 A2) as (_ & _ & _ & Hmono & _).
    apply Hmono, Hin.
  - intros n. destruct (Hh n) as (A1 & A2).
    split; [|apply (turn_min_weight (st n) Hp A1 A2)].
    destruct (turn_weights (st n) Hp A1 A2) as (_ & _ & _ & _ & Hm & _). exact Hm.
  - destruct (main_loop_from _ (block_init p guide) Hp H0 C0 (le_n _))
      as (n & _ & Hbelow & Hreach & Hrun).
    exists n. split; [exact Hbelow|]. split; [exact Hreach|exact Hrun].
Qed.

End Loop.
(** ** The main loop in exact arithmetic and in binary32 *)

Lemma NextPowerOf2_bounds n :
  1 <= n <= 32768 -> n <= NextPowerOf2 n <= 32768.
Proof.
  intros Hn. unfold NextPowerOf2. split.
  - apply (Z.log2_log2_up_spec n). lia.
  - change 32768 with (2 ^ 15). apply Z.pow_le_mono_r; [lia|].
    apply Z.log2_up_le_pow2; [lia|]. change (2 ^ 15) with 32768. lia.
Qed.

Lemma block_params_ok {Ar : Arith} (sigma : F) (r : Z)
    (sigma_s gamma_r gamma_f threshold : F) :
  0 <= r <= 16383 ->
  let p := block_params sigma r sigma_s gamma_r gamma_f threshold in
  params_ok p /\ p_s p = NextPowerOf2 (2 * r + 1) /\ p_threshold p = threshold /\
  p_r p = r.
Proof.
  intros Hr p. unfold params_ok, p, block_params. cbn [p_r p_s p_threshold].
  rewrite int_mul_small by int_range. rewrite int_add_small by int_range.
  pose proof (NextPowerOf2_bounds (2 * r + 1) ltac:(lia)). repeat split; lia.
Qed.

(** The laws of the weights hold of the non-negative reals. *)
Lemma weight_laws_exact :
  @weight_laws Exact.arith (fun w : R => (0 <= w)%R) (fun w : R => w).
Proof.
  split.
  - apply Rle_refl.
  - intros x y _ _. apply Rltb_true.
  - intros w x Hw Hx. change (@fadd Exact.arith) with Rplus. lra.
Qed.

(** In exact arithmetic the main loop of DA3D_block terminates for every
    threshold, provided fastexp(0) is not zero. *)
Lemma main_loop_terminates_exact (fastexp : R -> R)
    (dft_forward dft_inverse : Z -> Z -> @cplane Exact.arith -> @cplane Exact.arith)
    (noisy guide : Image RF) (sigma : R) (r : Z)
    (sigma_s gamma_r gamma_f threshold : R) :
  tile_ok r guide ->
  fastexp 0%R <> 0%R ->
  let p := @block_params Exact.arith sigma r sigma_s gamma_r gamma_f threshold in
  let st := @loop_state Exact.arith fastexp dft_forward dft_inverse p noisy guide in
  let grid n := wm_grid (agg_weights (st n)) in
  (forall n col row, in_image (grid n) col row 0 ->
     (0 <= val 0 (grid n) col row 0 <= val 0 (grid (S n)) col row 0)%R) /\
  (forall n, (min_weight (st n) <= min_weight (st (S n)))%R) /\
  exists n,
    (forall i, (i < n)%nat -> (min_weight (st i) < threshold)%R) /\
    (threshold <= min_weight (st n))%R /\
    forall fuel, (n <= fuel)%nat ->
      @DA3D_block Exact.arith fastexp dft_forward dft_inverse fuel noisy guide
                  sigma r sigma_s gamma_r gamma_f threshold
      = Some (output (st n), weights (st n)).
Proof.
  intros (Hr & Hrows & Hcols) Hf p st grid.
  destruct (@block_params_ok Exact.arith sigma r sigma_s gamma_r gamma_f threshold Hr)
    as (Hp & Hs & Ht & Hpr).
  fold p in Hp, Hs, Ht, Hpr.
  assert (Hb : (0 < fastexp 0 * fastexp 0)%R) by nra.
  assert (SQ : forall x : R, (0 <= (@fmul Exact.arith (fastexp x) (fastexp x)))%R).
  { intros x. change (@fmul Exact.arith) with Rmult. nra. }
  assert (TL : forall w : R, (0 <= w)%R ->
                 @fltb Exact.arith w (p_threshold p) = true -> (w < threshold)%R).
  { intros w _ L. rewrite Ht in L. apply Rltb_true. exact L. }
  assert (PR : forall (g2 : Image RF) (w : R), (0 <= w)%R -> (w < threshold)%R ->
                 (w + fastexp 0 * fastexp 0
                  <= @fadd Exact.arith w (@centre_sq Exact.arith fastexp p g2))%R).
  { intros g2 w Hw _. unfold centre_sq. rewrite bilateral_x_centre by lia.
    change (@fopp Exact.arith) with Ropp. change (@fmul Exact.arith) with Rmult.
    change (@fadd Exact.arith) with Rplus. rewrite Ropp_0. apply Rle_refl. }
  destruct (@main_loop_laws Exact.arith (fun w : R => (0 <= w)%R) (fun w : R => w)
              weight_laws_exact fastexp dft_forward dft_inverse p noisy guide
              (fastexp 0 * fastexp 0)%R Hb SQ threshold TL PR)
    as (A & B & n & C1 & C2 & C3).
  - exact Hp.
  - rewrite Hs. exact Hrows.
  - rewrite Hs. exact Hcols.
  - fold st in A, B, C1, C2, C3. split; [|split].
    + intros n' col row Hin. exact (A n' col row Hin).
    + intros n'. exact (proj2 (B n')).
    + exists n. rewrite Ht in C1, C2. split; [|split].
      * intros i Hi. apply Rltb_true. exact (C1 i Hi).
      * apply Rltb_false. exact C2.
      * intros fuel Hfuel. unfold DA3D_block. fold p.
        rewrite (C3 fuel Hfuel). reflexivity.
Qed.


(** ** The unguarded division of the shrinkage loop *)

Lemma SFdiv_by_zero prec emax (x z : spec_float) :
  F32.is_zero z = true -> F32.is_finite (SFdiv prec emax x z) = false.
Proof.
  destruct z; try discriminate. intros _. destruct x; reflexivity.
Qed.




(** ** sigma = 0 in binary32

    With sigma = 0 the range divisor gamma_r * sigma^2 of BilateralWeight
    is a zero, and at the centre of the patch the range distance is a zero
    too: fastexp is called on a NaN there. *)

Lemma SFsub_self (x : spec_float) :
  F32.is_finite x = true ->
  F32.is_zero (SFsub F32.prec32 F32.emax32 x x) = true.
Proof.
  destruct x as [s|s| |s m e]; try discriminate; intros _.
  - destruct s; reflexivity.
  - unfold SFsub. rewrite Z.min_id, Z.sub_diag. reflexivity.
Qed.

Lemma SFmul_zero_zero (x y : spec_float) :
  F32.is_zero x = true -> F32.is_zero y = true ->
  F32.is_zero (SFmul F32.prec32 F32.emax32 x y) = true.
Proof. destruct x, y; try discriminate; reflexivity. Qed.

Lemma SFadd_zero_zero (x y : spec_float) :
  F32.is_zero x = true -> F32.is_zero y = true ->
  F32.is_zero (SFadd F32.prec32 F32.emax32 x y) = true.
Proof.
  destruct x as [[]| | |], y as [[]| | |]; try discriminate; reflexivity.
Qed.

Lemma SFadd_nan_l prec emax (y : spec_float) : SFadd prec emax S754_nan y = S754_nan.
Proof. reflexivity. Qed.

Lemma bilateral_x_sigma0_centre (g : Image spec_float) (r : Z)
    (gamma_r_sigma2 sigma_s2 : spec_float) :
  (forall chan, 0 <= chan < channels g ->
     F32.is_finite (val (@fzero F32.arith) g r r chan) = true) ->
  F32.is_zero gamma_r_sigma2 = true ->
  F32.is_nan (@bilateral_x F32.arith g r gamma_r_sigma2 sigma_s2 r r) = true.
Proof.
  intros Hfin Hz. unfold bilateral_x. cbv zeta.
  match goal with
  | |- context [@fdiv _ (for_loop ?n ?b ?i) _] =>
      set (body := b); set (x0 := for_loop n body i)
  end.
  assert (Hx : F32.is_zero x0 = true).
  { subst x0. destruct (Z.le_gt_cases (channels g) 0) as [Hc|Hc].
    - rewrite for_loop_le0 by exact Hc. reflexivity.
    - apply (for_loop_inv (fun _ x => F32.is_zero x = true) (channels g) body);
        [lia|reflexivity|].
      intros chan x Hchan Hzx. unfold body.
      apply SFadd_zero_zero; [exact Hzx|].
      apply SFmul_zero_zero; apply SFsub_self, Hfin; lia. }
  clearbody x0. destruct x0; try discriminate.
  destruct gamma_r_sigma2; try discriminate. reflexivity.
Qed.

(** The weight BilateralWeight stores at the centre is then
    fastexp(NaN), whatever that is. *)
Example BilateralWeight_sigma0_centre (fastexp : spec_float -> spec_float) :
  let zero := S754_zero false in
  let one := F32.of_int32 1 in
  let g := mkImage 1 1 1 [F32.of_int32 7] in
  val zero (@BilateralWeight F32.arith fastexp g (Image_new zero 1 1 1) 0 zero one) 0 0 0
  = fastexp S754_nan.
Proof. reflexivity. Qed.

Lemma fastexp_at_nan (fastexp : spec_float -> spec_float) :
  fastexp = (fun x => if F32.is_nan x then fastexp S754_nan else fastexp x).
Proof.
  apply FunctionalExtensionality.functional_extensionality.
  intros x. destruct x; reflexivity.
Qed.

(** On a tile of one pixel (radius 0, so S = 1, where the transform is
    the identity) fastexp is called on NaN and on nothing else: what
    DA3D_block returns at sigma = 0 is decided by fastexp(NaN) alone. *)
Lemma DA3D_block_sigma0_pixel (fastexp : spec_float -> spec_float) :
  let zero := S754_zero false in
  let one := F32.of_int32 1 in
  let seven := F32.of_int32 7 in
  let tile := mkImage 1 1 1 [seven] in
  let run := @DA3D_block F32.arith fastexp (fun _ _ b => b) (fun _ _ b => b)
               1 tile tile zero 0 one one one one in
  (fastexp S754_nan = one ->
   run = Some (mkImage 1 1 1 [seven], mkImage 1 1 1 [one])) /\
  (fastexp S754_nan = S754_nan ->
   run = Some (mkImage 1 1 1 [S754_nan], mkImage 1 1 1 [S754_nan])).
Proof.
  intros zero one seven tile run. subst run.
  split; intros H; rewrite (fastexp_at_nan fastexp), H;
    vm_compute; reflexivity.
Qed.

(** * Part III: the rest of the pipeline *)

(** ** ComputeTiling in any arithmetic *)

Lemma divisor_pair N d : 0 < N -> 1 <= d <= N -> N mod d = 0 ->
  d * (N / d) = N /\ 1 <= N / d <= N.
Proof.
  intros HN Hd Hm.
  assert (E : N = d * (N / d)) by (apply Z.div_exact; lia).
  split; [lia|]. split.
  - apply Z.div_le_lower_bound; lia.
  - apply Z.div_le_upper_bound; nia.
Qed.

(** X1.  Whatever the arithmetic of the square root (binary32 rounding,
    a NaN or an infinity from a zero column count), ComputeTiling
    returns a pair of positive factors whose product is exactly the
    number of tiles, provided the truncated root leaves room for
    [r_low + 1] in an int. *)
Theorem ComputeTiling_product {Ar : Arith} (H W N : Z) :
  0 < N < INT_MAX -> r_low0 H W N < INT_MAX ->
  exists tr tc,
    ComputeTiling H W N = Some (tr, tc) /\
    tr * tc = N /\ 1 <= tr <= N /\ 1 <= tc <= N.
Proof.
  intros HN Hr.
  destruct (ComputeTiling_cases H W N ltac:(lia)) as (C1 & C2 & C3).
  destruct (Z.lt_ge_cases (r_low0 H W N) 1) as [L|L].
  - exists 1, N. rewrite (C1 L). repeat split; lia.
  - destruct (Z.le_gt_cases N (r_low0 H W N)) as [G|G].
    + exists N, 1. rewrite (C2 ltac:(lia)). repeat split; lia.
    + destruct (C3 ltac:(lia)) as (lo & up & (Blo & Mlo & _) & (Bup & Mup & _) & E).
      rewrite E.
      destruct (divisor_pair N lo ltac:(lia) ltac:(lia) Mlo) as (Plo & Qlo).
      destruct (divisor_pair N up ltac:(lia) ltac:(lia) Mup) as (Pup & Qup).
      destruct (int_mul (int_mul up lo) W >? int_mul N H).
      * exists lo, (N / lo). repeat split; lia.
      * exists up, (N / up). repeat split; lia.
Qed.

Lemma ComputeTiling_product_witness :
  exists tr tc,
    @ComputeTiling F32.arith 480 0 6 = Some (tr, tc) /\
    tr * tc = 6 /\ 1 <= tr <= 6 /\ 1 <= tc <= 6.
Proof.
  apply (@ComputeTiling_product F32.arith 480 0 6).
  - unfold INT_MAX. lia.
  - vm_compute. reflexivity.
Defined.

(** ** Loops that map every channel of every pixel *)

Section PixelMap.
  Context {A : Type} (dflt : A).

(** The channel loop at one pixel: every channel is rewritten from what
    it held. *)
Lemma chan_loop_store (img d : Image A) (n col row : Z) (f : Z -> A -> A) :
  n = channels img ->
  0 <= row < rows img -> 0 <= col < columns img ->
  wf_image d -> same_shape d img ->
  let d' := for_loop n (fun ch e =>
              set_val e col row ch (f ch (val dflt e col row ch))) d in
  wf_image d' /\ same_shape d' img /\
  (forall ch, 0 <= ch < channels img ->
              val dflt d' col row ch = f ch (val dflt d col row ch)) /\
  (forall c r ch, in_image img c r ch -> (c, r) <> (col, row) ->
                  val dflt d' c r ch = val dflt d c r ch).
Proof.
  intros -> Hrow Hcol Hw Hs d'. subst d'.
  assert (Hch0 : 0 <= channels img).
  { destruct Hs as (_ & _ & <-). apply Hw. }
  set (body := fun ch e => set_val e col row ch (f ch (val dflt e col row ch))).
  set (Inv := fun m e =>
    wf_image e /\ same_shape e img /\
    (forall ch, 0 <= ch < channels img ->
       val dflt e col row ch
       = if ch <? m then f ch (val dflt d col row ch) else val dflt d col row ch) /\
    (forall c r ch, in_image img c r ch -> (c, r) <> (col, row) ->
       val dflt e c r ch = val dflt d c r ch)).
  assert (G : Inv (channels img) (for_loop (channels img) body d));
    [apply (for_loop_inv Inv (channels img) body d Hch0)|].
  - split; [exact Hw|]. split; [exact Hs|]. split; [|reflexivity].
    intros ch Hch. destruct (Z.ltb_spec ch 0); [lia|reflexivity].
  - intros m e Hm (We & Se & Ve & Oe).
    assert (I : forall ch, 0 <= ch < channels img -> in_image e col row ch).
    { intros ch Hch. destruct Se as (E1 & E2 & E3). unfold in_image.
      rewrite E1, E2, E3. lia. }
    unfold Inv, body.
    split; [now apply set_val_wf|]. split; [exact Se|]. split.
    + intros ch Hch. destruct (Z.eq_dec ch m) as [->|Hne].
      * rewrite val_set_same by (try assumption; apply I; lia).
        rewrite Ve by lia.
        destruct (Z.ltb_spec m m); [lia|].
        destruct (Z.ltb_spec m (m + 1)); [reflexivity|lia].
      * rewrite val_set_other
          by (try (apply I; lia); intros E; inversion E; lia).
        rewrite Ve by lia.
        destruct (Z.ltb_spec ch m); destruct (Z.ltb_spec ch (m + 1));
          try lia; reflexivity.
    + intros c r ch Hin Hne.
      rewrite val_set_other
        by (try (apply I; lia);
            try (eapply same_shape_in_image; eassumption);
            intros E; inversion E; subst; apply Hne; reflexivity).
      now apply Oe.
  - destruct G as (We & Se & Ve & Oe). split; [exact We|]. split; [exact Se|].
    split; [|exact Oe].
    intros ch Hch. rewrite Ve by lia.
    destruct (Z.ltb_spec ch (channels img)); [reflexivity|lia].
Qed.

(** A row/column/channel loop nest that rewrites every element from what
    it held. *)
Lemma pixel_map_spec (img : Image A) (ncf nchf : Image A -> Z)
    (f : Z -> Z -> Z -> A -> A) :
  wf_image img ->
  (forall d, same_shape d img -> ncf d = columns img) ->
  (forall d, same_shape d img -> nchf d = channels img) ->
  let res := for_loop (rows img) (fun row d =>
               for_loop (ncf d) (fun col d =>
                 for_loop (nchf d) (fun ch e =>
                   set_val e col row ch (f col row ch (val dflt e col row ch)))
                 d) d) img in
  wf_image res /\ same_shape res img /\
  forall col row ch, in_image img col row ch ->
    val dflt res col row ch = f col row ch (val dflt img col row ch).
Proof.
  intros Hw Hnc Hnch.
  apply (pixel_loop_spec dflt img ncf
           (fun row col d =>
              for_loop (nchf d) (fun ch e =>
                set_val e col row ch (f col row ch (val dflt e col row ch))) d)
           (fun col row ch => f col row ch (val dflt img col row ch))
           Hw Hnc).
  intros row col d Hrow Hcol Wd Sd Vd.
  destruct (chan_loop_store img d (nchf d) col row (f col row)
              (Hnch d Sd) Hrow Hcol Wd Sd) as (W' & S' & V' & O').
  split; [exact W'|]. split; [exact S'|]. split; [|exact O'].
  intros ch Hch. rewrite V' by exact Hch. now rewrite Vd.
Qed.

End PixelMap.

(** ** FastExtractPatch, pixel by pixel *)

(** X2.  When the destination has the channel count of the source and
    its window lies inside the source, FastExtractPatch keeps the shape
    of the destination and leaves in every cell (col, row, chan) the
    source value at (pc + col, pr + row, chan): (pr, pc) is the upper
    left pixel of the patch, and nothing of the old content of the
    destination survives. *)
Theorem FastExtractPatch_window {A : Type} (dflt : A)
    (src dst : Image A) (pr pc : Z) :
  wf_image src -> wf_image dst ->
  channels dst = channels src ->
  0 <= pr /\ pr + rows dst <= rows src ->
  0 <= pc /\ pc + columns dst <= columns src ->
  rows src * columns src * channels src <= INT_MAX ->
  let d := FastExtractPatch dflt src pr pc dst in
  wf_image d /\ same_shape d dst /\
  forall col row chan, in_image dst col row chan ->
    val dflt d col row chan = val dflt src (pc + col) (pr + row) chan.
Proof.
  intros Hsrc Hdst Hch Hpr Hpc Hint d.
  destruct (FastExtractPatch_filled dflt src dst pr pc Hdst Hch Hpr Hpc Hint)
    as (Er & Ec & Ech & El & Hv).
  fold d in Er, Ec, Ech, El, Hv.
  split.
  { destruct Hdst as (H1 & H2 & H3 & H4). unfold wf_image.
    rewrite Er, Ec, Ech, El. auto. }
  split; [repeat split; assumption|].
  intros col row chan (Hc & Hr & Hn).
  destruct (window_bounds src dst pr pc Hch Hpr Hpc col row chan Hr Hc Hn)
    as (B1 & _).
  unfold val at 1. unfold index. rewrite Ec, Ech.
  change (get_lin dflt (data d) ((row * columns dst + col) * channels dst + chan))
    with (val1 dflt d ((row * columns dst + col) * channels dst + chan)).
  rewrite Hv by lia.
  apply (patch_lin_cell dflt src dst pr pc Hch); assumption.
Qed.

Lemma FastExtractPatch_window_witness :
  let src := mkImage 2 3 2 [1; 2; 3; 4; 5; 6; 7; 8; 9; 10; 11; 12] in
  let dst := mkImage 1 2 2 [0; 0; 0; 0] in
  val 0 (FastExtractPatch 0 src 1 1 dst) 1 0 1 = val 0 src 2 1 1.
Proof.
  intros src dst.
  apply (FastExtractPatch_window 0 src dst 1 1);
    unfold wf_image, in_image, INT_MAX; simpl; lia.
Defined.

(** ** SubtractPlane and AddPlane *)

Lemma SubtractPlane_pixels {Ar : Arith} r rp (y : Image F) :
  wf_image y ->
  let y' := SubtractPlane r rp y in
  wf_image y' /\ same_shape y' y /\
  forall col row ch, in_image y col row ch ->
    fval y' col row ch
    = (fval y col row ch -!
       (fst (plane_at rp ch) *! f_of_int (int_sub row r)
        +! snd (plane_at rp ch) *! f_of_int (int_sub col r)))%flt.
Proof.
  intros Hw. unfold SubtractPlane.
  apply (pixel_map_spec fzero y (fun d => columns d) (fun d => channels d)
           (fun col row ch v =>
              (v -! (fst (plane_at rp ch) *! f_of_int (int_sub row r)
                     +! snd (plane_at rp ch) *! f_of_int (int_sub col r)))%flt)
           Hw).
  - intros d (_ & E & _). exact E.
  - intros d (_ & _ & E). exact E.
Qed.

Lemma AddPlane_pixels {Ar : Arith} r rp (y : Image F) :
  wf_image y ->
  let y' := AddPlane r rp y in
  wf_image y' /\ same_shape y' y /\
  forall col row ch, in_image y col row ch ->
    fval y' col row ch
    = (fval y col row ch +!
       (fst (plane_at rp ch) *! f_of_int (int_sub row r)
        +! snd (plane_at rp ch) *! f_of_int (int_sub col r)))%flt.
Proof.
  intros Hw. unfold AddPlane.
  apply (pixel_map_spec fzero y (fun d => columns d) (fun d => channels d)
           (fun col row ch v =>
              (v +! (fst (plane_at rp ch) *! f_of_int (int_sub row r)
                     +! snd (plane_at rp ch) *! f_of_int (int_sub col r)))%flt)
           Hw).
  - intros d (_ & E & _). exact E.
  - intros d (_ & _ & E). exact E.
Qed.

(** X3.  In exact arithmetic AddPlane undoes SubtractPlane and
    SubtractPlane undoes AddPlane, for the same radius and plane, on
    every image whose buffer has the size of its shape. *)
Theorem AddPlane_SubtractPlane (r : Z) (rp : list (R * R)) (y : Image RF) :
  wf_image y ->
  @AddPlane Exact.arith r rp (@SubtractPlane Exact.arith r rp y) = y /\
  @SubtractPlane Exact.arith r rp (@AddPlane Exact.arith r rp y) = y.
Proof.
  intros Hw.
  destruct (@SubtractPlane_pixels Exact.arith r rp y Hw) as (Ws & Ss & Vs).
  destruct (@AddPlane_pixels Exact.arith r rp y Hw) as (Wa & Sa & Va).
  destruct (@AddPlane_pixels Exact.arith r rp _ Ws) as (Was & Sas & Vas).
  destruct (@SubtractPlane_pixels Exact.arith r rp _ Wa) as (Wsa & Ssa & Vsa).
  split.
  - pose proof (same_shape_trans _ _ _ Sas Ss) as (E1 & E2 & E3).
    apply (image_ext (@fzero Exact.arith)); try assumption.
    intros col row ch Hin.
    assert (Hin' : in_image y col row ch).
    { unfold in_image in *. rewrite E1, E2, E3 in Hin. exact Hin. }
    rewrite Vas by (eapply same_shape_in_image; eassumption).
    rewrite Vs by exact Hin'.
    change (@fadd Exact.arith) with Rplus. change (@fsub Exact.arith) with Rminus.
    change (@F Exact.arith) with R. ring.
  - pose proof (same_shape_trans _ _ _ Ssa Sa) as (E1 & E2 & E3).
    apply (image_ext (@fzero Exact.arith)); try assumption.
    intros col row ch Hin.
    assert (Hin' : in_image y col row ch).
    { unfold in_image in *. rewrite E1, E2, E3 in Hin. exact Hin. }
    rewrite Vsa by (eapply same_shape_in_image; eassumption).
    rewrite Va by exact Hin'.
    change (@fadd Exact.arith) with Rplus. change (@fsub Exact.arith) with Rminus.
    change (@F Exact.arith) with R. ring.
Qed.

Lemma AddPlane_SubtractPlane_witness :
  let y := mkImage 1 2 1 [3; 5]%R in
  @AddPlane Exact.arith 0 [(1, 2)%R] (@SubtractPlane Exact.arith 0 [(1, 2)%R] y) = y.
Proof.
  intros y.
  apply (AddPlane_SubtractPlane 0 [(1, 2)%R] y).
  unfold wf_image. simpl. lia.
Defined.

(** ** BilateralWeight *)

Lemma sum_range_nonneg n f :
  (forall i, 0 <= i < n -> (0 <= f i)%R) -> (0 <= sum_range n f)%R.
Proof.
  intros H. destruct (Z.le_gt_cases 0 n) as [Hn|Hn].
  - apply (Wf_Z.natlike_ind
             (fun m => m <= n -> (0 <= sum_range m f)%R)); [| |exact Hn|lia].
    + intros _. rewrite sum_range_0. apply Rle_refl.
    + intros m Hm IH Hle. unfold Z.succ. rewrite sum_range_succ by lia.
      apply Rplus_le_le_0_compat; [apply IH; lia|apply H; lia].
  - rewrite sum_range_le0 by lia. apply Rle_refl.
Qed.

Lemma bilateral_x_exact (g : Image R) r gam sig col row :
  0 <= r < rows g -> rows g <= 32768 -> r < columns g -> columns g <= 32768 ->
  0 <= row < rows g -> 0 <= col < columns g ->
  @bilateral_x Exact.arith g r gam sig col row
  = (range_dist g r col row / gam + IZR (spatial_dist r col row) / (2 * sig))%R.
Proof.
  intros Hr Hnr Hc Hnc Hrow Hcol. unfold bilateral_x, range_dist, spatial_dist.
  change (@fadd Exact.arith) with Rplus. change (@fsub Exact.arith) with Rminus.
  change (@fmul Exact.arith) with Rmult. change (@fdiv Exact.arith) with Rdiv.
  change (@fzero Exact.arith) with 0%R. change (@f_of_int Exact.arith) with IZR.
  change (@F Exact.arith) with R.
  rewrite (for_loop_sum (channels g)
             (fun ch => (val 0 g col row ch - val 0 g r r ch)
                        * (val 0 g col row ch - val 0 g r r ch))%R).
  rewrite !int_sub_small by int_range.
  assert (-32767 <= row - r <= 32767) by lia.
  assert (-32767 <= col - r <= 32767) by lia.
  rewrite !int_mul_small by (int_range; nia).
  rewrite int_add_small by (int_range; nia).
  rewrite Rplus_0_l. reflexivity.
Qed.

(** X4.  In exact arithmetic, for a centre inside the patch and positive
    divisors, BilateralWeight stores fastexp(-x) in every cell of the
    mask, where x is the range distance to the centre pixel over
    gamma_r sigma^2 plus the squared distance to the centre over
    2 sigma_s^2: fastexp is only called on arguments that are zero or
    negative, and on zero at the centre. *)
Theorem BilateralWeight_spec (fastexp : R -> R) (g k : Image RF) (r : Z)
    (gam sig : R) :
  wf_image k -> channels k = 1 -> rows g = rows k -> columns g = columns k ->
  0 <= r < rows g -> rows g <= 32768 -> r < columns g -> columns g <= 32768 ->
  (0 < gam)%R -> (0 < sig)%R ->
  let k' := @BilateralWeight Exact.arith fastexp g k r gam sig in
  wf_image k' /\ same_shape k' k /\
  forall col row, 0 <= col < columns k -> 0 <= row < rows k ->
    let x := (range_dist g r col row / gam
              + IZR (spatial_dist r col row) / (2 * sig))%R in
    val 0%R k' col row 0 = fastexp (- x)%R /\ (0 <= x)%R /\
    (col = r -> row = r -> x = 0%R).
Proof.
  intros Hw H1 Er Ec Hr Hnr Hc Hnc Hgam Hsig k'.
  destruct (@BilateralWeight_mask Exact.arith fastexp g k r gam sig Hw H1 Er Ec)
    as (W & S & V).
  split; [exact W|]. split; [exact S|].
  intros col row Hcol Hrow x.
  assert (Ex : @bilateral_x Exact.arith g r gam sig col row = x).
  { change (@F Exact.arith) with R in *. apply bilateral_x_exact; lia. }
  split; [|split].
  - change (val 0%R k' col row 0)
      with (@val (@F Exact.arith) (@fzero Exact.arith) k' col row 0).
    unfold k'. rewrite (V col row Hcol Hrow). rewrite Ex. reflexivity.
  - unfold x. apply Rplus_le_le_0_compat.
    + apply Rmult_le_pos; [|apply Rlt_le, Rinv_0_lt_compat, Hgam].
      apply sum_range_nonneg. intros i _. apply Rle_0_sqr.
    + apply Rmult_le_pos; [|apply Rlt_le, Rinv_0_lt_compat; lra].
      apply IZR_le. unfold spatial_dist.
      pose proof (Z.square_nonneg (row - r)). pose proof (Z.square_nonneg (col - r)).
      lia.
  - intros -> ->. rewrite <- Ex. apply bilateral_x_centre. lia.
Qed.

Lemma BilateralWeight_spec_witness :
  let g := mkImage 1 2 1 [3; 5]%R in
  let k := @Image_new R 0%R 1 2 1 in
  val 0%R (@BilateralWeight Exact.arith (fun x => x) g k 0 1%R 1%R) 1 0 0
  = (- (range_dist g 0 1 0 / 1 + IZR (spatial_dist 0 1 0) / (2 * 1)))%R.
Proof.
  intros g k.
  apply (BilateralWeight_spec (fun x => x) g k 0 1%R 1%R);
    unfold wf_image; simpl; try lia; lra.
Defined.

(** ** Row/column loop nests over any state *)

Lemma loop2_inv {S : Type} (I : Z -> Z -> S -> Prop) nr nc
    (body : Z -> Z -> S -> S) (s : S) :
  0 <= nr -> 0 <= nc ->
  I 0 0 s ->
  (forall i j t, 0 <= i < nr -> 0 <= j < nc -> I i j t -> I i (j + 1) (body i j t)) ->
  (forall i t, 0 <= i < nr -> I i nc t -> I (i + 1) 0 t) ->
  I nr 0 (for_loop nr (fun i t => for_loop nc (fun j t => body i j t) t) s).
Proof.
  intros Hnr Hnc H0 Hcol Hrow.
  apply (for_loop_inv (fun i t => I i 0 t)); [exact Hnr|exact H0|].
  intros i t Hi Ht. apply Hrow; [exact Hi|].
  apply (for_loop_inv (fun j t => I i j t)); [exact Hnc|exact Ht|].
  intros j t' Hj Ht'. now apply Hcol.
Qed.

Lemma for_loop_fst {S T : Type} n (body : Z -> S * T -> S * T) (g : Z -> S -> S) s :
  (forall i st, fst (body i st) = g i (fst st)) ->
  fst (for_loop n body s) = for_loop n g (fst s).
Proof.
  intros H. destruct (Z.le_gt_cases 0 n) as [Hn|Hn].
  - apply (for_loop_inv (fun i st => fst st = for_loop i g (fst s))); [exact Hn| |].
    + now rewrite for_loop_le0 by lia.
    + intros i st Hi E. rewrite H, E, for_loop_succ by lia. reflexivity.
  - now rewrite !for_loop_le0 by lia.
Qed.

Lemma in_window_start nc r c : in_window nc 0 0 r c = false.
Proof.
  unfold in_window, done.
  destruct (Z.leb_spec 0 r); destruct (Z.leb_spec 0 c); destruct (Z.ltb_spec c nc);
    destruct (Z.ltb_spec r 0); destruct (Z.eqb_spec r 0); destruct (Z.ltb_spec c 0);
    cbn; try reflexivity; lia.
Qed.

Lemma in_window_next_col nc i j r c :
  0 <= i -> 0 <= j < nc ->
  in_window nc i (j + 1) r c = in_window nc i j r c || ((r =? i) && (c =? j)).
Proof.
  intros Hi Hj. unfold in_window. rewrite done_next_col.
  destruct (Z.leb_spec 0 r); destruct (Z.leb_spec 0 c); destruct (Z.ltb_spec c nc);
    destruct (Z.eqb_spec r i); destruct (Z.eqb_spec c j);
    destruct (done i j r c); cbn; try reflexivity; lia.
Qed.

Lemma in_window_next_row nc i r c :
  in_window nc (i + 1) 0 r c = in_window nc i nc r c.
Proof.
  unfold in_window.
  destruct (Z.leb_spec 0 r); destruct (Z.leb_spec 0 c); destruct (Z.ltb_spec c nc);
    cbn; try reflexivity.
  apply done_next_row. lia.
Qed.

Lemma in_window_end nc nr r c :
  in_window nc nr 0 r c = (0 <=? r) && (r <? nr) && (0 <=? c) && (c <? nc).
Proof.
  unfold in_window, done.
  destruct (Z.leb_spec 0 r); destruct (Z.leb_spec 0 c); destruct (Z.ltb_spec c nc);
    destruct (Z.ltb_spec r nr); destruct (Z.eqb_spec r nr); destruct (Z.ltb_spec c 0);
    cbn; try reflexivity; lia.
Qed.

(** ** ModifyPatch *)

Section Modify.
  Context {Ar : Arith}.
  Variables patch k : Image F.
  Hypothesis Hrows : 0 <= rows patch.
  Hypothesis Hcols : 0 <= columns patch.

(** The row/column loops of one channel. *)
Lemma ModifyPatch_channel (m0 : DftPatch) (chan : Z) (avg : F) :
  let m :=
    for_loop (rows patch) (fun row modified =>
      for_loop (columns patch) (fun col modified =>
        let modified := set_space modified col row chan
          ((fval k col row 0 *! fval patch col row chan
            +! (f_of_int 1 -! fval k col row 0) *! avg)%flt,
           snd (space modified col row chan)) in
        set_space modified col row chan
          (fst (space modified col row chan), fzero))
      modified) m0 in
  dp_rows m = dp_rows m0 /\ dp_columns m = dp_columns m0 /\
  dp_channels m = dp_channels m0 /\
  forall c r ch,
    space m c r ch =
    if (ch =? chan) && in_window (columns patch) (rows patch) 0 r c
    then masked_value patch k avg c r ch else space m0 c r ch.
Proof.
  apply (loop2_inv (fun i j m =>
    dp_rows m = dp_rows m0 /\ dp_columns m = dp_columns m0 /\
    dp_channels m = dp_channels m0 /\
    forall c r ch,
      space m c r ch =
      if (ch =? chan) && in_window (columns patch) i j r c
      then masked_value patch k avg c r ch else space m0 c r ch)
    (rows patch) (columns patch) _ m0 Hrows Hcols).
  - repeat split; auto. intros c r ch. rewrite in_window_start.
    now rewrite andb_false_r.
  - intros i j t Hi Hj (D1 & D2 & D3 & D5). cbv zeta.
    cbn [dp_rows dp_columns dp_channels dp_data space freq set_space].
    repeat split; auto.
    intros c r ch. rewrite in_window_next_col by lia.
    destruct (Z.eqb_spec ch chan) as [->|Nch]; cbn [andb].
    + destruct (Z.eqb_spec r i) as [->|Nr]; [destruct (Z.eqb_spec c j) as [->|Nc]|].
      * rewrite orb_true_r. rewrite !cbuf_set_same. reflexivity.
      * rewrite !cbuf_set_other by congruence. rewrite D5.
        rewrite Z.eqb_refl. cbn. now rewrite orb_false_r.
      * rewrite !cbuf_set_other by congruence. rewrite D5.
        rewrite Z.eqb_refl. cbn. now rewrite orb_false_r.
    + rewrite !cbuf_set_other by congruence. rewrite D5.
      destruct (Z.eqb_spec ch chan); [contradiction|]. reflexivity.
  - intros i t Hi (D1 & D2 & D3 & D5). repeat split; auto.
    intros c r ch. rewrite in_window_next_row. apply D5.
Qed.

(** All channels: the space view, cell by cell. *)
Lemma ModifyPatch_space (modified : DftPatch) (average : option (list F)) :
  let m := fst (ModifyPatch patch k modified average) in
  dp_rows m = dp_rows modified /\ dp_columns m = dp_columns modified /\
  dp_channels m = dp_channels modified /\
  forall c r ch,
    space m c r ch =
    if (0 <=? ch) && (ch <? channels patch)
       && in_window (columns patch) (rows patch) 0 r c
    then masked_value patch k (weighted_avg patch k ch (mask_weight k)) c r ch
    else space modified c r ch.
Proof.
  unfold ModifyPatch.
  set (W := mask_weight k).
  set (g := fun chan (m : DftPatch) =>
    for_loop (rows patch) (fun row modified =>
      for_loop (columns patch) (fun col modified =>
        let modified := set_space modified col row chan
          ((fval k col row 0 *! fval patch col row chan
            +! (f_of_int 1 -! fval k col row 0) *! weighted_avg patch k chan W)%flt,
           snd (space modified col row chan)) in
        set_space modified col row chan
          (fst (space modified col row chan), fzero))
      modified) m).
  cbv zeta.
  rewrite (for_loop_fst (channels patch) _ g) by (intros i [m a]; reflexivity).
  cbn [fst].
  destruct (Z.le_gt_cases 0 (channels patch)) as [Hch|Hch].
  2:{ rewrite for_loop_le0 by lia. repeat split; auto. intros c r ch.
      destruct (Z.leb_spec 0 ch); destruct (Z.ltb_spec ch (channels patch));
        cbn; try reflexivity; lia. }
  apply (for_loop_inv (fun n m =>
    dp_rows m = dp_rows modified /\ dp_columns m = dp_columns modified /\
    dp_channels m = dp_channels modified /\
    forall c r ch,
      space m c r ch =
      if (0 <=? ch) && (ch <? n) && in_window (columns patch) (rows patch) 0 r c
      then masked_value patch k (weighted_avg patch k ch W) c r ch
      else space modified c r ch)); [exact Hch| |].
  - repeat split; auto. intros c r ch.
    destruct (Z.leb_spec 0 ch); destruct (Z.ltb_spec ch 0); cbn; try reflexivity; lia.
  - intros n m Hn (D1 & D2 & D3 & D5).
    destruct (ModifyPatch_channel m n (weighted_avg patch k n W))
      as (E1 & E2 & E3 & E5).
    unfold g.
    split; [etransitivity; [exact E1|exact D1]|].
    split; [etransitivity; [exact E2|exact D2]|].
    split; [etransitivity; [exact E3|exact D3]|].
    intros c r ch. etransitivity; [apply E5|]. rewrite D5.
    destruct (Z.eqb_spec ch n) as [->|Nch]; cbn [andb].
    + destruct (Z.leb_spec 0 n); [|lia]. destruct (Z.ltb_spec n (n + 1)); [|lia].
      destruct (Z.ltb_spec n n); [lia|]. cbn [andb].
      destruct (in_window (columns patch) (rows patch) 0 r c); reflexivity.
    + destruct (Z.leb_spec 0 ch); destruct (Z.ltb_spec ch n);
        destruct (Z.ltb_spec ch (n + 1)); cbn [andb]; try reflexivity; lia.
Qed.

(** The averages, when the caller asked for them. *)
Lemma ModifyPatch_average (modified : DftPatch) (average : list F) :
  0 <= channels patch <= Z.of_nat (length average) ->
  exists l,
    snd (ModifyPatch patch k modified (Some average)) = Some l /\
    length l = length average /\
    (forall ch, 0 <= ch < channels patch ->
       get_lin fzero l ch = weighted_avg patch k ch (mask_weight k)) /\
    (forall ch, channels patch <= ch -> get_lin fzero l ch = get_lin fzero average ch).
Proof.
  intros Hlen. unfold ModifyPatch.
  set (W := mask_weight k). cbv zeta.
  rewrite (for_loop_snd (channels patch) _
             (fun chan a => match a with
                            | Some a => Some (set_lin a chan (weighted_avg patch k chan W))
                            | None => None
                            end))
    by (intros i [m a]; reflexivity).
  cbn [snd].
  destruct (for_loop_set_lin fzero (channels patch)
              (fun chan => weighted_avg patch k chan W) average Hlen)
    as (L & V & O).
  exists (for_loop (channels patch)
            (fun i l => set_lin l i (weighted_avg patch k i W)) average).
  split; [|split; [exact L|split; [exact V|exact O]]].
  apply (for_loop_inv (fun n a =>
           a = Some (for_loop n (fun i l => set_lin l i (weighted_avg patch k i W))
                              average))); [lia| |].
  - now rewrite for_loop_le0 by lia.
  - intros n a Hn ->. now rewrite for_loop_succ by lia.
Qed.

End Modify.

Lemma mask_weight_exact (k : Image R) :
  @mask_weight Exact.arith k = mask_total k.
Proof.
  unfold mask_weight, mask_total.
  change (@fadd Exact.arith) with Rplus. change (@fzero Exact.arith) with 0%R.
  change (@F Exact.arith) with R.
  rewrite (for_loop_sum2 (rows k) (columns k) (fun row col => val 0%R k col row 0)).
  apply Rplus_0_l.
Qed.

Lemma weighted_avg_exact (patch k : Image R) ch :
  @weighted_avg Exact.arith patch k ch (@mask_weight Exact.arith k)
  = masked_avg patch k ch.
Proof.
  unfold weighted_avg, masked_avg. rewrite mask_weight_exact.
  change (@fadd Exact.arith) with Rplus. change (@fmul Exact.arith) with Rmult.
  change (@fdiv Exact.arith) with Rdiv. change (@fzero Exact.arith) with 0%R.
  change (@F Exact.arith) with R.
  rewrite (for_loop_sum2 (rows patch) (columns patch)
             (fun row col => (val 0 k col row 0 * val 0 patch col row ch)%R)).
  now rewrite Rplus_0_l.
Qed.

(** X5.  In any arithmetic ModifyPatch fills the space view of the DFT
    patch, at every pixel and channel of the patch, with
    k p + (1 - k) avg in the real part and 0 in the imaginary part, avg
    being what the loops of the channel leave: the products k p added up
    in row order and divided by the mask weights added up in row order.
    It leaves every other entry of the buffer as it was and stores the
    averages of the channels in the caller's array.  In exact
    arithmetic, for a mask of non-zero total weight, avg is the
    k-weighted average of the channel. *)
Theorem ModifyPatch_spec {Ar : Arith} (patch k : Image F) (modified : DftPatch)
    (average : list F) (patchR kR : Image R) (chR : Z) :
  0 <= rows patch -> 0 <= columns patch ->
  0 <= channels patch <= Z.of_nat (length average) ->
  let res := ModifyPatch patch k modified (Some average) in
  let avg := fun ch => weighted_avg patch k ch (mask_weight k) in
  (forall col row ch, in_image patch col row ch ->
     space (fst res) col row ch
     = (fval k col row 0 *! fval patch col row ch
        +! (f_of_int 1 -! fval k col row 0) *! avg ch, fzero)%flt) /\
  (forall col row ch, ~ in_image patch col row ch ->
     space (fst res) col row ch = space modified col row ch) /\
  (exists l,
     snd res = Some l /\ length l = length average /\
     forall ch, 0 <= ch < channels patch -> get_lin fzero l ch = avg ch) /\
  (mask_total kR <> 0%R ->
   @weighted_avg Exact.arith patchR kR chR (@mask_weight Exact.arith kR)
   = (sum2 (rows patchR) (columns patchR)
           (fun row col => val 0 kR col row 0 * val 0 patchR col row chR)
      / sum2 (rows kR) (columns kR) (fun row col => val 0 kR col row 0))%R).
Proof.
  intros Hr Hc Hch res avg.
  destruct (ModifyPatch_space patch k Hr Hc modified (Some average))
    as (_ & _ & _ & Es).
  fold res in Es.
  split; [|split; [|split]].
  - intros col row ch (Hcol & Hrow & Hchan). rewrite Es.
    rewrite in_window_end.
    destruct (Z.leb_spec 0 ch); [|lia].
    destruct (Z.ltb_spec ch (channels patch)); [|lia].
    destruct (Z.leb_spec 0 row); [|lia].
    destruct (Z.ltb_spec row (rows patch)); [|lia].
    destruct (Z.leb_spec 0 col); [|lia].
    destruct (Z.ltb_spec col (columns patch)); [|lia].
    cbn [andb]. reflexivity.
  - intros col row ch Hout. rewrite Es. rewrite in_window_end.
    destruct (Z.leb_spec 0 ch); destruct (Z.ltb_spec ch (channels patch));
      destruct (Z.leb_spec 0 row); destruct (Z.ltb_spec row (rows patch));
      destruct (Z.leb_spec 0 col); destruct (Z.ltb_spec col (columns patch));
      cbn [andb]; try reflexivity.
    exfalso. apply Hout. unfold in_image. lia.
  - destruct (ModifyPatch_average patch k modified average Hch)
      as (l & El & Ll & Vl & _).
    exists l. split; [exact El|]. split; [exact Ll|exact Vl].
  - intros _. rewrite weighted_avg_exact. reflexivity.
Qed.

Lemma ModifyPatch_spec_witness :
  let i32 := F32.of_int32 in
  let half := @fdiv F32.arith (i32 1) (i32 2) in
  let patch := mkImage 1 2 1 [i32 3; i32 5] in
  let k := mkImage 1 2 1 [i32 1; half] in
  let res := @ModifyPatch F32.arith patch k (@DftPatch_new F32.arith 2 2 1)
               (Some [i32 0]) in
  let avg := @fdiv F32.arith
               (@fadd F32.arith (@fmul F32.arith (i32 1) (i32 3))
                                (@fmul F32.arith half (i32 5)))
               (@fadd F32.arith (i32 1) half) in
  @space F32.arith (fst res) 1 0 0
  = (@fadd F32.arith (@fmul F32.arith half (i32 5))
                     (@fmul F32.arith (@fsub F32.arith (i32 1) half) avg),
     i32 0)
  /\ snd res = Some [avg]
  /\ SFltb (i32 3) avg = true /\ SFltb avg (i32 4) = true.
Proof.
  intros i32 half patch k res avg.
  destruct (@ModifyPatch_spec F32.arith patch k (@DftPatch_new F32.arith 2 2 1)
              [i32 0] (mkImage 0 0 0 []) (mkImage 0 0 0 []) 0
              ltac:(simpl; lia) ltac:(simpl; lia) ltac:(simpl; lia))
    as (V & _ & (l & El & Ll & Vl) & _).
  split; [|split; [|split]].
  - etransitivity; [apply V; unfold in_image; simpl; lia|].
    vm_compute. reflexivity.
  - vm_compute. reflexivity.
  - vm_compute. reflexivity.
  - vm_compute. reflexivity.
Defined.

(** ** The aggregation loops *)

Section Aggregate.
  Context {Ar : Arith}.
  Variables (s r pr pc : Z) (y_m : DftPatch).
  Variables (reg_plane : list (F * F)) (yt : list F) (o w k : Image F).
  Hypothesis Hk : wf_image k.
  Hypothesis Hk1 : channels k = 1.
  Hypothesis Hkr : rows k = s.
  Hypothesis Hkc : columns k = s.
  Hypothesis Ho : wf_image o.
  Hypothesis Hw : wf_image w.
  Hypothesis Hw1 : channels w = 1.
  Hypothesis Hwr : rows w = rows o.
  Hypothesis Hwc : columns w = columns o.
  Hypothesis Hpr : 0 <= pr /\ pr + s <= rows o.
  Hypothesis Hpc : 0 <= pc /\ pc + s <= columns o.
  Hypothesis Hro : rows o <= 1073741824.
  Hypothesis Hco : columns o <= 1073741824.

Lemma aggregate_loops :
  aggregate_inv s r pr pc y_m reg_plane yt o w k s 0
                (aggregate s r pr pc y_m reg_plane yt (o, w, k)).
Proof.
  assert (Hs : 0 <= s) by (rewrite <- Hkr; apply Hk).
  unfold aggregate.
  apply (loop2_inv (aggregate_inv s r pr pc y_m reg_plane yt o w k) s s _ (o, w, k)
                   Hs Hs).
  - unfold aggregate_inv.
    split; [exact Ho|]. split; [repeat split|]. split; [exact Hw|].
    split; [repeat split|]. split; [exact Hk|]. split; [repeat split|].
    split; [|split].
    + intros c r0 Hc Hr0. now rewrite done_start by lia.
    + intros c r0 ch _. now rewrite in_window_start.
    + intros c r0 _. now rewrite in_window_start.
  - intros i j [[o' w'] k'] Hi Hj (Wo & So & Ww & Sw & Wk & Sk & Vk & Vo & Vw).
    unfold aggregate_inv.
    assert (Ei : int_add i pr = i + pr) by (apply int_add_small; int_range).
    assert (Ej : int_add j pc = j + pc) by (apply int_add_small; int_range).
    rewrite Ei, Ej.
    assert (Kcur : fval k' j i 0 = fval k j i 0).
    { rewrite Vk by lia. unfold done.
      destruct (Z.ltb_spec i i); [lia|]. destruct (Z.ltb_spec j j); [lia|].
      now rewrite andb_false_r. }
    destruct (chan_loop_store fzero o o' (channels o') (j + pc) (i + pr)
                (fun chan v =>
                   (v +! (fst (space y_m j i chan)
                          +! (fst (plane_at reg_plane chan) *! f_of_int (int_sub i r)
                              +! snd (plane_at reg_plane chan) *! f_of_int (int_sub j r))
                             *! fval k' j i 0
                          -! (f_of_int 1 -! fval k' j i 0) *! get_lin fzero yt chan)
                         *! fval k' j i 0)%flt)
                (proj2 (proj2 So)) ltac:(lia) ltac:(lia) Wo So)
      as (Wo2 & So2 & Vo2 & Oo2).
    destruct (pixel1_store fzero k k' j i (fval k' j i 0 *! fval k' j i 0)%flt
                Hk1 ltac:(lia) ltac:(lia) Wk Sk) as (Wk2 & Sk2 & Vk2 & Ok2).
    set (k2 := set_val k' j i 0 (fval k' j i 0 *! fval k' j i 0)%flt) in *.
    destruct (pixel1_store fzero w w' (j + pc) (i + pr)
                (fval w' (j + pc) (i + pr) 0 +! fval k2 j i 0)%flt
                Hw1 ltac:(lia) ltac:(lia) Ww Sw) as (Ww2 & Sw2 & Vw2 & Ow2).
    split; [exact Wo2|]. split; [exact So2|]. split; [exact Ww2|].
    split; [exact Sw2|]. split; [exact Wk2|]. split; [exact Sk2|].
    split; [|split].
    + intros c r0 Hc Hr0. rewrite done_next_col.
      destruct (Z.eqb_spec r0 i) as [->|Nr]; [destruct (Z.eqb_spec c j) as [->|Nc]|].
      * rewrite orb_true_r. rewrite Vk2 by lia. now rewrite Kcur.
      * rewrite Ok2 by (try (unfold in_image; lia); congruence).
        rewrite Vk by lia. cbn. now rewrite orb_false_r.
      * rewrite Ok2 by (try (unfold in_image; lia); congruence).
        rewrite Vk by lia. cbn. now rewrite orb_false_r.
    + intros c r0 ch Hin. rewrite in_window_next_col by lia.
      destruct (Z.eqb_spec (r0 - pr) i) as [Er|Nr];
        [destruct (Z.eqb_spec (c - pc) j) as [Ec|Nc]|].
      * rewrite orb_true_r.
        replace c with (j + pc) by lia. replace r0 with (i + pr) by lia.
        rewrite Vo2 by (destruct Hin as (_ & _ & ?); assumption).
        rewrite Vo by (unfold in_image in *; lia).
        assert (N : in_window s i j (i + pr - pr) (j + pc - pc) = false).
        { unfold in_window, done.
          replace (i + pr - pr) with i by lia. replace (j + pc - pc) with j by lia.
          destruct (Z.ltb_spec i i); [lia|]. destruct (Z.ltb_spec j j); [lia|].
          now rewrite !andb_false_r. }
        rewrite N. unfold patch_term.
        replace (j + pc - pc) with j by lia. replace (i + pr - pr) with i by lia.
        now rewrite Kcur.
      * rewrite Oo2 by (try assumption; intros E; inversion E; lia).
        rewrite Vo by assumption. cbn. now rewrite orb_false_r.
      * rewrite Oo2 by (try assumption; intros E; inversion E; lia).
        rewrite Vo by assumption. cbn. now rewrite orb_false_r.
    + intros c r0 Hin. rewrite in_window_next_col by lia.
      destruct (Z.eqb_spec (r0 - pr) i) as [Er|Nr];
        [destruct (Z.eqb_spec (c - pc) j) as [Ec|Nc]|].
      * rewrite orb_true_r.
        replace c with (j + pc) by lia. replace r0 with (i + pr) by lia.
        rewrite Vw2 by lia.
        rewrite Vw by (unfold in_image in *; lia).
        assert (N : in_window s i j (i + pr - pr) (j + pc - pc) = false).
        { unfold in_window, done.
          replace (i + pr - pr) with i by lia. replace (j + pc - pc) with j by lia.
          destruct (Z.ltb_spec i i); [lia|]. destruct (Z.ltb_spec j j); [lia|].
          now rewrite !andb_false_r. }
        rewrite N.
        replace (j + pc - pc) with j by lia. replace (i + pr - pr) with i by lia.
        unfold k2. rewrite Vk2 by lia. now rewrite Kcur.
      * rewrite Ow2 by (try assumption; intros E; inversion E; lia).
        rewrite Vw by assumption. cbn. now rewrite orb_false_r.
      * rewrite Ow2 by (try assumption; intros E; inversion E; lia).
        rewrite Vw by assumption. cbn. now rewrite orb_false_r.
  - intros i [[o' w'] k'] Hi (Wo & So & Ww & Sw & Wk & Sk & Vk & Vo & Vw).
    unfold aggregate_inv. repeat (split; [assumption|]).
    split; [|split].
    + intros c r0 Hc Hr0. rewrite (done_next_row i r0 c s) by lia. now apply Vk.
    + intros c r0 ch Hin. rewrite in_window_next_row. now apply Vo.
    + intros c r0 Hin. rewrite in_window_next_row. now apply Vw.
Qed.

End Aggregate.

(** X6.  In any arithmetic, when the patch window [pr, pr + s) x
    [pc, pc + s) lies inside the tile, the aggregation loops add to the
    output, at every pixel and channel of the window, the filtered value
    with the regression plane restored and the average removed, times k;
    they add k^2 to the weights at every pixel of the window; they leave
    output and weights unchanged outside the window; and they leave the
    mask squared. *)
Theorem aggregate_spec {Ar : Arith} (s r pr pc : Z) (y_m : DftPatch)
    (reg_plane : list (F * F)) (yt : list F) (o w k : Image F) :
  wf_image k -> channels k = 1 -> rows k = s -> columns k = s ->
  wf_image o -> wf_image w -> channels w = 1 ->
  rows w = rows o -> columns w = columns o ->
  0 <= pr /\ pr + s <= rows o -> 0 <= pc /\ pc + s <= columns o ->
  rows o <= 1073741824 -> columns o <= 1073741824 ->
  let res := aggregate s r pr pc y_m reg_plane yt (o, w, k) in
  let o' := fst (fst res) in
  let w' := snd (fst res) in
  let k' := snd res in
  same_shape o' o /\ same_shape w' w /\ same_shape k' k /\
  (forall col row ch, in_image o col row ch ->
     fval o' col row ch =
     if under_patch k pr pc col row
     then (fval o col row ch
           +! patch_term r y_m reg_plane yt k (col - pc) (row - pr) ch)%flt
     else fval o col row ch) /\
  (forall col row, in_image w col row 0 ->
     fval w' col row 0 =
     if under_patch k pr pc col row
     then (fval w col row 0
           +! fval k (col - pc) (row - pr) 0 *! fval k (col - pc) (row - pr) 0)%flt
     else fval w col row 0) /\
  (forall col row, in_image k col row 0 ->
     fval k' col row 0 = (fval k col row 0 *! fval k col row 0)%flt).
Proof.
  intros Hk Hk1 Hkr Hkc Ho Hw Hw1 Hwr Hwc Hpr Hpc Hro Hco res o' w' k'.
  pose proof (aggregate_loops s r pr pc y_m reg_plane yt o w k
                Hk Hk1 Hkr Hkc Ho Hw Hw1 Hwr Hwc Hpr Hpc Hro Hco) as G.
  fold res in G. subst o' w' k'. destruct res as [[o' w'] k'].
  destruct G as (_ & So & _ & Sw & _ & Sk & Vk & Vo & Vw). cbn [fst snd].
  assert (U : forall col row,
             in_window s s 0 (row - pr) (col - pc) = under_patch k pr pc col row).
  { intros col row. rewrite in_window_end. unfold under_patch.
    now rewrite Hkr, Hkc. }
  split; [exact So|]. split; [exact Sw|]. split; [exact Sk|].
  split; [|split].
  - intros col row ch Hin. rewrite <- U. now apply Vo.
  - intros col row Hin. rewrite <- U. now apply Vw.
  - intros col row (Hc & Hr & _). rewrite Vk by lia.
    rewrite done_end by lia. reflexivity.
Qed.

Lemma aggregate_spec_witness :
  let k := mkImage 1 1 1 [3%R] in
  let o := mkImage 2 2 1 [0; 0; 0; 0]%R in
  let w := mkImage 2 2 1 [1; 1; 1; 1]%R in
  let res := @aggregate Exact.arith 1 0 1 1 (@DftPatch_new Exact.arith 1 1 1)
               [(0, 0)%R] [0%R] (o, w, k) in
  val 0%R (snd (fst res)) 1 1 0 = (1 + 3 * 3)%R /\
  val 0%R (snd (fst res)) 0 1 0 = 1%R.
Proof.
  intros k o w res.
  destruct (@aggregate_spec Exact.arith 1 0 1 1 (@DftPatch_new Exact.arith 1 1 1)
              [(0, 0)%R] [0%R] o w k) as (_ & _ & _ & _ & Vw & _);
    try (unfold wf_image; simpl; lia); try reflexivity.
  split.
  - apply (Vw 1 1). unfold in_image. simpl. lia.
  - apply (Vw 0 1). unfold in_image. simpl. lia.
Defined.

(** ** SplitTiles *)

Lemma core_start_mono n t t' tiles :
  0 <= n -> 0 < tiles -> t <= t' -> core_start n t tiles <= core_start n t' tiles.
Proof.
  intros Hn HT Ht. unfold core_start. apply Z.div_le_mono; [lia|nia].
Qed.

Lemma core_start_0 n tiles : core_start n 0 tiles = 0.
Proof. unfold core_start. now rewrite Z.mul_0_r. Qed.

Lemma core_start_end n tiles : 0 < tiles -> core_start n tiles tiles = n.
Proof. intros H. unfold core_start. apply Z.div_mul. lia. Qed.

Lemma core_start_range n t tiles :
  0 <= n -> 0 < tiles -> 0 <= t <= tiles -> 0 <= core_start n t tiles <= n.
Proof.
  intros Hn HT Ht.
  pose proof (core_start_mono n 0 t tiles Hn HT ltac:(lia)).
  pose proof (core_start_mono n t tiles tiles Hn HT ltac:(lia)).
  rewrite core_start_0 in *. rewrite core_start_end in * by lia. lia.
Qed.

Lemma tile_start_small n t tiles pb pa :
  tiling_ok n tiles pb pa -> 0 <= t < tiles ->
  tile_start n t tiles pb = core_start n t tiles - pb.
Proof.
  intros (Hn & HT & Hm & Hpb & Hpa & Hnp) Ht. unfold tile_start, core_start.
  assert (0 <= n * t <= n * tiles) by nia.
  rewrite int_mul_small by int_range.
  pose proof (core_start_range n t tiles ltac:(lia) ltac:(lia) ltac:(lia)) as R.
  unfold core_start in R.
  unfold int_div. rewrite Z.quot_div_nonneg by lia.
  rewrite (wrap_small (n * t / tiles)) by int_range.
  apply int_sub_small. int_range.
Qed.

Lemma tile_end_small n t tiles pb pa :
  tiling_ok n tiles pb pa -> 0 <= t < tiles ->
  tile_end n t tiles pa = core_start n (t + 1) tiles + pa.
Proof.
  intros (Hn & HT & Hm & Hpb & Hpa & Hnp) Ht. unfold tile_end, core_start.
  assert (0 <= n * (t + 1) <= n * tiles) by nia.
  assert (tiles <= INT_MAX) by nia.
  rewrite (int_add_small t 1) by int_range.
  rewrite int_mul_small by int_range.
  pose proof (core_start_range n (t + 1) tiles ltac:(lia) ltac:(lia) ltac:(lia)) as R.
  unfold core_start in R.
  unfold int_div. rewrite Z.quot_div_nonneg by lia.
  rewrite (wrap_small (n * (t + 1) / tiles)) by int_range.
  apply int_add_small. int_range.
Qed.

Section MakeTile.
  Context {A : Type} (dflt : A).
  Variables (src : Image A) (rs re cs ce : Z).
  Hypothesis Hch : 0 <= channels src.
  Hypothesis Hr : -536870912 <= rs /\ rs <= re /\ re <= 536870912.
  Hypothesis Hc : -536870912 <= cs /\ cs <= ce /\ ce <= 536870912.

Lemma make_tile_spec :
  let tile := make_tile dflt src rs re cs ce in
  wf_image tile /\
  rows tile = re - rs /\ columns tile = ce - cs /\ channels tile = channels src /\
  forall col row ch, in_image tile col row ch ->
    val dflt tile col row ch
    = val dflt src (SymmetricCoordinate (cs + col) (columns src))
                   (SymmetricCoordinate (rs + row) (rows src)) ch.
Proof.
  unfold make_tile, for_range.
  rewrite !int_sub_small by int_range.
  set (tile0 := Image_new dflt (re - rs) (ce - cs) (channels src)).
  assert (W0 : wf_image tile0) by (apply Image_new_wf; lia).
  rewrite (for_loop_ext (re - rs) _
             (fun row d =>
                for_loop ((fun _ : Image A => ce - cs) d) (fun col d =>
                  for_loop ((fun _ : Image A => channels src) d) (fun ch e =>
                    set_val e col row ch
                      ((fun col row ch (_ : A) =>
                          val dflt src (SymmetricCoordinate (cs + col) (columns src))
                                       (SymmetricCoordinate (rs + row) (rows src)) ch)
                         col row ch (val dflt e col row ch)))
                  d) d)).
  2:{ intros i t Hi. apply for_loop_ext. intros j t' Hj.
      apply for_loop_ext. intros ch t'' Hc'.
      rewrite !int_sub_small by int_range.
      replace (cs + j - cs) with j by lia. replace (rs + i - rs) with i by lia.
      reflexivity. }
  match goal with |- context [for_loop (re - rs) ?b tile0] =>
    set (t := for_loop (re - rs) b tile0) end.
  assert (G : wf_image t /\ same_shape t tile0 /\
              forall col row ch, in_image tile0 col row ch ->
                val dflt t col row ch =
                val dflt src (SymmetricCoordinate (cs + col) (columns src))
                             (SymmetricCoordinate (rs + row) (rows src)) ch).
  { exact (pixel_map_spec dflt tile0 (fun _ => ce - cs) (fun _ => channels src)
             (fun col row ch (_ : A) =>
                val dflt src (SymmetricCoordinate (cs + col) (columns src))
                             (SymmetricCoordinate (rs + row) (rows src)) ch)
             W0 (fun _ _ => eq_refl) (fun _ _ => eq_refl)). }
  destruct G as (W & (S1 & S2 & S3) & V).
  split; [exact W|]. split; [exact S1|]. split; [exact S2|]. split; [exact S3|].
  intros col row ch Hin. apply V.
  unfold in_image in *. rewrite S1, S2, S3 in Hin. exact Hin.
Qed.

End MakeTile.

Lemma get_lin_app_l {T : Type} (d : T) (l : list T) x i :
  0 <= i < Z.of_nat (length l) -> get_lin d (l ++ [x]) i = get_lin d l i.
Proof.
  intros H. unfold get_lin. destruct (Z.ltb_spec i 0); [lia|].
  apply app_nth1. lia.
Qed.

Lemma get_lin_app_last {T : Type} (d : T) (l : list T) x :
  get_lin d (l ++ [x]) (Z.of_nat (length l)) = x.
Proof.
  unfold get_lin. destruct (Z.ltb_spec (Z.of_nat (length l)) 0); [lia|].
  rewrite Nat2Z.id. apply nth_middle.
Qed.

Lemma done_lt i j a b m :
  0 <= i -> 0 <= j <= m -> 0 <= a -> 0 <= b < m ->
  done i j a b = true -> a * m + b < i * m + j.
Proof.
  intros Hi Hj Ha Hb. unfold done.
  destruct (Z.ltb_spec a i); destruct (Z.eqb_spec a i); destruct (Z.ltb_spec b j);
    cbn; intros E; try discriminate; nia.
Qed.

(** Two nested loops that push one element per turn build the list of
    the elements in row-major order. *)
Lemma push_loops {T : Type} (d : T) (n m : Z) (f : Z -> Z -> T) :
  0 <= n -> 0 <= m ->
  let l := for_loop n (fun i acc =>
             for_loop m (fun j acc => acc ++ [f i j]) acc) [] in
  Z.of_nat (length l) = n * m /\
  forall i j, 0 <= i < n -> 0 <= j < m -> get_lin d l (i * m + j) = f i j.
Proof.
  intros Hn Hm l.
  assert (G : (fun i j acc =>
                 Z.of_nat (length acc) = i * m + j /\
                 forall a b, 0 <= a -> 0 <= b < m -> done i j a b = true ->
                             get_lin d acc (a * m + b) = f a b) n 0 l).
  { apply (loop2_inv (fun i j acc =>
                 Z.of_nat (length acc) = i * m + j /\
                 forall a b, 0 <= a -> 0 <= b < m -> done i j a b = true ->
                             get_lin d acc (a * m + b) = f a b)
             n m (fun i j acc => acc ++ [f i j]) [] Hn Hm).
    - split; [reflexivity|]. intros a b Ha Hb D.
      rewrite done_start in D by lia. discriminate.
    - intros i j acc Hi Hj (L & V). split.
      + rewrite length_app. cbn [length]. lia.
      + intros a b Ha Hb D. rewrite done_next_col in D.
        destruct (done i j a b) eqn:E.
        * rewrite get_lin_app_l; [now apply V|].
          pose proof (done_lt i j a b m ltac:(lia) ltac:(lia) Ha Hb E). nia.
        * cbn [orb] in D. apply andb_true_iff in D. destruct D as (D1 & D2).
          apply Z.eqb_eq in D1, D2. subst a b. rewrite <- L.
          apply get_lin_app_last.
    - intros i acc Hi (L & V). split; [lia|].
      intros a b Ha Hb D. rewrite (done_next_row i a b m) in D by lia.
      now apply V. }
  destruct G as (L & V). split; [lia|].
  intros i j Hi Hj. apply V; [lia|lia|]. apply done_end. lia.
Qed.

(** The tiles of SplitTiles, one by one. *)
Lemma SplitTiles_nth {A : Type} (dflt : A) (src : Image A)
    (pad_before pad_after t1 t2 : Z) :
  tiling_ok (rows src) t1 pad_before pad_after ->
  tiling_ok (columns src) t2 pad_before pad_after ->
  let tiles := SplitTiles dflt src pad_before pad_after (t1, t2) in
  Z.of_nat (length tiles) = t1 * t2 /\
  forall tr tc, 0 <= tr < t1 -> 0 <= tc < t2 ->
    let rstart := core_start (rows src) tr t1 - pad_before in
    let rend := core_start (rows src) (tr + 1) t1 + pad_after in
    let cstart := core_start (columns src) tc t2 - pad_before in
    let cend := core_start (columns src) (tc + 1) t2 + pad_after in
    get_lin (mkImage 0 0 0 []) tiles (tr * t2 + tc)
    = make_tile dflt src rstart rend cstart cend /\
    (-536870912 <= rstart /\ rstart <= rend /\ rend <= 536870912) /\
    (-536870912 <= cstart /\ cstart <= cend /\ cend <= 536870912).
Proof.
  intros Hr Hc tiles.
  pose proof Hr as (Hr1 & Hr2 & Hr3 & Hr4 & Hr5 & Hr6).
  pose proof Hc as (Hc1 & Hc2 & Hc3 & Hc4 & Hc5 & Hc6).
  destruct (push_loops (mkImage 0 0 0 []) t1 t2
              (fun tr tc =>
                 make_tile dflt src
                   (tile_start (rows src) tr t1 pad_before)
                   (tile_end (rows src) tr t1 pad_after)
                   (tile_start (columns src) tc t2 pad_before)
                   (tile_end (columns src) tc t2 pad_after))
              ltac:(lia) ltac:(lia)) as (L & V).
  split; [exact L|].
  intros tr tc Htr Htc rstart rend cstart cend.
  unfold tiles, SplitTiles. cbn [fst snd].
  rewrite (V tr tc Htr Htc).
  rewrite (tile_start_small _ _ _ _ _ Hr Htr), (tile_end_small _ _ _ _ _ Hr Htr).
  rewrite (tile_start_small _ _ _ _ _ Hc Htc), (tile_end_small _ _ _ _ _ Hc Htc).
  fold rstart rend cstart cend.
  pose proof (core_start_range (rows src) tr t1 ltac:(lia) ltac:(lia) ltac:(lia)).
  pose proof (core_start_range (rows src) (tr + 1) t1 ltac:(lia) ltac:(lia) ltac:(lia)).
  pose proof (core_start_mono (rows src) tr (tr + 1) t1 ltac:(lia) ltac:(lia) ltac:(lia)).
  pose proof (core_start_range (columns src) tc t2 ltac:(lia) ltac:(lia) ltac:(lia)).
  pose proof (core_start_range (columns src) (tc + 1) t2 ltac:(lia) ltac:(lia) ltac:(lia)).
  pose proof (core_start_mono (columns src) tc (tc + 1) t2 ltac:(lia) ltac:(lia) ltac:(lia)).
  split; [reflexivity|]. unfold rstart, rend, cstart, cend. lia.
Qed.

(** X7.  For a source of at least one row and column and a tiling of
    t1 x t2 tiles, SplitTiles returns t1 * t2 tiles in row-major order.
    Tile (tr, tc) spans the rows [H tr / t1 - pad_before,
    H (tr + 1) / t1 + pad_after) and the columns alike, has the channels
    of the source, and holds at (col, row) the source pixel at the
    mirrored coordinates of (cstart + col, rstart + row). *)
Theorem SplitTiles_spec {A : Type} (dflt : A) (src : Image A)
    (pad_before pad_after t1 t2 : Z) :
  wf_image src ->
  tiling_ok (rows src) t1 pad_before pad_after ->
  tiling_ok (columns src) t2 pad_before pad_after ->
  let tiles := SplitTiles dflt src pad_before pad_after (t1, t2) in
  Z.of_nat (length tiles) = t1 * t2 /\
  forall tr tc, 0 <= tr < t1 -> 0 <= tc < t2 ->
    let tile := get_lin (mkImage 0 0 0 []) tiles (tr * t2 + tc) in
    let rstart := core_start (rows src) tr t1 - pad_before in
    let rend := core_start (rows src) (tr + 1) t1 + pad_after in
    let cstart := core_start (columns src) tc t2 - pad_before in
    let cend := core_start (columns src) (tc + 1) t2 + pad_after in
    wf_image tile /\
    rows tile = rend - rstart /\ columns tile = cend - cstart /\
    channels tile = channels src /\
    forall col row ch, in_image tile col row ch ->
      val dflt tile col row ch
      = val dflt src (SymmetricCoordinate (cstart + col) (columns src))
                     (SymmetricCoordinate (rstart + row) (rows src)) ch.
Proof.
  intros Hw Hr Hc tiles.
  destruct (SplitTiles_nth dflt src pad_before pad_after t1 t2 Hr Hc) as (L & V).
  split; [exact L|].
  intros tr tc Htr Htc tile rstart rend cstart cend.
  destruct (V tr tc Htr Htc) as (E & Br & Bc).
  unfold tile, tiles. rewrite E.
  apply make_tile_spec; [apply Hw|exact Br|exact Bc].
Qed.

Lemma SplitTiles_spec_witness :
  let src := mkImage 2 2 1 [1; 2; 3; 4] in
  Z.of_nat (length (SplitTiles 0 src 1 1 (2, 1))) = 2 * 1.
Proof.
  intros src.
  apply (SplitTiles_spec 0 src 1 1 2 1);
    unfold wf_image, tiling_ok, INT_MAX; simpl; lia.
Defined.

Lemma core_find n tiles x :
  0 < tiles -> 0 <= x < n ->
  exists t, 0 <= t < tiles /\
            core_start n t tiles <= x < core_start n (t + 1) tiles.
Proof.
  intros HT Hx.
  assert (G : forall m, 0 <= m -> x < core_start n m tiles ->
              exists t, 0 <= t < m /\
                        core_start n t tiles <= x < core_start n (t + 1) tiles).
  { apply (Wf_Z.natlike_ind
             (fun m => x < core_start n m tiles ->
                exists t, 0 <= t < m /\
                          core_start n t tiles <= x < core_start n (t + 1) tiles)).
    - rewrite core_start_0. lia.
    - intros m Hm IH Hlt. unfold Z.succ in *.
      destruct (Z.lt_ge_cases x (core_start n m tiles)) as [L|L].
      + destruct (IH L) as (t & Ht & Hc). exists t. split; [lia|exact Hc].
      + exists m. split; lia. }
  apply G; [lia|]. rewrite core_start_end by lia. lia.
Qed.

Lemma core_unique n tiles x t t' :
  0 <= n -> 0 < tiles ->
  core_start n t tiles <= x < core_start n (t + 1) tiles ->
  core_start n t' tiles <= x < core_start n (t' + 1) tiles ->
  t = t'.
Proof.
  intros Hn HT H1 H2.
  destruct (Z.lt_trichotomy t t') as [L|[E|L]]; [|exact E|].
  - pose proof (core_start_mono n (t + 1) t' tiles Hn HT ltac:(lia)). lia.
  - pose proof (core_start_mono n (t' + 1) t tiles Hn HT ltac:(lia)). lia.
Qed.

Lemma SymmetricCoordinate_inside pos size :
  size_ok size -> 0 <= pos < size -> SymmetricCoordinate pos size = pos.
Proof.
  intros Hs Hp. pose proof Hs as Hs'. unfold size_ok in Hs'.
  rewrite SymmetricCoordinate_nonneg by (try assumption; try lia; int_range).
  apply fold_sym_small. lia.
Qed.

(** Inside the source a tile holds the source pixel itself. *)
Lemma SplitTiles_inside {A : Type} (dflt : A) (src : Image A)
    (pad_before pad_after t1 t2 : Z) :
  wf_image src ->
  tiling_ok (rows src) t1 pad_before pad_after ->
  tiling_ok (columns src) t2 pad_before pad_after ->
  forall col row ch tr tc, in_image src col row ch ->
    0 <= tr < t1 -> 0 <= tc < t2 ->
    let rstart := core_start (rows src) tr t1 - pad_before in
    let rend := core_start (rows src) (tr + 1) t1 + pad_after in
    let cstart := core_start (columns src) tc t2 - pad_before in
    let cend := core_start (columns src) (tc + 1) t2 + pad_after in
    rstart <= row < rend -> cstart <= col < cend ->
    let tile := get_lin (mkImage 0 0 0 [])
                  (SplitTiles dflt src pad_before pad_after (t1, t2))
                  (tr * t2 + tc) in
    channels tile = channels src /\
    val dflt tile (col - cstart) (row - rstart) ch = val dflt src col row ch.
Proof.
  intros Hw Hr Hc col row ch tr tc (Hcol & Hrow & Hch) Htr Htc
         rstart rend cstart cend Wr Wc tile.
  pose proof Hr as (Hr1 & Hr2 & Hr3 & Hr4 & Hr5 & Hr6).
  pose proof Hc as (Hc1 & Hc2 & Hc3 & Hc4 & Hc5 & Hc6).
  destruct (SplitTiles_nth dflt src pad_before pad_after t1 t2 Hr Hc) as (_ & V).
  destruct (V tr tc Htr Htc) as (E & Br & Bc).
  unfold tile. rewrite E.
  destruct (make_tile_spec dflt src _ _ _ _ ltac:(apply Hw) Br Bc)
    as (_ & S1 & S2 & S3 & Vt).
  split; [exact S3|].
  rewrite Vt by (unfold in_image; rewrite S1, S2, S3; fold rstart rend cstart cend; lia).
  fold rstart cstart.
  replace (cstart + (col - cstart)) with col by lia.
  replace (rstart + (row - rstart)) with row by lia.
  rewrite !SymmetricCoordinate_inside by (unfold size_ok; lia).
  reflexivity.
Qed.

(** X8.  The cores of the tiles partition the source: every pixel lies
    in the core [H tr / t1, H (tr + 1) / t1) x [W tc / t2, W (tc + 1) / t2)
    of exactly one tile.  And every tile of SplitTiles whose padded
    window contains a pixel of the source holds that pixel itself, at its
    position relative to the upper left corner of the window: mirroring
    only fills what lies outside the source. *)
Theorem SplitTiles_cover {A : Type} (dflt : A) (src : Image A)
    (pad_before pad_after t1 t2 : Z) :
  wf_image src ->
  tiling_ok (rows src) t1 pad_before pad_after ->
  tiling_ok (columns src) t2 pad_before pad_after ->
  let tiles := SplitTiles dflt src pad_before pad_after (t1, t2) in
  forall col row ch, in_image src col row ch ->
    (exists tr tc,
       (0 <= tr < t1 /\ 0 <= tc < t2) /\
       (core_start (rows src) tr t1 <= row < core_start (rows src) (tr + 1) t1 /\
        core_start (columns src) tc t2 <= col
          < core_start (columns src) (tc + 1) t2) /\
       forall tr' tc',
         core_start (rows src) tr' t1 <= row < core_start (rows src) (tr' + 1) t1 ->
         core_start (columns src) tc' t2 <= col
           < core_start (columns src) (tc' + 1) t2 ->
         tr' = tr /\ tc' = tc) /\
    forall tr tc, 0 <= tr < t1 -> 0 <= tc < t2 ->
      let rstart := core_start (rows src) tr t1 - pad_before in
      let rend := core_start (rows src) (tr + 1) t1 + pad_after in
      let cstart := core_start (columns src) tc t2 - pad_before in
      let cend := core_start (columns src) (tc + 1) t2 + pad_after in
      rstart <= row < rend -> cstart <= col < cend ->
      val dflt (get_lin (mkImage 0 0 0 []) tiles (tr * t2 + tc))
          (col - cstart) (row - rstart) ch
      = val dflt src col row ch.
Proof.
  intros Hw Hr Hc tiles col row ch (Hcol & Hrow & Hch).
  pose proof Hr as (Hr1 & Hr2 & Hr3 & Hr4 & Hr5 & Hr6).
  pose proof Hc as (Hc1 & Hc2 & Hc3 & Hc4 & Hc5 & Hc6).
  split.
  - destruct (core_find (rows src) t1 row ltac:(lia) Hrow) as (tr & Htr & Cr).
    destruct (core_find (columns src) t2 col ltac:(lia) Hcol) as (tc & Htc & Cc).
    exists tr, tc. split; [split; assumption|]. split; [split; assumption|].
    intros tr' tc' Cr' Cc'. split.
    + apply (core_unique (rows src) t1 row); try assumption; lia.
    + apply (core_unique (columns src) t2 col); try assumption; lia.
  - intros tr tc Htr Htc rstart rend cstart cend Wr Wc.
    apply (SplitTiles_inside dflt src pad_before pad_after t1 t2 Hw Hr Hc
             col row ch tr tc); try assumption.
    unfold in_image. lia.
Qed.

Lemma SplitTiles_cover_witness :
  let src := mkImage 2 2 1 [1; 2; 3; 4] in
  let tiles := SplitTiles 0 src 1 1 (2, 1) in
  val 0 (get_lin (mkImage 0 0 0 []) tiles (1 * 1 + 0)) (1 - (0 - 1)) (0 - (1 - 1)) 0
  = val 0 src 1 0 0.
Proof.
  intros src tiles.
  assert (Hw : wf_image src) by (unfold wf_image; simpl; lia).
  assert (Hr : tiling_ok (rows src) 2 1 1) by (unfold tiling_ok, INT_MAX; simpl; lia).
  assert (Hc : tiling_ok (columns src) 1 1 1) by (unfold tiling_ok, INT_MAX; simpl; lia).
  assert (Hin : in_image src 1 0 0) by (unfold in_image; simpl; lia).
  destruct (SplitTiles_cover 0 src 1 1 2 1 Hw Hr Hc 1 0 0 Hin) as (_ & V).
  apply (V 1 0); unfold core_start; simpl; lia.
Defined.

(** ** MergeTiles *)

Section AddTile.
  Variables (shape : Z * Z) (nch : Z) (tile : Image RF * Image RF).
  Variables (rstart rend cstart cend : Z) (res0 wts0 : Image RF).
  Hypothesis Hres : wf_image res0.
  Hypothesis Hwts : wf_image wts0.
  Hypothesis Hsr : rows res0 = fst shape /\ columns res0 = snd shape
                   /\ channels res0 = nch.
  Hypothesis Hsw : rows wts0 = fst shape /\ columns wts0 = snd shape
                   /\ channels wts0 = 1.
  Hypothesis Hshape : fst shape <= 1073741824 /\ snd shape <= 1073741824.
  Hypothesis Hrs : -1073741824 <= rstart /\ -1073741824 <= cstart.
  Hypothesis Hrw : Z.max 0 rstart <= Z.min (fst shape) rend.
  Hypothesis Hcw : Z.max 0 cstart <= Z.min (snd shape) cend.

Lemma add_tile_loops :
  add_tile_inv tile rstart cstart (Z.max 0 rstart) (Z.max 0 cstart)
               (Z.min (snd shape) cend) res0 wts0
               (Z.min (fst shape) rend - Z.max 0 rstart) 0
               (@add_tile Exact.arith shape nch tile rstart rend cstart cend
                          (res0, wts0)).
Proof.
  destruct Hsr as (Sr1 & Sr2 & Sr3), Hsw as (Sw1 & Sw2 & Sw3).
  set (ra := Z.max 0 rstart) in *. set (rb := Z.min (fst shape) rend) in *.
  set (ca := Z.max 0 cstart) in *. set (cb := Z.min (snd shape) cend) in *.
  unfold add_tile, for_range. fold ra rb ca cb.
  change (@fadd Exact.arith) with Rplus. change (@fzero Exact.arith) with 0%R.
  apply (loop2_inv (add_tile_inv tile rstart cstart ra ca cb res0 wts0)
                   (rb - ra) (cb - ca) _ (res0, wts0)); [lia|lia| | |].
  - unfold add_tile_inv.
    split; [exact Hres|]. split; [repeat split|]. split; [exact Hwts|].
    split; [repeat split|]. split.
    + intros c r ch _. now rewrite in_window_start.
    + intros c r _. now rewrite in_window_start.
  - intros i j [res wts] Hi Hj (Wr & Sr & Ww & Sw & Vr & Vw).
    unfold add_tile_inv. change (@F Exact.arith) with R in *.
    assert (Ei : int_sub (ra + i) rstart = ra + i - rstart)
      by (apply int_sub_small; int_range).
    assert (Ej : int_sub (ca + j) cstart = ca + j - cstart)
      by (apply int_sub_small; int_range).
    rewrite Ei, Ej.
    assert (N : in_window (cb - ca) i j (ra + i - ra) (ca + j - ca) = false).
    { unfold in_window, done.
      replace (ra + i - ra) with i by lia. replace (ca + j - ca) with j by lia.
      destruct (Z.ltb_spec i i); [lia|]. destruct (Z.ltb_spec j j); [lia|].
      now rewrite !andb_false_r. }
    assert (Rr : 0 <= ra + i < rows res0) by (unfold ra, rb in *; lia).
    assert (Rc : 0 <= ca + j < columns res0) by (unfold ca, cb in *; lia).
    assert (Rr' : 0 <= ra + i < rows wts0) by (unfold ra, rb in *; lia).
    assert (Rc' : 0 <= ca + j < columns wts0) by (unfold ca, cb in *; lia).
    destruct (chan_loop_store 0%R res0 res nch (ca + j) (ra + i)
                (fun ch v => (v + val 0 (fst tile) (ca + j - cstart)
                                     (ra + i - rstart) ch)%R)
                (eq_sym Sr3) Rr Rc Wr Sr)
      as (Wr2 & Sr2' & Vr2 & Or2).
    destruct (pixel1_store 0%R wts0 wts (ca + j) (ra + i)
                (val 0 wts (ca + j) (ra + i) 0
                 + val 0 (snd tile) (ca + j - cstart) (ra + i - rstart) 0)%R
                Sw3 Rr' Rc' Ww Sw) as (Ww2 & Sw2' & Vw2 & Ow2).
    split; [exact Wr2|]. split; [exact Sr2'|]. split; [exact Ww2|].
    split; [exact Sw2'|]. split.
    + intros c r ch Hin. rewrite in_window_next_col by lia.
      destruct (Z.eqb_spec (r - ra) i) as [Er|Nr];
        [destruct (Z.eqb_spec (c - ca) j) as [Ec|Nc]|].
      * rewrite orb_true_r.
        replace c with (ca + j) by lia. replace r with (ra + i) by lia.
        rewrite Vr2 by (destruct Hin as (_ & _ & ?); assumption).
        rewrite Vr by (unfold in_image in *; lia).
        now rewrite N.
      * rewrite Or2 by (try assumption; intros E; inversion E; lia).
        rewrite Vr by assumption. cbn. now rewrite orb_false_r.
      * rewrite Or2 by (try assumption; intros E; inversion E; lia).
        rewrite Vr by assumption. cbn. now rewrite orb_false_r.
    + intros c r Hin. rewrite in_window_next_col by lia.
      destruct (Z.eqb_spec (r - ra) i) as [Er|Nr];
        [destruct (Z.eqb_spec (c - ca) j) as [Ec|Nc]|].
      * rewrite orb_true_r.
        replace c with (ca + j) by lia. replace r with (ra + i) by lia.
        rewrite Vw2 by lia.
        rewrite Vw by (unfold in_image in *; lia).
        now rewrite N.
      * rewrite Ow2 by (try assumption; intros E; inversion E; lia).
        rewrite Vw by assumption. cbn. now rewrite orb_false_r.
      * rewrite Ow2 by (try assumption; intros E; inversion E; lia).
        rewrite Vw by assumption. cbn. now rewrite orb_false_r.
  - intros i [res wts] Hi (Wr & Sr & Ww & Sw & Vr & Vw).
    unfold add_tile_inv. repeat (split; [assumption|]). split.
    + intros c r ch Hin. rewrite in_window_next_row. now apply Vr.
    + intros c r Hin. rewrite in_window_next_row. now apply Vw.
Qed.

End AddTile.

Section Accumulate.
  Variables (src : list (Image RF * Image RF)) (H W nch pb pa t1 t2 : Z).
  Variables (res0 wts0 : Image RF).
  Hypothesis Hr : tiling_ok H t1 pb pa.
  Hypothesis Hc : tiling_ok W t2 pb pa.
  Hypothesis Hres : wf_image res0.
  Hypothesis Hwts : wf_image wts0.
  Hypothesis Hsr : rows res0 = H /\ columns res0 = W /\ channels res0 = nch.
  Hypothesis Hsw : rows wts0 = H /\ columns wts0 = W /\ channels wts0 = 1.

(** One tile: what it adds to every pixel. *)
Lemma add_tile_pixels (tile : Image RF * Image RF) (tr tc : Z) (res wts : Image RF) :
  0 <= tr < t1 -> 0 <= tc < t2 ->
  wf_image res -> same_shape res res0 -> wf_image wts -> same_shape wts wts0 ->
  let rstart := core_start H tr t1 - pb in
  let cstart := core_start W tc t2 - pb in
  let out := @add_tile Exact.arith (H, W) nch tile
               (tile_start H tr t1 pb) (tile_end H tr t1 pa)
               (tile_start W tc t2 pb) (tile_end W tc t2 pa) (res, wts) in
  wf_image (fst out) /\ same_shape (fst out) res0 /\
  wf_image (snd out) /\ same_shape (snd out) wts0 /\
  (forall c r ch, in_image res0 c r ch ->
     val 0%R (fst out) c r ch =
     (val 0 res c r ch
      + if in_tile H tr t1 pb pa r && in_tile W tc t2 pb pa c
        then val 0 (fst tile) (c - cstart) (r - rstart) ch else 0)%R) /\
  (forall c r, in_image wts0 c r 0 ->
     val 0%R (snd out) c r 0 =
     (val 0 wts c r 0
      + if in_tile H tr t1 pb pa r && in_tile W tc t2 pb pa c
        then val 0 (snd tile) (c - cstart) (r - rstart) 0 else 0)%R).
Proof.
  intros Htr Htc Wr Sr Ww Sw rstart cstart out.
  pose proof Hr as (Hr1 & Hr2 & Hr3 & Hr4 & Hr5 & Hr6).
  pose proof Hc as (Hc1 & Hc2 & Hc3 & Hc4 & Hc5 & Hc6).
  destruct Hsr as (Sr1 & Sr2 & Sr3), Hsw as (Sw1 & Sw2 & Sw3).
  pose proof Sr as (Er1 & Er2 & Er3). pose proof Sw as (Ew1 & Ew2 & Ew3).
  pose proof (core_start_range H tr t1 ltac:(lia) ltac:(lia) ltac:(lia)) as B1.
  pose proof (core_start_range H (tr + 1) t1 ltac:(lia) ltac:(lia) ltac:(lia)) as B2.
  pose proof (core_start_mono H tr (tr + 1) t1 ltac:(lia) ltac:(lia) ltac:(lia)) as B3.
  pose proof (core_start_range W tc t2 ltac:(lia) ltac:(lia) ltac:(lia)) as B4.
  pose proof (core_start_range W (tc + 1) t2 ltac:(lia) ltac:(lia) ltac:(lia)) as B5.
  pose proof (core_start_mono W tc (tc + 1) t2 ltac:(lia) ltac:(lia) ltac:(lia)) as B6.
  unfold out.
  rewrite (tile_start_small _ _ _ _ _ Hr Htr), (tile_end_small _ _ _ _ _ Hr Htr).
  rewrite (tile_start_small _ _ _ _ _ Hc Htc), (tile_end_small _ _ _ _ _ Hc Htc).
  fold rstart cstart.
  set (rend := core_start H (tr + 1) t1 + pa).
  set (cend := core_start W (tc + 1) t2 + pa).
  pose proof (add_tile_loops (H, W) nch tile rstart rend cstart cend res wts Wr Ww)
    as G.
  cbn [fst snd] in G.
  specialize (G ltac:(unfold rstart, cstart, rend, cend in *; lia)
                ltac:(unfold rstart, cstart, rend, cend in *; lia)
                ltac:(unfold rstart, cstart, rend, cend in *; lia)
                ltac:(unfold rstart, cstart, rend, cend in *; lia)
                ltac:(unfold rstart, cstart, rend, cend in *; lia)
                ltac:(unfold rstart, cstart, rend, cend in *; lia)).
  destruct (@add_tile Exact.arith (H, W) nch tile rstart rend cstart cend (res, wts))
    as [res' wts'].
  destruct G as (Wr' & Sr' & Ww' & Sw' & Vr & Vw). cbn [fst snd].
  assert (U : forall c r, 0 <= c < W -> 0 <= r < H ->
            in_window (Z.min W cend - Z.max 0 cstart)
                      (Z.min H rend - Z.max 0 rstart) 0
                      (r - Z.max 0 rstart) (c - Z.max 0 cstart)
            = in_tile H tr t1 pb pa r && in_tile W tc t2 pb pa c).
  { intros c r Hc' Hr'. rewrite in_window_end. unfold in_tile.
    fold rstart cstart rend cend.
    destruct (Z.leb_spec 0 (r - Z.max 0 rstart));
      destruct (Z.ltb_spec (r - Z.max 0 rstart) (Z.min H rend - Z.max 0 rstart));
      destruct (Z.leb_spec 0 (c - Z.max 0 cstart));
      destruct (Z.ltb_spec (c - Z.max 0 cstart) (Z.min W cend - Z.max 0 cstart));
      destruct (Z.leb_spec rstart r); destruct (Z.ltb_spec r rend);
      destruct (Z.leb_spec cstart c); destruct (Z.ltb_spec c cend);
      cbn; try reflexivity; lia. }
  split; [exact Wr'|]. split; [eapply same_shape_trans; eassumption|].
  split; [exact Ww'|]. split; [eapply same_shape_trans; eassumption|].
  split.
  - intros c r ch Hin.
    assert (Hin' : in_image res c r ch).
    { unfold in_image in *. rewrite Er1, Er2, Er3. exact Hin. }
    rewrite (Vr c r ch Hin'). rewrite U by (unfold in_image in Hin; lia).
    destruct (in_tile H tr t1 pb pa r && in_tile W tc t2 pb pa c);
      [reflexivity|rf_lra].
  - intros c r Hin.
    assert (Hin' : in_image wts c r 0).
    { unfold in_image in *. rewrite Ew1, Ew2, Ew3. exact Hin. }
    rewrite (Vw c r Hin'). rewrite U by (unfold in_image in Hin; lia).
    destruct (in_tile H tr t1 pb pa r && in_tile W tc t2 pb pa c);
      [reflexivity|rf_lra].
Qed.

Lemma accumulate_tiles_spec :
  accumulate_inv src (H, W) nch pb pa (t1, t2) res0 wts0 t1 0
    (@accumulate_tiles Exact.arith src (H, W) nch pb pa (t1, t2) (res0, wts0)).
Proof.
  pose proof Hr as (Hr1 & Hr2 & _). pose proof Hc as (Hc1 & Hc2 & _).
  unfold accumulate_tiles. cbn [fst snd].
  apply (loop2_inv (accumulate_inv src (H, W) nch pb pa (t1, t2) res0 wts0)
                   t1 t2 _ (res0, wts0, 0)); [lia|lia| | |].
  - unfold accumulate_inv, tiles_sum. cbn [fst snd].
    split; [lia|]. split; [exact Hres|]. split; [repeat split|].
    split; [exact Hwts|]. split; [repeat split|].
    split; intros; rewrite !sum_range_0; rf_lra.
  - intros tr tc [[res wts] tile] Htr Htc (Et & Wr & Sr & Ww & Sw & Vr & Vw).
    cbn [fst snd] in *.
    destruct (add_tile_pixels (@tile_at Exact.arith src tile) tr tc res wts
                Htr Htc Wr Sr Ww Sw) as (Wr' & Sr' & Ww' & Sw' & Vr' & Vw').
    unfold accumulate_inv. cbn [fst snd].
    destruct (@add_tile Exact.arith (H, W) nch (@tile_at Exact.arith src tile) _ _ _ _
                        (res, wts)) as [res' wts'].
    cbn [fst snd] in *.
    split; [lia|]. split; [exact Wr'|]. split; [exact Sr'|].
    split; [exact Ww'|]. split; [exact Sw'|]. split.
    + intros c r ch Hin. rewrite (Vr' c r ch Hin), (Vr c r ch Hin).
      unfold tiles_sum. rewrite (sum_range_succ tc) by lia. subst tile.
      match goal with
      | |- context [if ?b then ?x else ?y] =>
          change (if b then x else y)
            with (tile_term (H, W) pb pa (t1, t2)
                            (fun i => fst (@tile_at Exact.arith src i)) c r ch tr tc)
      end.
      rf_lra.
    + intros c r Hin. rewrite (Vw' c r Hin), (Vw c r Hin).
      unfold tiles_sum. rewrite (sum_range_succ tc) by lia. subst tile.
      match goal with
      | |- context [if ?b then ?x else ?y] =>
          change (if b then x else y)
            with (tile_term (H, W) pb pa (t1, t2)
                            (fun i => snd (@tile_at Exact.arith src i)) c r 0 tr tc)
      end.
      rf_lra.
  - intros tr [[res wts] tile] Htr (Et & Wr & Sr & Ww & Sw & Vr & Vw).
    unfold accumulate_inv in *. cbn [fst snd] in *.
    split; [lia|]. repeat (split; [assumption|]). split.
    + intros c r ch Hin. rewrite (Vr c r ch Hin). unfold tiles_sum.
      rewrite (sum_range_succ tr) by lia. rewrite sum_range_0. rf_lra.
    + intros c r Hin. rewrite (Vw c r Hin). unfold tiles_sum.
      rewrite (sum_range_succ tr) by lia. rewrite sum_range_0. rf_lra.
Qed.

End Accumulate.

Lemma normalize_pixels (H W nch : Z) (weights result : Image RF) :
  wf_image result ->
  rows result = H -> columns result = W -> channels result = nch ->
  let out := @normalize Exact.arith (H, W) nch weights result in
  wf_image out /\ same_shape out result /\
  forall col row ch, in_image result col row ch ->
    val 0%R out col row ch
    = (val 0 result col row ch / val 0 weights col row 0)%R.
Proof.
  intros Hw E1 E2 E3. unfold normalize. cbn [fst snd]. subst H.
  exact (pixel_map_spec (@fzero Exact.arith) result (fun _ => W) (fun _ => nch)
           (fun col row ch v => (v / val 0 weights col row 0)%R)
           Hw (fun _ _ => eq_sym E2) (fun _ _ => eq_sym E3)).
Qed.

Lemma tiles_sum_end t1 t2 term : tiles_sum t2 t1 0 term = sum2 t1 t2 term.
Proof. unfold tiles_sum, sum2. rewrite sum_range_0. apply Rplus_0_r. Qed.

(** The merged image, pixel by pixel. *)
Lemma MergeTiles_pixels (src : list (Image RF * Image RF)) (H W pb pa t1 t2 : Z) :
  tiling_ok H t1 pb pa -> tiling_ok W t2 pb pa ->
  0 <= channels (fst (@tile_at Exact.arith src 0)) ->
  let m := @MergeTiles Exact.arith src (H, W) pb pa (t1, t2) in
  wf_image m /\
  rows m = H /\ columns m = W /\
  channels m = channels (fst (@tile_at Exact.arith src 0)) /\
  forall col row ch, in_image m col row ch ->
    val 0%R m col row ch
    = (sum2 t1 t2 (tile_term (H, W) pb pa (t1, t2)
                             (fun i => fst (@tile_at Exact.arith src i)) col row ch)
       / sum2 t1 t2 (tile_term (H, W) pb pa (t1, t2)
                               (fun i => snd (@tile_at Exact.arith src i)) col row 0))%R.
Proof.
  intros Hr Hc Hch m. subst m. unfold MergeTiles. cbn [fst snd].
  set (nch := channels (fst (@tile_at Exact.arith src 0))) in *.
  pose proof Hr as (Hr1 & _). pose proof Hc as (Hc1 & _).
  set (res0 := Image_new (@fzero Exact.arith) H W nch).
  set (wts0 := Image_new (@fzero Exact.arith) H W 1).
  assert (W0 : wf_image res0) by (apply Image_new_wf; lia).
  assert (W1 : wf_image wts0) by (apply Image_new_wf; lia).
  pose proof (accumulate_tiles_spec src H W nch pb pa t1 t2 res0 wts0 Hr Hc W0 W1
                ltac:(repeat split) ltac:(repeat split)) as G.
  destruct (@accumulate_tiles Exact.arith src (H, W) nch pb pa (t1, t2) (res0, wts0))
    as [[res wts] tile].
  destruct G as (_ & Wr & (S1 & S2 & S3) & Ww & (T1 & T2 & T3) & Vr & Vw).
  cbn [fst snd] in Vr, Vw.
  change (rows res0) with H in S1. change (columns res0) with W in S2.
  change (channels res0) with nch in S3.
  destruct (normalize_pixels H W nch wts res Wr S1 S2 S3) as (Wn & (N1 & N2 & N3) & Vn).
  split; [exact Wn|]. split; [lia|]. split; [lia|]. split; [lia|].
  intros col row ch Hin.
  assert (Hin' : in_image res col row ch).
  { unfold in_image in *. rewrite N1, N2, N3 in Hin. exact Hin. }
  rewrite (Vn col row ch Hin').
  assert (I0 : in_image res0 col row ch).
  { unfold in_image in *. rewrite S1, S2, S3 in Hin'. exact Hin'. }
  assert (I1 : in_image wts0 col row 0).
  { unfold in_image in *. rewrite S1, S2, S3 in Hin'.
    change (rows wts0) with H. change (columns wts0) with W.
    change (channels wts0) with 1. lia. }
  rewrite (Vr col row ch I0), (Vw col row I1).
  rewrite !tiles_sum_end.
  unfold res0, wts0. rewrite !(Image_new_val (A := R)).
  change (@fzero Exact.arith) with 0%R. now rewrite !Rplus_0_l.
Qed.

(** X9.  In exact arithmetic MergeTiles returns an image of the given
    shape with the channels of the first tile, in which every pixel with
    a non-zero accumulated weight holds the sum, over the tiles whose
    padded window contains the pixel, of the tile outputs at the
    position of the pixel in the tile, divided by the sum of the tile
    weights there. *)
Theorem MergeTiles_spec (src : list (Image RF * Image RF)) (H W pb pa t1 t2 : Z) :
  tiling_ok H t1 pb pa -> tiling_ok W t2 pb pa ->
  0 <= channels (fst (@tile_at Exact.arith src 0)) ->
  let m := @MergeTiles Exact.arith src (H, W) pb pa (t1, t2) in
  let out col row ch :=
    sum2 t1 t2 (tile_term (H, W) pb pa (t1, t2)
                          (fun i => fst (@tile_at Exact.arith src i)) col row ch) in
  let weight col row :=
    sum2 t1 t2 (tile_term (H, W) pb pa (t1, t2)
                          (fun i => snd (@tile_at Exact.arith src i)) col row 0) in
  wf_image m /\
  rows m = H /\ columns m = W /\
  channels m = channels (fst (@tile_at Exact.arith src 0)) /\
  forall col row ch, in_image m col row ch -> weight col row <> 0%R ->
    (val 0 m col row ch * weight col row = out col row ch)%R.
Proof.
  intros Hr Hc Hch m out weight.
  destruct (MergeTiles_pixels src H W pb pa t1 t2 Hr Hc Hch) as (Wm & E1 & E2 & E3 & V).
  fold m in Wm, E1, E2, E3, V.
  split; [exact Wm|]. split; [exact E1|]. split; [exact E2|]. split; [exact E3|].
  intros col row ch Hin Hne. rewrite (V col row ch Hin).
  fold (out col row ch) (weight col row). field. exact Hne.
Qed.

Lemma MergeTiles_spec_witness :
  let out0 := mkImage 3 3 1 [1; 1; 1; 1; 6; 1; 1; 1; 1]%R in
  let w0 := mkImage 3 3 1 [1; 1; 1; 1; 2; 1; 1; 1; 1]%R in
  let out1 := mkImage 3 3 1 [1; 9; 1; 1; 1; 1; 1; 1; 1]%R in
  let w1 := mkImage 3 3 1 [1; 3; 1; 1; 1; 1; 1; 1; 1]%R in
  let m := @MergeTiles Exact.arith [(out0, w0); (out1, w1)] (2, 1) 1 1 (2, 1) in
  rows m = 2 /\ columns m = 1 /\ (val 0 m 0 0 0 * (2 + 3) = 6 + 9)%R.
Proof.
  intros out0 w0 out1 w1 m.
  assert (T2 : tiling_ok 2 2 1 1) by (unfold tiling_ok, INT_MAX; lia).
  assert (T1 : tiling_ok 1 1 1 1) by (unfold tiling_ok, INT_MAX; lia).
  assert (C : 0 <= channels (fst (@tile_at Exact.arith [(out0, w0); (out1, w1)] 0)))
    by (simpl; lia).
  destruct (MergeTiles_spec [(out0, w0); (out1, w1)] 2 1 1 1 2 1 T2 T1 C)
    as (_ & E1 & E2 & E3 & V).
  fold m in E1, E2, E3, V.
  split; [exact E1|]. split; [exact E2|].
  assert (Ew : sum2 2 1 (tile_term (2, 1) 1 1 (2, 1)
                 (fun i => snd (@tile_at Exact.arith [(out0, w0); (out1, w1)] i))
                 0 0 0) = (2 + 3)%R).
  { unfold sum2, sum_range, tile_term, in_tile, core_start, val, index, get_lin.
    simpl. lra. }
  assert (Eo : sum2 2 1 (tile_term (2, 1) 1 1 (2, 1)
                 (fun i => fst (@tile_at Exact.arith [(out0, w0); (out1, w1)] i))
                 0 0 0) = (6 + 9)%R).
  { unfold sum2, sum_range, tile_term, in_tile, core_start, val, index, get_lin.
    simpl. lra. }
  rewrite <- Ew, <- Eo. apply V.
  - unfold in_image. rewrite E1, E2, E3. simpl. lia.
  - rewrite Ew. lra.
Defined.

Lemma sum_range_scale n (v : R) f :
  sum_range n (fun i => (v * f i)%R) = (v * sum_range n f)%R.
Proof.
  destruct (Z.le_gt_cases 0 n) as [Hn|Hn].
  - apply (Wf_Z.natlike_ind
             (fun m => sum_range m (fun i => (v * f i)%R) = (v * sum_range m f)%R));
      [|intros m Hm IH|exact Hn].
    + rewrite !sum_range_0. ring.
    + unfold Z.succ. rewrite !sum_range_succ by lia. rewrite IH. ring.
  - rewrite !sum_range_le0 by lia. ring.
Qed.

Lemma sum_range_ge_term n f j :
  (forall i, 0 <= i < n -> (0 <= f i)%R) -> 0 <= j < n ->
  (f j <= sum_range n f)%R.
Proof.
  intros Hf Hj.
  assert (G : forall m, 0 <= m -> m <= n -> j < m -> (f j <= sum_range m f)%R).
  { apply (Wf_Z.natlike_ind
             (fun m => m <= n -> j < m -> (f j <= sum_range m f)%R)).
    - lia.
    - intros m Hm IH Hle Hlt. unfold Z.succ in *. rewrite sum_range_succ by lia.
      destruct (Z.eq_dec j m) as [->|Hne].
      + pose proof (sum_range_nonneg m f ltac:(intros; apply Hf; lia)). lra.
      + pose proof (IH ltac:(lia) ltac:(lia)).
        pose proof (Hf m ltac:(lia)). lra. }
  apply G; lia.
Qed.

Lemma sum2_ext nr nc f f' :
  (forall i j, 0 <= i < nr -> 0 <= j < nc -> f i j = f' i j) ->
  sum2 nr nc f = sum2 nr nc f'.
Proof.
  intros H. unfold sum2. apply sum_range_ext. intros i Hi.
  apply sum_range_ext. intros j Hj. now apply H.
Qed.

Lemma sum2_scale nr nc (v : R) f :
  sum2 nr nc (fun i j => (v * f i j)%R) = (v * sum2 nr nc f)%R.
Proof.
  unfold sum2. rewrite <- sum_range_scale. apply sum_range_ext. intros i _.
  apply sum_range_scale.
Qed.

Lemma sum2_ge_term nr nc f a b :
  (forall i j, 0 <= i < nr -> 0 <= j < nc -> (0 <= f i j)%R) ->
  0 <= a < nr -> 0 <= b < nc -> (f a b <= sum2 nr nc f)%R.
Proof.
  intros Hf Ha Hb. unfold sum2.
  eapply Rle_trans; [apply (sum_range_ge_term nc (f a) b); [|exact Hb]|].
  - intros j Hj. now apply Hf.
  - apply (sum_range_ge_term nr (fun row => sum_range nc (fun col => f row col)) a);
      [|exact Ha].
    intros i Hi. apply sum_range_nonneg. intros j Hj. now apply Hf.
Qed.

(** X10.  MergeTiles is a weighted average: in exact arithmetic, when
    every tile whose padded window contains a pixel reports for it the
    same value v times its own weight, and the accumulated weight of the
    pixel is not zero, the merged pixel is v. *)
Theorem MergeTiles_agree (src : list (Image RF * Image RF)) (H W pb pa t1 t2 : Z)
    (col row ch : Z) (v : R) :
  tiling_ok H t1 pb pa -> tiling_ok W t2 pb pa ->
  0 <= channels (fst (@tile_at Exact.arith src 0)) ->
  let m := @MergeTiles Exact.arith src (H, W) pb pa (t1, t2) in
  in_image m col row ch ->
  (forall tr tc, 0 <= tr < t1 -> 0 <= tc < t2 ->
     in_tile H tr t1 pb pa row = true -> in_tile W tc t2 pb pa col = true ->
     val 0%R (fst (@tile_at Exact.arith src (tr * t2 + tc)))
         (col - (core_start W tc t2 - pb)) (row - (core_start H tr t1 - pb)) ch
     = (v * val 0 (snd (@tile_at Exact.arith src (tr * t2 + tc)))
                (col - (core_start W tc t2 - pb))
                (row - (core_start H tr t1 - pb)) 0)%R) ->
  sum2 t1 t2 (tile_term (H, W) pb pa (t1, t2)
                        (fun i => snd (@tile_at Exact.arith src i)) col row 0)
    <> 0%R ->
  val 0%R m col row ch = v.
Proof.
  intros Hr Hc Hch m Hin Hag Hne.
  destruct (MergeTiles_pixels src H W pb pa t1 t2 Hr Hc Hch) as (_ & _ & _ & _ & V).
  fold m in V. rewrite (V col row ch Hin).
  rewrite (sum2_ext t1 t2 _
             (fun tr tc => (v * tile_term (H, W) pb pa (t1, t2)
                                  (fun i => snd (@tile_at Exact.arith src i))
                                  col row 0 tr tc)%R)).
  - rewrite sum2_scale. field. exact Hne.
  - intros tr tc Htr Htc. unfold tile_term. cbn [fst snd].
    destruct (in_tile H tr t1 pb pa row) eqn:E1;
      destruct (in_tile W tc t2 pb pa col) eqn:E2; cbn [andb]; try ring.
    now apply Hag.
Qed.

Lemma MergeTiles_agree_witness :
  let out0 := mkImage 3 3 1 [0; 0; 0; 0; 6; 0; 0; 12; 0]%R in
  let w0 := mkImage 3 3 1 [1; 1; 1; 1; 2; 1; 1; 4; 1]%R in
  let out1 := mkImage 3 3 1 [0; 9; 0; 0; 15; 0; 0; 0; 0]%R in
  let w1 := mkImage 3 3 1 [1; 3; 1; 1; 5; 1; 1; 1; 1]%R in
  val 0%R (@MergeTiles Exact.arith [(out0, w0); (out1, w1)] (2, 1) 1 1 (2, 1)) 0 0 0
  = 3%R.
Proof.
  intros out0 w0 out1 w1.
  assert (T2 : tiling_ok 2 2 1 1) by (unfold tiling_ok, INT_MAX; lia).
  assert (T1 : tiling_ok 1 1 1 1) by (unfold tiling_ok, INT_MAX; lia).
  assert (C : 0 <= channels (fst (@tile_at Exact.arith [(out0, w0); (out1, w1)] 0)))
    by (simpl; lia).
  apply (MergeTiles_agree [(out0, w0); (out1, w1)] 2 1 1 1 2 1 0 0 0 3%R T2 T1 C).
  - unfold in_image. simpl. lia.
  - intros tr tc Htr Htc _ _.
    assert (tc = 0) as -> by lia.
    assert (Etr : tr = 0 \/ tr = 1) by lia.
    destruct Etr as [-> | ->];
      unfold core_start, val, index, get_lin; simpl; lra.
  - unfold sum2, sum_range, tile_term, in_tile, core_start, val, index, get_lin.
    simpl. lra.
Defined.

Lemma tile_at_map (tiles : list (Image RF)) i :
  0 <= i < Z.of_nat (length tiles) ->
  @tile_at Exact.arith (map unit_result tiles) i
  = unit_result (get_lin (mkImage 0 0 0 []) tiles i).
Proof.
  intros Hi. unfold tile_at, get_lin.
  destruct (Z.ltb_spec i 0); [lia|].
  rewrite (nth_indep _ _ (unit_result (mkImage 0 0 0 [])))
    by (rewrite length_map; lia).
  apply map_nth.
Qed.

Lemma in_tile_iff n t tiles pb pa x :
  in_tile n t tiles pb pa x = true <->
  core_start n t tiles - pb <= x < core_start n (t + 1) tiles + pa.
Proof. unfold in_tile. rewrite andb_true_iff, Z.leb_le, Z.ltb_lt. tauto. Qed.

Lemma Image_new_val_in {A : Type} (d e : A) r c ch col row chan :
  0 <= r -> 0 <= c -> 0 <= ch ->
  in_image (Image_new e r c ch) col row chan ->
  val d (Image_new e r c ch) col row chan = e.
Proof.
  intros Hr Hc Hch Hin.
  pose proof (index_range (Image_new e r c ch) col row chan
                (Image_new_wf e r c ch Hr Hc Hch) Hin) as Hi.
  unfold val, get_lin.
  destruct (Z.ltb_spec (index (Image_new e r c ch) col row chan) 0); [lia|].
  cbn [data Image_new] in *. rewrite repeat_length in Hi.
  apply nth_repeat_lt. lia.
Qed.

(** X11.  In exact arithmetic, merging the tiles of SplitTiles, each
    taken as its own result with weight one everywhere, gives back the
    source image: the padded tiles overlap, and every pixel is the
    average of as many equal copies as tiles contain it. *)
Theorem MergeTiles_SplitTiles (src : Image RF) (pb pa t1 t2 : Z) :
  wf_image src ->
  tiling_ok (rows src) t1 pb pa -> tiling_ok (columns src) t2 pb pa ->
  @MergeTiles Exact.arith
    (map unit_result (SplitTiles 0%R src pb pa (t1, t2)))
    (rows src, columns src) pb pa (t1, t2)
  = src.
Proof.
  intros Hw Hr Hc.
  pose proof Hr as (Hr1 & Hr2 & _). pose proof Hc as (Hc1 & Hc2 & _).
  set (tiles := SplitTiles 0%R src pb pa (t1, t2)).
  destruct (SplitTiles_nth 0%R src pb pa t1 t2 Hr Hc) as (L & V).
  fold tiles in L, V.
  assert (Lpos : forall tr tc, 0 <= tr < t1 -> 0 <= tc < t2 ->
                   0 <= tr * t2 + tc < Z.of_nat (length tiles)).
  { intros tr tc Htr Htc. rewrite L. nia. }
  assert (Ch0 : channels (fst (@tile_at Exact.arith (map unit_result tiles) 0))
                = channels src).
  { pose proof (Lpos 0 0 ltac:(lia) ltac:(lia)) as L0.
    cbn [Z.mul Z.add] in L0.
    rewrite tile_at_map by exact L0. cbn [fst unit_result].
    destruct (V 0 0 ltac:(lia) ltac:(lia)) as (E & Br & Bc).
    cbn [Z.mul Z.add] in E. change (@F Exact.arith) with R. rewrite E.
    apply (make_tile_spec 0%R src _ _ _ _ ltac:(apply Hw) Br Bc). }
  destruct (MergeTiles_pixels (map unit_result tiles) (rows src) (columns src)
              pb pa t1 t2 Hr Hc ltac:(rewrite Ch0; apply Hw))
    as (Wm & E1 & E2 & E3 & Vm).
  apply (image_ext 0%R);
    [exact Wm|exact Hw|exact E1|exact E2|etransitivity; [exact E3|exact Ch0]|].
  intros col row ch Hin.
  assert (Hin' : in_image src col row ch).
  { change (@F Exact.arith) with R in *.
    unfold in_image in *. rewrite E1, E2, E3, Ch0 in Hin. exact Hin. }
  etransitivity; [exact (Vm col row ch Hin)|].
  set (wt := tile_term (rows src, columns src) pb pa (t1, t2)
               (fun i => snd (@tile_at Exact.arith (map unit_result tiles) i))
               col row 0).
  assert (Wt : forall tr tc, 0 <= tr < t1 -> 0 <= tc < t2 ->
                 wt tr tc = if in_tile (rows src) tr t1 pb pa row
                               && in_tile (columns src) tc t2 pb pa col
                            then 1%R else 0%R).
  { intros tr tc Htr Htc. unfold wt, tile_term. cbn [fst snd].
    rewrite tile_at_map by now apply Lpos. cbn [snd unit_result].
    destruct (in_tile (rows src) tr t1 pb pa row) eqn:I1;
      destruct (in_tile (columns src) tc t2 pb pa col) eqn:I2;
      cbn [andb]; try reflexivity.
    apply in_tile_iff in I1, I2.
    destruct (V tr tc Htr Htc) as (E & Br & Bc).
    change (@F Exact.arith) with R in *. rewrite E.
    destruct (make_tile_spec 0%R src _ _ _ _ ltac:(apply Hw) Br Bc)
      as (_ & S1 & S2 & _).
    rewrite S1, S2.
    apply Image_new_val_in; try lia.
    unfold in_image. cbn [rows columns channels Image_new]. lia. }
  rewrite (sum2_ext t1 t2 _ (fun tr tc => (val 0 src col row ch * wt tr tc)%R)).
  2:{ intros tr tc Htr Htc. rewrite (Wt tr tc Htr Htc).
      unfold tile_term. cbn [fst snd].
      destruct (in_tile (rows src) tr t1 pb pa row) eqn:I1;
        destruct (in_tile (columns src) tc t2 pb pa col) eqn:I2;
        cbn [andb]; try ring.
      rewrite tile_at_map by now apply Lpos. cbn [fst unit_result].
      apply in_tile_iff in I1, I2.
      rewrite Rmult_1_r.
      apply (SplitTiles_inside 0%R src pb pa t1 t2 Hw Hr Hc col row ch tr tc);
        assumption. }
  rewrite sum2_scale.
  assert (Pos : (1 <= sum2 t1 t2 wt)%R).
  { destruct Hin' as (Hcol & Hrow & _).
    destruct (core_find (rows src) t1 row ltac:(lia) Hrow) as (tr & Htr & Cr).
    destruct (core_find (columns src) t2 col ltac:(lia) Hcol) as (tc & Htc & Cc).
    destruct Hr as (_ & _ & _ & Hpb & Hpa & _).
    assert (O : wt tr tc = 1%R).
    { rewrite (Wt tr tc Htr Htc).
      rewrite (proj2 (in_tile_iff (rows src) tr t1 pb pa row)) by lia.
      rewrite (proj2 (in_tile_iff (columns src) tc t2 pb pa col)) by lia.
      reflexivity. }
    rewrite <- O. apply sum2_ge_term; [|exact Htr|exact Htc].
    intros i j Hi Hj. rewrite (Wt i j Hi Hj).
    destruct (in_tile (rows src) i t1 pb pa row
              && in_tile (columns src) j t2 pb pa col); lra. }
  change (@fzero Exact.arith) with 0%R. field. lra.
Qed.

Lemma MergeTiles_SplitTiles_witness :
  let src := mkImage 2 2 1 [1; 2; 3; 4]%R in
  @MergeTiles Exact.arith (map unit_result (SplitTiles 0%R src 1 1 (2, 1)))
              (rows src, columns src) 1 1 (2, 1)
  = src.
Proof.
  intros src.
  apply (MergeTiles_SplitTiles src 1 1 2 1);
    unfold wf_image, tiling_ok, INT_MAX; simpl; lia.
Defined.

(** ** The colour transform and the range distance *)

Lemma sum_range_3 f : sum_range 3 f = (f 0%Z + f 1%Z + f 2%Z)%R.
Proof.
  unfold sum_range. change (Z.to_nat 3) with 3%nat.
  cbn [sum_nat Z.of_nat Pos.of_succ_nat Pos.succ]. ring.
Qed.

Lemma ct_fwd_dist (r g b r' g' b' : R) :
  ((@ct_fwd Exact.arith r g b 0 - @ct_fwd Exact.arith r' g' b' 0)
   * (@ct_fwd Exact.arith r g b 0 - @ct_fwd Exact.arith r' g' b' 0)
   + (@ct_fwd Exact.arith r g b 1 - @ct_fwd Exact.arith r' g' b' 1)
     * (@ct_fwd Exact.arith r g b 1 - @ct_fwd Exact.arith r' g' b' 1)
   + (@ct_fwd Exact.arith r g b 2 - @ct_fwd Exact.arith r' g' b' 2)
     * (@ct_fwd Exact.arith r g b 2 - @ct_fwd Exact.arith r' g' b' 2)
   = (r - r') * (r - r') + (g - g') * (g - g') + (b - b') * (b - b'))%R.
Proof.
  unfold ct_fwd. cbn -[sqrt]. sqrt_algebra.
  assert (N2 : s2 <> 0%R) by lra. assert (N3 : s3 <> 0%R) by lra.
  assert (N23 : (s2 * s3 * (s2 * s3))%R <> 0%R)
    by (repeat apply Rmult_integral_contrapositive_currified; assumption).
  apply (Rmult_eq_reg_r (s2 * s3 * (s2 * s3))); [|assumption].
  field_simplify; try lra.
  replace (s2 ^ 2)%R with 2%R by (rewrite <- S2; ring).
  replace (s3 ^ 2)%R with 3%R by (rewrite <- S3; ring).
  ring.
Qed.

(** X15.  In exact arithmetic the colour transform of a 3-channel image
    keeps the squared distance between any two of its pixels, summed
    over the channels: the range distance BilateralWeight measures to
    the centre of a patch is the same on the transformed image as on the
    image itself. *)
Theorem ColorTransform_range_dist (g : Image R) (r col row : Z) :
  wf_image g -> channels g = 3 ->
  in_image g col row 0 -> in_image g r r 0 ->
  range_dist (@ColorTransform Exact.arith g) r col row = range_dist g r col row.
Proof.
  intros Hw H3 Hin Hc.
  destruct (@ColorTransform_pixels Exact.arith g Hw H3) as (_ & (_ & _ & Sch) & V).
  unfold range_dist.
  change (@F Exact.arith) with R in *.
  rewrite Sch, H3, !sum_range_3.
  assert (P : forall c r0 ch, in_image g c r0 0 -> 0 <= ch < 3 ->
                val 0%R (@ColorTransform Exact.arith g) c r0 ch
                = @ct_fwd Exact.arith (val 0%R g c r0 0) (val 0%R g c r0 1)
                          (val 0%R g c r0 2) ch).
  { intros c r0 ch (I1 & I2 & _) Hch. apply (V c r0 ch).
    unfold in_image. rewrite H3. lia. }
  rewrite !P by (assumption || lia).
  apply ct_fwd_dist.
Qed.

Lemma ColorTransform_range_dist_witness :
  let g := mkImage 1 2 3 [1; 2; 3; 5; 7; 11]%R in
  range_dist (@ColorTransform Exact.arith g) 0 1 0 = (4 * 4 + 5 * 5 + 8 * 8)%R.
Proof.
  intros g.
  rewrite (ColorTransform_range_dist g 0 1 0).
  - unfold range_dist. cbn [channels g]. rewrite sum_range_3.
    unfold val, index, get_lin. cbn. unfold Pos.to_nat. cbn. lra.
  - unfold wf_image. cbn. lia.
  - reflexivity.
  - unfold in_image. cbn. lia.
  - unfold in_image. cbn. lia.
Defined.
(** ** Binary floating-point numbers and the reals *)

Lemma bpow_pos e : (0 < bpow e)%R.
Proof. apply powerRZ_lt. lra. Qed.

Lemma bpow_add a b : bpow (a + b) = (bpow a * bpow b)%R.
Proof. apply powerRZ_add. lra. Qed.

Lemma bpow_0 : bpow 0 = 1%R.
Proof. reflexivity. Qed.

Lemma bpow_1 : bpow 1 = 2%R.
Proof. unfold bpow. change 1 with (Z.succ 0). apply powerRZ_1. Qed.

Lemma bpow_IZR n : 0 <= n -> bpow n = IZR (2 ^ n).
Proof.
  intros H. rewrite <- (Z2Nat.id n H). unfold bpow.
  rewrite <- pow_powerRZ. now rewrite pow_IZR.
Qed.

Lemma bpow_opp e : bpow (- e) = (/ bpow e)%R.
Proof. apply powerRZ_neg'. Qed.

Lemma bpow_succ e : bpow (e + 1) = (2 * bpow e)%R.
Proof. rewrite bpow_add, bpow_1. ring. Qed.

Lemma bpow_ge_1 n : 0 <= n -> (1 <= bpow n)%R.
Proof.
  intros H. rewrite bpow_IZR by assumption. apply IZR_le.
  pose proof (Z.pow_pos_nonneg 2 n ltac:(lia) H). lia.
Qed.

Lemma bpow_le a b : a <= b -> (bpow a <= bpow b)%R.
Proof.
  intros H. replace b with (a + (b - a)) by lia. rewrite bpow_add.
  pose proof (bpow_pos a). pose proof (bpow_ge_1 (b - a) ltac:(lia)). nra.
Qed.

Lemma bpow_lt a b : a < b -> (bpow a < bpow b)%R.
Proof.
  intros H. apply Rlt_le_trans with (bpow (a + 1)).
  - rewrite bpow_succ. pose proof (bpow_pos a). lra.
  - apply bpow_le. lia.
Qed.

Lemma bpow_lt_inv a b : (bpow a < bpow b)%R -> a < b.
Proof.
  intros H. destruct (Z_lt_le_dec a b) as [L|L]; [exact L|].
  pose proof (bpow_le b a L). lra.
Qed.

Lemma bpow_le_inv a b : (bpow a <= bpow b)%R -> a <= b.
Proof.
  intros H. destruct (Z_lt_le_dec b a) as [L|L]; [|exact L].
  pose proof (bpow_lt b a L). lra.
Qed.

(** The number of binary digits. *)
Lemma digits2_pos_bounds (m : positive) :
  2 ^ (Zpos (digits2_pos m) - 1) <= Zpos m < 2 ^ Zpos (digits2_pos m).
Proof.
  induction m as [m IH|m IH|]; cbn [digits2_pos].
  - rewrite Pos2Z.inj_succ.
    replace (Z.succ (Zpos (digits2_pos m)) - 1) with (Zpos (digits2_pos m) - 1 + 1) by lia.
    rewrite Z.pow_succ_r by lia. rewrite Z.pow_add_r by lia.
    change (2 ^ 1) with 2. change (Zpos m~1) with (2 * Zpos m + 1). lia.
  - rewrite Pos2Z.inj_succ.
    replace (Z.succ (Zpos (digits2_pos m)) - 1) with (Zpos (digits2_pos m) - 1 + 1) by lia.
    rewrite Z.pow_succ_r by lia. rewrite Z.pow_add_r by lia.
    change (2 ^ 1) with 2. change (Zpos m~0) with (2 * Zpos m). lia.
  - cbn. lia.
Qed.

Lemma digits2_unique (m : positive) (d : Z) :
  2 ^ (d - 1) <= Zpos m < 2 ^ d -> Zpos (digits2_pos m) = d.
Proof.
  intros (L & U). pose proof (digits2_pos_bounds m) as (L' & U').
  assert (0 < d).
  { destruct (Z_lt_le_dec 0 d); [assumption|].
    destruct (Z.eq_dec d 0) as [->|]; [cbn in U; lia|].
    rewrite Z.pow_neg_r in U by lia. lia. }
  destruct (Z.lt_trichotomy (Zpos (digits2_pos m)) d) as [C|[C|C]]; [|exact C|].
  - assert (2 ^ Zpos (digits2_pos m) <= 2 ^ (d - 1)) by (apply Z.pow_le_mono_r; lia). lia.
  - assert (2 ^ d <= 2 ^ (Zpos (digits2_pos m) - 1)) by (apply Z.pow_le_mono_r; lia). lia.
Qed.

Lemma digits2_shift (m : positive) (n : positive) :
  Zpos (digits2_pos (Pos.iter xO m n)) = Zpos (digits2_pos m) + Zpos n.
Proof.
  apply digits2_unique.
  assert (E : Zpos (Pos.iter xO m n) = Zpos m * 2 ^ Zpos n).
  { revert m. induction n as [|n IH] using Pos.peano_ind; intros m.
    - cbn. lia.
    - rewrite Pos.iter_succ.
      change (Zpos (Pos.iter xO m n)~0) with (2 * Zpos (Pos.iter xO m n)). rewrite IH.
      rewrite Pos2Z.inj_succ, Z.pow_succ_r by lia. lia. }
  rewrite E. pose proof (digits2_pos_bounds m) as (L & U).
  pose proof (Pos2Z.is_pos (digits2_pos m)).
  replace (Zpos (digits2_pos m) + Zpos n - 1) with (Zpos (digits2_pos m) - 1 + Zpos n) by lia.
  rewrite !Z.pow_add_r by lia.
  pose proof (Z.pow_pos_nonneg 2 (Zpos n) ltac:(lia) ltac:(lia)). nia.
Qed.

Lemma iter_xO_value (m n : positive) :
  Zpos (Pos.iter xO m n) = Zpos m * 2 ^ Zpos n.
Proof.
  revert m. induction n as [|n IH] using Pos.peano_ind; intros m.
  - cbn. lia.
  - rewrite Pos.iter_succ.
    change (Zpos (Pos.iter xO m n)~0) with (2 * Zpos (Pos.iter xO m n)). rewrite IH.
    rewrite Pos2Z.inj_succ, Z.pow_succ_r by lia. lia.
Qed.

(** One step of the right shift keeps track of where the real lies. *)
Lemma shr_1_inbetween (t : R) (mrs : shr_record) :
  0 <= shr_m mrs ->
  inbetween t (shr_m mrs) (loc_of_shr_record mrs) ->
  0 <= shr_m (shr_1 mrs) /\
  shr_m (shr_1 mrs) = shr_m mrs / 2 /\
  inbetween (t / 2) (shr_m (shr_1 mrs)) (loc_of_shr_record (shr_1 mrs)).
Proof.
  destruct mrs as [m r s]. cbn [shr_m]. intros Hm H.
  destruct m as [|p|p]; [| |lia].
  - destruct r, s; cbn in *; repeat split; try lia; try lra.
  - destruct p as [p|p|].
    + assert (E : IZR (Zpos p~1) = (2 * IZR (Zpos p) + 1)%R).
      { change (Zpos p~1) with (2 * Zpos p + 1). rewrite plus_IZR, mult_IZR. reflexivity. }
      assert (D : Zpos p~1 / 2 = Zpos p).
      { change (Zpos p~1) with (2 * Zpos p + 1). symmetry. apply (Z.div_unique _ _ _ 1); lia. }
      destruct r, s; cbn [shr_1 shr_m loc_of_shr_record inbetween orb] in *;
        rewrite ?E in H; (split; [lia|]); (split; [symmetry; exact D|]); lra.
    + assert (E : IZR (Zpos p~0) = (2 * IZR (Zpos p))%R).
      { change (Zpos p~0) with (2 * Zpos p). rewrite mult_IZR. reflexivity. }
      assert (D : Zpos p~0 / 2 = Zpos p).
      { change (Zpos p~0) with (2 * Zpos p). symmetry. apply (Z.div_unique _ _ _ 0); lia. }
      destruct r, s; cbn [shr_1 shr_m loc_of_shr_record inbetween orb] in *;
        rewrite ?E in H; (split; [lia|]); (split; [symmetry; exact D|]); lra.
    + destruct r, s; cbn [shr_1 shr_m loc_of_shr_record inbetween orb] in *;
        (split; [lia|]); (split; [reflexivity|]); lra.
Qed.

Lemma iter_shr_1_inbetween (p : positive) : forall (t : R) (mrs : shr_record),
  0 <= shr_m mrs ->
  inbetween t (shr_m mrs) (loc_of_shr_record mrs) ->
  let mrs' := iter_pos shr_1 p mrs in
  0 <= shr_m mrs' /\
  shr_m mrs' = shr_m mrs / 2 ^ Zpos p /\
  inbetween (t / IZR (2 ^ Zpos p)) (shr_m mrs') (loc_of_shr_record mrs').
Proof.
  assert (P2 : forall q, 0 < 2 ^ Zpos q) by (intros; apply Z.pow_pos_nonneg; lia).
  assert (Two : forall q t, (t / IZR (2 ^ Zpos q) / IZR (2 ^ Zpos q))%R
                            = (t / IZR (2 ^ Zpos q~0))%R).
  { intros q t. replace (Zpos q~0) with (Zpos q + Zpos q) by lia.
    rewrite Z.pow_add_r by lia. rewrite mult_IZR. field.
    apply not_0_IZR. specialize (P2 q). lia. }
  induction p as [p IH|p IH|]; intros t mrs Hm H; cbn [iter_pos].
  - destruct (shr_1_inbetween t mrs Hm H) as (A1 & A2 & A3).
    destruct (IH _ _ A1 A3) as (B1 & B2 & B3).
    destruct (IH _ _ B1 B3) as (C1 & C2 & C3).
    cbv zeta. split; [exact C1|]. split.
    + rewrite C2, B2, A2. rewrite !Z.div_div by (specialize (P2 p); lia).
      f_equal. replace (Zpos p~1) with (1 + Zpos p + Zpos p) by lia.
      rewrite !Z.pow_add_r by lia. change (2 ^ 1) with 2. ring.
    + rewrite Two in C3.
      replace (t / IZR (2 ^ Zpos p~1))%R with (t / 2 / IZR (2 ^ Zpos p~0))%R; [exact C3|].
      replace (Zpos p~1) with (1 + Zpos p~0) by lia.
      rewrite Z.pow_add_r by lia. rewrite mult_IZR. change (2 ^ 1) with 2.
      field. apply not_0_IZR. specialize (P2 p~0%positive). lia.
  - destruct (IH _ _ Hm H) as (B1 & B2 & B3).
    destruct (IH _ _ B1 B3) as (C1 & C2 & C3).
    cbv zeta. split; [exact C1|]. split.
    + rewrite C2, B2. rewrite !Z.div_div by (specialize (P2 p); lia).
      f_equal. replace (Zpos p~0) with (Zpos p + Zpos p) by lia.
      rewrite !Z.pow_add_r by lia. ring.
    + rewrite Two in C3. exact C3.
  - destruct (shr_1_inbetween t mrs Hm H) as (A1 & A2 & A3).
    cbv zeta. split; [exact A1|]. split; [exact A2|].
    change (2 ^ 1) with 2. exact A3.
Qed.

Lemma loc_of_shr_record_of_loc m l :
  loc_of_shr_record (shr_record_of_loc m l) = l /\
  shr_m (shr_record_of_loc m l) = m.
Proof. destruct l as [|[| |]]; split; reflexivity. Qed.

(** Rounding to nearest picks one of the two neighbours, at most one
    half away. *)
Lemma round_nearest_even_spec (t : R) (m : Z) (l : location) :
  inbetween t m l ->
  let mr := round_nearest_even m l in
  (mr = m \/ mr = m + 1) /\ (Rabs (IZR mr - t) <= / 2)%R /\
  (IZR m <= t < IZR m + 1)%R /\ (l = loc_Exact -> mr = m).
Proof.
  intros H. destruct l as [|[| |]]; cbn [inbetween round_nearest_even] in *.
  - split; [now left|]. split; [|split; [lra|reflexivity]].
    rewrite H. replace (IZR m - IZR m)%R with 0%R by ring. rewrite Rabs_R0. lra.
  - destruct (Z.even m).
    + split; [now left|]. split; [|split; [lra|discriminate]].
      apply Rabs_le. lra.
    + split; [now right|]. split; [|split; [lra|discriminate]].
      rewrite plus_IZR. apply Rabs_le. lra.
  - split; [now left|]. split; [|split; [lra|discriminate]]. apply Rabs_le. lra.
  - split; [now right|]. split; [|split; [lra|discriminate]].
    rewrite plus_IZR. apply Rabs_le. lra.
Qed.

Section Rounding.
  Variables prec emax : Z.
  Hypothesis Hprec : 1 < prec.
  Hypothesis Hemax : prec < emax.

Lemma fexp_ge_emin e : emin prec emax <= fexp prec emax e.
Proof. unfold fexp. lia. Qed.

Lemma fexp_mono a b : a <= b -> fexp prec emax a <= fexp prec emax b.
Proof. unfold fexp. lia. Qed.

Lemma shr_fexp_spec (t : R) (mx ex : Z) (lx : location) :
  0 <= mx -> inbetween t mx lx ->
  let E := fexp prec emax (Zdigits2 mx + ex) in
  ex <= E ->
  let mrs := fst (shr_fexp prec emax mx ex lx) in
  snd (shr_fexp prec emax mx ex lx) = E /\
  0 <= shr_m mrs /\ shr_m mrs = mx / 2 ^ (E - ex) /\
  inbetween (t / IZR (2 ^ (E - ex))) (shr_m mrs) (loc_of_shr_record mrs).
Proof.
  intros Hm H E HE. unfold shr_fexp. fold E.
  destruct (loc_of_shr_record_of_loc mx lx) as (L1 & L2).
  destruct (E - ex) as [|p|p] eqn:N; [| |lia].
  - cbn [shr fst snd]. rewrite L1, L2. change (2 ^ 0) with 1.
    rewrite Z.div_1_r, Rdiv_1_r. repeat split; try assumption. lia.
  - cbn [shr fst snd].
    destruct (iter_shr_1_inbetween p t (shr_record_of_loc mx lx)) as (A1 & A2 & A3).
    + now rewrite L2.
    + now rewrite L1, L2.
    + rewrite L2 in A2. repeat split; try assumption. lia.
Qed.

Lemma Zdigits2_bounds (m : Z) :
  0 < m -> 2 ^ (Zdigits2 m - 1) <= m < 2 ^ Zdigits2 m.
Proof.
  destruct m as [|p|p]; try lia. intros _. apply digits2_pos_bounds.
Qed.

Lemma Zdigits2_pos (m : Z) : 0 < m -> 0 < Zdigits2 m.
Proof. destruct m; cbn; lia. Qed.

Lemma Zdigits2_le (m : Z) (d : Z) : 0 < m -> m < 2 ^ d -> Zdigits2 m <= d.
Proof.
  intros Hm H. pose proof (Zdigits2_bounds m Hm) as (L & _).
  destruct (Z_lt_le_dec d (Zdigits2 m)) as [C|C]; [|exact C].
  assert (0 <= d).
  { destruct (Z_lt_le_dec d 0); [|assumption]. rewrite Z.pow_neg_r in H by lia. lia. }
  assert (2 ^ d <= 2 ^ (Zdigits2 m - 1)) by (apply Z.pow_le_mono_r; lia). lia.
Qed.

(** The rounding of a positive mantissa whose exponent is not above the
    exponent of its format: where the result comes from. *)
Lemma binary_round_aux_spec (t : R) (sx : bool) (mx ex : Z) (lx : location) :
  0 < mx -> inbetween t mx lx ->
  let E := fexp prec emax (Zdigits2 mx + ex) in
  ex <= E ->
  exists mr : Z,
    0 <= mr <= 2 ^ prec /\
    (mr = mx / 2 ^ (E - ex) \/ mr = mx / 2 ^ (E - ex) + 1) /\
    (Rabs (IZR mr - t / IZR (2 ^ (E - ex))) <= / 2)%R /\
    (IZR (mx / 2 ^ (E - ex)) <= t / IZR (2 ^ (E - ex)) < IZR (mx / 2 ^ (E - ex)) + 1)%R /\
    (lx = loc_Exact -> E = ex -> mr = mx) /\
    (E = emin prec emax \/ 2 ^ (prec - 1) <= mr) /\
    binary_round_aux prec emax sx mx ex lx = round_result prec emax sx mr E.
Proof.
  intros Hm H E HE.
  destruct (shr_fexp_spec t mx ex lx ltac:(lia) H HE) as (S1 & S2 & S3 & S4).
  fold E in S1, S3, S4.
  unfold binary_round_aux.
  destruct (shr_fexp prec emax mx ex lx) as [mrs e'] eqn:SH. cbn [fst snd] in *.
  subst e'.
  set (n := E - ex) in *. set (m1 := mx / 2 ^ n) in *.
  destruct (round_nearest_even_spec _ _ _ S4) as (R1 & R2 & R3 & R4).
  set (mr := round_nearest_even (shr_m mrs) (loc_of_shr_record mrs)) in *.
  rewrite S3 in R1, R3, R4.
  assert (Hn : 0 <= n) by (unfold n; lia).
  assert (P2n : 0 < 2 ^ n) by (apply Z.pow_pos_nonneg; lia).
  pose proof (Zdigits2_bounds mx Hm) as (DL & DU).
  pose proof (Zdigits2_pos mx Hm) as Dpos.
  set (d := Zdigits2 mx) in *.
  assert (En : d - prec <= n).
  { unfold n, E, fexp. fold d. lia. }
  assert (M1hi : m1 < 2 ^ prec).
  { unfold m1. apply Z.div_lt_upper_bound; [exact P2n|].
    rewrite <- Z.pow_add_r by lia.
    assert (2 ^ d <= 2 ^ (n + prec)) by (apply Z.pow_le_mono_r; lia). lia. }
  assert (M1lo : 0 <= m1) by (unfold m1; apply Z.div_pos; lia).
  assert (Norm : E = emin prec emax \/ 2 ^ (prec - 1) <= m1).
  { unfold E, fexp. fold d.
    destruct (Z.max_spec (d + ex - prec) (emin prec emax)) as [(C1 & C2)|(C1 & C2)];
      [left; exact C2|].
    right. assert (Nd : n = d - prec) by (unfold n, E, fexp; fold d; lia).
    unfold m1. apply Z.div_le_lower_bound; [exact P2n|].
    rewrite <- Z.pow_add_r by lia.
    replace (n + (prec - 1)) with (d - 1) by lia. exact DL. }
  exists mr. split; [lia|]. split; [lia|]. split; [exact R2|]. split; [exact R3|].
  split.
  { intros -> En'.
    assert (N0 : n = 0) by (unfold n; lia).
    assert (L : loc_of_shr_record mrs = loc_Exact).
    { unfold shr_fexp in SH.
      change (fexp prec emax (Zdigits2 mx + ex) - ex) with n in SH. rewrite N0 in SH.
      cbn [shr] in SH. inversion SH. reflexivity. }
    rewrite (R4 L). unfold m1. rewrite N0. change (2 ^ 0) with 1. apply Z.div_1_r. }
  split; [destruct Norm; [now left|right; lia]|].
  (* the second shift *)
  unfold round_result.
  assert (Emin : emin prec emax <= E) by apply fexp_ge_emin.
  destruct (Z.eqb_spec mr 0) as [Z0|NZ].
  - rewrite Z0. unfold shr_fexp. cbn [Zdigits2].
    assert (N2 : fexp prec emax (0 + E) - E <= 0) by (unfold fexp; lia).
    destruct (fexp prec emax (0 + E) - E) as [|q|q]; [| lia |]; reflexivity.
  - assert (Mpos : 0 < mr) by lia.
    destruct (Z.ltb_spec mr (2 ^ prec)) as [Lt|Ge].
    + pose proof (Zdigits2_le mr prec Mpos Lt) as D2.
      unfold shr_fexp.
      assert (N2 : fexp prec emax (Zdigits2 mr + E) - E <= 0) by (unfold fexp; lia).
      destruct (fexp prec emax (Zdigits2 mr + E) - E) as [|q|q] eqn:Q; [| lia |];
        cbn [shr]; destruct mr as [|pm|pm]; try lia; cbn [shr_record_of_loc shr_m];
        reflexivity.
    + assert (Mr : mr = 2 ^ prec) by lia.
      assert (Dg : Zdigits2 mr = prec + 1).
      { rewrite Mr. pose proof (Z.pow_pos_nonneg 2 prec ltac:(lia) ltac:(lia)).
        destruct (2 ^ prec) as [|pp|pp] eqn:PP; try lia.
        cbn [Zdigits2]. apply digits2_unique. rewrite <- PP.
        replace (prec + 1 - 1) with prec by lia.
        rewrite Z.pow_add_r by lia. change (2 ^ 1) with 2. lia. }
      unfold shr_fexp. rewrite Dg.
      assert (N2 : fexp prec emax (prec + 1 + E) - E = 1) by (unfold fexp; lia).
      rewrite N2. cbn [shr iter_pos].
      assert (Half : shr_1 (shr_record_of_loc mr loc_Exact)
                     = Build_shr_record (2 ^ (prec - 1)) false false).
      { rewrite Mr. replace prec with (prec - 1 + 1) at 1 by lia.
        rewrite Z.pow_add_r by lia. change (2 ^ 1) with 2.
        pose proof (Z.pow_pos_nonneg 2 (prec - 1) ltac:(lia) ltac:(lia)).
        destruct (2 ^ (prec - 1)) as [|pp|pp]; try lia.
        replace (Zpos pp * 2) with (Zpos pp~0) by lia. reflexivity. }
      rewrite Half. cbn [shr_m].
      pose proof (Z.pow_pos_nonneg 2 (prec - 1) ltac:(lia) ltac:(lia)).
      destruct (2 ^ (prec - 1)) as [|pp|pp] eqn:PP; try lia.
      cbn [Z.to_pos]. reflexivity.
Qed.

(** The left alignment of [binary_round] does not change the value and
    brings the exponent down to that of the format. *)
Lemma shl_align_spec (mx : positive) (ex ex' : Z) :
  let '(mz, ez) := shl_align mx ex ex' in
  ez <= ex /\ ez <= Z.max ex' ex /\ (ex' <= ex -> ez = ex') /\
  Zpos mz = Zpos mx * 2 ^ (ex - ez) /\
  Zpos (digits2_pos mz) + ez = Zpos (digits2_pos mx) + ex.
Proof.
  unfold shl_align. destruct (ex' - ex) as [|p|p] eqn:D.
  - replace (ex - ex) with 0 by lia. change (2 ^ 0) with 1. repeat split; lia.
  - replace (ex - ex) with 0 by lia. change (2 ^ 0) with 1. repeat split; lia.
  - assert (X : ex - ex' = Zpos p) by lia. rewrite X.
    rewrite iter_xO_value, digits2_shift. repeat split; lia.
Qed.

Lemma binary_round_spec (sx : bool) (mx : positive) (ex : Z) :
  let E := fexp prec emax (Zpos (digits2_pos mx) + ex) in
  exists (mz ez : Z) (mr : Z),
    0 < mz /\ ez <= E /\ ez <= ex /\ mz = Zpos mx * 2 ^ (ex - ez) /\
    Zdigits2 mz + ez = Zpos (digits2_pos mx) + ex /\
    0 <= mr <= 2 ^ prec /\
    (mr = mz / 2 ^ (E - ez) \/ mr = mz / 2 ^ (E - ez) + 1) /\
    (Rabs (IZR mr - IZR mz / IZR (2 ^ (E - ez))) <= / 2)%R /\
    (E = ez -> mr = mz) /\
    (E = emin prec emax \/ 2 ^ (prec - 1) <= mr) /\
    binary_round prec emax sx mx ex = round_result prec emax sx mr E.
Proof.
  intros E. unfold binary_round. fold E.
  pose proof (shl_align_spec mx ex E) as A.
  destruct (shl_align mx ex E) as [mz ez].
  destruct A as (A1 & A2 & A3 & A4 & A5).
  assert (EE : fexp prec emax (Zdigits2 (Zpos mz) + ez) = E).
  { cbn [Zdigits2]. rewrite A5. reflexivity. }
  assert (AL : ez <= E).
  { destruct (Z_le_gt_dec E ex); [rewrite (A3 ltac:(lia)); lia|lia]. }
  destruct (binary_round_aux_spec (IZR (Zpos mz)) sx (Zpos mz) ez loc_Exact
              ltac:(lia) eq_refl) as (mr & B1 & B2 & B3 & B4 & B5 & B6 & B7).
  { rewrite EE. exact AL. }
  rewrite EE in *.
  exists (Zpos mz), ez, mr.
  split; [lia|]. split; [exact AL|]. split; [exact A1|]. split; [exact A4|].
  split; [exact A5|]. split; [exact B1|]. split; [exact B2|]. split; [exact B3|].
  split; [intros Ez; apply B5; [reflexivity|exact Ez]|].
  split; [exact B6|exact B7].
Qed.

Lemma IZR_pow2 n : 0 <= n -> IZR (2 ^ n) = bpow n.
Proof. intros. symmetry. now apply bpow_IZR. Qed.

Lemma emin_neg : emin prec emax < 0.
Proof. unfold emin. lia. Qed.

(** A valid mantissa has at most [prec] digits; a normal one exactly
    [prec]. *)
Lemma bounded_spec (m : positive) (e : Z) :
  bounded prec emax m e = true <->
  e = fexp prec emax (Zpos (digits2_pos m) + e) /\ e <= emax - prec.
Proof.
  unfold bounded, canonical_mantissa. rewrite andb_true_iff, Z.eqb_eq, Z.leb_le.
  intuition lia.
Qed.

Lemma bounded_digits (m : positive) (e : Z) :
  bounded prec emax m e = true ->
  emin prec emax <= e <= emax - prec /\ Zpos m < 2 ^ prec /\
  (e = emin prec emax \/ 2 ^ (prec - 1) <= Zpos m).
Proof.
  intros H. apply bounded_spec in H. destruct H as (C & B).
  pose proof (digits2_pos_bounds m) as (L & U).
  pose proof (Pos2Z.is_pos (digits2_pos m)).
  set (d := Zpos (digits2_pos m)) in *.
  unfold fexp in C. split; [lia|]. split.
  - assert (d <= prec) by lia.
    assert (2 ^ d <= 2 ^ prec) by (apply Z.pow_le_mono_r; lia). lia.
  - destruct (Z.max_spec (d + e - prec) (emin prec emax)) as [(C1 & C2)|(C1 & C2)];
      [left; lia|].
    right. assert (d = prec) by lia. subst d. rewrite <- H0. exact L.
Qed.

Lemma bounded_intro (m : positive) (e : Z) :
  emin prec emax <= e <= emax - prec -> Zpos m < 2 ^ prec ->
  (e = emin prec emax \/ 2 ^ (prec - 1) <= Zpos m) ->
  bounded prec emax m e = true.
Proof.
  intros He Hm Hn. apply bounded_spec. split; [|lia].
  assert (D : Zpos (digits2_pos m) <= prec).
  { apply (Zdigits2_le (Zpos m)); lia. }
  unfold fexp. destruct Hn as [Hn|Hn]; [lia|].
  assert (Zpos (digits2_pos m) = prec).
  { apply digits2_unique. split; [exact Hn|exact Hm]. }
  lia.
Qed.

(** What [round_result] is worth, and that it is a valid float. *)
Lemma round_result_cases (sx : bool) (mr E : Z) :
  0 <= mr <= 2 ^ prec -> emin prec emax <= E ->
  (E = emin prec emax \/ 2 ^ (prec - 1) <= mr) ->
  let r := round_result prec emax sx mr E in
  (r = S754_infinity sx /\ emax - prec <= E /\ (bpow emax <= 2 * IZR mr * bpow E)%R) \/
  ((r = S754_zero sx /\ mr = 0 \/
    exists m e, r = S754_finite sx m e /\ bounded prec emax m e = true /\
                (IZR (Zpos m) * bpow e = IZR mr * bpow E)%R /\ E <= e) /\
   (SF2R r = (if sx then -1 else 1) * (IZR mr * bpow E))%R).
Proof.
  intros Hm HE Hn r. subst r. unfold round_result.
  assert (P1 : 0 < 2 ^ (prec - 1)) by (apply Z.pow_pos_nonneg; lia).
  assert (P2 : 2 ^ prec = 2 * 2 ^ (prec - 1)).
  { replace prec with (prec - 1 + 1) at 1 by lia. rewrite Z.pow_add_r by lia.
    change (2 ^ 1) with 2. ring. }
  destruct (Z.eqb_spec mr 0) as [Z0|NZ].
  - right. split; [left; split; [reflexivity|exact Z0]|].
    subst mr. cbn [SF2R]. ring.
  - destruct (Z.ltb_spec mr (2 ^ prec)) as [Lt|Ge].
    + destruct (Z.leb_spec E (emax - prec)) as [Le|Gt].
      * right. assert (Mpos : Zpos (Z.to_pos mr) = mr) by (apply Z2Pos.id; lia).
        split.
        -- right. exists (Z.to_pos mr), E. split; [reflexivity|]. split.
           ++ apply bounded_intro; rewrite ?Mpos; lia.
           ++ rewrite Mpos. split; [reflexivity|lia].
        -- cbn [SF2R]. rewrite Mpos. fold (bpow E). ring.
      * left. split; [reflexivity|]. split; [lia|].
        destruct Hn as [Hn|Hn]; [pose proof emin_neg; unfold emin in *; lia|].
        apply Rle_trans with (bpow (prec + E)).
        -- apply bpow_le. lia.
        -- rewrite bpow_add. rewrite <- IZR_pow2 by lia. rewrite P2.
           rewrite mult_IZR. apply IZR_le in Hn. pose proof (bpow_pos E). nra.
    + assert (Mr : mr = 2 ^ prec) by lia.
      destruct (Z.leb_spec (E + 1) (emax - prec)) as [Le|Gt].
      * right.
        assert (Mpos : Zpos (Z.to_pos (2 ^ (prec - 1))) = 2 ^ (prec - 1))
          by (apply Z2Pos.id; lia).
        assert (V : (IZR (2 ^ (prec - 1)) * bpow (E + 1) = IZR mr * bpow E)%R).
        { rewrite Mr, P2, mult_IZR, bpow_succ. ring. }
        split.
        -- right. exists (Z.to_pos (2 ^ (prec - 1))), (E + 1). split; [reflexivity|].
           split; [|split; [rewrite Mpos; exact V|lia]].
           apply bounded_intro; rewrite ?Mpos; try lia.
        -- cbn [SF2R]. rewrite Mpos. fold (bpow (E + 1)).
           rewrite Rmult_assoc, V. reflexivity.
      * left. split; [reflexivity|]. split; [lia|].
        apply Rle_trans with (bpow (prec + E)).
        -- apply bpow_le. lia.
        -- rewrite bpow_add. rewrite <- IZR_pow2 by lia. rewrite Mr.
           pose proof (bpow_pos E).
           assert (0 < IZR (2 ^ prec))%R by (apply IZR_lt; lia). nra.
Qed.

(** The value of a positive mantissa at an exponent, between two powers
    of two. *)
Lemma mantissa_bounds (m : positive) (e : Z) :
  (bpow (Zpos (digits2_pos m) + e - 1) <= IZR (Zpos m) * bpow e
   < bpow (Zpos (digits2_pos m) + e))%R.
Proof.
  pose proof (digits2_pos_bounds m) as (L & U).
  pose proof (Pos2Z.is_pos (digits2_pos m)).
  set (d := Zpos (digits2_pos m)) in *.
  replace (d + e - 1) with (d - 1 + e) by lia.
  rewrite !bpow_add. rewrite <- (IZR_pow2 (d - 1)), <- (IZR_pow2 d) by lia.
  apply IZR_le in L. apply IZR_lt in U. pose proof (bpow_pos e). nra.
Qed.

(** [binary_round] on a positive mantissa, in terms of the real it
    rounds. *)
Lemma binary_round_real (sx : bool) (mx : positive) (ex : Z) :
  let x := (IZR (Zpos mx) * bpow ex)%R in
  let E := fexp prec emax (Zpos (digits2_pos mx) + ex) in
  (bpow (Zpos (digits2_pos mx) + ex - 1) <= x < bpow (Zpos (digits2_pos mx) + ex))%R /\
  exists mr : Z,
    0 <= mr <= 2 ^ prec /\
    (Rabs (IZR mr * bpow E - x) <= bpow E / 2)%R /\
    (E = emin prec emax \/ 2 ^ (prec - 1) <= mr) /\
    binary_round prec emax sx mx ex = round_result prec emax sx mr E.
Proof.
  intros x E. split; [apply mantissa_bounds|].
  destruct (binary_round_spec sx mx ex)
    as (mz & ez & mr & A1 & A2 & A3 & A4 & A5 & A6 & A7 & A8 & A9 & A10 & A11).
  fold E in A2, A7, A8, A9, A10, A11.
  exists mr. split; [exact A6|]. split; [|split; [exact A10|exact A11]].
  assert (X : x = (IZR mz * bpow ez)%R).
  { unfold x. rewrite A4, mult_IZR, IZR_pow2 by lia.
    rewrite Rmult_assoc, <- bpow_add. do 2 f_equal. lia. }
  rewrite X. rewrite IZR_pow2 in A8 by lia.
  replace (IZR mr * bpow E - IZR mz * bpow ez)%R
    with ((IZR mr - IZR mz / bpow (E - ez)) * bpow E)%R.
  - rewrite Rabs_mult, (Rabs_pos_eq (bpow E)) by (apply Rlt_le, bpow_pos).
    pose proof (bpow_pos E). nra.
  - assert (BE : bpow E = (bpow (E - ez) * bpow ez)%R)
      by (rewrite <- bpow_add; f_equal; lia).
    rewrite BE. field. apply Rgt_not_eq, bpow_pos.
Qed.

End Rounding.

Lemma Rabs_le_bounds (x a : R) : (Rabs x <= a)%R -> (- a <= x <= a)%R.
Proof. unfold Rabs. destruct (Rcase_abs x); lra. Qed.

Section Weights.
  Variables prec emax : Z.
  Hypothesis Hprec : 1 < prec.
  Hypothesis Hemax : prec < emax.

Abbreviation wok := (weight_ok prec emax).
Abbreviation wval := (weight_val emax).

Lemma finite_weight_bounds (m : positive) (e : Z) :
  bounded prec emax m e = true ->
  (bpow (emin prec emax) <= IZR (Zpos m) * bpow e)%R /\
  (IZR (Zpos m) * bpow e + bpow e <= bpow emax)%R /\
  (bpow (emin prec emax) <= bpow e)%R.
Proof.
  intros B. destruct (bounded_digits prec emax Hprec m e B) as ((E1 & E2) & M & N).
  pose proof (bpow_pos e) as Pe. pose proof (bpow_le _ _ E1) as Le.
  assert (M1 : (1 <= IZR (Zpos m))%R) by (apply IZR_le; lia).
  split; [nra|]. split; [|exact Le].
  apply Rle_trans with (bpow prec * bpow e)%R.
  - rewrite <- (IZR_pow2 prec) by lia.
    assert (IZR (Zpos m) + 1 <= IZR (2 ^ prec))%R
      by (rewrite <- plus_IZR; apply IZR_le; lia).
    nra.
  - rewrite <- bpow_add. apply bpow_le. lia.
Qed.

Lemma weight_val_range (x : spec_float) :
  wok x -> (0 <= wval x <= bpow emax)%R.
Proof.
  destruct x as [s|s| |s m e]; cbn [weight_ok weight_val SF2R].
  - intros _. pose proof (bpow_pos emax). lra.
  - intros _. pose proof (bpow_pos emax). lra.
  - intros [].
  - intros (-> & B). destruct (finite_weight_bounds m e B) as (A1 & A2 & A3).
    fold (bpow e). pose proof (bpow_pos e). pose proof (bpow_pos (emin prec emax)). lra.
Qed.

(** Between two valid positive floats the exponents decide first. *)
Lemma bounded_exponent_lt (m1 m2 : positive) (e1 e2 : Z) :
  bounded prec emax m1 e1 = true -> bounded prec emax m2 e2 = true ->
  e1 < e2 -> (IZR (Zpos m1) * bpow e1 < IZR (Zpos m2) * bpow e2)%R.
Proof.
  intros B1 B2 L.
  destruct (bounded_digits prec emax Hprec m1 e1 B1) as ((E1 & E2) & M1 & N1).
  destruct (bounded_digits prec emax Hprec m2 e2 B2) as ((F1 & F2) & M2 & N2).
  destruct N2 as [N2|N2]; [lia|].
  apply Rlt_le_trans with (bpow (prec + e1)).
  - rewrite bpow_add, <- (IZR_pow2 prec) by lia. apply IZR_lt in M1.
    pose proof (bpow_pos e1). nra.
  - apply Rle_trans with (bpow (prec - 1 + e2)); [apply bpow_le; lia|].
    rewrite bpow_add, <- (IZR_pow2 (prec - 1)) by lia. apply IZR_le in N2.
    pose proof (bpow_pos e2). nra.
Qed.

(** The comparison of the floats is the comparison of the values. *)
Lemma SFltb_weights (x y : spec_float) :
  wok x -> wok y -> (SFltb x y = true <-> (wval x < wval y)%R).
Proof.
  intros Hx Hy. pose proof (bpow_pos emax) as Pmax.
  destruct x as [sx|sx| |sx mx ex], y as [sy|sy| |sy my ey];
    cbn [weight_ok] in Hx, Hy; try contradiction;
    try (destruct Hx as (-> & Bx)); try (destruct Hy as (-> & By)); subst;
    unfold SFltb; cbn [SFcompare weight_val SF2R].
  - split; [discriminate|lra].
  - split; [lra|reflexivity].
  - destruct (finite_weight_bounds my ey By) as (A1 & _).
    fold (bpow ey). pose proof (bpow_pos (emin prec emax)).
    split; [lra|reflexivity].
  - split; [discriminate|lra].
  - split; [discriminate|lra].
  - destruct (finite_weight_bounds my ey By) as (_ & A2 & _).
    fold (bpow ey). pose proof (bpow_pos ey). split; [discriminate|lra].
  - destruct (finite_weight_bounds mx ex Bx) as (A1 & _).
    fold (bpow ex). pose proof (bpow_pos (emin prec emax)).
    split; [discriminate|lra].
  - destruct (finite_weight_bounds mx ex Bx) as (_ & A2 & _).
    fold (bpow ex). pose proof (bpow_pos ex). split; [lra|reflexivity].
  - fold (bpow ex) (bpow ey).
    destruct (Z.compare_spec ex ey) as [E|L|G].
    + subst ey. change (Pos.compare_cont Eq mx my) with (Pos.compare mx my).
      pose proof (bpow_pos ex).
      destruct (Pos.compare_spec mx my) as [E|L|G].
      * subst. split; [discriminate|lra].
      * assert (IZR (Zpos mx) < IZR (Zpos my))%R by (apply IZR_lt; lia).
        split; [nra|reflexivity].
      * assert (IZR (Zpos my) < IZR (Zpos mx))%R by (apply IZR_lt; lia).
        split; [discriminate|nra].
    + pose proof (bounded_exponent_lt _ _ _ _ Bx By L). split; [lra|reflexivity].
    + pose proof (bounded_exponent_lt _ _ _ _ By Bx ltac:(lia)).
      split; [discriminate|lra].
Qed.

(** A rounded value is not below a float that the rounded real is not
    below. *)
Lemma round_ge (x : R) (mr E mf ef : Z) :
  (Rabs (IZR mr * bpow E - x) <= bpow E / 2)%R ->
  (E = emin prec emax \/ 2 ^ (prec - 1) <= mr) ->
  0 < mf <= 2 ^ prec -> emin prec emax <= ef ->
  (IZR mf * bpow ef <= x)%R ->
  (IZR mf * bpow ef <= IZR mr * bpow E)%R.
Proof.
  intros Hr Hn Hm He Hx. pose proof (bpow_pos E) as PE.
  apply Rabs_le_bounds in Hr.
  destruct (Z_le_gt_dec E ef) as [C|C].
  - assert (V : (IZR mf * bpow ef = IZR (mf * 2 ^ (ef - E)) * bpow E)%R).
    { rewrite mult_IZR, IZR_pow2 by lia. rewrite Rmult_assoc, <- bpow_add.
      do 2 f_equal. lia. }
    rewrite V in *. set (k := mf * 2 ^ (ef - E)) in *.
    assert (L : (IZR k - 1 < IZR mr)%R) by nra.
    rewrite <- minus_IZR in L. apply lt_IZR in L.
    assert (IZR k <= IZR mr)%R by (apply IZR_le; lia). nra.
  - destruct Hn as [Hn|Hn]; [lia|].
    apply Rle_trans with (bpow (prec + ef)).
    + rewrite bpow_add, <- (IZR_pow2 prec) by lia.
      assert (IZR mf <= IZR (2 ^ prec))%R by (apply IZR_le; lia).
      pose proof (bpow_pos ef). nra.
    + apply Rle_trans with (bpow (prec - 1 + E)); [apply bpow_le; lia|].
      rewrite bpow_add, <- (IZR_pow2 (prec - 1)) by lia. apply IZR_le in Hn. nra.
Qed.

(** The sum of two positive floats, as the rounding of the real sum. *)
Lemma SFadd_finite_pos (m1 m2 : positive) (e1 e2 : Z) :
  let x := (IZR (Zpos m1) * bpow e1 + IZR (Zpos m2) * bpow e2)%R in
  exists mr E mag : Z,
    (bpow (mag - 1) <= x < bpow mag)%R /\ E = fexp prec emax mag /\
    emin prec emax <= E /\ 0 <= mr <= 2 ^ prec /\
    (Rabs (IZR mr * bpow E - x) <= bpow E / 2)%R /\
    (E = emin prec emax \/ 2 ^ (prec - 1) <= mr) /\
    SFadd prec emax (S754_finite false m1 e1) (S754_finite false m2 e2)
    = round_result prec emax false mr E.
Proof.
  intros x. cbn [SFadd cond_Zopp].
  set (ez := Z.min e1 e2).
  pose proof (shl_align_spec m1 e1 ez) as A. pose proof (shl_align_spec m2 e2 ez) as B.
  destruct (shl_align m1 e1 ez) as [M1 z1]. destruct (shl_align m2 e2 ez) as [M2 z2].
  destruct A as (_ & _ & A3 & A4 & _). destruct B as (_ & _ & B3 & B4 & _).
  specialize (A3 ltac:(unfold ez; lia)). specialize (B3 ltac:(unfold ez; lia)).
  subst z1 z2. cbn [fst].
  change (Zpos M1 + Zpos M2) with (Zpos (M1 + M2)). cbn [binary_normalize].
  destruct (binary_round_real prec emax Hprec false (M1 + M2) ez)
    as (R0 & mr & R1 & R2 & R3 & R4).
  assert (X : (IZR (Zpos (M1 + M2)) * bpow ez)%R = x).
  2:{ rewrite X in R0, R2.
      exists mr, (fexp prec emax (Zpos (digits2_pos (M1 + M2)) + ez)),
             (Zpos (digits2_pos (M1 + M2)) + ez).
      split; [exact R0|]. split; [reflexivity|].
      split; [apply fexp_ge_emin|]. split; [exact R1|].
      split; [exact R2|split; [exact R3|exact R4]]. }
  unfold x. rewrite Pos2Z.inj_add, plus_IZR, A4, B4, !mult_IZR.
  rewrite !IZR_pow2 by (unfold ez; lia).
  rewrite Rmult_plus_distr_r, !Rmult_assoc, <- !bpow_add.
  replace (e1 - ez + ez) with e1 by lia. replace (e2 - ez + ez) with e2 by lia.
  reflexivity.
Qed.

(** Adding a weight to a weight gives a weight that is not smaller. *)
Lemma SFadd_weights (w x : spec_float) :
  wok w -> wok x ->
  wok (SFadd prec emax w x) /\ (wval w <= wval (SFadd prec emax w x))%R.
Proof.
  intros Hw Hx. pose proof (weight_val_range w Hw) as Rw.
  pose proof (weight_val_range x Hx) as Rx.
  destruct w as [sw|sw| |sw mw ew], x as [sx|sx| |sx mx ex];
    cbn [weight_ok] in Hw, Hx; try contradiction;
    try (destruct Hw as (-> & Bw)); try (destruct Hx as (-> & Bx)); subst.
  - destruct sw, sx; cbn; split; (exact I || lra).
  - cbn in *. split; [reflexivity|lra].
  - cbn [SFadd]. split; [cbn; auto|exact (proj1 Rx)].
  - cbn. split; [reflexivity|lra].
  - cbn. split; [reflexivity|lra].
  - cbn [SFadd]. split; [reflexivity|cbn [weight_val]; lra].
  - cbn [SFadd]. split; [cbn; auto|lra].
  - cbn [SFadd]. split; [reflexivity|exact (proj2 Rw)].
  - destruct (SFadd_finite_pos mw mx ew ex)
      as (mr & E & mag & _ & _ & E0 & R1 & R2 & R3 & R4).
    rewrite R4.
    destruct (bounded_digits prec emax Hprec mw ew Bw) as ((W1 & W2) & W3 & W4).
    assert (Px : (0 < IZR (Zpos mx) * bpow ex)%R).
    { apply Rmult_lt_0_compat; [apply IZR_lt; lia|apply bpow_pos]. }
    pose proof (round_ge _ mr E (Zpos mw) ew R2 R3 ltac:(lia) W1 ltac:(lra)) as G.
    destruct (round_result_cases prec emax Hprec Hemax false mr E R1 E0 R3)
      as [(I1 & I2 & I3)|(C & V)].
    + rewrite I1. split; [reflexivity|exact (proj2 Rw)].
    + split.
      * destruct C as [(C1 & C2)|(m & e & C1 & C2 & C3)]; rewrite C1; cbn; auto.
      * assert (NI : forall s, round_result prec emax false mr E <> S754_infinity s).
        { intros s. destruct C as [(C1 & C2)|(m & e & C1 & C2 & C3)]; rewrite C1;
            discriminate. }
        assert (WV : wval (round_result prec emax false mr E)
                     = SF2R (round_result prec emax false mr E)).
        { destruct (round_result prec emax false mr E); try reflexivity.
          exfalso. apply (NI s). reflexivity. }
        rewrite WV, V. cbn [weight_val SF2R]. fold (bpow ew). lra.
Qed.

(** Adding [x] moves a weight below [2^(j + prec)] up by one unit of the
    format at least, when [x] is at least [2^j]. *)
Lemma SFadd_progress (w x : spec_float) (j : Z) (t : R) :
  wok w -> wok x ->
  (wval w < t)%R -> (t <= bpow (j + prec))%R -> (t <= bpow emax)%R ->
  (bpow j <= wval x)%R ->
  (wval w + bpow (emin prec emax) <= wval (SFadd prec emax w x))%R.
Proof.
  intros Hw Hx Lt Tj Tm Jx. pose proof (weight_val_range w Hw) as Rw.
  pose proof (weight_val_range x Hx) as Rx.
  pose proof (bpow_pos j) as Pj. pose proof (bpow_pos (emin prec emax)) as Pmin.
  assert (Emin : (bpow (emin prec emax) <= bpow emax)%R).
  { apply bpow_le. pose proof (emin_neg prec emax Hprec Hemax). lia. }
  destruct w as [sw|sw| |sw mw ew], x as [sx|sx| |sx mx ex];
    cbn [weight_ok] in Hw, Hx; try contradiction;
    try (destruct Hw as (-> & Bw)); try (destruct Hx as (-> & Bx)); subst;
    try (cbn [weight_val SF2R] in Jx, Lt; lra).
  - cbn [SFadd weight_val SF2R]. lra.
  - cbn [SFadd]. destruct (finite_weight_bounds mx ex Bx) as (A1 & _).
    cbn [weight_val SF2R]. fold (bpow ex). lra.
  - cbn [SFadd]. destruct (finite_weight_bounds mw ew Bw) as (_ & A2 & A3).
    cbn [weight_val SF2R]. fold (bpow ew). lra.
  - destruct (SFadd_finite_pos mw mx ew ex)
      as (mr & E & mag & _ & _ & E0 & R1 & R2 & R3 & R4).
    rewrite R4.
    destruct (bounded_digits prec emax Hprec mw ew Bw) as ((W1 & W2) & W3 & W4).
    destruct (finite_weight_bounds mw ew Bw) as (A1 & A2 & A3).
    destruct (finite_weight_bounds mx ex Bx) as (X1 & X2 & X3).
    cbn [weight_val SF2R] in Lt, Jx |- *. fold (bpow ew) (bpow ex) in *.
    replace (1 * IZR (Zpos mw) * bpow ew)%R with (IZR (Zpos mw) * bpow ew)%R in * by ring.
    replace (1 * IZR (Zpos mx) * bpow ex)%R with (IZR (Zpos mx) * bpow ex)%R in * by ring.
    assert (Step : (bpow ew <= IZR (Zpos mx) * bpow ex)%R).
    { destruct W4 as [W4|W4]; [rewrite W4; exact X1|].
      apply Rle_trans with (bpow j); [|exact Jx]. apply bpow_le.
      assert (L : (bpow (prec - 1 + ew) < bpow (j + prec))%R).
      { apply Rle_lt_trans with (IZR (Zpos mw) * bpow ew)%R; [|lra].
        rewrite bpow_add, <- (IZR_pow2 (prec - 1)) by lia. apply IZR_le in W4.
        pose proof (bpow_pos ew). nra. }
      apply bpow_lt_inv in L. lia. }
    assert (G : (IZR (Zpos mw + 1) * bpow ew <= IZR mr * bpow E)%R).
    { apply (round_ge _ mr E (Zpos mw + 1) ew R2 R3); [lia|exact W1|].
      rewrite plus_IZR. lra. }
    rewrite plus_IZR in G.
    destruct (round_result_cases prec emax Hprec Hemax false mr E R1 E0 R3)
      as [(I1 & I2 & I3)|(C & V)].
    + rewrite I1. cbn [weight_val]. lra.
    + assert (NI : forall s, round_result prec emax false mr E <> S754_infinity s).
      { intros s. destruct C as [(C1 & C2)|(m & e & C1 & C2 & C3)]; rewrite C1;
          discriminate. }
      assert (WV : wval (round_result prec emax false mr E)
                   = SF2R (round_result prec emax false mr E)).
      { destruct (round_result prec emax false mr E); try reflexivity.
        exfalso. apply (NI s). reflexivity. }
      rewrite WV, V. lra.
Qed.

(** The square of a valid float that is no NaN is a weight. *)
Lemma SFmul_square_weight (c : spec_float) :
  valid_binary prec emax c = true -> c <> S754_nan ->
  wok (SFmul prec emax c c).
Proof.
  intros V N. destruct c as [s|s| |s m e]; [| |contradiction|].
  - cbn. exact I.
  - cbn. now destruct s.
  - cbn [valid_binary] in V. cbn [SFmul].
    replace (xorb s s) with false by (now destruct s).
    destruct (bounded_digits prec emax Hprec m e V) as ((E1 & E2) & M & Nm).
    pose proof (digits2_pos_bounds m) as (DL & DU).
    pose proof (digits2_pos_bounds (m * m)) as (QL & QU).
    pose proof (Pos2Z.is_pos (digits2_pos m)) as Dp.
    pose proof (Pos2Z.is_pos (digits2_pos (m * m))) as Qp.
    set (d := Zpos (digits2_pos m)) in *. set (q := Zpos (digits2_pos (m * m))) in *.
    assert (Al : e + e <= fexp prec emax (Zdigits2 (Zpos (m * m)) + (e + e))).
    { cbn [Zdigits2]. fold q. unfold fexp.
      destruct Nm as [Nm|Nm].
      - pose proof (emin_neg prec emax Hprec Hemax). lia.
      - assert (2 * prec - 1 <= q).
        { destruct (Z_lt_le_dec q (2 * prec - 1)) as [C|C]; [|lia].
          assert (2 ^ q <= 2 ^ (2 * prec - 2)) by (apply Z.pow_le_mono_r; lia).
          replace (2 * prec - 2) with (prec - 1 + (prec - 1)) in H by lia.
          rewrite Z.pow_add_r in H by lia. rewrite Pos2Z.inj_mul in QU. nia. }
        lia. }
    destruct (binary_round_aux_spec prec emax Hprec (IZR (Zpos (m * m))) false
                (Zpos (m * m)) (e + e) loc_Exact ltac:(lia) eq_refl Al)
      as (mr & B1 & _ & _ & _ & _ & B6 & B7).
    rewrite B7.
    destruct (round_result_cases prec emax Hprec Hemax false mr _ B1
                (fexp_ge_emin prec emax _) B6)
      as [(I1 & _)|([(C1 & _)|(m' & e' & C1 & C2 & _)] & _)]; rewrite ?I1, ?C1; cbn; auto.
Qed.

End Weights.
(** ** The main loop in binary32 *)

(** The laws of the weights hold of the binary32 floats that are valid,
    not negative and no NaN. *)
Lemma weight_laws_f32 :
  @weight_laws F32.arith (weight_ok 24 128) (weight_val 128).
Proof.
  split.
  - exact I.
  - intros x y. apply (SFltb_weights 24 128); lia.
  - intros w x. apply (SFadd_weights 24 128); lia.
Qed.

(** A zero or a NaN. *)
Lemma SFsub_self_zn (x : spec_float) :
  F32.is_zero (SFsub 24 128 x x) || F32.is_nan (SFsub 24 128 x x) = true.
Proof.
  destruct x as [s|s| |s m e]; try (destruct s; reflexivity); [reflexivity|].
  unfold SFsub. rewrite Z.min_id, Z.sub_diag. reflexivity.
Qed.

Lemma SFmul_zn (x y : spec_float) :
  F32.is_zero x || F32.is_nan x = true -> F32.is_zero y || F32.is_nan y = true ->
  F32.is_zero (SFmul 24 128 x y) || F32.is_nan (SFmul 24 128 x y) = true.
Proof. destruct x, y; try discriminate; reflexivity. Qed.

Lemma SFadd_zn (x y : spec_float) :
  F32.is_zero x || F32.is_nan x = true -> F32.is_zero y || F32.is_nan y = true ->
  F32.is_zero (SFadd 24 128 x y) || F32.is_nan (SFadd 24 128 x y) = true.
Proof.
  destruct x as [[]| | |], y as [[]| | |]; try discriminate; reflexivity.
Qed.

Lemma SFdiv_zn (x y : spec_float) :
  F32.is_zero x || F32.is_nan x = true ->
  F32.is_zero (SFdiv 24 128 x y) || F32.is_nan (SFdiv 24 128 x y) = true.
Proof. destruct x, y; try discriminate; reflexivity. Qed.

(** In binary32 BilateralWeight calls fastexp on a zero or on a NaN at
    the centre of the patch, whatever the patch and the parameters. *)
Lemma bilateral_x_centre_f32 (g : Image spec_float) (r : Z)
    (gamma_r_sigma2 sigma_s2 : spec_float) :
  let x := @bilateral_x F32.arith g r gamma_r_sigma2 sigma_s2 r r in
  F32.is_zero (SFopp x) || F32.is_nan (SFopp x) = true.
Proof.
  intros x. assert (Hx : F32.is_zero x || F32.is_nan x = true).
  { subst x. unfold bilateral_x. cbv zeta.
    change (@fadd F32.arith) with (SFadd 24 128).
    change (@fdiv F32.arith) with (SFdiv 24 128).
    apply SFadd_zn.
    - apply SFdiv_zn.
      destruct (Z.le_gt_cases (channels g) 0) as [Hc|Hc].
      + rewrite for_loop_le0 by exact Hc. reflexivity.
      + match goal with
        | |- context [for_loop ?n ?bd ?i] =>
            apply (for_loop_inv (fun _ x => F32.is_zero x || F32.is_nan x = true) n bd i)
        end; [apply Z.lt_le_incl, Hc|reflexivity|].
        intros chan x0 Hchan Hz.
        change (@fadd F32.arith) with (SFadd 24 128).
        change (@fmul F32.arith) with (SFmul 24 128).
        change (@fsub F32.arith) with (SFsub 24 128).
        apply SFadd_zn; [exact Hz|]. apply SFmul_zn; apply SFsub_self_zn.
    - apply SFdiv_zn. unfold int_sub. rewrite Z.sub_diag. reflexivity. }
  destruct x; try discriminate; reflexivity.
Qed.
(** ** Binary32 weights that stop growing *)

Lemma of_int32_1 : F32.of_int32 1 = S754_finite false 8388608 (-23).
Proof. reflexivity. Qed.

Lemma one_weight :
  weight_ok 24 128 (F32.of_int32 1) /\ weight_val 128 (F32.of_int32 1) = 1%R.
Proof.
  rewrite of_int32_1. split; [split; reflexivity|].
  cbn [weight_val SF2R]. fold (bpow (-23)).
  change (-23) with (- (23)). rewrite bpow_opp, (bpow_IZR 23) by lia.
  change (2 ^ 23) with 8388608. field.
Qed.

(** The only valid float of value 2^24. *)
Lemma bounded_2_24 (m : positive) (e : Z) :
  bounded 24 128 m e = true -> (IZR (Zpos m) * bpow e)%R = IZR (2 ^ 24) ->
  m = 8388608%positive /\ e = 1.
Proof.
  intros B V. assert (P24 : 1 < 24) by lia.
  destruct (bounded_digits 24 128 P24 m e B) as ((E1 & E2) & M & N).
  pose proof (bpow_pos e) as Pe.
  rewrite (IZR_pow2 24) in V by lia.
  assert (Ee : e = 1).
  { destruct N as [N|N].
    - exfalso. assert (L : (IZR (Zpos m) * bpow e < bpow 24)%R).
      { apply Rlt_le_trans with (bpow 24 * bpow e)%R.
        - rewrite <- (IZR_pow2 24) by lia. apply IZR_lt in M. nra.
        - rewrite <- bpow_add. apply bpow_le. rewrite N. unfold emin. lia. }
      lra.
    - assert (L1 : (bpow (23 + e) <= bpow 24)%R).
      { rewrite <- V, bpow_add, <- (IZR_pow2 23) by lia.
        apply IZR_le in N. change (24 - 1) with 23 in N. nra. }
      assert (L2 : (bpow 24 < bpow (24 + e))%R).
      { rewrite <- V, bpow_add, <- (IZR_pow2 24) by lia. apply IZR_lt in M. nra. }
      apply bpow_le_inv in L1. apply bpow_lt_inv in L2. lia. }
  subst e. split; [|reflexivity].
  rewrite bpow_1, <- (IZR_pow2 24) in V by lia.
  assert (V' : IZR (Zpos m * 2) = IZR (2 ^ 24)) by (rewrite mult_IZR; exact V).
  apply eq_IZR in V'. change (2 ^ 24) with 16777216 in V'. lia.
Qed.

(** Adding 1 to a whole weight of at most 2^24 gives one again: up to
    2^24 - 1 the sum is exact, and 2^24 + 1 rounds back to 2^24. *)
Lemma weight_capped_step (x : spec_float) :
  weight_capped x -> weight_capped (SFadd 24 128 x (F32.of_int32 1)).
Proof.
  intros (Hx & n & Hn & Vx). assert (P24 : 1 < 24) by lia.
  assert (E128 : 24 < 128) by lia.
  destruct one_weight as (O1 & O2).
  destruct x as [s|s| |s m e]; cbn [weight_ok] in Hx; try contradiction.
  - (* zero *)
    replace (SFadd 24 128 (S754_zero s) (F32.of_int32 1)) with (F32.of_int32 1)
      by (now destruct s).
    split; [exact O1|]. exists 1. split; [lia|exact O2].
  - (* infinity *)
    exfalso. subst s. cbn [weight_val] in Vx.
    assert (L : (bpow 24 < bpow 128)%R) by (apply bpow_lt; lia).
    rewrite <- (IZR_pow2 24) in L by lia.
    assert (IZR n <= IZR (2 ^ 24))%R by (apply IZR_le; lia). lra.
  - destruct Hx as (-> & B).
    cbn [weight_val SF2R] in Vx. fold (bpow e) in Vx.
    replace (1 * IZR (Zpos m) * bpow e)%R with (IZR (Zpos m) * bpow e)%R in Vx by ring.
    destruct (Z.eq_dec n (2 ^ 24)) as [Top|NTop].
    + (* the weight is 2^24 *)
      rewrite Top in Vx. destruct (bounded_2_24 m e B Vx) as (-> & ->).
      change (SFadd 24 128 (S754_finite false 8388608 1) (F32.of_int32 1))
        with (S754_finite false 8388608 1).
      split; [split; reflexivity|]. exists (2 ^ 24). split; [lia|].
      cbn [weight_val SF2R]. fold (bpow 1). rewrite bpow_1.
      change (2 ^ 24) with 16777216. lra.
    + rewrite of_int32_1.
      destruct (SFadd_finite_pos 24 128 P24 m 8388608 e (-23))
        as (mr & E & mag & M1 & M2 & E0 & R1 & R2 & R3 & R4).
      rewrite R4. pose proof O2 as O3. rewrite of_int32_1 in O3.
      cbn [weight_val SF2R] in O3. fold (bpow (-23)) in O3.
      replace (1 * IZR 8388608 * bpow (-23))%R with (IZR 8388608 * bpow (-23))%R
        in O3 by ring.
      rewrite Vx, O3 in M1, R2. rewrite <- plus_IZR in M1, R2.
      assert (Hn1 : 1 <= n + 1 <= 2 ^ 24) by lia.
      assert (Emag : mag <= 25).
      { assert (L : (bpow (mag - 1) <= bpow 24)%R).
        { rewrite <- (IZR_pow2 24) by lia.
          apply Rle_trans with (IZR (n + 1)); [apply M1|apply IZR_le; lia]. }
        apply bpow_le_inv in L. lia. }
      assert (Exact : exists k : Z, IZR (n + 1) = (IZR k * bpow E)%R).
      { destruct (Z_le_gt_dec E 0) as [C|C].
        - exists ((n + 1) * 2 ^ (- E)). rewrite mult_IZR, IZR_pow2 by lia.
          rewrite Rmult_assoc, <- bpow_add. replace (- E + E) with 0 by lia.
          rewrite bpow_0. ring.
        - assert (E1 : E = 1) by (unfold fexp, emin in M2; lia).
          assert (mag = 25) by (unfold fexp, emin in M2; lia). subst mag.
          assert (L : (bpow 24 <= IZR (n + 1))%R) by apply M1.
          rewrite <- (IZR_pow2 24) in L by lia. apply le_IZR in L.
          exists (2 ^ 23). rewrite E1, bpow_1, <- mult_IZR. f_equal.
          change (2 ^ 23 * 2) with (2 ^ 24). lia. }
      destruct Exact as (k & Hk).
      assert (Mk : mr = k).
      { rewrite Hk in R2. pose proof (bpow_pos E) as PE.
        replace (IZR mr * bpow E - IZR k * bpow E)%R
          with ((IZR mr - IZR k) * bpow E)%R in R2 by ring.
        rewrite Rabs_mult, (Rabs_pos_eq (bpow E)) in R2 by lra.
        assert (A : (Rabs (IZR mr - IZR k) <= / 2)%R) by nra.
        apply Rabs_le_bounds in A. rewrite <- minus_IZR in A.
        destruct A as (A1 & A2).
        assert (B1 : (IZR (-1) < IZR (mr - k))%R) by (cbn; lra).
        assert (B2 : (IZR (mr - k) < IZR 1)%R) by lra.
        apply lt_IZR in B1, B2. lia. }
      subst k.
      destruct (round_result_cases 24 128 P24 E128 false mr E R1 E0 R3)
        as [(I1 & I2 & I3)|(C & V)].
      * exfalso. unfold fexp, emin in M2. lia.
      * assert (NI : forall s, round_result 24 128 false mr E <> S754_infinity s).
        { intros s. destruct C as [(C1 & C2)|(m' & e' & C1 & C2 & C3)]; rewrite C1;
            discriminate. }
        split.
        -- destruct C as [(C1 & C2)|(m' & e' & C1 & C2 & C3)]; rewrite C1; cbn; auto.
        -- exists (n + 1). split; [lia|].
           assert (WV : weight_val 128 (round_result 24 128 false mr E)
                        = SF2R (round_result 24 128 false mr E)).
           { destruct (round_result 24 128 false mr E); try reflexivity.
             exfalso. apply (NI s). reflexivity. }
           rewrite WV, V, Hk. ring.
Qed.
(** ** A threshold that binary32 weights never reach *)

Section Stuck.
  Variables dft_forward dft_inverse : Z -> Z -> @cplane F32.arith -> @cplane F32.arith.
  Variable p : @BlockParams F32.arith.
  Variables noisy guide : Image spec_float.
  Hypothesis thr_ok : weight_ok 24 128 (p_threshold p).
  Hypothesis thr_big : (IZR (2 ^ 24) < weight_val 128 (p_threshold p))%R.

Abbreviation const_one := (fun _ : spec_float => F32.of_int32 1).
Abbreviation stuck_turn :=
  (@loop_step F32.arith const_one dft_forward dft_inverse p noisy guide).

(** With a fastexp that is 1 everywhere, a turn adds 1 to some weights
    and leaves the others: whole weights of at most 2^24 stay so, and the
    loop condition holds. *)
Lemma stuck_step (st : @BlockState F32.arith) :
  params_ok p -> head_ok p st ->
  @cells_ok F32.arith weight_capped (wm_grid (agg_weights st)) ->
  head_ok p (stuck_turn st) /\
  @cells_ok F32.arith weight_capped (wm_grid (agg_weights (stuck_turn st))) /\
  @fltb F32.arith (min_weight st) (p_threshold p) = true.
Proof.
  intros Hp Hh Hc.
  destruct (@loop_step_spec F32.arith const_one dft_forward dft_inverse p noisy guide
              st Hp Hh)
    as (Hh' & Hs & Hcell & mc & mr & g2 & Hin & Hv & _).
  split; [exact Hh'|]. split.
  - intros c r Hi.
    assert (Hi' : in_image (wm_grid (agg_weights st)) c r 0).
    { destruct Hs as (S1 & S2 & S3). unfold in_image in *.
      rewrite S1, S2, S3 in Hi. exact Hi. }
    destruct (Hcell c r Hi') as [E|(x & E)]; rewrite E; [apply Hc, Hi'|].
    change (@fmul F32.arith (F32.of_int32 1) (F32.of_int32 1)) with (F32.of_int32 1).
    apply weight_capped_step, Hc, Hi'.
  - rewrite <- Hv. destruct (Hc mc mr Hin) as (W & n & Hn & Vn).
    apply (SFltb_weights 24 128 ltac:(lia) _ _ W thr_ok).
    rewrite Vn. apply Rle_lt_trans with (IZR (2 ^ 24)); [apply IZR_le; lia|exact thr_big].
Qed.

Lemma main_loop_stuck (fuel : nat) : forall st : @BlockState F32.arith,
  params_ok p -> head_ok p st ->
  @cells_ok F32.arith weight_capped (wm_grid (agg_weights st)) ->
  @main_loop F32.arith const_one dft_forward dft_inverse p noisy guide fuel st = None.
Proof.
  induction fuel as [|fuel IH]; intros st Hp Hh Hc;
    destruct (stuck_step st Hp Hh Hc) as (Hh' & Hc' & L);
    rewrite main_loop_unfold, L; [reflexivity|].
  apply IH; assumption.
Qed.

End Stuck.

(** In binary32, with a fastexp that is 1 everywhere, DA3D_block never
    leaves its main loop when the threshold is above 2^24. *)
Lemma DA3D_block_stuck
    (dft_forward dft_inverse : Z -> Z -> @cplane F32.arith -> @cplane F32.arith)
    (noisy guide : Image spec_float) (sigma : spec_float) (r : Z)
    (sigma_s gamma_r gamma_f threshold : spec_float) (fuel : nat) :
  tile_ok r guide ->
  weight_ok 24 128 threshold -> (IZR (2 ^ 24) < weight_val 128 threshold)%R ->
  @DA3D_block F32.arith (fun _ => F32.of_int32 1) dft_forward dft_inverse fuel
              noisy guide sigma r sigma_s gamma_r gamma_f threshold = None.
Proof.
  intros (Hr & Hrows & Hcols) Hthr Hbig. unfold DA3D_block.
  destruct (@block_params_ok F32.arith sigma r sigma_s gamma_r gamma_f threshold Hr)
    as (Hp & Hs & Ht & Hpr).
  set (p := @block_params F32.arith sigma r sigma_s gamma_r gamma_f threshold) in *.
  destruct (@block_init_head_ok F32.arith (weight_ok 24 128) (weight_val 128)
              weight_laws_f32 p guide Hp) as (H0 & _).
  { rewrite Hs. exact Hrows. }
  { rewrite Hs. exact Hcols. }
  match goal with
  | |- match ?m with Some _ => _ | None => _ end = _ => assert (E : m = None)
  end; [|rewrite E; reflexivity].
  apply (main_loop_stuck dft_forward dft_inverse p noisy guide Hthr Hbig fuel _ Hp H0).
  intros c r' _. unfold block_init, WeightMap_new. cbn [agg_weights wm_grid].
  rewrite Image_new_val. split; [exact I|]. exists 0. split; [lia|reflexivity].
Qed.


